(** * MatrixCalculator: the reduction engine, the linear-system solver and
      the eigen routine (RREF.h, SolvingEquation.h, matrix.h, vector.h)

    The C++ classes are templates over a scalar type [T]; the program
    instantiates them at [double].  The embedding keeps the template
    parameter: every definition is generic over a [Scalar] instance, and the
    file provides two instances, IEEE binary64 ([double], the kernel's
    primitive floats) and the exact rationals ([Qc]).

    Exceptions are values of [exn] returned through the [result] monad.
    [int] sizes and indices are natural numbers: every index the code forms
    is between [-1] (a loop sentinel) and a dimension. *)

From Stdlib Require Import String ZArith QArith Qcanon Qcabs Floats.
From Stdlib Require Import List Bool Arith Lia.
Import ListNotations.
Local Open Scope nat_scope.

Set Implicit Arguments.
Set Warnings "-inexact-float".

(* ================================================================= *)
(** ** Exceptions and the result monad *)

Inductive exn : Type :=
| out_of_range (what : string)
| invalid_argument (what : string)
| logic_error (what : string).

Inductive result (A : Type) : Type :=
| Ok (a : A)
| Throw (e : exn).

Arguments Ok {A} a.
Arguments Throw {A} e.

Definition bind {A B : Type} (c : result A) (k : A -> result B) : result B :=
  match c with
  | Ok a => k a
  | Throw e => Throw e
  end.

Declare Scope result_scope.
Delimit Scope result_scope with result.
Notation "x <- c ;; k" := (bind c (fun x => k))
  (at level 61, c at next level, right associativity) : result_scope.
Notation "' p <- c ;; k" := (bind c (fun p => k))
  (at level 61, p pattern, c at next level, right associativity) : result_scope.
Open Scope result_scope.

(** [try { c } catch (...) { h }] *)
Definition try_catch {A : Type} (c : result A) (h : result A) : result A :=
  match c with
  | Ok a => Ok a
  | Throw _ => h
  end.

(** A loop whose body may throw: [for (i : l) s = body(s, i)].  The counted
    loop [for (int i = lo; i < hi; i++)] runs over [seq lo (hi - lo)], the
    descending loop [for (int i = hi - 1; i >= 0; i--)] over
    [rev (seq 0 hi)]. *)
Fixpoint foldM {S I : Type} (body : S -> I -> result S) (l : list I) (s : S)
  : result S :=
  match l with
  | [] => Ok s
  | i :: l' => s' <- body s i ;; foldM body l' s'
  end.

(** [for (int i = lo; cond(i, s); i++) s = body(i, s)], where [cond] implies
    [i < hi]: at most [fuel = hi - lo] iterations, and the loop is left as
    soon as [cond] is false. *)
Fixpoint for_while {S : Type} (fuel : nat) (i : nat) (cond : nat -> S -> bool)
  (body : nat -> S -> result S) (s : S) : result S :=
  match fuel with
  | O => Ok s
  | Datatypes.S fuel' =>
      if cond i s
      then s' <- body i s ;; for_while fuel' (Datatypes.S i) cond body s'
      else Ok s
  end.

(** [v[i] = x] on a [std::vector]; nothing is written out of range. *)
Fixpoint upd {A : Type} (i : nat) (x : A) (l : list A) : list A :=
  match l, i with
  | [], _ => []
  | _ :: l', O => x :: l'
  | y :: l', Datatypes.S i' => y :: upd i' x l'
  end.

(** [std::domain_error] is thrown by [determinant] alone.  The functions
    that call [determinant] end in an [outcome]: a value, one of the
    exceptions of [exn], or a domain error. *)
Inductive thrown : Type :=
| std_exn (e : exn)
| domain_error (what : string).

Inductive outcome (A : Type) : Type :=
| Done (a : A)
| Raised (e : thrown).

Arguments Done {A} a.
Arguments Raised {A} e.

Definition lift {A : Type} (c : result A) : outcome A :=
  match c with
  | Ok a => Done a
  | Throw e => Raised (std_exn e)
  end.

Definition obind {A B : Type} (c : outcome A) (k : A -> outcome B)
  : outcome B :=
  match c with
  | Done a => k a
  | Raised e => Raised e
  end.

Notation "x <-- c ;; k" := (obind c (fun x => k))
  (at level 61, c at next level, right associativity) : result_scope.

(* ================================================================= *)
(** ** The scalar type [T] of the templates *)

Class Scalar (T : Type) : Type := {
  s0 : T;                      (* T(), and the literal 0 converted to T *)
  s1 : T;                      (* the literal 1 converted to T *)
  sadd : T -> T -> T;
  ssub : T -> T -> T;
  smul : T -> T -> T;
  sdiv : T -> T -> T;
  sneg : T -> T;
  sabs : T -> T;               (* std::abs, std::fabs *)
  sltb : T -> T -> bool;       (* a < b; a > b is sltb b a *)
  is_floating_point : bool;    (* std::is_floating_point_v<T> *)
  tiny : T                     (* the literal 1e-9 *)
}.

(** [std::sqrt], needed by [Vector::norm] only. *)
Class ScalarSqrt (T : Type) : Type := {
  ssqrt : T -> T
}.

(** [double]: IEEE 754 binary64. *)
#[export] Instance double_Scalar : Scalar float := {
  s0 := 0%float;
  s1 := 1%float;
  sadd := PrimFloat.add;
  ssub := PrimFloat.sub;
  smul := PrimFloat.mul;
  sdiv := PrimFloat.div;
  sneg := PrimFloat.opp;
  sabs := PrimFloat.abs;
  sltb := PrimFloat.ltb;
  is_floating_point := true;
  tiny := 1e-9%float
}.

#[export] Instance double_ScalarSqrt : ScalarSqrt float := {
  ssqrt := PrimFloat.sqrt
}.

(** Exact rationals: [double] without rounding, the tolerance guards kept. *)
Definition Qc_ltb (x y : Qc) : bool := negb (Qle_bool y x).

#[export] Instance Qc_Scalar : Scalar Qc := {
  s0 := Q2Qc 0;
  s1 := Q2Qc 1;
  sadd := Qcplus;
  ssub := Qcminus;
  smul := Qcmult;
  sdiv := Qcdiv;
  sneg := Qcopp;
  sabs := Qcabs;
  sltb := Qc_ltb;
  is_floating_point := true;
  tiny := Q2Qc (1 # 1000000000)
}.

(* ================================================================= *)
(** ** vector.h *)

Module Vector.
Section Defs.
Context {T : Type} `{Scalar T}.

(** [Vector<T>] wraps a [std::vector<T>]. *)
Definition t : Type := list T.

(** [Vector(int n, T val)] *)
Definition make (n : nat) (val : T) : t := repeat val n.

Definition size (v : t) : nat := length v.

(** [data[i]], unchecked. *)
Definition raw (v : t) (i : nat) : T := nth i v s0.

(** [operator[]], which is [data.at(i)]. *)
Definition index (v : t) (i : nat) : result T :=
  if i <? size v then Ok (raw v i)
  else Throw (out_of_range "vector::at").

(** [operator*(T scalar)] *)
Definition scale (v : t) (scalar : T) : t :=
  fold_left (fun res i => upd i (smul (raw v i) scalar) res)
    (seq 0 (size v)) (repeat s0 (size v)).

(** [operator/(T scalar)] *)
Definition div (v : t) (scalar : T) : result t :=
  if sltb (sabs scalar) tiny
  then Throw (invalid_argument "Division by zero")
  else Ok (scale v (sdiv s1 scalar)).

(** [operator-=] *)
Definition sub_assign (v other : t) : result t :=
  if negb (size v =? size other)
  then Throw (invalid_argument "Vector size mismatch")
  else Ok (fold_left (fun d i => upd i (ssub (raw d i) (raw other i)) d)
             (seq 0 (size v)) v).

Definition dot (v other : t) : result T :=
  if negb (size v =? size other)
  then Throw (invalid_argument "Dot product size mismatch")
  else foldM (fun sum i => o <- index other i ;;
                           Ok (sadd sum (smul (raw v i) o)))
         (seq 0 (size v)) s0.

(** [operator+]; [other[i]] is the checked access. *)
Definition add (v other : t) : result t :=
  if negb (size v =? size other)
  then Throw (invalid_argument "Vector size mismatch")
  else foldM (fun res_vec i => o <- index other i ;;
                               Ok (upd i (sadd (raw v i) o) res_vec))
         (seq 0 (size v)) (repeat s0 (size v)).

(** [operator-] *)
Definition sub (v other : t) : result t :=
  if negb (size v =? size other)
  then Throw (invalid_argument "Vector size mismatch")
  else foldM (fun res_vec i => o <- index other i ;;
                               Ok (upd i (ssub (raw v i) o) res_vec))
         (seq 0 (size v)) (repeat s0 (size v)).

(** [operator+=] *)
Definition add_assign (v other : t) : result t :=
  if negb (size v =? size other)
  then Throw (invalid_argument "Vector size mismatch")
  else Ok (fold_left (fun d i => upd i (sadd (raw d i) (raw other i)) d)
             (seq 0 (size v)) v).

(** [operator*=(T scalar)] *)
Definition scale_assign (v : t) (scalar : T) : t :=
  map (fun el => smul el scalar) v.

(** [operator/=(T scalar)] *)
Definition div_assign (v : t) (scalar : T) : result t :=
  if sltb (sabs scalar) tiny
  then Throw (invalid_argument "Division by zero")
  else Ok (map (fun el => sdiv el scalar) v).

(** [isOrthogonalTo(other, eps = 1e-9)] *)
Definition isOrthogonalTo (v other : t) (eps : T) : result bool :=
  d <- dot v other ;; Ok (sltb (sabs d) eps).

Context `{ScalarSqrt T}.

Definition norm (v : t) : result T :=
  d <- dot v v ;; Ok (ssqrt d).

(** [normalized(T eps = 1e-9)] *)
Definition normalized (v : t) (eps : T) : result t :=
  n <- norm v ;;
  if sltb n eps
  then Throw (invalid_argument "Cannot normalize zero vector")
  else Ok (scale v (sdiv s1 n)).
End Defs.
End Vector.

(* ================================================================= *)
(** ** matrix.h *)

Module Matrix.
Section Defs.
Context {T : Type} `{Scalar T}.

Record t : Type := mk {
  rows : nat;
  cols : nat;
  data : list (list T)
}.

(** [Matrix(int r, int c)] *)
Definition make (r c : nat) : result t :=
  if (r =? 0) || (c =? 0)
  then Throw (invalid_argument "Matrix dimensions must be positive")
  else Ok (mk r c (repeat (repeat s0 c) r)).

(** [Matrix()] *)
Definition empty : t := mk 0 0 [].

(** [Matrix(const std::vector<std::vector<T>>& v)] *)
Definition of_rows (v : list (list T)) : result t :=
  match v with
  | [] => Throw (invalid_argument "Input vector must be non-empty")
  | [] :: _ => Throw (invalid_argument "Input vector must be non-empty")
  | r0 :: _ =>
      if forallb (fun row => length row =? length r0) v
      then Ok (mk (length v) (length r0) v)
      else Throw (invalid_argument "All rows must have the same length")
  end.

Definition getRows (m : t) : nat := rows m.
Definition getCols (m : t) : nat := cols m.

(** [data[r][c]], unchecked. *)
Definition raw (m : t) (r c : nat) : T := nth c (nth r (data m) []) s0.

(** [data[r][c] = v], unchecked. *)
Definition set_raw (m : t) (r c : nat) (v : T) : t :=
  mk (rows m) (cols m) (upd r (upd c v (nth r (data m) [])) (data m)).

(** [at(r, c)] read. *)
Definition at_ (m : t) (r c : nat) : result T :=
  if (rows m <=? r) || (cols m <=? c)
  then Throw (out_of_range "Matrix index out of bounds")
  else Ok (raw m r c).

(** [at(r, c) = v]. *)
Definition set_at (m : t) (r c : nat) (v : T) : result t :=
  if (rows m <=? r) || (cols m <=? c)
  then Throw (out_of_range "Matrix index out of bounds")
  else Ok (set_raw m r c v).

Definition identity (n : nat) : result t :=
  m <- make n n ;;
  foldM (fun m i => set_at m i i s1) (seq 0 n) m.

Definition exchangeRows (m : t) (r1 r2 : nat) : result t :=
  if (rows m <=? r1) || (rows m <=? r2)
  then Throw (out_of_range "Row index out of bounds")
  else Ok (mk (rows m) (cols m)
             (upd r2 (nth r1 (data m) [])
                (upd r1 (nth r2 (data m) []) (data m)))).

Definition scaleRow (m : t) (r : nat) (scalar : T) : result t :=
  if rows m <=? r
  then Throw (out_of_range "Row index out of bounds")
  else if is_floating_point && sltb (sabs scalar) tiny
  then Throw (invalid_argument "Scaling factor too small")
  else Ok (fold_left (fun m j => set_raw m r j (smul (raw m r j) scalar))
             (seq 0 (cols m)) m).

Definition addScaledRow (m : t) (targetRow sourceRow : nat) (scalar : T)
  : result t :=
  if (rows m <=? targetRow) || (rows m <=? sourceRow)
  then Throw (out_of_range "Row index out of bounds")
  else if is_floating_point && sltb (sabs scalar) tiny
  then Ok m
  else Ok (fold_left
             (fun m j => set_raw m targetRow j
                           (sadd (raw m targetRow j)
                                 (smul (raw m sourceRow j) scalar)))
             (seq 0 (cols m)) m).

Definition transpose (m : t) : result t :=
  res <- make (cols m) (rows m) ;;
  foldM (fun res col =>
           foldM (fun res row => set_at res col row (raw m row col))
             (seq 0 (rows m)) res)
    (seq 0 (cols m)) res.

(** [operator-(const Matrix&)] *)
Definition sub (m other : t) : result t :=
  if negb (rows m =? rows other) || negb (cols m =? cols other)
  then Throw (invalid_argument "Matrix dimensions must match for subtraction")
  else
    res <- make (rows m) (cols m) ;;
    foldM (fun res i =>
             foldM (fun res j =>
                      set_at res i j (ssub (raw m i j) (raw other i j)))
               (seq 0 (cols m)) res)
      (seq 0 (rows m)) res.

(** [operator*(const Matrix&)] *)
Definition mul (m other : t) : result t :=
  if negb (cols m =? rows other)
  then Throw (invalid_argument "Matrix dimensions must match for multiplication")
  else
    res <- make (rows m) (cols other) ;;
    foldM (fun res i =>
             foldM (fun res j =>
                      foldM (fun res k =>
                               x <- at_ res i j ;;
                               set_at res i j
                                 (sadd x (smul (raw m i k) (raw other k j))))
                        (seq 0 (cols m)) res)
               (seq 0 (cols other)) res)
      (seq 0 (rows m)) res.

(** [operator*(T scalar)] *)
Definition scale (m : t) (scalar : T) : result t :=
  res <- make (rows m) (cols m) ;;
  foldM (fun res i =>
           foldM (fun res j => set_at res i j (smul (raw m i j) scalar))
             (seq 0 (cols m)) res)
    (seq 0 (rows m)) res.

Definition getCol (m : t) (c : nat) : result (Vector.t (T:=T)) :=
  if cols m <=? c
  then Throw (out_of_range "Col index out of bounds")
  else Ok (fold_left (fun col i => upd i (raw m i c) col)
             (seq 0 (rows m)) (repeat s0 (rows m))).

Definition getRow (m : t) (r : nat) : result (Vector.t (T:=T)) :=
  if rows m <=? r
  then Throw (out_of_range "Row index out of bounds")
  else Ok (nth r (data m) []).

Definition augment (m other : t) : result t :=
  if negb (rows m =? rows other)
  then Throw (invalid_argument "Row count must match for augment")
  else
    res <- make (rows m) (cols m + cols other) ;;
    Ok (fold_left
          (fun res i =>
             let res1 :=
               fold_left (fun res j => set_raw res i j (raw m i j))
                 (seq 0 (cols m)) res in
             fold_left (fun res j => set_raw res i (cols m + j) (raw other i j))
               (seq 0 (cols other)) res1)
          (seq 0 (rows m)) res).

Definition isSquare (m : t) : bool := rows m =? cols m.

(** [zero(int n)] *)
Definition zero (n : nat) : result t := make n n.

(** [operator+(const Matrix&)] *)
Definition add (m other : t) : result t :=
  if negb (rows m =? rows other) || negb (cols m =? cols other)
  then Throw (invalid_argument "Matrix dimensions must match for addition")
  else
    res <- make (rows m) (cols m) ;;
    foldM (fun res i =>
             foldM (fun res j =>
                      set_at res i j (sadd (raw m i j) (raw other i j)))
               (seq 0 (cols m)) res)
      (seq 0 (rows m)) res.

(** [operator/(T scalar)] *)
Definition div (m : t) (scalar : T) : result t :=
  if sltb (sabs scalar) tiny
  then Throw (invalid_argument "Scalar cannot be zero")
  else
    res <- make (rows m) (cols m) ;;
    foldM (fun res i =>
             foldM (fun res j => set_at res i j (sdiv (raw m i j) scalar))
               (seq 0 (cols m)) res)
      (seq 0 (rows m)) res.

(** [operator-()] *)
Definition neg (m : t) : result t :=
  res <- make (rows m) (cols m) ;;
  foldM (fun res i =>
           foldM (fun res j => set_at res i j (sneg (raw m i j)))
             (seq 0 (cols m)) res)
    (seq 0 (rows m)) res.

(** The in-place loops of the compound assignments:
    [data[i][j] = g(data[i][j], i, j)], unchecked. *)
Definition in_place (m : t) (g : T -> nat -> nat -> T) : t :=
  let r := rows m in
  let c := cols m in
  fold_left (fun m i =>
               fold_left (fun m j => set_raw m i j (g (raw m i j) i j))
                 (seq 0 c) m)
    (seq 0 r) m.

(** [operator+=(const Matrix&)] *)
Definition add_assign (m other : t) : result t :=
  if negb (rows m =? rows other) || negb (cols m =? cols other)
  then Throw (invalid_argument "Matrix dimensions must match for addition")
  else Ok (in_place m (fun x i j => sadd x (raw other i j))).

(** [operator-=(const Matrix&)] *)
Definition sub_assign (m other : t) : result t :=
  if negb (rows m =? rows other) || negb (cols m =? cols other)
  then Throw (invalid_argument "Matrix dimensions must match for subtraction")
  else Ok (in_place m (fun x i j => ssub x (raw other i j))).

(** [operator*=(const Matrix&)]: the product replaces the matrix. *)
Definition mul_assign (m other : t) : result t := mul m other.

(** [operator*=(T scalar)] *)
Definition scale_assign (m : t) (scalar : T) : t :=
  in_place m (fun x _ _ => smul x scalar).

(** [operator/=(T scalar)] *)
Definition div_assign (m : t) (scalar : T) : result t :=
  if sltb (sabs scalar) tiny
  then Throw (invalid_argument "Scalar cannot be zero")
  else Ok (in_place m (fun x _ _ => sdiv x scalar)).

(** The elementary matrices. *)
Definition rowSwap (n i j : nat) : result t :=
  mat <- identity n ;; exchangeRows mat i j.

Definition rowScale (n i : nat) (c : T) : result t :=
  mat <- identity n ;; scaleRow mat i c.

Definition rowadd (n i j : nat) (k : T) : result t :=
  mat <- identity n ;; addScaledRow mat i j k.

(** [isSymmetric(T eps)]: the loops return [false] at the first pair that
    differs by more than [eps]. *)
Definition isSymmetric (m : t) (eps : T) : bool :=
  if negb (rows m =? cols m) then false
  else forallb (fun i =>
         forallb (fun j =>
                    negb (sltb eps (sabs (ssub (raw m i j) (raw m j i)))))
           (seq (i + 1) (cols m - (i + 1))))
         (seq 0 (rows m)).

(** [isSkewSymmetric(T eps)]: the test of the diagonal entry [(i, i)] sits
    in the loop over [j > i]. *)
Definition isSkewSymmetric (m : t) (eps : T) : bool :=
  if negb (rows m =? cols m) then false
  else forallb (fun i =>
         forallb (fun j =>
                    negb (sltb eps (sabs (raw m i i)))
                    && negb (sltb eps (sabs (sadd (raw m i j) (raw m j i)))))
           (seq (i + 1) (cols m - (i + 1))))
         (seq 0 (rows m)).

(** [setToIdentity()] *)
Definition setToIdentity (m : t) : result t :=
  if negb (rows m =? cols m)
  then Throw (invalid_argument "Matrix must be square")
  else foldM (fun res i =>
                foldM (fun res j => set_at res i j (if i =? j then s1 else s0))
                  (seq 0 (rows m)) res)
         (seq 0 (rows m)) m.

(** [getRankNormalForm(int rows, int cols, int rank)] *)
Definition getRankNormalForm (rows cols rank : nat) : result t :=
  res <- make rows cols ;;
  foldM (fun res i => set_at res i i s1) (seq 0 rank) res.

(** [dotProduct(a, b)]: a one-row matrix is read along its row, any other
    along its first column. *)
Definition dotProduct (a b : t) : result T :=
  let aLen := if getRows a =? 1 then getCols a else getRows a in
  let bLen := if getRows b =? 1 then getCols b else getRows b in
  if negb (aLen =? bLen)
  then Throw (invalid_argument "Length mismatch")
  else foldM (fun sum i =>
                va <- (if getRows a =? 1 then at_ a 0 i else at_ a i 0) ;;
                vb <- (if getRows b =? 1 then at_ b 0 i else at_ b i 0) ;;
                Ok (sadd sum (smul va vb)))
         (seq 0 aLen) s0.

(** [determinant(eps)].  The row of the largest entry of column [i] at or
    below the diagonal. *)
Definition det_max_index (n : nat) (temp : t) (i : nat) : nat :=
  fold_left (fun maxindex row =>
               if sltb (sabs (raw temp maxindex i)) (sabs (raw temp row i))
               then row else maxindex)
    (seq (i + 1) (n - (i + 1))) i.

Definition det_eliminate (n : nat) (eps : T) (i : nat) (temp : t) : result t :=
  foldM (fun temp row =>
           if sltb (sabs (raw temp row i)) eps then Ok temp
           else addScaledRow temp row i
                  (sdiv (sneg (raw temp row i)) (raw temp i i)))
    (seq (i + 1) (n - (i + 1))) temp.

(** The loop over the columns.  [sign] is 1 or -1, [negative] tells which;
    [None] is the [return 0] in the middle of the loop. *)
Fixpoint det_reduce (n : nat) (eps : T) (l : list nat) (temp : t)
  (negative : bool) : result (option (t * bool)) :=
  match l with
  | [] => Ok (Some (temp, negative))
  | i :: l' =>
      let maxindex := det_max_index n temp i in
      if sltb (sabs (raw temp maxindex i)) eps then Ok None
      else
        st <- (if negb (maxindex =? i)
               then temp' <- exchangeRows temp maxindex i ;;
                    Ok (temp', negb negative)
               else Ok (temp, negative)) ;;
        temp' <- det_eliminate n eps i (fst st) ;;
        det_reduce n eps l' temp' (snd st)
  end.

Definition determinant (m : t) (eps : T) : outcome T :=
  if negb (rows m =? cols m)
  then Raised (domain_error "Must be square")
  else
    r <-- lift (det_reduce (rows m) eps (seq 0 (rows m)) m false) ;;
    match r with
    | None => Done s0
    | Some (temp, negative) =>
        let det := fold_left (fun det i => smul det (raw temp i i))
                     (seq 0 (rows m)) (if negative then sneg s1 else s1) in
        Done (if sltb (sabs det) eps then s0 else det)
    end.

(** [getInverseMatrix(eps)]: Gauss-Jordan elimination on [this | I], the
    pivots taken on the diagonal in the order of the rows. *)
Definition invert_step (n : nat) (eps : T) (aug : t) (i : nat) : result t :=
  x <- at_ aug i i ;;
  if sltb (sabs x) eps
  then Throw (invalid_argument "Numerical singularity")
  else
    scale <- at_ aug i i ;;
    aug <- foldM (fun aug j =>
                    y <- at_ aug i j ;; set_at aug i j (sdiv y scale))
             (seq 0 (2 * n)) aug ;;
    foldM (fun aug j =>
             if negb (i =? j)
             then
               factor <- at_ aug j i ;;
               foldM (fun aug k =>
                        y <- at_ aug j k ;;
                        z <- at_ aug i k ;;
                        set_at aug j k (ssub y (smul factor z)))
                 (seq 0 (2 * n)) aug
             else Ok aug)
      (seq 0 n) aug.

Definition getInverseMatrix (m : t) (eps : T) : outcome t :=
  if negb (rows m =? cols m)
  then Raised (std_exn (invalid_argument "Matrix not square"))
  else
    det <-- determinant m eps ;;
    if sltb (sabs det) eps
    then Raised (std_exn (invalid_argument "Matrix is singular"))
    else
      let n := getCols m in
      lift (I <- identity n ;;
            augmentedMatrix <- augment m I ;;
            augmentedMatrix <- foldM (invert_step n eps) (seq 0 n)
                                 augmentedMatrix ;;
            inverseMatrix <- make n n ;;
            foldM (fun inv i =>
                     foldM (fun inv j =>
                              x <- at_ augmentedMatrix i (j + n) ;;
                              set_at inv i j x)
                       (seq 0 n) inv)
              (seq 0 n) inverseMatrix).

Context `{ScalarSqrt T}.

Definition qr_decomposition (m : t) : result (t * t) :=
  if negb (rows m =? cols m)
  then Throw (invalid_argument "Must be square")
  else
    let n := rows m in
    a_cols <- foldM (fun acc j => c <- getCol m j ;; Ok (acc ++ [c]))
                (seq 0 n) [] ;;
    q_cols <- foldM (fun q_cols i =>
                let a_i := nth i a_cols [] in
                u <- foldM (fun u j =>
                       r_ji <- Vector.dot (nth j q_cols []) a_i ;;
                       Vector.sub_assign u (Vector.scale (nth j q_cols []) r_ji))
                     (seq 0 i) a_i ;;
                r_ii <- Vector.norm u ;;
                if sltb (sabs r_ii) tiny
                then Ok (q_cols ++ [u])
                else (q <- Vector.div u r_ii ;; Ok (q_cols ++ [q])))
                (seq 0 n) [] ;;
    Q0 <- make n n ;;
    Q <- foldM (fun Q j =>
           foldM (fun Q i =>
                    x <- Vector.index (nth j q_cols []) i ;;
                    set_at Q i j x)
             (seq 0 n) Q)
           (seq 0 n) Q0 ;;
    Qt <- transpose Q ;;
    R0 <- mul Qt m ;;
    R <- foldM (fun R i =>
           foldM (fun R j => set_at R i j s0) (seq 0 i) R)
           (seq 0 n) R0 ;;
    Ok (Q, R).
End Defs.
Arguments t T : clear implicits.
End Matrix.

(* ================================================================= *)
(** ** RREF.h: the reduction engine *)

Module RREF.
Section Defs.
Context {T : Type} `{Scalar T}.

Record t : Type := mk {
  mat : Matrix.t T;
  rank : nat;
  pivotCols : list nat;
  pivotRows : list nat;
  isREF : bool;
  isRREF : bool
}.

(** [RREF(const Matrix<T>& inputMat)] *)
Definition make (inputMat : Matrix.t T) : t :=
  mk inputMat 0 [] [] false false.

Definition getRank (st : t) : nat := rank st.
Definition getMatrix (st : t) : Matrix.t T := mat st.
Definition getPivotCols (st : t) : list nat := pivotCols st.
Definition getPivotRows (st : t) : list nat := pivotRows st.

(** What the column loop of [toREF] reads and writes: the members [mat],
    [rank], [pivotCols], [pivotRows] and the local [pivotRow]. *)
Record ref_state : Type := mk_ref {
  r_mat : Matrix.t T;
  r_pivotRow : nat;
  r_rank : nat;
  r_pivotCols : list nat;
  r_pivotRows : list nat
}.

(** Lines 32-40: the row of the largest magnitude in column [col], among
    the rows from [pivotRow] down. *)
Definition find_pivot (m : Matrix.t T) (pivotRow col : nat)
  : result (nat * T) :=
  v0 <- Matrix.at_ m pivotRow col ;;
  foldM (fun '(max_index, max_val) row =>
           v <- Matrix.at_ m row col ;;
           let current_val := sabs v in
           if sltb max_val current_val
           then Ok (row, current_val)
           else Ok (max_index, max_val))
    (seq (pivotRow + 1) (Matrix.getRows m - (pivotRow + 1)))
    (pivotRow, sabs v0).

(** Lines 53-59: one row below the pivot. *)
Definition eliminate_below (eps : T) (pivotRow col : nat)
  (m : Matrix.t T) (row : nat) : result (Matrix.t T) :=
  x <- Matrix.at_ m row col ;;
  if sltb (sabs x) eps
  then Matrix.set_at m row col s0
  else
    a <- Matrix.at_ m row col ;;
    p <- Matrix.at_ m pivotRow col ;;
    let factor := sdiv (sneg a) p in
    m1 <- Matrix.addScaledRow m row pivotRow factor ;;
    Matrix.set_at m1 row col s0.

(** Lines 31-61: the body of the column loop. *)
Definition toREF_body (eps : T) (col : nat) (s : ref_state)
  : result ref_state :=
  let rows := Matrix.getRows (r_mat s) in
  let pivotRow := r_pivotRow s in
  '(max_index, max_val) <- find_pivot (r_mat s) pivotRow col ;;
  if sltb max_val eps then Ok s
  else
    m1 <- (if negb (max_index =? pivotRow)
           then Matrix.exchangeRows (r_mat s) max_index pivotRow
           else Ok (r_mat s)) ;;
    m2 <- foldM (eliminate_below eps pivotRow col)
            (seq (pivotRow + 1) (rows - (pivotRow + 1))) m1 ;;
    Ok (mk_ref m2 (pivotRow + 1) (r_rank s + 1)
          (r_pivotCols s ++ [col]) (r_pivotRows s ++ [pivotRow])).

Definition toREF (st : t) (eps : T) : result t :=
  let rows := Matrix.getRows (mat st) in
  let cols := Matrix.getCols (mat st) in
  s <- for_while cols 0
         (fun col s => (col <? cols) && (r_pivotRow s <? rows))
         (toREF_body eps)
         (mk_ref (mat st) 0 0 [] []) ;;
  Ok (mk (r_mat s) (r_rank s) (r_pivotCols s) (r_pivotRows s)
        true (isRREF st)).

(** Lines 71-76: the pivot of index [i] is scaled to 1. *)
Definition normalize_pivot (pRows pCols : list nat) (m : Matrix.t T)
  (i : nat) : result (Matrix.t T) :=
  let row := nth i pRows 0 in
  let col := nth i pCols 0 in
  p <- Matrix.at_ m row col ;;
  let scaleFactor := sdiv s1 p in
  Matrix.scaleRow m row scaleFactor.

(** Lines 82-88: one row above the pivot. *)
Definition eliminate_above (eps : T) (row col : nat) (m : Matrix.t T)
  (upperRow : nat) : result (Matrix.t T) :=
  x <- Matrix.at_ m upperRow col ;;
  if sltb (sabs x) eps
  then Matrix.set_at m upperRow col s0
  else
    a <- Matrix.at_ m upperRow col ;;
    let factor := sneg a in
    m1 <- Matrix.addScaledRow m upperRow row factor ;;
    Matrix.set_at m1 upperRow col s0.

(** Lines 78-90: the column of the pivot of index [i] is cleared above. *)
Definition clear_above (eps : T) (pRows pCols : list nat) (m : Matrix.t T)
  (i : nat) : result (Matrix.t T) :=
  let row := nth i pRows 0 in
  let col := nth i pCols 0 in
  foldM (eliminate_above eps row col) (rev (seq 0 row)) m.

(** Lines 92-96: the entries below [eps] are set to zero. *)
Definition snap (eps : T) (m : Matrix.t T) (i j : nat)
  : result (Matrix.t T) :=
  x <- Matrix.at_ m i j ;;
  if sltb (sabs x) eps then Matrix.set_at m i j s0 else Ok m.

Definition cleanup (eps : T) (rows cols : nat) (m : Matrix.t T)
  : result (Matrix.t T) :=
  foldM (fun m i => foldM (fun m j => snap eps m i j) (seq 0 cols) m)
    (seq 0 rows) m.

Definition toRREF (st : t) (eps : T) : result t :=
  let rows := Matrix.getRows (mat st) in
  let cols := Matrix.getCols (mat st) in
  st1 <- (if negb (isREF st) then toREF st eps else Ok st) ;;
  m1 <- foldM (normalize_pivot (pivotRows st1) (pivotCols st1))
          (seq 0 (rank st1)) (mat st1) ;;
  m2 <- foldM (clear_above eps (pivotRows st1) (pivotCols st1))
          (rev (seq 0 (rank st1))) m1 ;;
  m3 <- cleanup eps rows cols m2 ;;
  Ok (mk m3 (rank st1) (pivotCols st1) (pivotRows st1) (isREF st1) true).

(** The columns [j < n] that are no pivot column, in increasing order
    (RREF.h lines 126-132, SolvingEquation.h lines 77-81). *)
Definition free_columns (n : nat) (pCols : list nat) : list nat :=
  fold_left (fun freeCols j =>
               if existsb (fun pc => pc =? j) pCols
               then freeCols else freeCols ++ [j])
    (seq 0 n) [].

(** Lines 134-141: the basis vector of the free column [freeCol]. *)
Definition kernel_vector (st : t) (n freeCol : nat)
  : result (Vector.t (T:=T)) :=
  foldM (fun v_vec i =>
           let pCol := nth i (pivotCols st) 0 in
           let pRow := nth i (pivotRows st) 0 in
           x <- Matrix.at_ (mat st) pRow freeCol ;;
           Ok (upd pCol (sneg x) v_vec))
    (seq 0 (rank st)) (upd freeCol s1 (repeat s0 n)).

(** [getKernel] returns the basis; the engine it leaves behind is reduced. *)
Definition getKernel (st : t) (eps : T)
  : result (list (Vector.t (T:=T)) * t) :=
  st1 <- (if negb (isRREF st) then toRREF st eps else Ok st) ;;
  let n := Matrix.getCols (mat st1) in
  let freeCols := free_columns n (pivotCols st1) in
  basis <- foldM (fun basis freeCol =>
                    v <- kernel_vector st1 n freeCol ;;
                    Ok (basis ++ [v]))
             freeCols [] ;;
  Ok (basis, st1).
End Defs.
Arguments t T : clear implicits.
Arguments ref_state T : clear implicits.
End RREF.

(** ** RREF.h: the deferred members of [Matrix<T>] *)

Section MatrixDeferred.
Context {T : Type} `{Scalar T}.

(** [Matrix<T>::rank] *)
Definition Matrix_rank (m : Matrix.t T) : result nat :=
  rrefSolver <- RREF.toRREF (RREF.make m) tiny ;;
  Ok (RREF.getRank rrefSolver).

(** [Matrix<T>::getEquivalenceNormalForm] *)
Definition Matrix_getEquivalenceNormalForm (m : Matrix.t T)
  : result (Matrix.t T) :=
  r <- Matrix_rank m ;;
  Matrix.getRankNormalForm (Matrix.rows m) (Matrix.cols m) r.

Record EigenDecomposition : Type := mk_eigen {
  eigenvalues : list T;
  eigenvectors : list (Vector.t (T:=T))
}.

Context `{ScalarSqrt T}.

(** Lines 170-173: one step of the iteration. *)
Definition qr_step (A_iter : Matrix.t T) : result (Matrix.t T) :=
  '(Q, R) <- Matrix.qr_decomposition A_iter ;;
  Matrix.mul R Q.

(** Lines 178-193: the eigenvectors found for [lam] are appended. *)
Definition eigenvectors_of (A : Matrix.t T) (evs : list (Vector.t (T:=T)))
  (lam : T) : result (list (Vector.t (T:=T))) :=
  I <- Matrix.identity (Matrix.rows A) ;;
  LambdaI <- Matrix.scale I lam ;;
  CharacteristicMat <- Matrix.sub A LambdaI ;;
  '(basis, _) <- RREF.getKernel (RREF.make CharacteristicMat) tiny ;;
  match basis with
  | _ :: _ =>
      foldM (fun evs v =>
               w <- try_catch (Vector.normalized v tiny) (Ok v) ;;
               Ok (evs ++ [w]))
        basis evs
  | [] => Ok (evs ++ [Vector.make (Matrix.rows A) s0])
  end.

(** [Matrix<T>::eigen(int max_iter = 1000)] *)
Definition Matrix_eigen (A : Matrix.t T) (max_iter : Z)
  : result EigenDecomposition :=
  if negb (Matrix.isSquare A)
  then Throw (logic_error "Eigen decomposition only for square matrices")
  else
    A_iter <- foldM (fun A_iter _ => qr_step A_iter)
                (seq 0 (Z.to_nat max_iter)) A ;;
    vals <- foldM (fun vals i => x <- Matrix.at_ A_iter i i ;;
                                 Ok (vals ++ [x]))
              (seq 0 (Matrix.rows A)) [] ;;
    vecs <- foldM (eigenvectors_of A) vals [] ;;
    Ok (mk_eigen vals vecs).

Definition default_max_iter : Z := 1000.
End MatrixDeferred.
Arguments EigenDecomposition T : clear implicits.

(* ================================================================= *)
(** ** SolvingEquation.h *)

Module SolvingEquation.
Inductive SolutionType : Type :=
| NoSolution
| UniqueSolution
| InfiniteSolutions.

Section Defs.
Context {T : Type} `{Scalar T}.

Record t : Type := mk {
  augmented : Matrix.t T;
  rrefMatrix : Matrix.t T;
  rrefSolver : RREF.t T;
  type : SolutionType;
  particular : Vector.t (T:=T);
  nullspace : list (Vector.t (T:=T))
}.

(** [solve()] sets [type] and returns it. *)
Definition solve (s : t) : SolutionType * t :=
  let n := Matrix.getCols (augmented s) - 1 in
  let pivotCols := RREF.getPivotCols (rrefSolver s) in
  let ty :=
    if existsb (fun col => col =? n) pivotCols then NoSolution
    else if length pivotCols =? n then UniqueSolution
    else InfiniteSolutions in
  (ty, mk (augmented s) (rrefMatrix s) (rrefSolver s) ty
         (particular s) (nullspace s)).

(** The constructor.  The members are initialised in declaration order
    ([augmented], then [rrefSolver]); [type] has no value before [solve]. *)
Definition make (A b : Matrix.t T) : result t :=
  augmented0 <- Matrix.augment A b ;;
  solver0 <- Matrix.augment A b ;;
  if negb (Matrix.getRows b =? Matrix.getRows A)
     || negb (Matrix.getCols b =? 1)
  then Throw (invalid_argument "Invalid dimensions")
  else
    solver1 <- RREF.toRREF (RREF.make solver0) tiny ;;
    let s := mk augmented0 (RREF.getMatrix solver1) solver1 NoSolution
               [] [] in
    Ok (snd (solve s)).

Definition computeSolution (s : t) (eps : T) : result t :=
  let s := if match type s with NoSolution => true | _ => false end
           then snd (solve s) else s in
  match type s with
  | NoSolution => Throw (logic_error "No solution exists")
  | UniqueSolution =>
      let n := Matrix.getCols (augmented s) - 1 in
      part_vec <- foldM (fun part_vec i =>
                           x <- Matrix.at_ (rrefMatrix s) i n ;;
                           Ok (upd i x part_vec))
                    (seq 0 n) (repeat s0 n) ;;
      Ok (mk (augmented s) (rrefMatrix s) (rrefSolver s) (type s)
            part_vec (nullspace s))
  | InfiniteSolutions =>
      let n := Matrix.getCols (augmented s) - 1 in
      let pivotCols := RREF.getPivotCols (rrefSolver s) in
      let freeCols := RREF.free_columns n pivotCols in
      part_vec <- foldM (fun part_vec i =>
                           let col := nth i pivotCols 0 in
                           x <- Matrix.at_ (rrefMatrix s) i n ;;
                           Ok (upd col x part_vec))
                    (seq 0 (length pivotCols)) (repeat s0 n) ;;
      basis <- foldM (fun basis freeCol =>
                        v <- foldM (fun v_vec i =>
                               let pcol := nth i pivotCols 0 in
                               x <- Matrix.at_ (rrefMatrix s) i freeCol ;;
                               Ok (upd pcol (sneg x) v_vec))
                             (seq 0 (length pivotCols))
                             (upd freeCol s1 (repeat s0 n)) ;;
                        Ok (basis ++ [v]))
                 freeCols [] ;;
      Ok (mk (augmented s) (rrefMatrix s) (rrefSolver s) (type s)
            part_vec basis)
  end.
End Defs.
Arguments t T : clear implicits.
End SolvingEquation.

(* ================================================================= *)
(** ** VectorSet.h *)

Module VectorSet.
Inductive VectorOrientation : Type :=
| Column
| Row.

Section Defs.
Context {T : Type} `{Scalar T}.

Record t : Type := mk {
  vecs : list (Vector.t (T:=T));
  dim : nat;
  rank : nat;
  pivotIndices : list nat;
  orientation : VectorOrientation
}.

(** The matrix of the constructor: the vectors are its columns, or its
    rows. *)
Definition matrix_of_vectors (vecs : list (Vector.t (T:=T))) (dim : nat)
  (orient : VectorOrientation) : result (Matrix.t T) :=
  match orient with
  | Column =>
      A <- Matrix.make dim (length vecs) ;;
      foldM (fun A c =>
               foldM (fun A r =>
                        x <- Vector.index (nth c vecs []) r ;;
                        Matrix.set_at A r c x)
                 (seq 0 dim) A)
        (seq 0 (length vecs)) A
  | Row =>
      A <- Matrix.make (length vecs) dim ;;
      foldM (fun A r =>
               foldM (fun A c =>
                        x <- Vector.index (nth r vecs []) c ;;
                        Matrix.set_at A r c x)
                 (seq 0 dim) A)
        (seq 0 (length vecs)) A
  end.

(** [VectorSet(inputVecs, orient = Column)]; the constructor from raw
    [std::vector]s runs the same statements. *)
Definition make (inputVecs : list (Vector.t (T:=T)))
  (orient : VectorOrientation) : result t :=
  match inputVecs with
  | [] => Throw (invalid_argument "Vector set cannot be empty")
  | v0 :: _ =>
      let dim := Vector.size v0 in
      if negb (forallb (fun v => Vector.size v =? dim) inputVecs)
      then Throw (invalid_argument "Vectors have inconsistent dimensions")
      else
        A <- matrix_of_vectors inputVecs dim orient ;;
        rref <- RREF.toRREF (RREF.make A) tiny ;;
        Ok (mk inputVecs dim (RREF.getRank rref)
              (match orient with
               | Column => RREF.getPivotCols rref
               | Row => RREF.getPivotRows rref
               end)
              orient)
  end.

Definition isLinearIndependent (s : t) : bool := rank s =? length (vecs s).

(** [basis()]: [vecs[idx]] for every pivot index, unchecked. *)
Definition basis (s : t) : list (Vector.t (T:=T)) :=
  map (fun idx => nth idx (vecs s) []) (pivotIndices s).

Definition dimension (s : t) : nat := rank s.

Context `{ScalarSqrt T}.

(** The inner loop of [gramSchmidt]: the projections of [v] on the vectors
    found so far are taken off [u]. *)
Definition orthogonalize (v : Vector.t (T:=T)) (orth : list (Vector.t (T:=T)))
  : result (Vector.t (T:=T)) :=
  foldM (fun u uj =>
           ip_uj <- Vector.dot uj uj ;;
           if sltb tiny (sabs ip_uj)
           then
             d <- Vector.dot v uj ;;
             let coeff := sdiv d ip_uj in
             Vector.sub_assign u (Vector.scale uj coeff)
           else Ok u)
    orth v.

(** [gramSchmidt(vectors, normalize = false)] *)
Definition gramSchmidt (vectors : list (Vector.t (T:=T))) (normalize : bool)
  : result (list (Vector.t (T:=T))) :=
  match vectors with
  | [] => Throw (invalid_argument "Gram-Schmidt: empty vector set")
  | v0 :: _ =>
      let dim := Vector.size v0 in
      if negb (forallb (fun v => Vector.size v =? dim) vectors)
      then Throw (invalid_argument "Gram-Schmidt: dimension mismatch")
      else
        foldM (fun orth v =>
                 u <- orthogonalize v orth ;;
                 n <- Vector.norm u ;;
                 if sltb n tiny then Ok orth
                 else
                   u' <- (if normalize then Vector.normalized u tiny
                          else Ok u) ;;
                   Ok (orth ++ [u']))
          vectors []
  end.
End Defs.
Arguments t T : clear implicits.
End VectorSet.
(* ================================================================= *)
(** * Specification-level definitions *)

(** Total and partial correctness of a computation that may throw. *)
Definition returns {A : Type} (c : result A) (Q : A -> Prop) : Prop :=
  match c with
  | Ok a => Q a
  | Throw _ => False
  end.

Definition if_returns {A : Type} (c : result A) (Q : A -> Prop) : Prop :=
  match c with
  | Ok a => Q a
  | Throw _ => True
  end.

Section MatrixShape.
Context {T : Type} `{Scalar T}.

(** The class invariant of [Matrix<T>]: [data] has [rows] rows of [cols]
    entries.  The checked constructors establish it. *)
Definition wf (m : Matrix.t T) : Prop :=
  length (Matrix.data m) = Matrix.rows m /\
  Forall (fun row => length row = Matrix.cols m) (Matrix.data m).

Definition same_shape (m m' : Matrix.t T) : Prop :=
  Matrix.rows m' = Matrix.rows m /\ Matrix.cols m' = Matrix.cols m.

Definition wf_same (m m' : Matrix.t T) : Prop := wf m' /\ same_shape m m'.

(** A matrix literal, as the checked constructor builds it. *)
Definition matrix_of (l : list (list T)) : Matrix.t T :=
  Matrix.mk (length l) (length (hd [] l)) l.

(** [for (j = 0; j < n; j++) data[t][j] = g(data[t][j], data[s][j])]: the
    loop of [scaleRow] and of [addScaledRow]. *)
Definition row_loop_result (m : Matrix.t T) (t s : nat) (g : T -> T -> T)
  (n : nat) : Matrix.t T :=
  fold_left (fun m j => Matrix.set_raw m t j
                          (g (Matrix.raw m t j) (Matrix.raw m s j)))
    (seq 0 n) m.

(** What [exchangeRows] returns. *)
Definition swapped (m : Matrix.t T) (r1 r2 : nat) : Matrix.t T :=
  Matrix.mk (Matrix.rows m) (Matrix.cols m)
    (upd r2 (nth r1 (Matrix.data m) [])
       (upd r1 (nth r2 (Matrix.data m) []) (Matrix.data m))).

(** What [addScaledRow m t s k] leaves at entry [(r, c)]. *)
Definition axpy_entry (m : Matrix.t T) (t s : nat) (k : T) (r c : nat) : T :=
  if ((r =? t) && (c <? Matrix.cols m))
     && negb (is_floating_point && sltb (sabs k) tiny)
  then sadd (Matrix.raw m t c) (smul (Matrix.raw m s c) k)
  else Matrix.raw m r c.

(** What the elimination of row [target] against row [source] leaves at
    entry [(r, c)]: the entry of column [col] is zero; an entry judged
    [small] leaves the rest of its row alone; otherwise the row has been
    through [addScaledRow]. *)
Definition elim_entry (m : Matrix.t T) (target source col : nat)
  (small : bool) (factor : T) (r c : nat) : T :=
  if r =? target
  then if c =? col then s0
       else if small then Matrix.raw m r c
       else axpy_entry m target source factor r c
  else Matrix.raw m r c.

(** The row that the scan of [toREF] selects in column [col]: starting from
    [best], a candidate replaces the current choice when its entry is
    strictly larger in magnitude. *)
Fixpoint argmax_abs (m : Matrix.t T) (col best : nat) (cands : list nat)
  : nat :=
  match cands with
  | [] => best
  | r :: cands' =>
      argmax_abs m col
        (if sltb (sabs (Matrix.raw m best col)) (sabs (Matrix.raw m r col))
         then r else best)
        cands'
  end.

Definition pivot_candidate (m : Matrix.t T) (pivotRow col : nat) : nat :=
  argmax_abs m col pivotRow
    (seq (pivotRow + 1) (Matrix.rows m - (pivotRow + 1))).

(** The matrix once row [k] has been exchanged into position [pivotRow]. *)
Definition exchanged (m : Matrix.t T) (k pivotRow : nat) : Matrix.t T :=
  if negb (k =? pivotRow) then swapped m k pivotRow else m.

(** [l] is strictly increasing. *)
Definition increasing (l : list nat) : Prop :=
  forall i j, i < j -> j < length l -> nth i l 0 < nth j l 0.

(** The bookkeeping invariant of the column loop of [toREF], before the
    iteration of column [col], on a matrix of [rows] rows and [cols]
    columns. *)
Definition ref_inv (rows cols col : nat) (s : RREF.ref_state T) : Prop :=
  Matrix.rows (RREF.r_mat s) = rows /\
  Matrix.cols (RREF.r_mat s) = cols /\
  RREF.r_rank s = RREF.r_pivotRow s /\
  RREF.r_pivotRows s = seq 0 (RREF.r_pivotRow s) /\
  length (RREF.r_pivotCols s) = RREF.r_pivotRow s /\
  RREF.r_pivotRow s <= rows /\
  increasing (RREF.r_pivotCols s) /\
  Forall (fun c => c < col) (RREF.r_pivotCols s).

(** The bookkeeping of a reduced engine: one pivot per row [0 .. rank-1],
    in strictly increasing columns. *)
Definition pivots_ok (st : RREF.t T) : Prop :=
  RREF.pivotRows st = seq 0 (RREF.rank st) /\
  length (RREF.pivotCols st) = RREF.rank st /\
  RREF.rank st <= Matrix.rows (RREF.mat st) /\
  increasing (RREF.pivotCols st) /\
  Forall (fun c => c < Matrix.cols (RREF.mat st)) (RREF.pivotCols st).

(** Below each of the first [k] pivots the column is zero. *)
Definition zero_below (m : Matrix.t T) (pCols : list nat) (k : nat) : Prop :=
  forall i r, i < k -> i < r -> r < Matrix.rows m ->
              Matrix.raw m r (nth i pCols 0) = s0.

(** Above each of the pivots [from .. k-1] the column is zero. *)
Definition zero_above (m : Matrix.t T) (pCols : list nat) (from k : nat)
  : Prop :=
  forall i r, from <= i -> i < k -> r < i ->
              Matrix.raw m r (nth i pCols 0) = s0.

(** Each of the pivots [from .. k-1] was accepted: its magnitude is not
    below [eps]. *)
Definition pivots_accepted (eps : T) (m : Matrix.t T) (pCols : list nat)
  (from k : nat) : Prop :=
  forall i, from <= i -> i < k ->
            sltb (sabs (Matrix.raw m i (nth i pCols 0))) eps = false.

(** Each of the first [k] pivots is one. *)
Definition pivots_one (m : Matrix.t T) (pCols : list nat) (k : nat) : Prop :=
  forall i, i < k -> Matrix.raw m i (nth i pCols 0) = s1.

(** What the final pass of [toRREF] makes of an entry. *)
Definition snapped (eps x : T) : T := if sltb (sabs x) eps then s0 else x.

(** The reduced form that [toRREF] reaches in exact arithmetic: every pivot
    is one, the rest of its column is zero, and no entry is below [eps]
    in magnitude without being zero. *)
Definition reduced (eps : T) (st : RREF.t T) : Prop :=
  wf (RREF.mat st) /\ pivots_ok st /\
  pivots_one (RREF.mat st) (RREF.pivotCols st) (RREF.rank st) /\
  zero_below (RREF.mat st) (RREF.pivotCols st) (RREF.rank st) /\
  zero_above (RREF.mat st) (RREF.pivotCols st) 0 (RREF.rank st) /\
  forall r c, r < Matrix.rows (RREF.mat st) -> c < Matrix.cols (RREF.mat st) ->
              sltb (sabs (Matrix.raw (RREF.mat st) r c)) eps = true ->
              Matrix.raw (RREF.mat st) r c = s0.

(** [t 0 + t 1 + ... + t (n-1)], summed from the left as [Vector::dot]
    does. *)
Definition big_sum (t : nat -> T) (n : nat) : T :=
  fold_left (fun sum i => sadd sum (t i)) (seq 0 n) s0.

(** The [j]-th vector of the standard basis of length [n]. *)
Definition standard_basis_vector (n j : nat) : Vector.t (T:=T) :=
  upd j s1 (repeat s0 n).

(** The basis vector of length [n] of the free column [f], in the words of
    the design: entry [f] is 1, entry [pivotCols[a]] is the negation of the
    reduced entry at [(pivotRows[a], f)] for every pivot [a], all other
    entries are 0. *)
Definition basis_vector_of (st : RREF.t T) (n f : nat) (v : Vector.t (T:=T))
  : Prop :=
  length v = n /\
  nth f v s0 = s1 /\
  (forall j, j <> f -> ~ In j (RREF.pivotCols st) -> nth j v s0 = s0) /\
  (forall a, a < RREF.rank st ->
             nth (nth a (RREF.pivotCols st) 0) v s0 =
             sneg (Matrix.raw (RREF.mat st) (nth a (RREF.pivotRows st) 0) f)).

(** For [getKernel] the length is the column count. *)
Definition kernel_vector_of (st : RREF.t T) (f : nat) (v : Vector.t (T:=T))
  : Prop :=
  basis_vector_of st (Matrix.cols (RREF.mat st)) f v.

(** The particular solution of length [n], in the words of the design:
    entry [pivotCols[a]] is the right-hand side of pivot row [a], that is
    the reduced entry at [(pivotRows[a], n)]; the entries of the free
    columns are 0. *)
Definition particular_of (st : RREF.t T) (n : nat) (p : Vector.t (T:=T))
  : Prop :=
  length p = n /\
  (forall j, ~ In j (RREF.pivotCols st) -> nth j p s0 = s0) /\
  (forall a, a < RREF.rank st ->
             nth (nth a (RREF.pivotCols st) 0) p s0 =
             Matrix.raw (RREF.mat st) (nth a (RREF.pivotRows st) 0) n).

(** The columns below [n] that hold no pivot, in increasing order. *)
Definition non_pivot_columns (n : nat) (pCols : list nat) : list nat :=
  filter (fun j => negb (existsb (fun pc => pc =? j) pCols)) (seq 0 n).

(** The classification rule of the solver, in the words of the design: with
    [n] unknowns, a pivot in column [n] means no solution; otherwise [n]
    pivots mean a unique solution; otherwise there are infinitely many. *)
Definition classified (n : nat) (pivotCols : list nat)
  (ty : SolvingEquation.SolutionType) : Prop :=
  (In n pivotCols -> ty = SolvingEquation.NoSolution) /\
  (~ In n pivotCols -> length pivotCols = n ->
   ty = SolvingEquation.UniqueSolution) /\
  (~ In n pivotCols -> length pivotCols <> n ->
   ty = SolvingEquation.InfiniteSolutions).

(** The pivot rows are the first [rank] rows, in order. *)
Definition pivot_rows_consecutive (st : RREF.t T) : Prop :=
  RREF.pivotRows st = seq 0 (RREF.rank st) /\
  forall i, i < RREF.rank st -> nth i (RREF.pivotRows st) 0 = i.
End MatrixShape.

Section REFDescribed.
Context {T : Type} `{Scalar T}.

(** [row += other * k], an add-scaled-row step on the rows themselves;
    nothing happens on a floating type when [|k| < 1e-9]. *)
Definition add_scaled_row (row other : list T) (k : T) : list T :=
  if is_floating_point && sltb (sabs k) tiny then row
  else map (fun xy => sadd (fst xy) (smul (snd xy) k)) (combine row other).

(** A row below the pivot is eliminated by an add-scaled-row step, then its
    entry in the pivot column is forced to zero. *)
Definition eliminate_by_row_step (eps : T) (col : nat)
  (pivot_row row : list T) : list T :=
  let factor := sdiv (sneg (nth col row s0)) (nth col pivot_row s0) in
  upd col s0 (add_scaled_row row pivot_row factor).

(** The same, except that a row whose entry in the pivot column is below
    [eps] in magnitude gets no row step: its entry is forced to zero and
    the rest of the row stays. *)
Definition eliminate_unless_small (eps : T) (col : nat)
  (pivot_row row : list T) : list T :=
  if sltb (sabs (nth col row s0)) eps then upd col s0 row
  else eliminate_by_row_step eps col pivot_row row.

(** [map] with the index of each element, counted from [i]. *)
Fixpoint mapi_from {A B : Type} (i : nat) (f : nat -> A -> B) (l : list A)
  : list B :=
  match l with
  | [] => []
  | x :: l' => f i x :: mapi_from (Datatypes.S i) f l'
  end.

(** One column of [toREF], in the words of the design.  Among the rows at
    or below the pivot row, the row of the largest magnitude in the column
    is the candidate.  If that magnitude is below [eps], the column gets
    no pivot and nothing changes.  Otherwise the candidate is exchanged
    into pivot position, the pivot is recorded, the rank grows by one,
    every row strictly below is eliminated by [elim], and the pivot row
    advances. *)
Definition described_step
  (elim : T -> nat -> list T -> list T -> list T)
  (eps : T) (col : nat) (s : RREF.ref_state T) : RREF.ref_state T :=
  let m := RREF.r_mat s in
  let pivotRow := RREF.r_pivotRow s in
  let k := pivot_candidate m pivotRow col in
  if sltb (sabs (Matrix.raw m k col)) eps then s
  else
    let m1 := exchanged m k pivotRow in
    let pivot_row := nth pivotRow (Matrix.data m1) [] in
    let below :=
      mapi_from 0
        (fun r row => if r <=? pivotRow then row
                      else elim eps col pivot_row row)
        (Matrix.data m1) in
    RREF.mk_ref (Matrix.mk (Matrix.rows m) (Matrix.cols m) below)
      (pivotRow + 1) (RREF.r_rank s + 1)
      (RREF.r_pivotCols s ++ [col]) (RREF.r_pivotRows s ++ [pivotRow]).

(** The columns from [col] on, left to right, until the rows or the columns
    are exhausted; [fuel] is the number of columns left. *)
Fixpoint described_columns
  (elim : T -> nat -> list T -> list T -> list T)
  (eps : T) (rows cols fuel col : nat) (s : RREF.ref_state T)
  : RREF.ref_state T :=
  match fuel with
  | O => s
  | Datatypes.S fuel' =>
      if (col <? cols) && (RREF.r_pivotRow s <? rows)
      then described_columns elim eps rows cols fuel' (Datatypes.S col)
             (described_step elim eps col s)
      else s
  end.

Definition described_REF
  (elim : T -> nat -> list T -> list T -> list T)
  (st : RREF.t T) (eps : T) : RREF.t T :=
  let rows := Matrix.rows (RREF.mat st) in
  let cols := Matrix.cols (RREF.mat st) in
  let s := described_columns elim eps rows cols cols 0
             (RREF.mk_ref (RREF.mat st) 0 0 [] []) in
  RREF.mk (RREF.r_mat s) (RREF.r_rank s) (RREF.r_pivotCols s)
    (RREF.r_pivotRows s) true (RREF.isRREF st).
End REFDescribed.

(** The laws of exact arithmetic that the reduction relies on.  A field
    satisfies them; [double] does not (rounding, infinities, NaN). *)
Class ExactArithmetic (T : Type) `{Scalar T} : Prop := {
  sadd_0_r : forall x, sadd x s0 = x;
  sadd_0_l : forall x, sadd s0 x = x;
  smul_0_l : forall x, smul s0 x = s0;
  smul_0_r : forall x, smul x s0 = s0;
  smul_1_l : forall x, smul s1 x = x;
  smul_1_r : forall x, smul x s1 = x;
  sadd_neg_r : forall x, sadd x (sneg x) = s0;
  sadd_neg_l : forall x, sadd (sneg x) x = s0;
  smul_recip : forall x, x <> s0 -> smul x (sdiv s1 x) = s1
}.
Arguments ExactArithmetic T {_}.

(** [<] on the scalars is a strict order. *)
Class OrderedScalar (T : Type) `{Scalar T} : Prop := {
  sltb_irrefl : forall x, sltb x x = false;
  sltb_trans : forall x y z, sltb x y = true -> sltb y z = true ->
                             sltb x z = true
}.
Arguments OrderedScalar T {_}.

(** The rationals are an instance of both. *)
#[export] Instance Qc_ExactArithmetic : ExactArithmetic Qc.
Proof.
  split; simpl; intros; try ring.
  field. assumption.
Qed.

#[export] Instance Qc_OrderedScalar : OrderedScalar Qc.
Proof.
  split; simpl; unfold Qc_ltb.
  - intros x. apply negb_false_iff, Qle_bool_iff, Qle_refl.
  - intros x y z Hxy Hyz.
    apply negb_true_iff in Hxy, Hyz. apply negb_true_iff.
    destruct (Qle_bool z x) eqn:E; [|reflexivity].
    apply Qle_bool_iff in E.
    assert (Hyx : ~ (y <= x)%Q)
      by (rewrite <- Qle_bool_iff; now rewrite Hxy).
    assert (Hzy : ~ (z <= y)%Q)
      by (rewrite <- Qle_bool_iff; now rewrite Hyz).
    apply Qnot_le_lt in Hyx, Hzy.
    exfalso. apply (Qlt_irrefl x).
    eapply Qlt_le_trans; [|exact E].
    eapply Qlt_trans; eassumption.
Qed.

Section EigenSpec.
Context {T : Type} `{Scalar T} `{ScalarSqrt T}.

(** Exactly [k] steps [A := R * Q] of the QR iteration, one after the
    other, with no test between them. *)
Fixpoint qr_iterate (k : nat) (A : Matrix.t T) : result (Matrix.t T) :=
  match k with
  | O => Ok A
  | Datatypes.S k' => A' <- qr_step A ;; qr_iterate k' A'
  end.

(** The diagonal entries, from the first row to the last. *)
Definition diagonal (m : Matrix.t T) : list T :=
  map (fun i => Matrix.raw m i i) (seq 0 (Matrix.rows m)).

(** The vector that stands for [v] among the eigenvectors: [v] normalized,
    or [v] itself when the normalization throws. *)
Definition normalized_or_self (v : Vector.t (T:=T)) : Vector.t (T:=T) :=
  match Vector.normalized v tiny with
  | Ok w => w
  | Throw _ => v
  end.

(** The kernel of [A - lam * I], as [eigen] computes it. *)
Definition shifted_kernel (A : Matrix.t T) (lam : T)
  : result (list (Vector.t (T:=T))) :=
  I <- Matrix.identity (Matrix.rows A) ;;
  LambdaI <- Matrix.scale I lam ;;
  CharacteristicMat <- Matrix.sub A LambdaI ;;
  '(basis, _) <- RREF.getKernel (RREF.make CharacteristicMat) tiny ;;
  Ok basis.

(** The entries of [eigenvectors] that belong to one eigenvalue: the
    kernel vectors, normalized where possible, or one zero vector when the
    kernel is empty. *)
Definition eigen_slot (A : Matrix.t T) (basis : list (Vector.t (T:=T)))
  : list (Vector.t (T:=T)) :=
  match basis with
  | [] => [Vector.make (Matrix.rows A) s0]
  | _ :: _ => map normalized_or_self basis
  end.
End EigenSpec.

(** A matrix of rationals. *)
Definition Qc_of (n : Z) : Qc := Q2Qc (inject_Z n).
Definition rational_2x2 : Matrix.t Qc :=
  matrix_of [[Qc_of 2; Qc_of 4]; [Qc_of 1; Qc_of 3]].

Definition rational_singular : Matrix.t Qc :=
  matrix_of [[Qc_of 2; Qc_of 4]; [Qc_of 1; Qc_of 2]].

Definition rational_rhs : Matrix.t Qc := matrix_of [[Qc_of 6]; [Qc_of 3]].

(** The inputs of the concrete scenarios, over [double]. *)
Definition scenario3_A : Matrix.t float := matrix_of [[1; 1]; [2; 2]]%float.
Definition scenario3_b : Matrix.t float := matrix_of [[1]; [3]]%float.
Definition large_pivot : Matrix.t float := matrix_of [[2e9%float]].
Definition snapped_pivot : Matrix.t float := matrix_of [[2%float]].
Definition overflowing_pivot : Matrix.t float :=
  matrix_of [[2e-9; 1e300]; [0; 1]]%float.
Definition near_tolerance : Matrix.t float :=
  matrix_of [[1; 1]; [0.5e-9; 1.2e-9]]%float.
Definition skipped_row_step : Matrix.t float :=
  matrix_of [[1e6; 1e6]; [1e-4; 0]]%float.
Definition small_below_pivot : Matrix.t float :=
  matrix_of [[2e-9; 1]; [0.5e-9; 1]]%float.
Definition badly_scaled : Matrix.t float :=
  matrix_of [[1; 1e10]; [5e-10; 0]]%float.
Definition dropped_entry_A : Matrix.t float :=
  matrix_of [[1; 0]; [5e-10; 1]]%float.
Definition dropped_entry_b : Matrix.t float :=
  matrix_of [[1e10]; [1]]%float.
Definition zero_rhs : Matrix.t float := matrix_of [[0]; [0]]%float.
Definition scenario5_A : Matrix.t float := matrix_of [[2; 0]; [0; 3]]%float.
Definition large_shear : Matrix.t float := matrix_of [[0; 4e9]; [0; 0]]%float.


(* ================================================================= *)
(** * Specification-level definitions for the operators *)

Section OperatorSpecs.
Context {T : Type} `{Scalar T}.

(** [m] satisfies the class invariant and is an [R x C] matrix. *)
Definition shaped (R C : nat) (m : Matrix.t T) : Prop :=
  wf m /\ Matrix.rows m = R /\ Matrix.cols m = C.

(** The [R x C] matrix whose entry [(r, c)] is [f r c]. *)
Definition tabulate (R C : nat) (f : nat -> nat -> T) : Matrix.t T :=
  Matrix.mk R C (map (fun r => map (f r) (seq 0 C)) (seq 0 R)).

(** [acc + t 0 + ... + t (n-1)], summed from the left: the innermost loop
    of the matrix product. *)
Definition sum_from (acc : T) (t : nat -> T) (n : nat) : T :=
  fold_left (fun sum k => sadd sum (t k)) (seq 0 n) acc.

(** Entry [(i, j)] of the product, as [operator*] accumulates it. *)
Definition product_entry (a b : Matrix.t T) (i j : nat) : T :=
  big_sum (fun k => smul (Matrix.raw a i k) (Matrix.raw b k j))
    (Matrix.cols a).

(** Entry [(i, j)] of the identity. *)
Definition delta (i j : nat) : T := if i =? j then s1 else s0.
(** The reciprocal of the pivot of index [i] is refused by [scaleRow]: on a
    floating type its magnitude is below [1e-9]. *)
Definition pivot_rejected (m : Matrix.t T) (pCols : list nat) (i : nat)
  : bool :=
  is_floating_point
  && sltb (sabs (sdiv s1 (Matrix.raw m i (nth i pCols 0)))) tiny.

(** The matrix once the first [k] pivot rows have been scaled by the
    reciprocals of their pivots. *)
Definition normalized_rows (m : Matrix.t T) (pCols : list nat) (k : nat)
  : Matrix.t T :=
  tabulate (Matrix.rows m) (Matrix.cols m)
    (fun r c => if r <? k
                then smul (Matrix.raw m r c)
                          (sdiv s1 (Matrix.raw m r (nth r pCols 0)))
                else Matrix.raw m r c).
(** How [dotProduct] reads a matrix as a vector: a matrix of one row along
    that row, any other matrix down its first column. *)
Definition line_length (a : Matrix.t T) : nat :=
  if Matrix.rows a =? 1 then Matrix.cols a else Matrix.rows a.

Definition line_entry (a : Matrix.t T) (i : nat) : T :=
  if Matrix.rows a =? 1 then Matrix.raw a 0 i else Matrix.raw a i 0.

(** The normal form of rank [r]: ones on the first [r] diagonal places. *)
Definition rank_normal_form (rows cols r : nat) : Matrix.t T :=
  tabulate rows cols (fun i j => if (i =? j) && (i <? r) then s1 else s0).

(** One step of the Gauss-Jordan elimination of [getInverseMatrix] on the
    pivot [(i, i)]: row [i] is divided by the pivot, and the multiple of
    the new row [i] that clears column [i] is subtracted from every other
    row. *)
Definition pivot_reduced (aug : Matrix.t T) (i r c : nat) : T :=
  let p := sdiv (Matrix.raw aug i c) (Matrix.raw aug i i) in
  if r =? i then p
  else ssub (Matrix.raw aug r c) (smul (Matrix.raw aug r i) p).

(** The matrix [m | I] that [getInverseMatrix] starts from. *)
Definition beside_identity (m : Matrix.t T) : Matrix.t T :=
  tabulate (Matrix.rows m) (Matrix.cols m + Matrix.cols m)
    (fun i j => if j <? Matrix.cols m then Matrix.raw m i j
                else delta i (j - Matrix.cols m)).

(** The invariant of that elimination when the pivots before [i] have
    been reduced: the left half of the augmented matrix is its right half
    times [m], and its first [i] columns are those of the identity. *)
Definition inverse_invariant (m aug : Matrix.t T) (i : nat) : Prop :=
  let n := Matrix.rows m in
  shaped n (2 * n) aug /\
  (forall r c, r < n -> c < n ->
     Matrix.raw aug r c =
     big_sum (fun k => smul (Matrix.raw aug r (k + n)) (Matrix.raw m k c)) n) /\
  (forall r c, r < n -> c < i -> Matrix.raw aug r c = delta r c).

(** The rows of [m | I] are recovered from the rows of the augmented
    matrix by the matrix whose first [i] columns are those of [m] and whose
    other columns are those of the identity. *)
Definition replaced_columns (m : Matrix.t T) (i r k : nat) : T :=
  if k <? i then Matrix.raw m r k else delta r k.

Definition recovery_invariant (m aug : Matrix.t T) (i : nat) : Prop :=
  let n := Matrix.rows m in
  forall r c, r < n -> c < 2 * n ->
    big_sum (fun k => smul (replaced_columns m i r k) (Matrix.raw aug k c)) n =
    Matrix.raw (beside_identity m) r c.
End OperatorSpecs.

(** Addition and multiplication of exact scalars commute. *)
Class CommutativeArithmetic (T : Type) `{Scalar T} : Prop := {
  sadd_comm : forall x y, sadd x y = sadd y x;
  smul_comm : forall x y, smul x y = smul y x
}.
Arguments CommutativeArithmetic T {_}.

#[export] Instance Qc_CommutativeArithmetic : CommutativeArithmetic Qc.
Proof.
  split; simpl; intros; ring.
Qed.

(** The scalars are a field: [+], [*], [-] form a commutative ring and [/]
    is the multiplication by the reciprocal. *)
Class FieldArithmetic (T : Type) `{Scalar T} : Prop := {
  scalar_ring : ring_theory s0 s1 sadd smul ssub sneg (@eq T);
  sdiv_recip : forall x y, sdiv x y = smul x (sdiv s1 y);
  sdiv_same : forall x, x <> s0 -> sdiv x x = s1
}.
Arguments FieldArithmetic T {_}.

#[export] Instance Qc_FieldArithmetic : FieldArithmetic Qc.
Proof.
  split.
  - exact Qcrt.
  - intros x y. simpl. unfold Qcdiv. ring.
  - intros x Hx. simpl. unfold Qcdiv. now apply Qcmult_inv_r.
Qed.

(** Further concrete inputs. *)
Definition rational_3x2 : Matrix.t Qc :=
  matrix_of [[Qc_of 1; Qc_of 2]; [Qc_of 3; Qc_of 4]; [Qc_of 5; Qc_of 6]].
Definition rational_row : Matrix.t Qc :=
  matrix_of [[Qc_of 1; Qc_of 2; Qc_of 3]].
Definition rational_column : Matrix.t Qc :=
  matrix_of [[Qc_of 4]; [Qc_of 5]; [Qc_of 6]].
Definition skew_2x2 : Matrix.t float := matrix_of [[0; 1]; [-1; 7]]%float.
Definition three_plane_vectors : list (list float) :=
  [[1; 0]; [0; 1]; [1; 1]]%float.
Definition parallel_then_independent : list (list float) :=
  [[1; 1]; [2; 2]; [0; 1]]%float.
Definition exchange_2x2 : Matrix.t float := matrix_of [[0; 1]; [1; 0]]%float.
(* ================================================================= *)
(** * Lists, loops and the result monad *)

Lemma length_upd {A : Type} (i : nat) (x : A) (l : list A) :
  length (upd i x l) = length l.
Proof.
  revert i; induction l as [|y l IH]; intros [|i]; simpl; auto.
Qed.

Lemma nth_upd {A : Type} (i j : nat) (x d : A) (l : list A) :
  nth j (upd i x l) d =
  if (j =? i) && (i <? length l) then x else nth j l d.
Proof.
  revert i j; induction l as [|y l IH]; intros i j.
  - rewrite andb_false_r. simpl. destruct i, j; reflexivity.
  - destruct i as [|i], j as [|j]; simpl; auto.
Qed.

Lemma nth_upd_same {A : Type} (i : nat) (x d : A) (l : list A) :
  i < length l -> nth i (upd i x l) d = x.
Proof.
  intros Hi. rewrite nth_upd, Nat.eqb_refl.
  apply Nat.ltb_lt in Hi. now rewrite Hi.
Qed.

Lemma nth_upd_other {A : Type} (i j : nat) (x d : A) (l : list A) :
  j <> i -> nth j (upd i x l) d = nth j l d.
Proof.
  intros Hji. rewrite nth_upd.
  apply Nat.eqb_neq in Hji. now rewrite Hji.
Qed.

Lemma upd_out_of_range {A : Type} (i : nat) (x : A) (l : list A) :
  length l <= i -> upd i x l = l.
Proof.
  revert i; induction l as [|y l IH]; intros [|i] Hi; simpl in *;
    try reflexivity; try lia.
  f_equal. apply IH. lia.
Qed.

Lemma returns_Ok {A : Type} (c : result A) (Q : A -> Prop) :
  returns c Q <-> exists a, c = Ok a /\ Q a.
Proof.
  destruct c as [a|e]; simpl; split.
  - intros HQ. now exists a.
  - intros (a' & [= <-] & HQ). exact HQ.
  - intros [].
  - intros (a' & Hc & _). discriminate.
Qed.

Lemma if_returns_Ok {A : Type} (c : result A) (Q : A -> Prop) :
  if_returns c Q <-> forall a, c = Ok a -> Q a.
Proof.
  destruct c as [a|e]; simpl; split.
  - intros HQ a' [= <-]. exact HQ.
  - intros Hc. now apply Hc.
  - intros _ a Hc. discriminate.
  - intros _. exact I.
Qed.

Lemma returns_if_returns {A : Type} (c : result A) (Q : A -> Prop) :
  returns c Q -> if_returns c Q.
Proof. destruct c; simpl; tauto. Qed.

Lemma returns_mono {A : Type} (c : result A) (P Q : A -> Prop) :
  returns c P -> (forall a, P a -> Q a) -> returns c Q.
Proof. destruct c; simpl; auto. Qed.

Lemma if_returns_mono {A : Type} (c : result A) (P Q : A -> Prop) :
  if_returns c P -> (forall a, P a -> Q a) -> if_returns c Q.
Proof. destruct c; simpl; auto. Qed.

Lemma returns_bind {A B : Type} (c : result A) (k : A -> result B)
  (Q : B -> Prop) :
  returns c (fun a => returns (k a) Q) -> returns (bind c k) Q.
Proof. destruct c; simpl; auto. Qed.

Lemma if_returns_bind {A B : Type} (c : result A) (k : A -> result B)
  (Q : B -> Prop) :
  if_returns c (fun a => if_returns (k a) Q) -> if_returns (bind c k) Q.
Proof. destruct c; simpl; auto. Qed.

Lemma bind_Ok {A B : Type} (c : result A) (k : A -> result B) (b : B) :
  bind c k = Ok b -> exists a, c = Ok a /\ k a = Ok b.
Proof.
  destruct c as [a|e]; simpl; intros Hb; [now exists a | discriminate].
Qed.

(** The invariant rule of a loop over a list: [Inv k] holds when [k]
    elements have been processed. *)
Lemma returns_foldM {S I : Type} (body : S -> I -> result S)
  (Inv : nat -> S -> Prop) (l : list I) (s : S) :
  Inv 0 s ->
  (forall k i s, nth_error l k = Some i -> Inv k s ->
                 returns (body s i) (Inv (Datatypes.S k))) ->
  returns (foldM body l s) (Inv (length l)).
Proof.
  revert Inv s; induction l as [|i l IH]; intros Inv s H0 Hstep; simpl.
  - exact H0.
  - apply returns_bind.
    apply returns_mono with (P := Inv 1).
    + apply (Hstep 0 i s); [reflexivity | exact H0].
    + intros s' H1.
      apply (IH (fun k => Inv (Datatypes.S k))); [exact H1|].
      intros k j s'' Hk. apply (Hstep (Datatypes.S k)). exact Hk.
Qed.

Lemma if_returns_foldM {S I : Type} (body : S -> I -> result S)
  (Inv : nat -> S -> Prop) (l : list I) (s : S) :
  Inv 0 s ->
  (forall k i s, nth_error l k = Some i -> Inv k s ->
                 if_returns (body s i) (Inv (Datatypes.S k))) ->
  if_returns (foldM body l s) (Inv (length l)).
Proof.
  revert Inv s; induction l as [|i l IH]; intros Inv s H0 Hstep; simpl.
  - exact H0.
  - apply if_returns_bind.
    apply if_returns_mono with (P := Inv 1).
    + apply (Hstep 0 i s); [reflexivity | exact H0].
    + intros s' H1.
      apply (IH (fun k => Inv (Datatypes.S k))); [exact H1|].
      intros k j s'' Hk. apply (Hstep (Datatypes.S k)). exact Hk.
Qed.

(** The invariant rule of [for_while]: [Inv i] holds before the iteration
    of index [i]. *)
Lemma returns_for_while {S : Type} (cond : nat -> S -> bool)
  (body : nat -> S -> result S) (Inv : nat -> S -> Prop) :
  (forall i s, cond i s = true -> Inv i s ->
               returns (body i s) (Inv (Datatypes.S i))) ->
  forall fuel i s, Inv i s ->
  returns (for_while fuel i cond body s)
    (fun s' => exists j, i <= j <= i + fuel /\ Inv j s' /\
                         (j = i + fuel \/ cond j s' = false)).
Proof.
  intros Hstep. induction fuel as [|fuel IH]; intros i s Hi; simpl.
  - exists i. repeat split; auto; lia.
  - destruct (cond i s) eqn:Hc.
    + apply returns_bind.
      apply returns_mono with (P := Inv (Datatypes.S i)).
      * now apply Hstep.
      * intros s' Hs'. apply returns_mono with (1 := IH _ _ Hs').
        intros s'' (j & Hj & Hinv & Hstop). exists j.
        repeat split; auto; try lia.
        destruct Hstop as [-> | Hstop]; [left; lia | now right].
    + simpl. exists i. repeat split; auto; lia.
Qed.

Lemma nth_error_seq (lo len k : nat) :
  k < len -> nth_error (seq lo len) k = Some (lo + k).
Proof.
  revert lo k; induction len as [|len IH]; intros lo [|k] Hk; simpl;
    try lia.
  - f_equal. lia.
  - rewrite IH by lia. f_equal. lia.
Qed.

Lemma nth_error_seq_inv (lo len k i : nat) :
  nth_error (seq lo len) k = Some i -> k < len /\ i = lo + k.
Proof.
  intros Hk.
  assert (Hlen : k < len).
  { rewrite <- (length_seq len lo). apply nth_error_Some. congruence. }
  rewrite nth_error_seq in Hk by exact Hlen. split; congruence.
Qed.

Lemma nth_error_rev_seq_inv (n k i : nat) :
  nth_error (rev (seq 0 n)) k = Some i -> k < n /\ i = n - 1 - k.
Proof.
  intros Hk.
  assert (Hlen : k < n).
  { rewrite <- (length_seq n 0), <- length_rev. apply nth_error_Some.
    congruence. }
  split; [exact Hlen|].
  rewrite nth_error_nth' with (d := 0) in Hk
    by (rewrite length_rev, length_seq; exact Hlen).
  rewrite rev_nth in Hk by (rewrite length_seq; exact Hlen).
  rewrite length_seq, seq_nth in Hk by lia.
  injection Hk as <-. lia.
Qed.

(* ================================================================= *)
(** * The row operations of matrix.h, entry by entry *)

Section RowOperations.
Context {T : Type} `{Scalar T}.
Implicit Types m : Matrix.t T.

Lemma same_shape_refl m : same_shape m m.
Proof. split; reflexivity. Qed.

Lemma same_shape_trans m1 m2 m3 :
  same_shape m1 m2 -> same_shape m2 m3 -> same_shape m1 m3.
Proof. intros [? ?] [? ?]; split; congruence. Qed.

Lemma raw_row_length m r :
  wf m -> r < Matrix.rows m -> length (nth r (Matrix.data m) []) = Matrix.cols m.
Proof.
  intros [Hlen Hrows] Hr.
  rewrite Forall_forall in Hrows. apply Hrows, nth_In. lia.
Qed.

(** Two well-formed matrices with the same entries are equal. *)
Lemma matrix_ext m1 m2 :
  wf m1 -> wf m2 -> same_shape m1 m2 ->
  (forall r c, r < Matrix.rows m1 -> c < Matrix.cols m1 ->
               Matrix.raw m2 r c = Matrix.raw m1 r c) ->
  m2 = m1.
Proof.
  intros Hwf1 Hwf2 [Hr Hc] Hraw.
  destruct m1 as [r1 c1 d1], m2 as [r2 c2 d2]; simpl in *. subst r2 c2.
  f_equal.
  destruct Hwf1 as [Hl1 Hf1], Hwf2 as [Hl2 Hf2]; simpl in *.
  apply nth_ext with (d := []) (d' := []); [congruence|].
  intros r Hlt.
  assert (Hr1 : r < r1) by lia.
  pose proof (@raw_row_length (Matrix.mk r1 c1 d1) r (conj Hl1 Hf1) Hr1) as L1.
  pose proof (@raw_row_length (Matrix.mk r1 c1 d2) r (conj Hl2 Hf2) Hr1) as L2.
  simpl in L1, L2.
  apply nth_ext with (d := s0) (d' := s0); [congruence|].
  intros c Hc. apply (Hraw r c); simpl; lia.
Qed.

Lemma at_returns m r c :
  r < Matrix.rows m -> c < Matrix.cols m ->
  Matrix.at_ m r c = Ok (Matrix.raw m r c).
Proof.
  intros Hr Hc. unfold Matrix.at_.
  apply Nat.leb_gt in Hr, Hc. now rewrite Hr, Hc.
Qed.

Lemma set_at_returns m r c v :
  r < Matrix.rows m -> c < Matrix.cols m ->
  Matrix.set_at m r c v = Ok (Matrix.set_raw m r c v).
Proof.
  intros Hr Hc. unfold Matrix.set_at.
  apply Nat.leb_gt in Hr, Hc. now rewrite Hr, Hc.
Qed.

Lemma wf_set_raw m r c v : wf m -> wf (Matrix.set_raw m r c v).
Proof.
  intros [Hlen Hrows]. split; simpl.
  - now rewrite length_upd.
  - rewrite Forall_forall in *. intros row Hin.
    destruct (In_nth _ _ [] Hin) as (k & Hk & <-).
    rewrite length_upd in Hk. rewrite nth_upd.
    destruct ((k =? r) && (r <? length (Matrix.data m))) eqn:E.
    + rewrite length_upd.
      apply andb_true_iff in E as [_ Hr%Nat.ltb_lt].
      apply Hrows, nth_In, Hr.
    + apply Hrows, nth_In, Hk.
Qed.

Lemma raw_set_raw m r c v r' c' :
  wf m -> r < Matrix.rows m -> c < Matrix.cols m ->
  Matrix.raw (Matrix.set_raw m r c v) r' c' =
  if (r' =? r) && (c' =? c) then v else Matrix.raw m r' c'.
Proof.
  intros Hwf Hr Hc. unfold Matrix.raw, Matrix.set_raw; simpl.
  rewrite nth_upd.
  assert (Hlt : (r <? length (Matrix.data m)) = true)
    by (apply Nat.ltb_lt; destruct Hwf; lia).
  rewrite Hlt, andb_true_r.
  destruct (r' =? r) eqn:Er; simpl; [|reflexivity].
  apply Nat.eqb_eq in Er. subst r'.
  rewrite nth_upd, (raw_row_length Hwf Hr).
  apply Nat.ltb_lt in Hc. now rewrite Hc, andb_true_r.
Qed.

(** [for (j = 0; j < n; j++) data[t][j] = g(data[t][j], data[s][j])]:
    the loop of [scaleRow] and of [addScaledRow]. *)
Lemma row_loop m t s (g : T -> T -> T) n :
  wf m -> t < Matrix.rows m -> n <= Matrix.cols m ->
  wf (row_loop_result m t s g n) /\
  same_shape m (row_loop_result m t s g n) /\
  forall r c, Matrix.raw (row_loop_result m t s g n) r c =
              if (r =? t) && (c <? n)
              then g (Matrix.raw m t c) (Matrix.raw m s c)
              else Matrix.raw m r c.
Proof.
  intros Hwf Ht. unfold row_loop_result.
  induction n as [|n IH]; intros Hn.
  - simpl. split; [exact Hwf|]. split; [apply same_shape_refl|].
    intros r c. now rewrite andb_false_r.
  - rewrite seq_S, fold_left_app; simpl.
    destruct IH as (Hwf' & [Hr' Hc'] & Hraw); [lia|].
    set (m1 := fold_left _ (seq 0 n) m) in *.
    split; [now apply wf_set_raw|]. split; [split; [exact Hr' | exact Hc']|].
    intros r c. rewrite raw_set_raw by (auto; lia).
    rewrite !Hraw, Nat.ltb_irrefl, !andb_false_r.
    destruct (r =? t) eqn:Er; simpl; [|reflexivity].
    destruct (c =? n) eqn:Ec.
    + apply Nat.eqb_eq in Ec; subst c.
      assert (E : (n <? Datatypes.S n) = true) by (apply Nat.ltb_lt; lia).
      now rewrite E.
    + apply Nat.eqb_neq in Ec.
      destruct (c <? n) eqn:E1.
      * apply Nat.ltb_lt in E1.
        assert (E : (c <? Datatypes.S n) = true) by (apply Nat.ltb_lt; lia).
        now rewrite E.
      * apply Nat.ltb_ge in E1.
        assert (E : (c <? Datatypes.S n) = false) by (apply Nat.ltb_ge; lia).
        now rewrite E.
Qed.

Lemma exchangeRows_returns m r1 r2 :
  r1 < Matrix.rows m -> r2 < Matrix.rows m ->
  Matrix.exchangeRows m r1 r2 = Ok (swapped m r1 r2).
Proof.
  intros H1 H2. unfold Matrix.exchangeRows.
  apply Nat.leb_gt in H1, H2. now rewrite H1, H2.
Qed.

Lemma wf_swapped m r1 r2 :
  wf m -> r1 < Matrix.rows m -> r2 < Matrix.rows m -> wf (swapped m r1 r2).
Proof.
  intros [Hlen Hrows] H1 H2. split; simpl.
  - now rewrite !length_upd.
  - rewrite Forall_forall in *. intros row Hin.
    destruct (In_nth _ _ [] Hin) as (k & Hk & <-).
    rewrite !length_upd in Hk. rewrite !nth_upd.
    destruct (_ && _); [apply Hrows, nth_In; lia|].
    destruct (_ && _); apply Hrows, nth_In; lia.
Qed.

Lemma raw_swapped m r1 r2 r c :
  wf m -> r1 < Matrix.rows m -> r2 < Matrix.rows m ->
  Matrix.raw (swapped m r1 r2) r c =
  Matrix.raw m (if r =? r2 then r1 else if r =? r1 then r2 else r) c.
Proof.
  intros [Hlen _] H1 H2. unfold Matrix.raw, swapped; simpl.
  rewrite !nth_upd, !length_upd.
  assert (E1 : (r1 <? length (Matrix.data m)) = true) by (apply Nat.ltb_lt; lia).
  assert (E2 : (r2 <? length (Matrix.data m)) = true) by (apply Nat.ltb_lt; lia).
  rewrite E1, E2, !andb_true_r.
  destruct (r =? r2); [reflexivity|]. destruct (r =? r1); reflexivity.
Qed.

Lemma addScaledRow_returns m t s k :
  wf m -> t < Matrix.rows m -> s < Matrix.rows m ->
  exists m', Matrix.addScaledRow m t s k = Ok m' /\
             wf m' /\ same_shape m m' /\
             forall r c, Matrix.raw m' r c = axpy_entry m t s k r c.
Proof.
  intros Hwf Ht Hs. unfold Matrix.addScaledRow, axpy_entry.
  assert (E1 : (Matrix.rows m <=? t) = false) by (apply Nat.leb_gt; lia).
  assert (E2 : (Matrix.rows m <=? s) = false) by (apply Nat.leb_gt; lia).
  rewrite E1, E2; simpl.
  destruct (is_floating_point && sltb (sabs k) tiny).
  - exists m. split; [reflexivity|]. split; [exact Hwf|].
    split; [apply same_shape_refl|].
    intros r c. now rewrite andb_false_r.
  - eexists; split; [reflexivity|].
    destruct (row_loop s (fun x y => sadd x (smul y k)) Hwf Ht
                (Nat.le_refl (Matrix.cols m))) as (Hwf' & Hsh & Hraw).
    split; [exact Hwf'|]. split; [exact Hsh|].
    intros r c. rewrite Hraw, andb_true_r. reflexivity.
Qed.

(** [scaleRow]: what each entry becomes, when the factor is accepted. *)
Lemma scaleRow_returns m r k m' :
  wf m -> Matrix.scaleRow m r k = Ok m' ->
  r < Matrix.rows m /\ (is_floating_point && sltb (sabs k) tiny) = false /\
  wf m' /\ same_shape m m' /\
  forall r' c, Matrix.raw m' r' c =
               if (r' =? r) && (c <? Matrix.cols m)
               then smul (Matrix.raw m r c) k else Matrix.raw m r' c.
Proof.
  intros Hwf. unfold Matrix.scaleRow.
  destruct (Matrix.rows m <=? r) eqn:E1; [discriminate|].
  destruct (is_floating_point && sltb (sabs k) tiny); [discriminate|].
  intros [= <-]. apply Nat.leb_gt in E1.
  destruct (row_loop r (fun x _ => smul x k) Hwf E1
              (Nat.le_refl (Matrix.cols m))) as (Hwf' & Hsh & Hraw).
  split; [exact E1|]. split; [reflexivity|]. split; [exact Hwf'|].
  split; [exact Hsh|]. exact Hraw.
Qed.

Lemma scaleRow_throws m r k :
  r < Matrix.rows m -> is_floating_point = true ->
  sltb (sabs k) tiny = true ->
  Matrix.scaleRow m r k = Throw (invalid_argument "Scaling factor too small").
Proof.
  intros Hr Hfp Hk. unfold Matrix.scaleRow.
  apply Nat.leb_gt in Hr. now rewrite Hr, Hfp, Hk.
Qed.
End RowOperations.

(* ================================================================= *)
(** * The elimination steps, entry by entry *)

Section Elimination.
Context {T : Type} `{Scalar T}.
Implicit Types m : Matrix.t T.

Lemma returns_conj {A : Type} (c : result A) (P Q : A -> Prop) :
  returns c P -> returns c Q -> returns c (fun a => P a /\ Q a).
Proof. destruct c; simpl; auto. Qed.

Lemma if_returns_conj {A : Type} (c : result A) (P Q : A -> Prop) :
  if_returns c P -> if_returns c Q -> if_returns c (fun a => P a /\ Q a).
Proof. destruct c; simpl; auto. Qed.

(** The common shape of lines 53-59 and 82-88 of RREF.h. *)
Lemma eliminate_spec m target source col (small : bool) (factor : T) :
  wf m -> target < Matrix.rows m -> source < Matrix.rows m ->
  col < Matrix.cols m ->
  exists m',
    (if small then Matrix.set_at m target col s0
     else m1 <- Matrix.addScaledRow m target source factor ;;
          Matrix.set_at m1 target col s0) = Ok m' /\
    wf m' /\ same_shape m m' /\
    forall r c, Matrix.raw m' r c =
                elim_entry m target source col small factor r c.
Proof.
  intros Hwf Ht Hs Hc. unfold elim_entry. destruct small.
  - rewrite set_at_returns by assumption. eexists; split; [reflexivity|].
    split; [now apply wf_set_raw|]. split; [split; reflexivity|].
    intros r c. rewrite raw_set_raw by assumption.
    destruct (r =? target); simpl; [|reflexivity].
    destruct (c =? col); reflexivity.
  - destruct (addScaledRow_returns factor Hwf Ht Hs)
      as (m1 & -> & Hwf1 & [Hr1 Hc1] & Hraw1). simpl.
    rewrite set_at_returns by lia. eexists; split; [reflexivity|].
    split; [now apply wf_set_raw|]. split; [split; simpl; assumption|].
    intros r c. rewrite raw_set_raw by (auto; lia).
    destruct (r =? target) eqn:Er; simpl.
    + destruct (c =? col); [reflexivity|].
      rewrite Hraw1. apply Nat.eqb_eq in Er. now subst r.
    + rewrite Hraw1. unfold axpy_entry. now rewrite Er.
Qed.

Lemma eliminate_below_spec eps pivotRow col m row :
  wf m -> pivotRow < Matrix.rows m -> row < Matrix.rows m ->
  col < Matrix.cols m ->
  exists m',
    RREF.eliminate_below eps pivotRow col m row = Ok m' /\
    wf m' /\ same_shape m m' /\
    forall r c, Matrix.raw m' r c =
                elim_entry m row pivotRow col
                  (sltb (sabs (Matrix.raw m row col)) eps)
                  (sdiv (sneg (Matrix.raw m row col))
                        (Matrix.raw m pivotRow col)) r c.
Proof.
  intros Hwf Hp Hr Hc. unfold RREF.eliminate_below.
  rewrite at_returns by assumption. simpl.
  destruct (eliminate_spec (sltb (sabs (Matrix.raw m row col)) eps)
              (sdiv (sneg (Matrix.raw m row col)) (Matrix.raw m pivotRow col))
              Hwf Hr Hp Hc) as (m' & Hm' & Hrest).
  exists m'. split; [|exact Hrest].
  destruct (sltb _ eps); [exact Hm'|].
  rewrite ?at_returns by assumption. exact Hm'.
Qed.

Lemma eliminate_above_spec eps row col m upperRow :
  wf m -> row < Matrix.rows m -> upperRow < Matrix.rows m ->
  col < Matrix.cols m ->
  exists m',
    RREF.eliminate_above eps row col m upperRow = Ok m' /\
    wf m' /\ same_shape m m' /\
    forall r c, Matrix.raw m' r c =
                elim_entry m upperRow row col
                  (sltb (sabs (Matrix.raw m upperRow col)) eps)
                  (sneg (Matrix.raw m upperRow col)) r c.
Proof.
  intros Hwf Hp Hr Hc. unfold RREF.eliminate_above.
  rewrite at_returns by assumption. simpl.
  destruct (eliminate_spec (sltb (sabs (Matrix.raw m upperRow col)) eps)
              (sneg (Matrix.raw m upperRow col))
              Hwf Hr Hp Hc) as (m' & Hm' & Hrest).
  exists m'. split; [|exact Hrest].
  destruct (sltb _ eps); [exact Hm'|].
  rewrite ?at_returns by assumption. exact Hm'.
Qed.

(** The rows below the pivot, one after the other: lines 52-60. *)
Lemma eliminate_below_loop eps pivotRow col m :
  wf m -> pivotRow < Matrix.rows m -> col < Matrix.cols m ->
  exists m',
    foldM (RREF.eliminate_below eps pivotRow col)
      (seq (pivotRow + 1) (Matrix.rows m - (pivotRow + 1))) m = Ok m' /\
    wf m' /\ same_shape m m' /\
    forall r c, Matrix.raw m' r c =
      if (pivotRow <? r) && (r <? Matrix.rows m)
      then elim_entry m r pivotRow col
             (sltb (sabs (Matrix.raw m r col)) eps)
             (sdiv (sneg (Matrix.raw m r col)) (Matrix.raw m pivotRow col)) r c
      else Matrix.raw m r c.
Proof.
  intros Hwf Hp Hc.
  set (n := Matrix.rows m - (pivotRow + 1)).
  pose (Inv := fun (j : nat) (m' : Matrix.t T) =>
    wf m' /\ same_shape m m' /\
    forall r c, Matrix.raw m' r c =
      if (pivotRow <? r) && (r <? pivotRow + 1 + j)
      then elim_entry m r pivotRow col
             (sltb (sabs (Matrix.raw m r col)) eps)
             (sdiv (sneg (Matrix.raw m r col)) (Matrix.raw m pivotRow col)) r c
      else Matrix.raw m r c).
  assert (Hloop : returns
            (foldM (RREF.eliminate_below eps pivotRow col)
               (seq (pivotRow + 1) n) m) (Inv (length (seq (pivotRow + 1) n)))).
  { apply returns_foldM.
    - split; [exact Hwf|]. split; [apply same_shape_refl|].
      intros r c.
      replace ((pivotRow <? r) && (r <? pivotRow + 1 + 0)) with false;
        [reflexivity|].
      symmetry. apply andb_false_iff.
      destruct (Nat.ltb_spec pivotRow r); [right; apply Nat.ltb_ge; lia | now left].
    - intros j row m1 Hrow (Hwf1 & [Hr1 Hc1] & Hraw1).
      apply nth_error_seq_inv in Hrow as [Hj ->]. unfold n in Hj.
      destruct (@eliminate_below_spec eps pivotRow col m1 (pivotRow + 1 + j))
        as (m2 & -> & Hwf2 & [Hr2 Hc2] & Hraw2); try lia; auto.
      simpl. split; [exact Hwf2|]. split; [split; congruence|].
      intros r c. rewrite Hraw2. unfold elim_entry at 1.
      destruct (r =? pivotRow + 1 + j) eqn:Er.
      + apply Nat.eqb_eq in Er. subst r.
        replace ((pivotRow <? pivotRow + 1 + j) &&
                 (pivotRow + 1 + j <? pivotRow + 1 + Datatypes.S j)) with true
          by (symmetry; apply andb_true_iff; split; apply Nat.ltb_lt; lia).
        unfold elim_entry. rewrite Nat.eqb_refl.
        destruct (c =? col); [reflexivity|].
        assert (Hsame : forall c', Matrix.raw m1 (pivotRow + 1 + j) c' =
                                   Matrix.raw m (pivotRow + 1 + j) c').
        { intros c'. rewrite Hraw1.
          replace (pivotRow + 1 + j <? pivotRow + 1 + j) with false
            by (symmetry; apply Nat.ltb_irrefl).
          now rewrite andb_false_r. }
        assert (Hpiv : forall c', Matrix.raw m1 pivotRow c' =
                                  Matrix.raw m pivotRow c').
        { intros c'. rewrite Hraw1. now rewrite Nat.ltb_irrefl. }
        rewrite !Hsame, Hpiv.
        destruct (sltb (sabs (Matrix.raw m (pivotRow + 1 + j) col)) eps);
          [reflexivity|].
        unfold axpy_entry. rewrite Hc1, ?Hsame, ?Hpiv. reflexivity.
      + rewrite Hraw1. apply Nat.eqb_neq in Er.
        destruct (pivotRow <? r) eqn:E1; simpl; [|reflexivity].
        destruct (r <? pivotRow + 1 + j) eqn:E2.
        * apply Nat.ltb_lt in E2.
          replace (r <? pivotRow + 1 + Datatypes.S j) with true
            by (symmetry; apply Nat.ltb_lt; lia).
          reflexivity.
        * apply Nat.ltb_ge in E2.
          replace (r <? pivotRow + 1 + Datatypes.S j) with false
            by (symmetry; apply Nat.ltb_ge; lia).
          reflexivity. }
  apply returns_Ok in Hloop as (m' & Hm' & Hwf' & Hsh & Hraw).
  exists m'. split; [exact Hm'|]. split; [exact Hwf'|]. split; [exact Hsh|].
  intros r c. rewrite Hraw, length_seq. unfold n.
  destruct (pivotRow <? r) eqn:E1; simpl; [|reflexivity].
  apply Nat.ltb_lt in E1.
  replace (r <? pivotRow + 1 + (Matrix.rows m - (pivotRow + 1)))
    with (r <? Matrix.rows m); [reflexivity|].
  f_equal. lia.
Qed.
End Elimination.

(* ================================================================= *)
(** * One iteration of the column loop of toREF *)

Section REFStep.
Context {T : Type} `{Scalar T}.
Implicit Types m : Matrix.t T.

Lemma argmax_abs_range m col best cands :
  In (argmax_abs m col best cands) (best :: cands).
Proof.
  revert best; induction cands as [|r cands IH]; intros best; simpl.
  - now left.
  - destruct (IH (if sltb (sabs (Matrix.raw m best col))
                          (sabs (Matrix.raw m r col)) then r else best))
      as [E|Hin].
    + destruct (sltb _ _); rewrite <- E; auto.
    + right; right; exact Hin.
Qed.

Lemma pivot_candidate_range m pivotRow col :
  pivotRow < Matrix.rows m ->
  pivotRow <= pivot_candidate m pivotRow col < Matrix.rows m.
Proof.
  intros Hp. unfold pivot_candidate.
  destruct (argmax_abs_range m col pivotRow
              (seq (pivotRow + 1) (Matrix.rows m - (pivotRow + 1))))
    as [<-|Hin]; [lia|].
  apply in_seq in Hin. lia.
Qed.

Lemma find_pivot_scan m col cands best :
  col < Matrix.cols m -> Forall (fun r => r < Matrix.rows m) cands ->
  foldM (fun '(max_index, max_val) row =>
           v <- Matrix.at_ m row col ;;
           let current_val := sabs v in
           if sltb max_val current_val
           then Ok (row, current_val)
           else Ok (max_index, max_val))
    cands (best, sabs (Matrix.raw m best col)) =
  Ok (argmax_abs m col best cands,
      sabs (Matrix.raw m (argmax_abs m col best cands) col)).
Proof.
  intros Hc Hcands. revert best.
  induction Hcands as [|r cands Hr _ IH]; intros best; simpl; [reflexivity|].
  rewrite at_returns by assumption. simpl.
  destruct (sltb _ _); simpl; apply IH.
Qed.

(** The scan returns the candidate of [pivot_candidate]. *)
Lemma find_pivot_candidate m pivotRow col :
  pivotRow < Matrix.rows m -> col < Matrix.cols m ->
  RREF.find_pivot m pivotRow col =
  Ok (pivot_candidate m pivotRow col,
      sabs (Matrix.raw m (pivot_candidate m pivotRow col) col)).
Proof.
  intros Hp Hc. unfold RREF.find_pivot, pivot_candidate, Matrix.getRows.
  rewrite at_returns by assumption. simpl.
  apply find_pivot_scan; [exact Hc|].
  apply Forall_forall. intros r Hin. apply in_seq in Hin. lia.
Qed.

Lemma exchanged_spec m k pivotRow :
  wf m -> k < Matrix.rows m -> pivotRow < Matrix.rows m ->
  (if negb (k =? pivotRow) then Matrix.exchangeRows m k pivotRow else Ok m)
  = Ok (exchanged m k pivotRow) /\
  wf (exchanged m k pivotRow) /\ same_shape m (exchanged m k pivotRow) /\
  forall r c, Matrix.raw (exchanged m k pivotRow) r c =
              Matrix.raw m (if r =? pivotRow then k
                            else if r =? k then pivotRow else r) c.
Proof.
  intros Hwf Hk Hp. unfold exchanged.
  destruct (k =? pivotRow) eqn:E; simpl.
  - apply Nat.eqb_eq in E. subst k.
    split; [reflexivity|]. split; [exact Hwf|]. split; [apply same_shape_refl|].
    intros r c. destruct (r =? pivotRow) eqn:Er; [|reflexivity].
    apply Nat.eqb_eq in Er. now subst r.
  - split; [now apply exchangeRows_returns|].
    split; [now apply wf_swapped|]. split; [split; reflexivity|].
    intros r c. now apply raw_swapped.
Qed.

(** Lines 31-61, when the matrix is well-formed: either the column gets no
    pivot and nothing changes, or the candidate row is exchanged into
    position, the pivot is recorded and the rows below are eliminated. *)
Lemma toREF_body_step eps col (s : RREF.ref_state T) :
  wf (RREF.r_mat s) -> col < Matrix.cols (RREF.r_mat s) ->
  RREF.r_pivotRow s < Matrix.rows (RREF.r_mat s) ->
  let m := RREF.r_mat s in
  let pivotRow := RREF.r_pivotRow s in
  let k := pivot_candidate m pivotRow col in
  let m1 := exchanged m k pivotRow in
  if sltb (sabs (Matrix.raw m k col)) eps
  then RREF.toREF_body eps col s = Ok s
  else exists m2,
      RREF.toREF_body eps col s =
      Ok (RREF.mk_ref m2 (pivotRow + 1) (RREF.r_rank s + 1)
            (RREF.r_pivotCols s ++ [col]) (RREF.r_pivotRows s ++ [pivotRow])) /\
      wf m2 /\ same_shape m m2 /\
      forall r c, Matrix.raw m2 r c =
        if (pivotRow <? r) && (r <? Matrix.rows m)
        then elim_entry m1 r pivotRow col
               (sltb (sabs (Matrix.raw m1 r col)) eps)
               (sdiv (sneg (Matrix.raw m1 r col)) (Matrix.raw m1 pivotRow col))
               r c
        else Matrix.raw m1 r c.
Proof.
  intros Hwf Hc Hp m pivotRow k m1.
  unfold RREF.toREF_body. fold m. fold pivotRow.
  rewrite find_pivot_candidate by assumption. simpl. fold k.
  destruct (sltb (sabs (Matrix.raw m k col)) eps); [reflexivity|].
  pose proof (pivot_candidate_range m col Hp) as Hk. fold k in Hk.
  destruct (@exchanged_spec m k pivotRow Hwf) as (-> & Hwf1 & [Hr1 Hc1] & _);
    try (unfold m, pivotRow in *; lia).
  fold m1 in Hwf1, Hr1, Hc1 |- *. simpl.
  unfold Matrix.getRows. fold m. rewrite <- Hr1.
  destruct (@eliminate_below_loop _ _ eps pivotRow col m1 Hwf1)
    as (m2 & -> & Hwf2 & [Hr2 Hc2] & Hraw2);
    try (unfold m, pivotRow in *; lia).
  simpl. exists m2. split; [reflexivity|]. split; [exact Hwf2|].
  split; [split; congruence|]. exact Hraw2.
Qed.
End REFStep.

(* ================================================================= *)
(** * toREF: termination without exception, and the pivot bookkeeping *)

Section REFShape.
Context {T : Type} `{Scalar T}.
Implicit Types m : Matrix.t T.

Lemma set_at_shape m r c v :
  r < Matrix.rows m -> c < Matrix.cols m ->
  returns (Matrix.set_at m r c v) (same_shape m).
Proof.
  intros Hr Hc. rewrite set_at_returns by assumption. split; reflexivity.
Qed.

Lemma row_loop_shape m t s (g : T -> T -> T) l :
  same_shape m
    (fold_left (fun m j => Matrix.set_raw m t j
                             (g (Matrix.raw m t j) (Matrix.raw m s j))) l m).
Proof.
  revert m; induction l as [|j l IH]; intros m; simpl.
  - apply same_shape_refl.
  - eapply same_shape_trans; [|apply IH]. split; reflexivity.
Qed.

Lemma addScaledRow_shape m t s k :
  t < Matrix.rows m -> s < Matrix.rows m ->
  returns (Matrix.addScaledRow m t s k) (same_shape m).
Proof.
  intros Ht Hs. unfold Matrix.addScaledRow.
  apply Nat.leb_gt in Ht, Hs. rewrite Ht, Hs; simpl.
  destruct (is_floating_point && sltb (sabs k) tiny); simpl.
  - apply same_shape_refl.
  - apply row_loop_shape with (g := fun x y => sadd x (smul y k)).
Qed.

Lemma exchangeRows_shape m r1 r2 :
  r1 < Matrix.rows m -> r2 < Matrix.rows m ->
  returns (Matrix.exchangeRows m r1 r2) (same_shape m).
Proof.
  intros H1 H2. rewrite exchangeRows_returns by assumption.
  split; reflexivity.
Qed.

(** The scan of [find_pivot] returns a row at or below [pivotRow], with the
    magnitude of its entry. *)
Lemma find_pivot_returns m pivotRow col :
  pivotRow < Matrix.rows m -> col < Matrix.cols m ->
  returns (RREF.find_pivot m pivotRow col)
    (fun '(k, v) => pivotRow <= k < Matrix.rows m /\
                    v = sabs (Matrix.raw m k col)).
Proof.
  intros Hp Hc. unfold RREF.find_pivot.
  rewrite at_returns by assumption. simpl.
  eapply returns_mono.
  - apply returns_foldM
      with (Inv := fun (j : nat) (kv : nat * T) =>
                     pivotRow <= fst kv < Matrix.rows m /\
                     snd kv = sabs (Matrix.raw m (fst kv) col)).
    + simpl. split; [lia | reflexivity].
    + intros j row [k v] Hrow [Hk Hv]; simpl in *.
      apply nth_error_seq_inv in Hrow as [Hj ->].
      unfold Matrix.getRows in Hj.
      rewrite at_returns by lia. simpl.
      destruct (sltb v _); simpl; split; auto; lia.
  - intros [k v] [Hk Hv]. simpl in *. auto.
Qed.

Lemma eliminate_below_shape eps pivotRow col m row :
  pivotRow < Matrix.rows m -> row < Matrix.rows m -> col < Matrix.cols m ->
  returns (RREF.eliminate_below eps pivotRow col m row) (same_shape m).
Proof.
  intros Hp Hr Hc. unfold RREF.eliminate_below.
  rewrite at_returns by assumption. simpl.
  destruct (sltb _ eps).
  - now apply set_at_shape.
  - rewrite !at_returns by assumption. simpl.
    apply returns_bind.
    eapply returns_mono; [now apply addScaledRow_shape|].
    intros m1 [Hr1 Hc1].
    eapply returns_mono; [apply set_at_shape; lia|].
    intros m2 [Hr2 Hc2]. split; congruence.
Qed.

Lemma eliminate_below_loop_shape eps pivotRow col m :
  pivotRow < Matrix.rows m -> col < Matrix.cols m ->
  returns (foldM (RREF.eliminate_below eps pivotRow col)
             (seq (pivotRow + 1) (Matrix.rows m - (pivotRow + 1))) m)
    (same_shape m).
Proof.
  intros Hp Hc.
  eapply returns_mono.
  - apply returns_foldM with (Inv := fun (_ : nat) m' => same_shape m m').
    + apply same_shape_refl.
    + intros j row m' Hrow [Hr' Hc'].
      apply nth_error_seq_inv in Hrow as [Hj ->].
      eapply returns_mono; [apply eliminate_below_shape; lia|].
      intros m'' Hsh. eapply same_shape_trans; [split; eassumption | exact Hsh].
  - auto.
Qed.

Lemma increasing_snoc (l : list nat) (c : nat) :
  increasing l -> Forall (fun x => x < c) l -> increasing (l ++ [c]).
Proof.
  intros Hinc Hlt i j Hij Hj. rewrite length_app in Hj; simpl in Hj.
  rewrite Forall_forall in Hlt.
  destruct (Nat.eq_dec j (length l)) as [->|Hne].
  - rewrite (app_nth1 l [c] 0 (n := i)) by lia.
    rewrite app_nth2, Nat.sub_diag by lia; simpl.
    apply Hlt, nth_In. lia.
  - rewrite !app_nth1 by lia. apply Hinc; lia.
Qed.

(** One iteration of the column loop keeps the bookkeeping invariant. *)
Lemma toREF_body_inv eps rows cols col s :
  col < cols -> RREF.r_pivotRow s < rows -> ref_inv rows cols col s ->
  returns (RREF.toREF_body eps col s) (ref_inv rows cols (Datatypes.S col)).
Proof.
  intros Hcol Hpr (Hr & Hc & Hrank & Hrows & Hlen & Hle & Hinc & Hlt).
  assert (Hlt' : Forall (fun c => c < Datatypes.S col) (RREF.r_pivotCols s)).
  { eapply Forall_impl; [|exact Hlt]. simpl. intros; lia. }
  unfold RREF.toREF_body, Matrix.getRows.
  apply returns_bind.
  eapply returns_mono; [apply find_pivot_returns; lia|].
  intros [k v] [Hk ->].
  destruct (sltb _ eps).
  - simpl. repeat (split; [assumption|]). exact Hlt'.
  - apply returns_bind.
    apply returns_mono
      with (P := same_shape (RREF.r_mat s)).
    { destruct (negb (k =? RREF.r_pivotRow s)).
      - apply exchangeRows_shape; lia.
      - simpl. apply same_shape_refl. }
    intros m1 [Hr1 Hc1].
    apply returns_bind.
    rewrite <- Hr1.
    eapply returns_mono; [apply eliminate_below_loop_shape; lia|].
    intros m2 [Hr2 Hc2]. unfold ref_inv; simpl.
    split; [congruence|]. split; [congruence|].
    split; [lia|].
    split; [rewrite Hrows, Nat.add_1_r, seq_S; reflexivity|].
    split; [rewrite length_app; simpl; lia|].
    split; [lia|].
    split; [now apply increasing_snoc|].
    apply Forall_app; split; [exact Hlt'|]. constructor; [lia | constructor].
Qed.

(** [toREF] never throws, and its pivots are those of [pivots_ok]. *)
Lemma toREF_returns (st : RREF.t T) eps :
  returns (RREF.toREF st eps)
    (fun st' => same_shape (RREF.mat st) (RREF.mat st') /\ pivots_ok st' /\
                RREF.isREF st' = true /\ RREF.isRREF st' = RREF.isRREF st).
Proof.
  unfold RREF.toREF, Matrix.getRows, Matrix.getCols.
  apply returns_bind.
  eapply returns_mono.
  - apply returns_for_while
      with (Inv := ref_inv (Matrix.rows (RREF.mat st)) (Matrix.cols (RREF.mat st))).
    + intros col s Hcond Hinv.
      apply andb_true_iff in Hcond as [Hc%Nat.ltb_lt Hp%Nat.ltb_lt].
      now apply toREF_body_inv.
    + unfold ref_inv; simpl. repeat (split; [reflexivity|]).
      split; [lia|]. split; [|constructor].
      intros i j Hij Hj. simpl in Hj. lia.
  - intros s (j & Hj & (Hr & Hc & Hrank & Hrows & Hlen & Hle & Hinc & Hlt) & _).
    simpl. split; [split; assumption|].
    split; [|split; reflexivity].
    unfold pivots_ok; simpl.
    rewrite Hrank, Hr, Hc.
    repeat (split; [assumption|]).
    eapply Forall_impl; [|exact Hlt]. simpl. intros; lia.
Qed.
End REFShape.

(* ================================================================= *)
(** * toREF in exact arithmetic: zeros below the pivots *)

Section REFEntries.
Context {T : Type} `{Scalar T} {EA : ExactArithmetic T}.
Implicit Types m : Matrix.t T.

Lemma increasing_lt (l : list nat) i j :
  increasing l -> i < j -> j < length l -> nth i l 0 <> nth j l 0.
Proof. intros Hinc Hij Hj. specialize (Hinc i j Hij Hj). lia. Qed.

Lemma increasing_inj (l : list nat) i j :
  increasing l -> i < length l -> j < length l -> i <> j ->
  nth i l 0 <> nth j l 0.
Proof.
  intros Hinc Hi Hj Hne.
  destruct (Nat.lt_ge_cases i j) as [Hlt|Hge].
  - now apply increasing_lt.
  - intros E. symmetry in E. revert E. apply increasing_lt; auto; lia.
Qed.

(** In a row whose entry and whose source entry are zero, a row step
    leaves zero. *)
Lemma axpy_entry_zero m t s k c :
  Matrix.raw m t c = s0 -> Matrix.raw m s c = s0 ->
  axpy_entry m t s k t c = s0.
Proof.
  intros Ht Hs. unfold axpy_entry.
  destruct (_ && _); [|exact Ht].
  now rewrite Ht, Hs, smul_0_l, sadd_0_r.
Qed.

(** A row step against a source row that is zero in column [c] keeps the
    entry of column [c]. *)
Lemma axpy_entry_keep m t s k c :
  Matrix.raw m s c = s0 -> axpy_entry m t s k t c = Matrix.raw m t c.
Proof.
  intros Hs. unfold axpy_entry.
  destruct (_ && _); [|reflexivity].
  now rewrite Hs, smul_0_l, sadd_0_r.
Qed.

Lemma toREF_body_entries eps rows cols col (s : RREF.ref_state T) :
  col < cols -> RREF.r_pivotRow s < rows -> ref_inv rows cols col s ->
  wf (RREF.r_mat s) ->
  zero_below (RREF.r_mat s) (RREF.r_pivotCols s) (RREF.r_pivotRow s) ->
  pivots_accepted eps (RREF.r_mat s) (RREF.r_pivotCols s) 0 (RREF.r_pivotRow s) ->
  returns (RREF.toREF_body eps col s)
    (fun s' =>
       wf (RREF.r_mat s') /\
       zero_below (RREF.r_mat s') (RREF.r_pivotCols s') (RREF.r_pivotRow s') /\
       pivots_accepted eps (RREF.r_mat s') (RREF.r_pivotCols s') 0
         (RREF.r_pivotRow s')).
Proof.
  intros Hcol Hpr (Hr & Hc & Hrank & Hrows & Hlen & Hle & Hinc & Hlt)
    Hwf Hzero Hacc.
  rewrite Forall_forall in Hlt.
  assert (Hpc : forall i, i < RREF.r_pivotRow s ->
                          nth i (RREF.r_pivotCols s) 0 < col).
  { intros i Hi. apply Hlt, nth_In. lia. }
  pose proof (@toREF_body_step _ _ eps col s Hwf) as Hstep.
  rewrite Hr, Hc in Hstep. specialize (Hstep Hcol Hpr). simpl in Hstep.
  set (m := RREF.r_mat s) in *.
  set (pivotRow := RREF.r_pivotRow s) in *.
  set (pcs := RREF.r_pivotCols s) in *.
  set (k := pivot_candidate m pivotRow col) in *.
  assert (Hk : pivotRow <= k < rows).
  { rewrite <- Hr. apply pivot_candidate_range. lia. }
  destruct (sltb (sabs (Matrix.raw m k col)) eps) eqn:Esmall.
  - rewrite Hstep. simpl. auto.
  - destruct Hstep as (m2 & -> & Hwf2 & [Hr2 Hc2] & Hraw2). simpl.
    destruct (@exchanged_spec _ _ m k pivotRow Hwf) as (_ & Hwf1 & [Hr1 Hc1] & Hraw1);
      try lia.
    set (m1 := exchanged m k pivotRow) in *.
    assert (Hz1 : forall i r, i < pivotRow -> i < r -> r < rows ->
                              Matrix.raw m1 r (nth i pcs 0) = s0).
    { intros i r Hi Hir Hrr. rewrite Hraw1. apply Hzero; auto.
      - destruct (r =? pivotRow); [lia|]. destruct (r =? k); lia.
      - rewrite Hr. destruct (r =? pivotRow); [lia|]. destruct (r =? k); lia. }
    split; [exact Hwf2|]. split.
    + intros i r Hi Hir Hrr. rewrite Hr2, Hr in Hrr. rewrite Hraw2, Hr.
      destruct (Nat.eq_dec i pivotRow) as [->|Hne].
      * rewrite app_nth2, Hlen, Nat.sub_diag by lia. simpl.
        replace ((pivotRow <? r) && (r <? rows)) with true
          by (symmetry; apply andb_true_iff; split; apply Nat.ltb_lt; lia).
        unfold elim_entry. now rewrite !Nat.eqb_refl.
      * assert (Hi' : i < pivotRow) by lia.
        rewrite app_nth1 by lia.
        destruct ((pivotRow <? r) && (r <? rows)) eqn:E;
          [|now apply Hz1].
        unfold elim_entry. rewrite Nat.eqb_refl.
        pose proof (Hpc i Hi') as Hlt_col.
        replace (nth i pcs 0 =? col) with false
          by (symmetry; apply Nat.eqb_neq; lia).
        destruct (sltb (sabs (Matrix.raw m1 r col)) eps); [now apply Hz1|].
        apply axpy_entry_zero; apply Hz1; auto; lia.
    + intros i _ Hi. rewrite Hraw2, Hr.
      replace ((pivotRow <? i) && (i <? rows)) with false
        by (symmetry; apply andb_false_iff; left; apply Nat.ltb_ge; lia).
      rewrite Hraw1.
      destruct (Nat.eq_dec i pivotRow) as [->|Hne].
      * rewrite app_nth2, Hlen, Nat.sub_diag by lia. simpl.
        rewrite Nat.eqb_refl. exact Esmall.
      * rewrite app_nth1 by lia.
        replace (i =? pivotRow) with false by (symmetry; apply Nat.eqb_neq; lia).
        replace (i =? k) with false by (symmetry; apply Nat.eqb_neq; lia).
        apply Hacc; lia.
Qed.

(** After [toREF]: the matrix is well-formed, the pivots are accepted and
    the columns are zero below them. *)
Lemma toREF_entries (st : RREF.t T) eps :
  wf (RREF.mat st) ->
  returns (RREF.toREF st eps)
    (fun st' =>
       (same_shape (RREF.mat st) (RREF.mat st') /\ pivots_ok st' /\
        RREF.isREF st' = true /\ RREF.isRREF st' = RREF.isRREF st) /\
       wf (RREF.mat st') /\
       zero_below (RREF.mat st') (RREF.pivotCols st') (RREF.rank st') /\
       pivots_accepted eps (RREF.mat st') (RREF.pivotCols st') 0 (RREF.rank st')).
Proof.
  intros Hwf. apply returns_conj; [apply toREF_returns|].
  unfold RREF.toREF, Matrix.getRows, Matrix.getCols.
  apply returns_bind.
  eapply returns_mono.
  - apply returns_for_while
      with (Inv := fun col s =>
              ref_inv (Matrix.rows (RREF.mat st)) (Matrix.cols (RREF.mat st)) col s /\
              wf (RREF.r_mat s) /\
              zero_below (RREF.r_mat s) (RREF.r_pivotCols s) (RREF.r_pivotRow s) /\
              pivots_accepted eps (RREF.r_mat s) (RREF.r_pivotCols s) 0
                (RREF.r_pivotRow s)).
    + intros col s Hcond (Hinv & Hwfs & Hz & Hacc).
      apply andb_true_iff in Hcond as [Hc%Nat.ltb_lt Hp%Nat.ltb_lt].
      apply returns_conj; [now apply toREF_body_inv|].
      now apply toREF_body_entries
        with (rows := Matrix.rows (RREF.mat st)) (cols := Matrix.cols (RREF.mat st)).
    + split.
      * unfold ref_inv; simpl. repeat (split; [reflexivity|]).
        split; [lia|]. split; [|constructor].
        intros i j Hij Hj. simpl in Hj. lia.
      * simpl. split; [exact Hwf|].
        split; [intros i r Hi; lia | intros i _ Hi; lia].
  - intros s (j & _ & ((_ & _ & Hrank & _) & Hwfs & Hz & Hacc) & _). simpl.
    rewrite Hrank. auto.
Qed.
End REFEntries.

(* ================================================================= *)
(** * toREF is the reduction of the design *)

Section REFRefinement.
Context {T : Type} `{Scalar T}.
Implicit Types m : Matrix.t T.

Lemma length_mapi_from {A B : Type} (f : nat -> A -> B) (l : list A) i :
  length (mapi_from i f l) = length l.
Proof.
  revert i; induction l as [|x l IH]; intros i; simpl; [reflexivity|].
  now rewrite IH.
Qed.

Lemma nth_mapi_from {A B : Type} (f : nat -> A -> B) (l : list A) i r dA dB :
  r < length l ->
  nth r (mapi_from i f l) dB = f (i + r) (nth r l dA).
Proof.
  revert i r; induction l as [|x l IH]; intros i r Hr; simpl in *; [lia|].
  destruct r as [|r].
  - now rewrite Nat.add_0_r.
  - rewrite (IH (Datatypes.S i) r) by lia. f_equal. lia.
Qed.

Lemma nth_map_lt {A B : Type} (f : A -> B) (l : list A) c dA dB :
  c < length l -> nth c (map f l) dB = f (nth c l dA).
Proof.
  revert c; induction l as [|x l IH]; intros [|c] Hc; simpl in *;
    try lia; [reflexivity|].
  apply IH. lia.
Qed.

Lemma length_add_scaled_row (row other : list T) k :
  length other = length row ->
  length (add_scaled_row row other k) = length row.
Proof.
  intros Hlen. unfold add_scaled_row.
  destruct (_ && _); [reflexivity|].
  rewrite length_map, length_combine. lia.
Qed.

Lemma nth_add_scaled_row (row other : list T) k c :
  length other = length row -> c < length row ->
  nth c (add_scaled_row row other k) s0 =
  if negb (is_floating_point && sltb (sabs k) tiny)
  then sadd (nth c row s0) (smul (nth c other s0) k)
  else nth c row s0.
Proof.
  intros Hlen Hc. unfold add_scaled_row.
  destruct (_ && _); simpl; [reflexivity|].
  rewrite nth_map_lt with (dA := (s0, s0)) by (rewrite length_combine; lia).
  rewrite combine_nth by lia. reflexivity.
Qed.

Lemma length_eliminate_unless_small eps col (prow row : list T) :
  length prow = length row ->
  length (eliminate_unless_small eps col prow row) = length row.
Proof.
  intros Hlen. unfold eliminate_unless_small, eliminate_by_row_step.
  destruct (sltb _ eps); rewrite length_upd; [reflexivity|].
  now apply length_add_scaled_row.
Qed.

(** The entries of a row eliminated as the design says. *)
Lemma nth_eliminate_unless_small eps col (prow row : list T) c :
  length prow = length row -> col < length row -> c < length row ->
  nth c (eliminate_unless_small eps col prow row) s0 =
  if c =? col then s0
  else if sltb (sabs (nth col row s0)) eps then nth c row s0
  else if negb (is_floating_point &&
                sltb (sabs (sdiv (sneg (nth col row s0)) (nth col prow s0))) tiny)
  then sadd (nth c row s0)
         (smul (nth c prow s0) (sdiv (sneg (nth col row s0)) (nth col prow s0)))
  else nth c row s0.
Proof.
  intros Hlen Hcol Hc. unfold eliminate_unless_small, eliminate_by_row_step.
  destruct (sltb (sabs (nth col row s0)) eps).
  - rewrite nth_upd.
    replace (col <? length row) with true by (symmetry; apply Nat.ltb_lt; lia).
    rewrite andb_true_r. reflexivity.
  - rewrite nth_upd, length_add_scaled_row by exact Hlen.
    replace (col <? length row) with true by (symmetry; apply Nat.ltb_lt; lia).
    rewrite andb_true_r.
    destruct (c =? col); [reflexivity|].
    now apply nth_add_scaled_row.
Qed.

(** One iteration of the column loop is one step of the design. *)
Lemma toREF_body_described eps col (s : RREF.ref_state T) :
  wf (RREF.r_mat s) -> col < Matrix.cols (RREF.r_mat s) ->
  RREF.r_pivotRow s < Matrix.rows (RREF.r_mat s) ->
  RREF.toREF_body eps col s = Ok (described_step eliminate_unless_small eps col s) /\
  wf (RREF.r_mat (described_step eliminate_unless_small eps col s)) /\
  same_shape (RREF.r_mat s)
    (RREF.r_mat (described_step eliminate_unless_small eps col s)).
Proof.
  intros Hwf Hc Hp.
  pose proof (@toREF_body_step _ _ eps col s Hwf Hc Hp) as Hstep.
  simpl in Hstep. unfold described_step.
  set (m := RREF.r_mat s) in *.
  set (pivotRow := RREF.r_pivotRow s) in *.
  set (k := pivot_candidate m pivotRow col) in *.
  destruct (sltb (sabs (Matrix.raw m k col)) eps).
  - split; [exact Hstep|]. split; [exact Hwf | apply same_shape_refl].
  - destruct Hstep as (m2 & -> & Hwf2 & [Hr2 Hc2] & Hraw2).
    pose proof (pivot_candidate_range m col Hp) as Hk. fold k in Hk.
    destruct (@exchanged_spec _ _ m k pivotRow Hwf)
      as (_ & Hwf1 & [Hr1 Hc1] & _); try lia.
    set (m1 := exchanged m k pivotRow) in *.
    set (prow := nth pivotRow (Matrix.data m1) []).
    set (below := mapi_from 0 _ (Matrix.data m1)).
    assert (Hlen1 : length (Matrix.data m1) = Matrix.rows m)
      by (destruct Hwf1; lia).
    assert (Hrowlen : forall r, r < Matrix.rows m ->
              length (nth r (Matrix.data m1) []) = Matrix.cols m).
    { intros r Hr. rewrite <- Hc1. apply raw_row_length; [exact Hwf1 | lia]. }
    assert (Hwfd : wf (Matrix.mk (Matrix.rows m) (Matrix.cols m) below)).
    { split; simpl.
      - unfold below. now rewrite length_mapi_from.
      - apply Forall_forall. intros row Hin.
        destruct (In_nth _ _ [] Hin) as (r & Hr & <-).
        unfold below in Hr |- *. rewrite length_mapi_from in Hr.
        rewrite nth_mapi_from with (dA := []) by exact Hr. simpl.
        destruct (r <=? pivotRow); [apply Hrowlen; lia|].
        rewrite length_eliminate_unless_small; unfold prow;
          rewrite ?Hrowlen by lia; auto; apply Hrowlen; lia. }
    assert (E : m2 = Matrix.mk (Matrix.rows m) (Matrix.cols m) below).
    { apply matrix_ext; [exact Hwfd | exact Hwf2 | split; simpl; assumption |].
      simpl. intros r c Hr Hcc. rewrite Hraw2.
      change (Matrix.raw (Matrix.mk (Matrix.rows m) (Matrix.cols m) below) r c)
        with (nth c (nth r below []) s0).
      unfold below.
      rewrite nth_mapi_from with (dA := []) by lia. simpl.
      apply Nat.ltb_lt in Hr as Hrb. rewrite Hrb, andb_true_r.
      destruct (Nat.leb_spec r pivotRow) as [Hle|Hgt].
      - replace (pivotRow <? r) with false by (symmetry; apply Nat.ltb_ge; lia).
        reflexivity.
      - replace (pivotRow <? r) with true by (symmetry; apply Nat.ltb_lt; lia).
        rewrite nth_eliminate_unless_small;
          unfold prow; rewrite ?Hrowlen by lia; auto.
        unfold elim_entry, axpy_entry, Matrix.raw.
        rewrite Nat.eqb_refl, Hc1.
        apply Nat.ltb_lt in Hcc as Hcb. rewrite Hcb. simpl.
        reflexivity. }
    rewrite <- E. split; [reflexivity|]. split; [exact Hwf2|].
    split; assumption.
Qed.

(** The column loop is the iteration of the step of the design. *)
Lemma toREF_loop_described eps rows cols fuel col (s : RREF.ref_state T) :
  wf (RREF.r_mat s) -> Matrix.rows (RREF.r_mat s) = rows ->
  Matrix.cols (RREF.r_mat s) = cols ->
  for_while fuel col
    (fun col s => (col <? cols) && (RREF.r_pivotRow s <? rows))
    (RREF.toREF_body eps) s =
  Ok (described_columns eliminate_unless_small eps rows cols fuel col s).
Proof.
  revert col s; induction fuel as [|fuel IH]; intros col s Hwf Hr Hc; simpl;
    [reflexivity|].
  destruct ((col <? cols) && (RREF.r_pivotRow s <? rows)) eqn:Econd;
    [|reflexivity].
  apply andb_true_iff in Econd as [Hcol%Nat.ltb_lt Hp%Nat.ltb_lt].
  destruct (@toREF_body_described eps col s Hwf) as (-> & Hwf' & [Hr' Hc']);
    try lia.
  simpl. apply IH; [exact Hwf' | congruence | congruence].
Qed.

Lemma toREF_described (st : RREF.t T) eps :
  wf (RREF.mat st) ->
  RREF.toREF st eps = Ok (described_REF eliminate_unless_small st eps).
Proof.
  intros Hwf. unfold RREF.toREF, described_REF, Matrix.getRows, Matrix.getCols.
  rewrite toREF_loop_described
    with (rows := Matrix.rows (RREF.mat st)) (cols := Matrix.cols (RREF.mat st));
    auto.
Qed.

(** With a strict order on the scalars, the candidate has the largest
    magnitude: no candidate row has a strictly larger one. *)
Lemma argmax_abs_largest {O : OrderedScalar T} m col cands best :
  let k := argmax_abs m col best cands in
  (k = best \/
   sltb (sabs (Matrix.raw m best col)) (sabs (Matrix.raw m k col)) = true) /\
  forall r, In r (best :: cands) ->
            sltb (sabs (Matrix.raw m k col)) (sabs (Matrix.raw m r col)) = false.
Proof.
  revert best; induction cands as [|r0 cands IH]; intros best; simpl.
  - split; [now left|]. intros r [<-|[]]. apply sltb_irrefl.
  - destruct (sltb (sabs (Matrix.raw m best col)) (sabs (Matrix.raw m r0 col)))
      eqn:E.
    + destruct (IH r0) as (Hk & Hmax).
      set (k := argmax_abs m col r0 cands) in *.
      assert (Hbk : sltb (sabs (Matrix.raw m best col))
                         (sabs (Matrix.raw m k col)) = true).
      { destruct Hk as [->|Hk]; [exact E|]. eapply sltb_trans; eassumption. }
      split; [now right|].
      intros r [<-|Hin]; [|now apply Hmax].
      destruct (sltb (sabs (Matrix.raw m k col)) (sabs (Matrix.raw m best col)))
        eqn:E'; [|reflexivity].
      pose proof (sltb_trans _ _ _ Hbk E') as Habs.
      rewrite sltb_irrefl in Habs. discriminate.
    + destruct (IH best) as (Hk & Hmax).
      set (k := argmax_abs m col best cands) in *.
      split; [exact Hk|].
      intros r [<-|[<-|Hin]].
      * apply Hmax. now left.
      * destruct (sltb (sabs (Matrix.raw m k col)) (sabs (Matrix.raw m r0 col)))
          eqn:E'; [|reflexivity].
        destruct Hk as [Hk|Hk].
        -- rewrite Hk, E in E'. discriminate.
        -- pose proof (sltb_trans _ _ _ Hk E') as Habs.
           rewrite E in Habs. discriminate.
      * apply Hmax. now right.
Qed.

Lemma pivot_candidate_largest {O : OrderedScalar T} m pivotRow col :
  pivotRow < Matrix.rows m ->
  pivotRow <= pivot_candidate m pivotRow col < Matrix.rows m /\
  forall r, pivotRow <= r < Matrix.rows m ->
            sltb (sabs (Matrix.raw m (pivot_candidate m pivotRow col) col))
                 (sabs (Matrix.raw m r col)) = false.
Proof.
  intros Hp. split; [now apply pivot_candidate_range|].
  intros r Hr. unfold pivot_candidate.
  apply (@argmax_abs_largest O m col
           (seq (pivotRow + 1) (Matrix.rows m - (pivotRow + 1))) pivotRow).
  destruct (Nat.eq_dec r pivotRow) as [->|Hne]; [now left|].
  right. apply in_seq. lia.
Qed.
End REFRefinement.

(* ================================================================= *)
(** * toRREF and getKernel: the bookkeeping survives *)

Section RREFShape.
Context {T : Type} `{Scalar T}.
Implicit Types m : Matrix.t T.

Lemma set_at_keeps_shape m r c v :
  if_returns (Matrix.set_at m r c v) (same_shape m).
Proof.
  unfold Matrix.set_at. destruct (_ || _); simpl; [exact I|].
  split; reflexivity.
Qed.

Lemma scaleRow_keeps_shape m r k :
  if_returns (Matrix.scaleRow m r k) (same_shape m).
Proof.
  unfold Matrix.scaleRow.
  destruct (_ <=? _); simpl; [exact I|].
  destruct (_ && _); simpl; [exact I|].
  apply row_loop_shape with (s := r) (g := fun x _ => smul x k).
Qed.

Lemma addScaledRow_keeps_shape m t s k :
  if_returns (Matrix.addScaledRow m t s k) (same_shape m).
Proof.
  unfold Matrix.addScaledRow.
  destruct (_ || _); simpl; [exact I|].
  destruct (_ && _); simpl; [apply same_shape_refl|].
  apply row_loop_shape with (g := fun x y => sadd x (smul y k)).
Qed.

(** A loop whose body keeps the shape keeps the shape. *)
Lemma foldM_keeps_shape {I : Type} (body : Matrix.t T -> I -> result (Matrix.t T))
  (l : list I) m :
  (forall m i, if_returns (body m i) (same_shape m)) ->
  if_returns (foldM body l m) (same_shape m).
Proof.
  intros Hbody.
  eapply if_returns_mono.
  - apply if_returns_foldM with (Inv := fun (_ : nat) m' => same_shape m m').
    + apply same_shape_refl.
    + intros k i m' _ Hsh.
      eapply if_returns_mono; [apply Hbody|].
      intros m'' Hsh'. eapply same_shape_trans; eassumption.
  - auto.
Qed.

Lemma normalize_pivot_keeps_shape pRows pCols m i :
  if_returns (RREF.normalize_pivot pRows pCols m i) (same_shape m).
Proof.
  unfold RREF.normalize_pivot. apply if_returns_bind.
  destruct (Matrix.at_ _ _ _); simpl; [|exact I].
  apply scaleRow_keeps_shape.
Qed.

Lemma eliminate_above_keeps_shape eps row col m upperRow :
  if_returns (RREF.eliminate_above eps row col m upperRow) (same_shape m).
Proof.
  unfold RREF.eliminate_above. apply if_returns_bind.
  destruct (Matrix.at_ _ _ _) as [x|]; simpl; [|exact I].
  destruct (sltb _ eps); [apply set_at_keeps_shape|].
  apply if_returns_bind.
  eapply if_returns_mono; [apply addScaledRow_keeps_shape|].
  intros m1 Hsh1.
  eapply if_returns_mono; [apply set_at_keeps_shape|].
  intros m2 Hsh2. eapply same_shape_trans; eassumption.
Qed.

Lemma clear_above_keeps_shape eps pRows pCols m i :
  if_returns (RREF.clear_above eps pRows pCols m i) (same_shape m).
Proof.
  unfold RREF.clear_above. apply foldM_keeps_shape.
  intros; apply eliminate_above_keeps_shape.
Qed.

Lemma snap_keeps_shape eps m i j :
  if_returns (RREF.snap eps m i j) (same_shape m).
Proof.
  unfold RREF.snap. apply if_returns_bind.
  destruct (Matrix.at_ _ _ _) as [x|]; simpl; [|exact I].
  destruct (sltb _ eps); [apply set_at_keeps_shape | apply same_shape_refl].
Qed.

Lemma cleanup_keeps_shape eps rows cols m :
  if_returns (RREF.cleanup eps rows cols m) (same_shape m).
Proof.
  unfold RREF.cleanup. apply foldM_keeps_shape.
  intros m' i. apply foldM_keeps_shape.
  intros; apply snap_keeps_shape.
Qed.

Lemma pivots_ok_same_shape (st : RREF.t T) m isref isrref :
  pivots_ok st -> same_shape (RREF.mat st) m ->
  pivots_ok (RREF.mk m (RREF.rank st) (RREF.pivotCols st) (RREF.pivotRows st)
               isref isrref).
Proof.
  intros (Hrows & Hlen & Hle & Hinc & Hlt) [Hr Hc].
  unfold pivots_ok; simpl. rewrite Hr, Hc. auto.
Qed.

(** Whenever [toRREF] returns from an engine that was not reduced before,
    the pivots are those that [toREF] found. *)
Lemma toRREF_keeps_pivots (st : RREF.t T) eps :
  RREF.isREF st = false ->
  if_returns (RREF.toRREF st eps)
    (fun st' => same_shape (RREF.mat st) (RREF.mat st') /\ pivots_ok st' /\
                RREF.isREF st' = true /\ RREF.isRREF st' = true).
Proof.
  intros Href. unfold RREF.toRREF. rewrite Href; simpl.
  apply if_returns_bind, returns_if_returns.
  eapply returns_mono; [apply toREF_returns|].
  intros st1 (Hsh1 & Hpiv & Hisref & _).
  apply if_returns_bind.
  eapply if_returns_mono;
    [apply foldM_keeps_shape; intros; apply normalize_pivot_keeps_shape|].
  intros m1 Hm1.
  apply if_returns_bind.
  eapply if_returns_mono;
    [apply foldM_keeps_shape; intros; apply clear_above_keeps_shape|].
  intros m2 Hm2.
  apply if_returns_bind.
  eapply if_returns_mono; [apply cleanup_keeps_shape|].
  intros m3 Hm3. simpl.
  assert (Hsh : same_shape (RREF.mat st1) m3)
    by (eapply same_shape_trans; [eapply same_shape_trans|]; eassumption).
  split; [eapply same_shape_trans; eassumption|].
  split; [now apply pivots_ok_same_shape|]. split; [exact Hisref | reflexivity].
Qed.
End RREFShape.

(* ================================================================= *)
(** * toRREF in exact arithmetic: the reduced form *)

Section RREFEntries.
Context {T : Type} `{Scalar T} {EA : ExactArithmetic T}.
Implicit Types m : Matrix.t T.

Variable eps : T.
Variable k : nat.
Variable pcs : list nat.
Variables rows cols : nat.
Hypothesis Hlen : length pcs = k.
Hypothesis Hinc : increasing pcs.
Hypothesis Hcols : Forall (fun c => c < cols) pcs.
Hypothesis Hk : k <= rows.

Lemma pivot_col_lt i : i < k -> nth i pcs 0 < cols.
Proof.
  intros Hi. rewrite Forall_forall in Hcols. apply Hcols, nth_In. lia.
Qed.

Lemma pivot_col_inj i j : i < k -> j < k -> i <> j -> nth i pcs 0 <> nth j pcs 0.
Proof. intros; apply increasing_inj; auto; lia. Qed.

(** Lines 71-76: each pivot row is scaled by the reciprocal of its pivot. *)
Lemma normalize_entries m0 :
  sltb (sabs s0) eps = true ->
  wf m0 -> Matrix.rows m0 = rows -> Matrix.cols m0 = cols ->
  zero_below m0 pcs k -> pivots_accepted eps m0 pcs 0 k ->
  if_returns (foldM (RREF.normalize_pivot (seq 0 k) pcs) (seq 0 k) m0)
    (fun m1 => wf m1 /\ same_shape m0 m1 /\
               zero_below m1 pcs k /\ pivots_one m1 pcs k).
Proof.
  intros Heps Hwf Hr Hc Hz Hacc.
  eapply if_returns_mono.
  - apply if_returns_foldM
      with (Inv := fun j m' =>
              wf m' /\ same_shape m0 m' /\ zero_below m' pcs k /\
              pivots_one m' pcs j /\ pivots_accepted eps m' pcs j k).
    + split; [exact Hwf|]. split; [apply same_shape_refl|].
      split; [exact Hz|]. split; [intros i Hi; lia | exact Hacc].
    + intros j i m' Hi (Hwf' & [Hr' Hc'] & Hz' & Hone' & Hacc').
      apply nth_error_seq_inv in Hi as [Hj ->]. simpl.
      unfold RREF.normalize_pivot. rewrite seq_nth by exact Hj. simpl.
      pose proof (pivot_col_lt Hj) as Hpc.
      rewrite at_returns by lia. simpl.
      set (p := Matrix.raw m' j (nth j pcs 0)).
      destruct (Matrix.scaleRow m' j (sdiv s1 p)) as [m''|e] eqn:Escale;
        simpl; [|exact I].
      destruct (scaleRow_returns _ _ Hwf' Escale)
        as (_ & _ & Hwf'' & [Hr'' Hc''] & Hraw).
      assert (Hp : p <> s0).
      { intros E. specialize (Hacc' j (Nat.le_refl j) Hj). fold p in Hacc'.
        rewrite E, Heps in Hacc'. discriminate. }
      split; [exact Hwf''|]. split; [split; congruence|].
      split; [|split].
      * intros i r Hi Hir Hrr. rewrite Hraw.
        destruct (r =? j) eqn:Er; simpl.
        -- apply Nat.eqb_eq in Er. subst r.
           destruct (_ <? _); [|apply Hz'; lia].
           rewrite Hz' by lia. apply smul_0_l.
        -- apply Hz'; auto. lia.
      * intros i Hi. rewrite Hraw.
        destruct (i =? j) eqn:Ei; simpl.
        -- apply Nat.eqb_eq in Ei. subst i.
           replace (nth j pcs 0 <? Matrix.cols m') with true
             by (symmetry; apply Nat.ltb_lt; lia).
           fold p. now apply smul_recip.
        -- apply Nat.eqb_neq in Ei. apply Hone'. lia.
      * intros i Hji Hi. rewrite Hraw.
        replace (i =? j) with false by (symmetry; apply Nat.eqb_neq; lia).
        simpl. apply Hacc'; lia.
  - rewrite length_seq. intros m1 (Hwf1 & Hsh & Hz1 & Hone & _). auto.
Qed.

(** Lines 81-89: the column of pivot [i] is cleared above it. *)
Lemma clear_above_entries m i :
  i < k -> wf m -> Matrix.rows m = rows -> Matrix.cols m = cols ->
  zero_below m pcs k -> pivots_one m pcs k ->
  zero_above m pcs (Datatypes.S i) k ->
  returns (RREF.clear_above eps (seq 0 k) pcs m i)
    (fun m' => wf m' /\ same_shape m m' /\ zero_below m' pcs k /\
               pivots_one m' pcs k /\ zero_above m' pcs i k).
Proof.
  intros Hi Hwf Hr Hc Hz Hone Hza.
  unfold RREF.clear_above. rewrite seq_nth by exact Hi. simpl.
  pose proof (pivot_col_lt Hi) as Hpc.
  set (col := nth i pcs 0) in *.
  eapply returns_mono.
  - apply returns_foldM
      with (Inv := fun t m' =>
              wf m' /\ same_shape m m' /\ zero_below m' pcs k /\
              pivots_one m' pcs k /\ zero_above m' pcs (Datatypes.S i) k /\
              forall r, i - t <= r -> r < i -> Matrix.raw m' r col = s0).
    + split; [exact Hwf|]. split; [apply same_shape_refl|].
      split; [exact Hz|]. split; [exact Hone|]. split; [exact Hza|].
      intros r Hr1 Hr2. lia.
    + intros t u m' Hu (Hwf' & [Hr' Hc'] & Hz' & Hone' & Hza' & Hdone).
      apply nth_error_rev_seq_inv in Hu as [Ht ->].
      set (u := i - 1 - t).
      assert (Hui : u < i) by (unfold u; lia).
      destruct (@eliminate_above_spec _ _ eps i col m' u Hwf')
        as (m'' & -> & Hwf'' & [Hr'' Hc''] & Hraw); try lia.
      simpl.
      assert (Hrow : forall c, c <> col ->
                (Matrix.raw m' i c = s0 -> Matrix.raw m'' u c = Matrix.raw m' u c)).
      { intros c Hne Hzero. rewrite Hraw. unfold elim_entry.
        rewrite Nat.eqb_refl.
        replace (c =? col) with false by (symmetry; apply Nat.eqb_neq; lia).
        destruct (sltb _ eps); [reflexivity|].
        now apply axpy_entry_keep. }
      assert (Hother : forall r c, r <> u -> Matrix.raw m'' r c = Matrix.raw m' r c).
      { intros r c Hne. rewrite Hraw. unfold elim_entry.
        replace (r =? u) with false by (symmetry; apply Nat.eqb_neq; lia).
        reflexivity. }
      split; [exact Hwf''|]. split; [split; congruence|].
      split; [|split; [|split]].
      * intros a r Ha Har Hrr.
        destruct (Nat.eq_dec r u) as [->|Hne].
        -- rewrite Hrow; [apply Hz'; lia | |apply Hz'; lia].
           apply pivot_col_inj; lia.
        -- rewrite Hother by exact Hne. apply Hz'; auto. lia.
      * intros a Ha.
        destruct (Nat.eq_dec a u) as [->|Hne].
        -- rewrite Hrow; [now apply Hone' | |apply Hz'; lia].
           apply pivot_col_inj; lia.
        -- rewrite Hother by exact Hne. now apply Hone'.
      * intros a r Hia Ha Hra.
        destruct (Nat.eq_dec r u) as [->|Hne].
        -- rewrite Hrow; [now apply Hza' | |apply Hza'; lia].
           apply pivot_col_inj; lia.
        -- rewrite Hother by exact Hne. now apply Hza'.
      * intros r Hr1 Hr2.
        destruct (Nat.eq_dec r u) as [->|Hne].
        -- rewrite Hraw. unfold elim_entry. now rewrite !Nat.eqb_refl.
        -- rewrite Hother by exact Hne. apply Hdone; [unfold u in Hne|]; lia.
  - rewrite length_rev, length_seq.
    intros m' (Hwf' & Hsh & Hz' & Hone' & Hza' & Hdone).
    split; [exact Hwf'|]. split; [exact Hsh|]. split; [exact Hz'|].
    split; [exact Hone'|].
    intros a r Hia Ha Hra.
    destruct (Nat.eq_dec a i) as [->|Hne]; [apply Hdone; lia|].
    apply Hza'; lia.
Qed.

(** Lines 78-90: the pivots from the last to the first. *)
Lemma clear_all_entries m1 :
  wf m1 -> Matrix.rows m1 = rows -> Matrix.cols m1 = cols ->
  zero_below m1 pcs k -> pivots_one m1 pcs k ->
  returns (foldM (RREF.clear_above eps (seq 0 k) pcs) (rev (seq 0 k)) m1)
    (fun m2 => wf m2 /\ same_shape m1 m2 /\ zero_below m2 pcs k /\
               pivots_one m2 pcs k /\ zero_above m2 pcs 0 k).
Proof.
  intros Hwf Hr Hc Hz Hone.
  eapply returns_mono.
  - apply returns_foldM
      with (Inv := fun j m' =>
              wf m' /\ same_shape m1 m' /\ zero_below m' pcs k /\
              pivots_one m' pcs k /\ zero_above m' pcs (k - j) k).
    + split; [exact Hwf|]. split; [apply same_shape_refl|].
      split; [exact Hz|]. split; [exact Hone|].
      intros a r Ha1 Ha2. lia.
    + intros j i m' Hi (Hwf' & [Hr' Hc'] & Hz' & Hone' & Hza').
      apply nth_error_rev_seq_inv in Hi as [Hj ->].
      eapply returns_mono.
      * apply clear_above_entries; auto; try lia; try congruence.
        replace (Datatypes.S (k - 1 - j)) with (k - j) by lia. exact Hza'.
      * intros m'' (Hwf'' & [Hr'' Hc''] & Hz'' & Hone'' & Hza'').
        split; [exact Hwf''|]. split; [split; congruence|].
        split; [exact Hz''|]. split; [exact Hone''|].
        replace (k - Datatypes.S j) with (k - 1 - j) by lia. exact Hza''.
  - rewrite length_rev, length_seq, Nat.sub_diag. auto.
Qed.
End RREFEntries.

Section Cleanup.
Context {T : Type} `{Scalar T}.
Implicit Types m : Matrix.t T.

Lemma snap_spec eps m i j :
  wf m -> i < Matrix.rows m -> j < Matrix.cols m ->
  exists m', RREF.snap eps m i j = Ok m' /\ wf m' /\ same_shape m m' /\
             forall r c, Matrix.raw m' r c =
                         if (r =? i) && (c =? j)
                         then snapped eps (Matrix.raw m r c)
                         else Matrix.raw m r c.
Proof.
  intros Hwf Hi Hj. unfold RREF.snap, snapped.
  rewrite at_returns by assumption. simpl.
  destruct (sltb (sabs (Matrix.raw m i j)) eps) eqn:E.
  - rewrite set_at_returns by assumption. eexists. split; [reflexivity|].
    split; [now apply wf_set_raw|]. split; [split; reflexivity|].
    intros r c. rewrite raw_set_raw by assumption.
    destruct ((r =? i) && (c =? j)) eqn:Erc; [|reflexivity].
    apply andb_true_iff in Erc as [->%Nat.eqb_eq ->%Nat.eqb_eq].
    now rewrite E.
  - exists m. split; [reflexivity|]. split; [exact Hwf|].
    split; [apply same_shape_refl|].
    intros r c.
    destruct ((r =? i) && (c =? j)) eqn:Erc; [|reflexivity].
    apply andb_true_iff in Erc as [->%Nat.eqb_eq ->%Nat.eqb_eq].
    now rewrite E.
Qed.

Lemma cleanup_row eps m i :
  wf m -> i < Matrix.rows m ->
  returns (foldM (fun m j => RREF.snap eps m i j) (seq 0 (Matrix.cols m)) m)
    (fun m' => wf m' /\ same_shape m m' /\
               forall r c, Matrix.raw m' r c =
                           if (r =? i) && (c <? Matrix.cols m)
                           then snapped eps (Matrix.raw m r c)
                           else Matrix.raw m r c).
Proof.
  intros Hwf Hi.
  eapply returns_mono.
  - apply returns_foldM
      with (Inv := fun j m' =>
              wf m' /\ same_shape m m' /\
              forall r c, Matrix.raw m' r c =
                          if (r =? i) && (c <? j)
                          then snapped eps (Matrix.raw m r c)
                          else Matrix.raw m r c).
    + split; [exact Hwf|]. split; [apply same_shape_refl|].
      intros r c. now rewrite andb_false_r.
    + intros j c0 m' Hc0 (Hwf' & [Hr' Hc'] & Hraw').
      apply nth_error_seq_inv in Hc0 as [Hj ->]. simpl.
      destruct (@snap_spec eps m' i j Hwf') as (m'' & -> & Hwf'' & [Hr'' Hc''] & Hraw'');
        try lia.
      simpl. split; [exact Hwf''|]. split; [split; congruence|].
      intros r c. rewrite Hraw'', !Hraw'.
      destruct (r =? i) eqn:Er; simpl; [|reflexivity].
      destruct (c =? j) eqn:Ec.
      * apply Nat.eqb_eq in Ec. subst c.
        rewrite Nat.ltb_irrefl.
        replace (j <? Datatypes.S j) with true
          by (symmetry; apply Nat.ltb_lt; lia).
        reflexivity.
      * apply Nat.eqb_neq in Ec.
        destruct (c <? j) eqn:E1.
        -- apply Nat.ltb_lt in E1.
           replace (c <? Datatypes.S j) with true
             by (symmetry; apply Nat.ltb_lt; lia).
           reflexivity.
        -- apply Nat.ltb_ge in E1.
           replace (c <? Datatypes.S j) with false
             by (symmetry; apply Nat.ltb_ge; lia).
           reflexivity.
  - rewrite length_seq. auto.
Qed.

(** Lines 92-96: every entry is snapped. *)
Lemma cleanup_entries eps m :
  wf m ->
  returns (RREF.cleanup eps (Matrix.rows m) (Matrix.cols m) m)
    (fun m' => wf m' /\ same_shape m m' /\
               forall r c, r < Matrix.rows m -> c < Matrix.cols m ->
                           Matrix.raw m' r c = snapped eps (Matrix.raw m r c)).
Proof.
  intros Hwf. unfold RREF.cleanup.
  eapply returns_mono.
  - apply returns_foldM
      with (Inv := fun i m' =>
              wf m' /\ same_shape m m' /\
              forall r c, Matrix.raw m' r c =
                          if (r <? i) && (c <? Matrix.cols m)
                          then snapped eps (Matrix.raw m r c)
                          else Matrix.raw m r c).
    + split; [exact Hwf|]. split; [apply same_shape_refl|]. reflexivity.
    + intros i r0 m' Hr0 (Hwf' & [Hr' Hc'] & Hraw').
      apply nth_error_seq_inv in Hr0 as [Hi ->]. simpl.
      rewrite <- Hc'.
      eapply returns_mono; [apply cleanup_row; auto; lia|].
      intros m'' (Hwf'' & [Hr'' Hc''] & Hraw'').
      split; [exact Hwf''|]. split; [split; congruence|].
      intros r c. rewrite Hraw'', !Hraw', Hc'.
      destruct (r =? i) eqn:Er; simpl.
      * apply Nat.eqb_eq in Er. subst r. rewrite Nat.ltb_irrefl. simpl.
        replace (i <? Datatypes.S i) with true
          by (symmetry; apply Nat.ltb_lt; lia).
        reflexivity.
      * apply Nat.eqb_neq in Er.
        destruct (r <? i) eqn:E1.
        -- apply Nat.ltb_lt in E1.
           replace (r <? Datatypes.S i) with true
             by (symmetry; apply Nat.ltb_lt; lia).
           reflexivity.
        -- apply Nat.ltb_ge in E1.
           replace (r <? Datatypes.S i) with false
             by (symmetry; apply Nat.ltb_ge; lia).
           reflexivity.
  - rewrite length_seq.
    intros m' (Hwf' & Hsh & Hraw). split; [exact Hwf'|]. split; [exact Hsh|].
    intros r c Hr Hc. rewrite Hraw.
    apply Nat.ltb_lt in Hr, Hc. now rewrite Hr, Hc.
Qed.
End Cleanup.

(* ================================================================= *)
(** * toRREF: well-formedness, and the reduced form *)

Section RREFWf.
Context {T : Type} `{Scalar T}.
Implicit Types m : Matrix.t T.

Lemma toREF_wf (st : RREF.t T) eps :
  wf (RREF.mat st) -> returns (RREF.toREF st eps) (fun st' => wf (RREF.mat st')).
Proof.
  intros Hwf. unfold RREF.toREF, Matrix.getRows, Matrix.getCols.
  apply returns_bind.
  eapply returns_mono.
  - apply returns_for_while
      with (Inv := fun col s =>
              ref_inv (Matrix.rows (RREF.mat st)) (Matrix.cols (RREF.mat st)) col s /\
              wf (RREF.r_mat s)).
    + intros col s Hcond (Hinv & Hwfs).
      apply andb_true_iff in Hcond as [Hc%Nat.ltb_lt Hp%Nat.ltb_lt].
      apply returns_conj; [now apply toREF_body_inv|].
      destruct Hinv as (Hr & Hcs & _).
      pose proof (@toREF_body_step _ _ eps col s Hwfs) as Hstep.
      rewrite Hr, Hcs in Hstep. specialize (Hstep Hc Hp). simpl in Hstep.
      destruct (sltb _ eps).
      * rewrite Hstep. exact Hwfs.
      * destruct Hstep as (m2 & -> & Hwf2 & _). exact Hwf2.
    + split; [|exact Hwf].
      unfold ref_inv; simpl. repeat (split; [reflexivity|]).
      split; [lia|]. split; [|constructor].
      intros i j Hij Hj. simpl in Hj. lia.
  - intros s (j & _ & (_ & Hwfs) & _). exact Hwfs.
Qed.

Lemma set_at_keeps_wf m r c v :
  wf m -> if_returns (Matrix.set_at m r c v) (wf_same m).
Proof.
  intros Hwf. unfold Matrix.set_at. destruct (_ || _); simpl; [exact I|].
  split; [now apply wf_set_raw | split; reflexivity].
Qed.

Lemma scaleRow_keeps_wf m r k :
  wf m -> if_returns (Matrix.scaleRow m r k) (wf_same m).
Proof.
  intros Hwf. destruct (Matrix.scaleRow m r k) as [m'|] eqn:E; simpl; [|exact I].
  destruct (scaleRow_returns _ _ Hwf E) as (_ & _ & Hwf' & Hsh & _).
  split; assumption.
Qed.

Lemma addScaledRow_keeps_wf m t s k :
  wf m -> if_returns (Matrix.addScaledRow m t s k) (wf_same m).
Proof.
  intros Hwf.
  destruct (Nat.lt_ge_cases t (Matrix.rows m)) as [Ht|Ht];
    [destruct (Nat.lt_ge_cases s (Matrix.rows m)) as [Hs|Hs]|].
  - destruct (addScaledRow_returns k Hwf Ht Hs) as (m' & -> & Hwf' & Hsh & _).
    split; assumption.
  - unfold Matrix.addScaledRow. apply Nat.leb_le in Hs.
    rewrite Hs, orb_true_r. exact I.
  - unfold Matrix.addScaledRow. apply Nat.leb_le in Ht. rewrite Ht. exact I.
Qed.

Lemma wf_same_trans m1 m2 m3 : wf_same m1 m2 -> wf_same m2 m3 -> wf_same m1 m3.
Proof.
  intros [_ Hs1] [Hwf Hs2]. split; [exact Hwf|].
  eapply same_shape_trans; eassumption.
Qed.

Lemma foldM_keeps_wf {I : Type} (body : Matrix.t T -> I -> result (Matrix.t T))
  (l : list I) m :
  (forall m i, wf m -> if_returns (body m i) (wf_same m)) ->
  wf m -> if_returns (foldM body l m) (wf_same m).
Proof.
  intros Hbody Hwf.
  eapply if_returns_mono.
  - apply if_returns_foldM with (Inv := fun (_ : nat) m' => wf_same m m').
    + split; [exact Hwf | apply same_shape_refl].
    + intros k i m' _ Hm'.
      eapply if_returns_mono; [apply Hbody; apply Hm'|].
      intros m'' Hm''. eapply wf_same_trans; eassumption.
  - auto.
Qed.

Lemma normalize_pivot_keeps_wf pRows pCols m i :
  wf m -> if_returns (RREF.normalize_pivot pRows pCols m i) (wf_same m).
Proof.
  intros Hwf. unfold RREF.normalize_pivot. apply if_returns_bind.
  destruct (Matrix.at_ _ _ _); simpl; [|exact I].
  now apply scaleRow_keeps_wf.
Qed.

Lemma eliminate_above_keeps_wf eps row col m upperRow :
  wf m -> if_returns (RREF.eliminate_above eps row col m upperRow) (wf_same m).
Proof.
  intros Hwf. unfold RREF.eliminate_above. apply if_returns_bind.
  destruct (Matrix.at_ _ _ _) as [x|]; simpl; [|exact I].
  destruct (sltb _ eps); [now apply set_at_keeps_wf|].
  apply if_returns_bind.
  eapply if_returns_mono; [now apply addScaledRow_keeps_wf|].
  intros m1 Hm1.
  eapply if_returns_mono; [apply set_at_keeps_wf; apply Hm1|].
  intros m2 Hm2. eapply wf_same_trans; eassumption.
Qed.

Lemma clear_above_keeps_wf eps pRows pCols m i :
  wf m -> if_returns (RREF.clear_above eps pRows pCols m i) (wf_same m).
Proof.
  intros Hwf. unfold RREF.clear_above. apply foldM_keeps_wf; [|exact Hwf].
  intros; now apply eliminate_above_keeps_wf.
Qed.

(** Whenever [toRREF] returns, no entry of the matrix is below [eps] in
    magnitude without being zero: the final pass has seen to it. *)
Lemma toRREF_snapped m eps :
  wf m ->
  if_returns (RREF.toRREF (RREF.make m) eps)
    (fun st =>
       wf (RREF.mat st) /\ same_shape m (RREF.mat st) /\
       forall r c, r < Matrix.rows m -> c < Matrix.cols m ->
                   sltb (sabs (Matrix.raw (RREF.mat st) r c)) eps = true ->
                   Matrix.raw (RREF.mat st) r c = s0).
Proof.
  intros Hwf. unfold RREF.toRREF. simpl.
  apply if_returns_bind, returns_if_returns.
  eapply returns_mono;
    [apply returns_conj; [apply toREF_returns | now apply toREF_wf]|].
  intros st1 (([Hr1 Hc1] & _) & Hwf1). simpl in Hr1, Hc1.
  apply if_returns_bind.
  eapply if_returns_mono;
    [apply foldM_keeps_wf; [intros; now apply normalize_pivot_keeps_wf | exact Hwf1]|].
  intros m1 [Hwfm1 [Hrm1 Hcm1]].
  apply if_returns_bind.
  eapply if_returns_mono;
    [apply foldM_keeps_wf; [intros; now apply clear_above_keeps_wf | exact Hwfm1]|].
  intros m2 [Hwfm2 [Hrm2 Hcm2]].
  apply if_returns_bind, returns_if_returns.
  unfold Matrix.getRows, Matrix.getCols.
  assert (Er : Matrix.rows m = Matrix.rows m2) by congruence.
  assert (Ec : Matrix.cols m = Matrix.cols m2) by congruence.
  rewrite Er, Ec.
  eapply returns_mono; [now apply cleanup_entries|].
  intros m3 (Hwf3 & [Hr3 Hc3] & Hraw). simpl.
  split; [exact Hwf3|]. split; [split; congruence|].
  intros r c Hr Hc. rewrite Hraw by lia. unfold snapped.
  destruct (sltb (sabs (Matrix.raw m2 r c)) eps) eqn:E; [reflexivity|].
  intros E'. rewrite E in E'. discriminate.
Qed.
End RREFWf.

Section RREFReduced.
Context {T : Type} `{Scalar T} {EA : ExactArithmetic T}.
Implicit Types m : Matrix.t T.

Lemma snapped_zero eps : snapped eps s0 = s0.
Proof. unfold snapped. now destruct (sltb _ _). Qed.

(** In exact arithmetic, with [0 < eps <= 1], whenever [toRREF] returns it
    has reached the reduced form. *)
Lemma toRREF_reduced m eps :
  wf m -> sltb (sabs s0) eps = true -> sltb (sabs s1) eps = false ->
  if_returns (RREF.toRREF (RREF.make m) eps)
    (fun st => reduced eps st /\ same_shape m (RREF.mat st) /\
               RREF.isRREF st = true).
Proof.
  intros Hwf Heps0 Heps1. unfold RREF.toRREF. simpl.
  apply if_returns_bind, returns_if_returns.
  eapply returns_mono; [now apply toREF_entries|].
  intros st1 (([Hr1 Hc1] & Hpiv & Href & _) & Hwf1 & Hz1 & Hacc1).
  simpl in Hr1, Hc1.
  destruct Hpiv as (Hrows & Hlen & Hle & Hinc & Hlt).
  rewrite Hrows.
  apply if_returns_bind.
  eapply if_returns_mono.
  { apply (@normalize_entries _ _ EA eps (RREF.rank st1) (RREF.pivotCols st1)
             (Matrix.rows (RREF.mat st1)) (Matrix.cols (RREF.mat st1)));
      auto. }
  intros m1 (Hwfm1 & [Hrm1 Hcm1] & Hzm1 & Honem1).
  apply if_returns_bind, returns_if_returns.
  eapply returns_mono.
  { apply (@clear_all_entries _ _ EA eps (RREF.rank st1) (RREF.pivotCols st1)
             (Matrix.rows (RREF.mat st1)) (Matrix.cols (RREF.mat st1)));
      auto. }
  intros m2 (Hwfm2 & [Hrm2 Hcm2] & Hzm2 & Honem2 & Hzam2).
  apply if_returns_bind, returns_if_returns.
  unfold Matrix.getRows, Matrix.getCols.
  assert (Er : Matrix.rows m = Matrix.rows m2) by congruence.
  assert (Ec : Matrix.cols m = Matrix.cols m2) by congruence.
  rewrite Er, Ec.
  eapply returns_mono; [now apply cleanup_entries|].
  intros m3 (Hwf3 & [Hr3 Hc3] & Hraw). simpl.
  assert (Hpc : forall i, i < RREF.rank st1 ->
                          nth i (RREF.pivotCols st1) 0 < Matrix.cols m2).
  { intros i Hi. rewrite Forall_forall in Hlt.
    rewrite Hcm2, Hcm1. apply Hlt, nth_In. lia. }
  split; [|split; [split; congruence | reflexivity]].
  unfold reduced, pivots_ok; simpl.
  split; [exact Hwf3|].
  split.
  { rewrite Hr3, Hc3, Hrm2, Hcm2, Hrm1, Hcm1. auto. }
  split; [|split; [|split]].
  - intros i Hi. rewrite Hraw by (auto; lia).
    rewrite Honem2 by exact Hi. unfold snapped. now rewrite Heps1.
  - intros i r Hi Hir Hrr. rewrite Hr3 in Hrr. rewrite Hraw by auto.
    rewrite Hzm2 by (auto; lia). apply snapped_zero.
  - intros i r _ Hi Hri. rewrite Hraw by (auto; lia).
    rewrite Hzam2 by (auto; lia). apply snapped_zero.
  - intros r c Hr Hc. rewrite Hr3 in Hr. rewrite Hc3 in Hc.
    rewrite Hraw by auto. unfold snapped.
    destruct (sltb (sabs (Matrix.raw m2 r c)) eps) eqn:E; [reflexivity|].
    intros E'. rewrite E in E'. discriminate.
Qed.
End RREFReduced.

(* ================================================================= *)
(** * The solver: construction and classification *)

Section Solver.
Context {T : Type} `{Scalar T}.
Implicit Types m : Matrix.t T.

Lemma fold_set_raw_shape {I : Type} (f : Matrix.t T -> I -> nat * nat * T)
  (l : list I) m :
  same_shape m
    (fold_left (fun m i => let '(r, c, v) := f m i in Matrix.set_raw m r c v)
       l m).
Proof.
  revert m; induction l as [|i l IH]; intros m; simpl.
  - apply same_shape_refl.
  - eapply same_shape_trans; [|apply IH].
    destruct (f m i) as [[r c] v]. split; reflexivity.
Qed.

Lemma make_shape r c m :
  Matrix.make r c = Ok m -> Matrix.rows m = r /\ Matrix.cols m = c.
Proof.
  unfold Matrix.make. destruct (_ || _); [discriminate|].
  intros [= <-]. split; reflexivity.
Qed.

Lemma augment_loop_shape (A b : Matrix.t T) (l : list nat) m :
  same_shape m
    (fold_left
       (fun res i =>
          let res1 :=
            fold_left (fun res j => Matrix.set_raw res i j (Matrix.raw A i j))
              (seq 0 (Matrix.cols A)) res in
          fold_left
            (fun res j => Matrix.set_raw res i (Matrix.cols A + j)
                            (Matrix.raw b i j))
            (seq 0 (Matrix.cols b)) res1)
       l m).
Proof.
  revert m; induction l as [|i l IH]; intros m; simpl.
  - apply same_shape_refl.
  - eapply same_shape_trans; [|apply IH].
    eapply same_shape_trans.
    + apply (@fold_set_raw_shape nat
               (fun (_ : Matrix.t T) j => (i, j, Matrix.raw A i j))).
    + apply (@fold_set_raw_shape nat
               (fun (_ : Matrix.t T) j =>
                  (i, Matrix.cols A + j, Matrix.raw b i j))).
Qed.

Lemma augment_shape A b aug :
  Matrix.augment (T:=T) A b = Ok aug ->
  Matrix.rows aug = Matrix.rows A /\
  Matrix.cols aug = Matrix.cols A + Matrix.cols b.
Proof.
  unfold Matrix.augment. destruct (negb _); [discriminate|].
  intros Haug. apply bind_Ok in Haug as (res & Hres & Haug).
  apply make_shape in Hres as [Hr Hc]. injection Haug as <-.
  destruct (augment_loop_shape A b (seq 0 (Matrix.rows A)) res) as [E1 E2].
  split; [exact (eq_trans E1 Hr) | exact (eq_trans E2 Hc)].
Qed.

(** [solve] follows the classification rule. *)
Lemma solve_classified (s : SolvingEquation.t T) :
  classified (Matrix.getCols (SolvingEquation.augmented s) - 1)
    (RREF.getPivotCols (SolvingEquation.rrefSolver s))
    (fst (SolvingEquation.solve s)).
Proof.
  unfold SolvingEquation.solve; simpl.
  set (n := Matrix.getCols (SolvingEquation.augmented s) - 1).
  set (pcs := RREF.getPivotCols (SolvingEquation.rrefSolver s)).
  destruct (existsb (fun col => col =? n) pcs) eqn:Eex.
  - apply existsb_exists in Eex as (c & Hin & ->%Nat.eqb_eq).
    split; [reflexivity|]. split; intros Hnot; contradiction.
  - assert (Hnot : ~ In n pcs).
    { intros Hin. apply not_true_iff_false in Eex. apply Eex.
      apply existsb_exists. exists n. split; [exact Hin | apply Nat.eqb_refl]. }
    split; [intros Hin; contradiction|].
    destruct (length pcs =? n) eqn:Elen.
    + apply Nat.eqb_eq in Elen. split; [reflexivity|]. intros _ Hne. contradiction.
    + apply Nat.eqb_neq in Elen. split; [|reflexivity]. intros _ Heq. contradiction.
Qed.

(** What the constructor does when it returns. *)
Lemma make_Ok (A b : Matrix.t T) (s : SolvingEquation.t T) :
  SolvingEquation.make A b = Ok s ->
  Matrix.getRows b = Matrix.getRows A /\ Matrix.getCols b = 1 /\
  exists aug,
    Matrix.augment A b = Ok aug /\
    SolvingEquation.augmented s = aug /\
    RREF.toRREF (RREF.make aug) tiny = Ok (SolvingEquation.rrefSolver s) /\
    SolvingEquation.rrefMatrix s = RREF.getMatrix (SolvingEquation.rrefSolver s) /\
    classified (Matrix.getCols A)
      (RREF.getPivotCols (SolvingEquation.rrefSolver s))
      (SolvingEquation.type s) /\
    SolvingEquation.particular s = [] /\ SolvingEquation.nullspace s = [].
Proof.
  unfold SolvingEquation.make. intros Hs.
  apply bind_Ok in Hs as (aug0 & Haug0 & Hs).
  apply bind_Ok in Hs as (aug & Haug & Hs).
  assert (aug0 = aug) by congruence. subst aug0.
  destruct (negb (Matrix.getRows b =? Matrix.getRows A)) eqn:Er;
    [discriminate|].
  destruct (negb (Matrix.getCols b =? 1)) eqn:Ec; [discriminate|].
  simpl in Hs.
  apply negb_false_iff, Nat.eqb_eq in Er, Ec.
  apply bind_Ok in Hs as (st & Hst & Hs). injection Hs as <-.
  split; [exact Er|]. split; [exact Ec|].
  exists aug. simpl. repeat (split; [reflexivity || assumption|]).
  split; [|split; reflexivity].
  pose proof (solve_classified
                (SolvingEquation.mk aug (RREF.getMatrix st) st
                   SolvingEquation.NoSolution [] [])) as Hcl.
  simpl in Hcl.
  apply augment_shape in Haug as [_ Hcols].
  assert (Hn : Matrix.cols aug - 1 = Matrix.cols A)
    by (unfold Matrix.getCols in Ec; lia).
  unfold Matrix.getCols in *. rewrite Hn in *. exact Hcl.
Qed.
End Solver.

(* ================================================================= *)
(** * The rank *)

Section Rank.
Context {T : Type} `{Scalar T}.

Lemma increasing_ge (l : list nat) i :
  increasing l -> i < length l -> i <= nth i l 0.
Proof.
  intros Hinc. induction i as [|i IH]; intros Hi; [lia|].
  specialize (Hinc i (Datatypes.S i) (Nat.lt_succ_diag_r i) Hi).
  assert (Hi' : i < length l) by lia.
  specialize (IH Hi'). lia.
Qed.

Lemma increasing_length (l : list nat) n :
  increasing l -> Forall (fun c => c < n) l -> length l <= n.
Proof.
  intros Hinc Hlt.
  destruct (length l) as [|k] eqn:E; [lia|].
  assert (Hk : k < length l) by lia.
  pose proof (increasing_ge Hinc Hk) as Hge.
  rewrite Forall_forall in Hlt.
  specialize (Hlt (nth k l 0) (nth_In l 0 Hk)). lia.
Qed.

Lemma pivots_ok_rank (st : RREF.t T) :
  pivots_ok st ->
  RREF.rank st <= Matrix.rows (RREF.mat st) /\
  RREF.rank st <= Matrix.cols (RREF.mat st).
Proof.
  intros (_ & Hlen & Hle & Hinc & Hlt). split; [exact Hle|].
  rewrite <- Hlen. now apply increasing_length.
Qed.

(** The rank that [Matrix::rank] returns is at most each dimension. *)
Lemma Matrix_rank_bound (m : Matrix.t T) r :
  Matrix_rank m = Ok r -> r <= Nat.min (Matrix.rows m) (Matrix.cols m).
Proof.
  unfold Matrix_rank. intros Hr.
  apply bind_Ok in Hr as (st & Hst & [= <-]).
  pose proof (@toRREF_keeps_pivots _ _ (RREF.make m) tiny eq_refl) as Hp.
  rewrite Hst in Hp. simpl in Hp. destruct Hp as ([Hr Hc] & Hpiv & _).
  apply pivots_ok_rank in Hpiv. unfold RREF.getRank. lia.
Qed.
End Rank.

(* ================================================================= *)
(** * Free columns, scattered vectors and dot products *)

Section FreeColumns.

Lemma free_columns_filter (n : nat) (pCols : list nat) :
  RREF.free_columns n pCols =
  filter (fun j => negb (existsb (fun pc => pc =? j) pCols)) (seq 0 n).
Proof.
  unfold RREF.free_columns.
  assert (G : forall l acc,
             fold_left (fun freeCols j =>
                          if existsb (fun pc => pc =? j) pCols
                          then freeCols else freeCols ++ [j]) l acc =
             acc ++ filter (fun j => negb (existsb (fun pc => pc =? j) pCols)) l).
  { induction l as [|j l IH]; intros acc; simpl; [now rewrite app_nil_r|].
    rewrite IH. destruct (existsb _ pCols); simpl; [reflexivity|].
    now rewrite <- app_assoc. }
  apply (G (seq 0 n) []).
Qed.

Lemma existsb_eqb_In (l : list nat) (j : nat) :
  existsb (fun pc => pc =? j) l = true <-> In j l.
Proof.
  rewrite existsb_exists. split.
  - intros (x & Hin & ->%Nat.eqb_eq). exact Hin.
  - intros Hin. exists j. split; [exact Hin | apply Nat.eqb_refl].
Qed.

Lemma In_free_columns (n : nat) (pCols : list nat) (j : nat) :
  In j (RREF.free_columns n pCols) <-> j < n /\ ~ In j pCols.
Proof.
  rewrite free_columns_filter, filter_In, in_seq, negb_true_iff.
  rewrite <- existsb_eqb_In, not_true_iff_false. intuition lia.
Qed.

Lemma increasing_NoDup (l : list nat) : increasing l -> NoDup l.
Proof.
  intros Hinc. apply (NoDup_nth l 0). intros i j Hi Hj E.
  destruct (Nat.eq_dec i j) as [->|Hne]; [reflexivity|].
  exfalso. revert E. now apply increasing_inj.
Qed.

(** There are [n - rank] free columns. *)
Lemma free_columns_length (n : nat) (pCols : list nat) :
  increasing pCols -> Forall (fun c => c < n) pCols ->
  length (RREF.free_columns n pCols) = n - length pCols.
Proof.
  intros Hinc Hlt. rewrite free_columns_filter.
  set (g := fun j => existsb (fun pc => pc =? j) pCols).
  assert (Hsplit : length (filter (fun j => negb (g j)) (seq 0 n)) +
                   length (filter g (seq 0 n)) = n).
  { rewrite <- (length_seq n 0) at 3.
    induction (seq 0 n) as [|j l IH]; simpl; [reflexivity|].
    destruct (g j); simpl; lia. }
  assert (Hsame : length (filter g (seq 0 n)) = length pCols).
  { apply Nat.le_antisymm.
    - apply NoDup_incl_length.
      + apply NoDup_filter, seq_NoDup.
      + intros j Hin. apply filter_In in Hin as [_ Hg].
        now apply existsb_eqb_In.
    - apply NoDup_incl_length; [now apply increasing_NoDup|].
      intros j Hin. apply filter_In. split.
      + rewrite Forall_forall in Hlt. apply in_seq. specialize (Hlt j Hin). lia.
      + now apply existsb_eqb_In. }
  change (length (filter (fun j => negb (g j)) (seq 0 n)) = n - length pCols).
  lia.
Qed.

(** A loop that appends one result per element. *)
Lemma foldM_collect {X Y : Type} (g : X -> result Y) (l : list X)
  (acc res : list Y) :
  foldM (fun acc x => y <- g x ;; Ok (acc ++ [y])) l acc = Ok res ->
  exists ys, Forall2 (fun x y => g x = Ok y) l ys /\ res = acc ++ ys.
Proof.
  revert acc; induction l as [|x l IH]; intros acc; simpl.
  - intros [= <-]. exists []. split; [constructor | now rewrite app_nil_r].
  - intros Hres. apply bind_Ok in Hres as (acc1 & Hacc1 & Hres).
    apply bind_Ok in Hacc1 as (y & Hy & [= <-]).
    destruct (IH _ Hres) as (ys & Hys & ->).
    exists (y :: ys). split; [now constructor|].
    now rewrite <- app_assoc.
Qed.
End FreeColumns.

Section Scatter.
Context {T : Type} `{Scalar T}.
Implicit Types m : Matrix.t T.

(** The loops that build a solution vector: entry [idx i] receives
    [g (m (rowof i, c))], for [i = 0 .. k-1]. *)
Lemma scatter_spec m (idx rowof : nat -> nat) (c : nat) (g : T -> T)
  (k : nat) (init : list T) :
  (forall i, i < k -> rowof i < Matrix.rows m) -> c < Matrix.cols m ->
  (forall i j, i < k -> j < k -> i <> j -> idx i <> idx j) ->
  returns
    (foldM (fun v i => x <- Matrix.at_ m (rowof i) c ;;
                       Ok (upd (idx i) (g x) v))
       (seq 0 k) init)
    (fun v =>
       length v = length init /\
       (forall a, a < k -> idx a < length init ->
                  nth (idx a) v s0 = g (Matrix.raw m (rowof a) c)) /\
       (forall j, (forall a, a < k -> j <> idx a) ->
                  nth j v s0 = nth j init s0)).
Proof.
  intros Hrow Hc Hinj.
  eapply returns_mono.
  - apply returns_foldM
      with (Inv := fun n v =>
              length v = length init /\
              (forall a, a < n -> idx a < length init ->
                         nth (idx a) v s0 = g (Matrix.raw m (rowof a) c)) /\
              (forall j, (forall a, a < n -> j <> idx a) ->
                         nth j v s0 = nth j init s0)).
    + split; [reflexivity|]. split; [intros a Ha; lia | reflexivity].
    + intros n i v Hi (Hlen & Hset & Hrest).
      apply nth_error_seq_inv in Hi as [Hn ->]. simpl.
      rewrite at_returns by auto. simpl.
      split; [now rewrite length_upd|]. split.
      * intros a Ha Hidx.
        destruct (Nat.eq_dec a n) as [->|Hne].
        -- apply nth_upd_same. lia.
        -- rewrite nth_upd_other by (apply Hinj; lia). apply Hset; [lia | exact Hidx].
      * intros j Hj. rewrite nth_upd_other by (apply Hj; lia).
        apply Hrest. intros a Ha. apply Hj. lia.
  - rewrite length_seq. auto.
Qed.

Lemma nth_repeat_s0 (n j : nat) : nth j (repeat (s0 (T:=T)) n) s0 = s0.
Proof.
  destruct (Nat.lt_ge_cases j n) as [Hlt|Hge].
  - now rewrite nth_repeat_lt.
  - rewrite nth_overflow; [reflexivity | rewrite repeat_length; lia].
Qed.

(** What [Vector::dot] returns on vectors of the same size. *)
Lemma dot_value (v w : Vector.t (T:=T)) :
  length v = length w ->
  Vector.dot v w = Ok (big_sum (fun i => smul (nth i v s0) (nth i w s0)) (length v)).
Proof.
  intros Hlen. unfold Vector.dot, Vector.size, big_sum.
  rewrite Hlen, Nat.eqb_refl. simpl.
  assert (G : forall l acc,
             Forall (fun i => i < length w) l ->
             foldM (fun sum i => o <- Vector.index w i ;;
                                 Ok (sadd sum (smul (Vector.raw v i) o))) l acc =
             Ok (fold_left (fun sum i => sadd sum (smul (nth i v s0) (nth i w s0)))
                   l acc)).
  { induction l as [|i l IH]; intros acc Hl; simpl; [reflexivity|].
    inversion Hl as [|? ? Hi Hl']; subst.
    unfold Vector.index at 1, Vector.size.
    apply Nat.ltb_lt in Hi. rewrite Hi. simpl. now apply IH. }
  apply G. apply Forall_forall. intros i Hin. apply in_seq in Hin. lia.
Qed.
End Scatter.

Section Sums.
Context {T : Type} `{Scalar T} {EA : ExactArithmetic T}.

Lemma big_sum_succ (t : nat -> T) n :
  big_sum t (Datatypes.S n) = sadd (big_sum t n) (t n).
Proof. unfold big_sum. now rewrite seq_S, fold_left_app. Qed.

Lemma big_sum_zero (t : nat -> T) n :
  (forall i, i < n -> t i = s0) -> big_sum t n = s0.
Proof.
  induction n as [|n IH]; intros Ht; [reflexivity|].
  rewrite big_sum_succ, IH, Ht by (first [lia | intros; apply Ht; lia]).
  apply sadd_0_r.
Qed.

(** A sum with one term that may differ from zero. *)
Lemma big_sum_one (t : nat -> T) n a :
  a < n -> (forall i, i < n -> i <> a -> t i = s0) -> big_sum t n = t a.
Proof.
  induction n as [|n IH]; intros Ha Ht; [lia|].
  rewrite big_sum_succ.
  destruct (Nat.eq_dec a n) as [->|Hne].
  - rewrite big_sum_zero by (intros i Hi; apply Ht; lia). apply sadd_0_l.
  - rewrite IH, (Ht n) by (first [lia | intros; apply Ht; lia]).
    apply sadd_0_r.
Qed.

(** A sum with two terms that may differ from zero. *)
Lemma big_sum_two (t : nat -> T) n a b :
  a < b -> b < n -> (forall i, i < n -> i <> a -> i <> b -> t i = s0) ->
  big_sum t n = sadd (t a) (t b).
Proof.
  induction n as [|n IH]; intros Hab Hb Ht; [lia|].
  rewrite big_sum_succ.
  destruct (Nat.eq_dec b n) as [->|Hne].
  - rewrite (@big_sum_one t n a) by (first [lia | intros; apply Ht; lia]).
    reflexivity.
  - rewrite IH, (Ht n) by (first [lia | intros; apply Ht; lia]).
    apply sadd_0_r.
Qed.
End Sums.

(* ================================================================= *)
(** * getKernel *)

Section Kernel.
Context {T : Type} `{Scalar T}.
Implicit Types m : Matrix.t T.

Lemma pivot_of_column (pcs : list nat) (j : nat) :
  In j pcs -> exists a, a < length pcs /\ nth a pcs 0 = j.
Proof. intros Hin. destruct (In_nth _ _ 0 Hin) as (a & Ha & E). eauto. Qed.

(** The loop of lines 136-140 builds the vector of [kernel_vector_of]. *)
Lemma kernel_vector_spec (st : RREF.t T) (f : nat) :
  pivots_ok st -> f < Matrix.cols (RREF.mat st) ->
  ~ In f (RREF.pivotCols st) ->
  returns (RREF.kernel_vector st (Matrix.cols (RREF.mat st)) f)
    (kernel_vector_of st f).
Proof.
  intros (Hrows & Hlen & Hle & Hinc & Hlt) Hf Hfree.
  unfold RREF.kernel_vector.
  eapply returns_mono.
  - apply (@scatter_spec _ _ (RREF.mat st)
             (fun i => nth i (RREF.pivotCols st) 0)
             (fun i => nth i (RREF.pivotRows st) 0) f sneg (RREF.rank st)).
    + intros i Hi. rewrite Hrows, seq_nth by exact Hi. simpl. lia.
    + exact Hf.
    + intros i j Hi Hj Hne. apply increasing_inj; auto; lia.
  - intros v (Hlenv & Hset & Hrest).
    rewrite length_upd, repeat_length in Hlenv, Hset.
    rewrite Forall_forall in Hlt.
    assert (Hnot : forall j, ~ In j (RREF.pivotCols st) ->
                   forall a, a < RREF.rank st -> j <> nth a (RREF.pivotCols st) 0).
    { intros j Hj a Ha E. apply Hj. rewrite E. apply nth_In. lia. }
    split; [exact Hlenv|]. split; [|split].
    + rewrite Hrest by (now apply Hnot).
      apply nth_upd_same. now rewrite repeat_length.
    + intros j Hjf Hj. rewrite Hrest by (now apply Hnot).
      rewrite nth_upd_other by exact Hjf. apply nth_repeat_s0.
    + intros a Ha. apply Hset; [exact Ha|]. apply Hlt, nth_In. lia.
Qed.

(** What [getKernel] does on an engine that was not reduced before. *)
Lemma getKernel_Ok (A : Matrix.t T) eps basis (st : RREF.t T) :
  RREF.getKernel (RREF.make A) eps = Ok (basis, st) ->
  RREF.toRREF (RREF.make A) eps = Ok st /\
  same_shape A (RREF.mat st) /\ pivots_ok st /\
  Forall2 (kernel_vector_of st)
    (non_pivot_columns (Matrix.cols A) (RREF.pivotCols st)) basis.
Proof.
  unfold RREF.getKernel. simpl. intros Hk.
  apply bind_Ok in Hk as (st1 & Hst1 & Hk).
  apply bind_Ok in Hk as (basis1 & Hbasis & [= <- <-]).
  pose proof (@toRREF_keeps_pivots _ _ (RREF.make A) eps eq_refl) as Hp.
  rewrite Hst1 in Hp. simpl in Hp. destruct Hp as ([Hr Hc] & Hpiv & _).
  split; [exact Hst1|]. split; [split; assumption|]. split; [exact Hpiv|].
  unfold Matrix.getCols in Hbasis.
  apply foldM_collect
    with (g := fun freeCol =>
                 RREF.kernel_vector st1 (Matrix.cols (RREF.mat st1)) freeCol)
    in Hbasis as (ys & Hys & ->). simpl.
  unfold non_pivot_columns. rewrite <- free_columns_filter, <- Hc.
  assert (Hfree : forall f, In f (RREF.free_columns (Matrix.cols (RREF.mat st1))
                                    (RREF.pivotCols st1)) ->
                            f < Matrix.cols (RREF.mat st1) /\
                            ~ In f (RREF.pivotCols st1)).
  { intros f Hin. now apply In_free_columns. }
  revert Hfree. induction Hys as [|f v fs vs Hv _ IH]; intros Hfree;
    constructor.
  - destruct (Hfree f (or_introl eq_refl)) as [Hf Hnot].
    pose proof (kernel_vector_spec Hpiv Hf Hnot) as Hspec.
    rewrite Hv in Hspec. exact Hspec.
  - apply IH. intros f' Hin. apply Hfree. now right.
Qed.

Lemma Forall2_length_eq {X Y : Type} (P : X -> Y -> Prop) xs ys :
  Forall2 P xs ys -> length xs = length ys.
Proof. induction 1; simpl; congruence. Qed.

Lemma Forall2_Forall_r {X Y : Type} (P : X -> Y -> Prop) (Q : Y -> Prop) xs ys :
  Forall2 P xs ys -> (forall x y, P x y -> Q y) -> Forall Q ys.
Proof. induction 1; intros HPQ; constructor; eauto. Qed.

Lemma Forall2_In_r {X Y : Type} (P : X -> Y -> Prop) xs ys y :
  Forall2 P xs ys -> In y ys -> exists x, In x xs /\ P x y.
Proof.
  induction 1 as [|x0 y0 xs ys Hxy _ IH]; intros Hin; [contradiction|].
  destruct Hin as [<-|Hin].
  - exists x0. split; [now left | exact Hxy].
  - destruct (IH Hin) as (x & Hx & HP). exists x. split; [now right | exact HP].
Qed.

(** A loop that appends one computed element per index. *)
Lemma foldM_map {X Y : Type} (h : X -> Y) (l : list X) (acc : list Y) :
  foldM (fun acc x => Ok (acc ++ [h x])) l acc = Ok (acc ++ map h l).
Proof.
  revert acc; induction l as [|x l IH]; intros acc; simpl.
  - now rewrite app_nil_r.
  - rewrite IH, <- app_assoc. reflexivity.
Qed.

Lemma raw_zero_matrix r c r' c' :
  Matrix.raw (Matrix.mk r c (repeat (repeat (s0 (T:=T)) c) r)) r' c' = s0.
Proof.
  unfold Matrix.raw; simpl.
  destruct (Nat.lt_ge_cases r' r) as [Hlt|Hge].
  - rewrite nth_repeat_lt by exact Hlt. apply nth_repeat_s0.
  - rewrite (nth_overflow (repeat (repeat s0 c) r) [])
      by (rewrite repeat_length; lia).
    now destruct c'.
Qed.

Lemma wf_zero_matrix r c :
  wf (Matrix.mk r c (repeat (repeat (s0 (T:=T)) c) r)).
Proof.
  split; simpl; [apply repeat_length|].
  apply Forall_forall. intros row Hin. apply repeat_spec in Hin. subst row.
  apply repeat_length.
Qed.

(** On a matrix of zeros no column gets a pivot. *)
Lemma toREF_zero_matrix m eps (st : RREF.t T) :
  wf m -> (forall r c, Matrix.raw m r c = s0) ->
  sltb (sabs s0) eps = true -> RREF.mat st = m ->
  RREF.toREF st eps = Ok (RREF.mk m 0 [] [] true (RREF.isRREF st)).
Proof.
  intros Hwf Hz Heps Hm. unfold RREF.toREF, Matrix.getRows, Matrix.getCols.
  rewrite Hm.
  assert (G : forall fuel col,
             for_while fuel col
               (fun col s => (col <? Matrix.cols m) &&
                             (RREF.r_pivotRow s <? Matrix.rows m))
               (RREF.toREF_body eps) (RREF.mk_ref m 0 0 [] []) =
             Ok (RREF.mk_ref m 0 0 [] [])).
  { induction fuel as [|fuel IH]; intros col; simpl; [reflexivity|].
    destruct (col <? Matrix.cols m) eqn:Ec; simpl; [|reflexivity].
    destruct (0 <? Matrix.rows m) eqn:Er; simpl; [|reflexivity].
    apply Nat.ltb_lt in Ec, Er.
    pose proof (@toREF_body_step _ _ eps col (RREF.mk_ref m 0 0 [] []) Hwf Ec Er)
      as Hstep.
    simpl in Hstep. rewrite Hz, Heps in Hstep. rewrite Hstep. simpl.
    apply IH. }
  rewrite G. reflexivity.
Qed.

(** The kernel of a matrix of zeros is the standard basis. *)
Lemma getKernel_zero_matrix r c m eps :
  Matrix.make (T:=T) r c = Ok m -> sltb (sabs s0) eps = true ->
  exists st, RREF.getKernel (RREF.make m) eps =
             Ok (map (standard_basis_vector c) (seq 0 c), st) /\
             RREF.rank st = 0.
Proof.
  unfold Matrix.make. destruct (_ || _); [discriminate|].
  intros [= <-] Heps.
  set (m := Matrix.mk r c (repeat (repeat s0 c) r)).
  pose proof (wf_zero_matrix r c) as Hwf. fold m in Hwf.
  unfold RREF.getKernel, RREF.toRREF. simpl.
  rewrite (@toREF_zero_matrix m eps (RREF.make m) Hwf
             (raw_zero_matrix r c) Heps eq_refl).
  simpl.
  destruct (proj1 (returns_Ok _ _) (cleanup_entries eps Hwf))
    as (m3 & Hm3 & _ & [_ Hc3] & _).
  simpl in Hm3. unfold Matrix.getRows, Matrix.getCols. simpl.
  rewrite Hm3. simpl. unfold Matrix.getCols. simpl. rewrite Hc3. simpl.
  rewrite free_columns_filter. simpl.
  rewrite forallb_filter_id by (apply forallb_forall; reflexivity).
  unfold RREF.kernel_vector. simpl.
  change (fun (basis : list Vector.t) (freeCol : nat) =>
            Ok (basis ++ [upd freeCol s1 (repeat s0 c)]))
    with (fun (basis : list (Vector.t (T:=T))) (freeCol : nat) =>
            Ok (basis ++ [standard_basis_vector c freeCol])).
  rewrite (foldM_map (standard_basis_vector c)). simpl.
  eexists. split; reflexivity.
Qed.
End Kernel.

Section KernelExact.
Context {T : Type} `{Scalar T} {EA : ExactArithmetic T}.

(** In the reduced form, the entry of pivot row [i] in column [j] is zero
    when [j] is the column of another pivot. *)
Lemma reduced_other_pivot eps (st : RREF.t T) i j :
  reduced eps st -> i < RREF.rank st -> In j (RREF.pivotCols st) ->
  j <> nth i (RREF.pivotCols st) 0 ->
  Matrix.raw (RREF.mat st) i j = s0.
Proof.
  intros (Hwf & Hpiv & Hone & Hzb & Hza & _) Hi Hin Hne.
  destruct Hpiv as (Hrows & Hlen & Hle & Hinc & Hlt).
  destruct (pivot_of_column _ _ Hin) as (a & Ha & <-).
  rewrite Hlen in Ha.
  destruct (Nat.lt_trichotomy a i) as [Hlt'|[->|Hgt]].
  - apply Hzb; lia.
  - contradiction.
  - apply Hza; lia.
Qed.

(** The first [n] entries of a pivot row of the reduced matrix are
    orthogonal to every basis vector of length [n], when every pivot column
    is below [n]. *)
Lemma pivot_row_dot_basis eps (st : RREF.t T) n f v i :
  reduced eps st -> basis_vector_of st n f v ->
  n <= Matrix.cols (RREF.mat st) ->
  Forall (fun c => c < n) (RREF.pivotCols st) ->
  f < n -> ~ In f (RREF.pivotCols st) -> i < RREF.rank st ->
  Vector.dot (firstn n (nth i (Matrix.data (RREF.mat st)) [])) v = Ok s0.
Proof.
  intros Hred (Hlenv & Hvf & Hvfree & Hvpiv) Hn Hltn Hf Hfree Hi.
  pose proof Hred as (Hwf & Hpiv & Hone & Hzb & Hza & _).
  destruct Hpiv as (Hrows & Hlen & Hle & Hinc & Hlt).
  set (R := RREF.mat st) in *. set (pcs := RREF.pivotCols st) in *.
  assert (Hrowlen : length (nth i (Matrix.data R) []) = Matrix.cols R)
    by (apply raw_row_length; [exact Hwf | lia]).
  assert (Hfirst : length (firstn n (nth i (Matrix.data R) [])) = n)
    by (rewrite length_firstn; lia).
  rewrite dot_value by congruence. f_equal. rewrite Hfirst.
  set (t := fun j => smul (nth j (firstn n (nth i (Matrix.data R) [])) s0)
                          (nth j v s0)).
  assert (Hentry : forall j, j < n ->
            nth j (firstn n (nth i (Matrix.data R) [])) s0 = Matrix.raw R i j).
  { intros j Hj. rewrite nth_firstn.
    apply Nat.ltb_lt in Hj. now rewrite Hj. }
  assert (Hpc : nth i pcs 0 < n).
  { rewrite Forall_forall in Hltn. apply Hltn, nth_In. lia. }
  assert (Hne : f <> nth i pcs 0).
  { intros E. apply Hfree. rewrite E. apply nth_In. lia. }
  assert (Hzero : forall j, j < n -> j <> f -> j <> nth i pcs 0 -> t j = s0).
  { intros j Hj Hjf Hjp. unfold t.
    destruct (in_dec Nat.eq_dec j pcs) as [Hin|Hnot].
    - rewrite Hentry by exact Hj.
      rewrite (reduced_other_pivot Hred Hi Hin Hjp : Matrix.raw R i j = s0).
      apply smul_0_l.
    - rewrite (Hvfree j Hjf Hnot). apply smul_0_r. }
  assert (Htf : t f = Matrix.raw R i f).
  { unfold t. rewrite Hvf, Hentry by exact Hf. apply smul_1_r. }
  assert (Htp : t (nth i pcs 0) = sneg (Matrix.raw R i f)).
  { unfold t. rewrite (Hvpiv i Hi), Hrows, seq_nth, Hentry by assumption.
    simpl. rewrite (Hone i Hi). apply smul_1_l. }
  destruct (Nat.lt_ge_cases f (nth i pcs 0)) as [Hlt'|Hge].
  - rewrite (@big_sum_two _ _ EA t n f (nth i pcs 0))
      by (first [assumption | lia | intros; apply Hzero; assumption]).
    rewrite Htf, Htp. apply sadd_neg_r.
  - rewrite (@big_sum_two _ _ EA t n (nth i pcs 0) f)
      by (first [assumption | lia | intros; apply Hzero; assumption]).
    rewrite Htf, Htp. apply sadd_neg_l.
Qed.

(** A pivot row of the reduced matrix is orthogonal to every basis vector
    of the kernel. *)
Lemma pivot_row_dot_kernel eps (st : RREF.t T) f v i :
  reduced eps st -> kernel_vector_of st f v ->
  f < Matrix.cols (RREF.mat st) -> ~ In f (RREF.pivotCols st) ->
  i < RREF.rank st ->
  Vector.dot (nth i (Matrix.data (RREF.mat st)) []) v = Ok s0.
Proof.
  intros Hred Hv Hf Hfree Hi.
  pose proof Hred as (Hwf & (_ & _ & Hle & _ & Hlt) & _).
  rewrite <- (firstn_all2 (n := Matrix.cols (RREF.mat st))
                (nth i (Matrix.data (RREF.mat st)) [])).
  - apply (@pivot_row_dot_basis eps st (Matrix.cols (RREF.mat st)) f v i); auto.
  - rewrite raw_row_length; [lia | exact Hwf | lia].
Qed.

(** The first [n] entries of a pivot row of the reduced matrix, times the
    particular solution, give the right-hand side of that row. *)
Lemma pivot_row_dot_particular eps (st : RREF.t T) n p i :
  reduced eps st -> particular_of st n p ->
  n <= Matrix.cols (RREF.mat st) ->
  Forall (fun c => c < n) (RREF.pivotCols st) -> i < RREF.rank st ->
  Vector.dot (firstn n (nth i (Matrix.data (RREF.mat st)) [])) p =
  Ok (Matrix.raw (RREF.mat st) i n).
Proof.
  intros Hred (Hlenp & Hpfree & Hppiv) Hn Hltn Hi.
  pose proof Hred as (Hwf & Hpiv & Hone & Hzb & Hza & _).
  destruct Hpiv as (Hrows & Hlen & Hle & Hinc & Hlt).
  set (R := RREF.mat st) in *. set (pcs := RREF.pivotCols st) in *.
  assert (Hrowlen : length (nth i (Matrix.data R) []) = Matrix.cols R)
    by (apply raw_row_length; [exact Hwf | lia]).
  assert (Hfirst : length (firstn n (nth i (Matrix.data R) [])) = n)
    by (rewrite length_firstn; lia).
  rewrite dot_value by congruence. f_equal. rewrite Hfirst.
  set (t := fun j => smul (nth j (firstn n (nth i (Matrix.data R) [])) s0)
                          (nth j p s0)).
  assert (Hentry : forall j, j < n ->
            nth j (firstn n (nth i (Matrix.data R) [])) s0 = Matrix.raw R i j).
  { intros j Hj. rewrite nth_firstn.
    apply Nat.ltb_lt in Hj. now rewrite Hj. }
  assert (Hpc : nth i pcs 0 < n).
  { rewrite Forall_forall in Hltn. apply Hltn, nth_In. lia. }
  rewrite (@big_sum_one _ _ EA t n (nth i pcs 0) Hpc).
  - unfold t. rewrite (Hppiv i Hi), Hrows, seq_nth, Hentry by assumption.
    simpl. rewrite (Hone i Hi). apply smul_1_l.
  - intros j Hj Hjp. unfold t.
    destruct (in_dec Nat.eq_dec j pcs) as [Hin|Hnot].
    + rewrite Hentry by exact Hj.
      rewrite (reduced_other_pivot Hred Hi Hin Hjp : Matrix.raw R i j = s0).
      apply smul_0_l.
    + rewrite (Hpfree j Hnot). apply smul_0_r.
Qed.
End KernelExact.

(* ================================================================= *)
(** * computeSolution *)

Section Solution.
Context {T : Type} `{Scalar T}.
Implicit Types m : Matrix.t T.

Lemma fold_set_raw_wf {I : Type} (f : Matrix.t T -> I -> nat * nat * T)
  (l : list I) m :
  wf m ->
  wf (fold_left (fun m i => let '(r, c, v) := f m i in Matrix.set_raw m r c v)
        l m).
Proof.
  revert m; induction l as [|i l IH]; intros m Hwf; simpl; [exact Hwf|].
  apply IH. destruct (f m i) as [[r c] v]. now apply wf_set_raw.
Qed.

(** [augment] builds a well-formed matrix. *)
Lemma augment_wf (A b aug : Matrix.t T) :
  Matrix.augment A b = Ok aug -> wf aug.
Proof.
  unfold Matrix.augment. destruct (negb _); [discriminate|].
  intros Haug. apply bind_Ok in Haug as (res & Hres & [= <-]).
  assert (Hwf : wf res).
  { unfold Matrix.make in Hres. destruct (_ || _); [discriminate|].
    injection Hres as <-. apply wf_zero_matrix. }
  clear Hres. revert res Hwf.
  induction (seq 0 (Matrix.rows A)) as [|i l IH]; intros res Hwf; simpl;
    [exact Hwf|].
  apply IH.
  apply (@fold_set_raw_wf nat
           (fun (_ : Matrix.t T) j => (i, Matrix.cols A + j, Matrix.raw b i j))).
  apply (@fold_set_raw_wf nat
           (fun (_ : Matrix.t T) j => (i, j, Matrix.raw A i j))).
  exact Hwf.
Qed.

Lemma increasing_gap (l : list nat) i d :
  increasing l -> i + d < length l -> nth i l 0 + d <= nth (i + d) l 0.
Proof.
  intros Hinc. induction d as [|d IH]; intros Hd.
  - rewrite !Nat.add_0_r. lia.
  - assert (Hd' : i + d < length l) by lia.
    specialize (IH Hd').
    assert (Hstep : i + d < i + Datatypes.S d) by lia.
    specialize (Hinc (i + d) (i + Datatypes.S d) Hstep Hd). lia.
Qed.

(** [n] increasing columns below [n] are the columns [0 .. n-1]. *)
Lemma increasing_full (l : list nat) n a :
  increasing l -> Forall (fun c => c < n) l -> length l = n -> a < n ->
  nth a l 0 = a.
Proof.
  intros Hinc Hlt Hlen Ha.
  assert (Hge : a <= nth a l 0) by (apply increasing_ge; auto; lia).
  assert (Hgap : nth a l 0 + (n - 1 - a) <= nth (a + (n - 1 - a)) l 0)
    by (apply increasing_gap; auto; lia).
  replace (a + (n - 1 - a)) with (n - 1) in Hgap by lia.
  rewrite Forall_forall in Hlt.
  assert (Hlast : nth (n - 1) l 0 < n) by (apply Hlt, nth_In; lia).
  lia.
Qed.

(** The loop that builds a nullspace vector gives the vector of
    [basis_vector_of]. *)
Lemma basis_vector_scatter (st : RREF.t T) (rowof : nat -> nat) n f v :
  pivots_ok st -> Forall (fun c => c < n) (RREF.pivotCols st) ->
  f < n -> ~ In f (RREF.pivotCols st) ->
  (forall a, a < RREF.rank st -> rowof a = nth a (RREF.pivotRows st) 0) ->
  length v = length (upd f s1 (repeat s0 n)) /\
  (forall a, a < RREF.rank st ->
             nth a (RREF.pivotCols st) 0 < length (upd f s1 (repeat s0 n)) ->
             nth (nth a (RREF.pivotCols st) 0) v s0 =
             sneg (Matrix.raw (RREF.mat st) (rowof a) f)) /\
  (forall j, (forall a, a < RREF.rank st -> j <> nth a (RREF.pivotCols st) 0) ->
             nth j v s0 = nth j (upd f s1 (repeat s0 n)) s0) ->
  basis_vector_of st n f v.
Proof.
  intros (Hrows & Hlen & Hle & Hinc & Hlt) Hltn Hf Hfree Hrowof
    (Hlenv & Hset & Hrest).
  rewrite length_upd, repeat_length in Hlenv, Hset.
  rewrite Forall_forall in Hltn.
  assert (Hnot : forall j, ~ In j (RREF.pivotCols st) ->
                 forall a, a < RREF.rank st -> j <> nth a (RREF.pivotCols st) 0).
  { intros j Hj a Ha E. apply Hj. rewrite E. apply nth_In. lia. }
  split; [exact Hlenv|]. split; [|split].
  - rewrite Hrest by (now apply Hnot).
    apply nth_upd_same. now rewrite repeat_length.
  - intros j Hjf Hj. rewrite Hrest by (now apply Hnot).
    rewrite nth_upd_other by exact Hjf. apply nth_repeat_s0.
  - intros a Ha. rewrite <- Hrowof by exact Ha.
    apply Hset; [exact Ha|]. apply Hltn, nth_In. lia.
Qed.
End Solution.

Section SolutionOk.
Context {T : Type} `{Scalar T}.

(** What the constructor leaves behind, for [computeSolution]. *)
Lemma make_state (A b : Matrix.t T) (s : SolvingEquation.t T) :
  SolvingEquation.make A b = Ok s ->
  let n := Matrix.cols A in
  let st := SolvingEquation.rrefSolver s in
  Matrix.getCols (SolvingEquation.augmented s) - 1 = n /\
  SolvingEquation.rrefMatrix s = RREF.mat st /\
  wf (RREF.mat st) /\ pivots_ok st /\
  Matrix.cols (RREF.mat st) = n + 1 /\
  classified n (RREF.pivotCols st) (SolvingEquation.type s) /\
  SolvingEquation.nullspace s = [].
Proof.
  intros Hmake n st.
  destruct (make_Ok _ _ Hmake)
    as (Hrb & Hcb & aug & Haug & Haugs & Hst & HR & Hcl & _ & Hn0).
  pose proof (augment_wf _ _ Haug) as Hwfaug.
  pose proof (augment_shape _ _ Haug) as [Hraug Hcaug].
  pose proof (toRREF_snapped tiny Hwfaug) as Hsn.
  rewrite Hst in Hsn. simpl in Hsn. destruct Hsn as (Hwfst & [Hrs Hcs] & _).
  pose proof (@toRREF_keeps_pivots _ _ (RREF.make aug) tiny eq_refl) as Hp.
  rewrite Hst in Hp. simpl in Hp. destruct Hp as (_ & Hpiv & _).
  unfold Matrix.getCols in *.
  split; [rewrite Haugs; unfold n; lia|].
  split; [exact HR|]. split; [exact Hwfst|]. split; [exact Hpiv|].
  split; [fold st in Hcs; unfold n; lia|].
  split; [exact Hcl | exact Hn0].
Qed.

(** A system that is not classified NoSolution has every pivot among the
    unknowns. *)
Lemma pivots_among_unknowns (st : RREF.t T) n ty :
  pivots_ok st -> Matrix.cols (RREF.mat st) = n + 1 ->
  classified n (RREF.pivotCols st) ty -> ty <> SolvingEquation.NoSolution ->
  ~ In n (RREF.pivotCols st) /\
  Forall (fun c => c < n) (RREF.pivotCols st) /\
  RREF.rank st <= n.
Proof.
  intros Hpiv Hc (Hno & _) Hty.
  assert (Hnot : ~ In n (RREF.pivotCols st)) by (intros Hin; auto).
  pose proof Hpiv as (_ & Hlen & _ & Hinc & Hlt).
  assert (Hltn : Forall (fun c => c < n) (RREF.pivotCols st)).
  { rewrite Forall_forall in *. intros c Hin. specialize (Hlt c Hin).
    assert (c <> n) by (intros ->; contradiction). lia. }
  split; [exact Hnot|]. split; [exact Hltn|].
  rewrite <- Hlen. now apply increasing_length.
Qed.
End SolutionOk.

Section ComputeSolution.
Context {T : Type} `{Scalar T}.

(** [computeSolution] after the constructor: the classification is kept,
    it is not NoSolution, the particular solution is that of
    [particular_of], and the nullspace holds one vector of
    [basis_vector_of] per free column when there are infinitely many
    solutions, none otherwise. *)
Lemma computeSolution_Ok (A b : Matrix.t T) (s s' : SolvingEquation.t T) eps :
  SolvingEquation.make A b = Ok s ->
  SolvingEquation.computeSolution s eps = Ok s' ->
  let n := Matrix.cols A in
  let st := SolvingEquation.rrefSolver s in
  SolvingEquation.rrefSolver s' = st /\
  SolvingEquation.rrefMatrix s' = RREF.mat st /\
  SolvingEquation.type s' = SolvingEquation.type s /\
  SolvingEquation.type s <> SolvingEquation.NoSolution /\
  particular_of st n (SolvingEquation.particular s') /\
  (SolvingEquation.type s = SolvingEquation.UniqueSolution ->
   SolvingEquation.nullspace s' = [] /\ RREF.rank st = n) /\
  (SolvingEquation.type s = SolvingEquation.InfiniteSolutions ->
   Forall2 (basis_vector_of st n)
     (non_pivot_columns n (RREF.pivotCols st))
     (SolvingEquation.nullspace s') /\
   RREF.rank st < n).
Proof.
  intros Hmake Hcomp n st.
  destruct (make_state _ _ Hmake) as (Hn & HR & Hwf & Hpiv & Hcols & Hcl & Hnull).
  fold n in Hn, Hcols, Hcl. fold st in HR, Hwf, Hpiv, Hcols, Hcl.
  pose proof Hpiv as (Hrows & Hlen & Hle & Hinc & Hlt).
  unfold SolvingEquation.computeSolution in Hcomp.
  destruct (SolvingEquation.type s) eqn:Ety.
  - (* NoSolution: [solve] finds it again, and the call throws *)
    exfalso.
    assert (Hin : In n (RREF.pivotCols st)).
    { destruct Hcl as (_ & Hu & Hi).
      destruct (in_dec Nat.eq_dec n (RREF.pivotCols st)) as [Hin|Hnot];
        [exact Hin|].
      destruct (Nat.eq_dec (length (RREF.pivotCols st)) n) as [E|E];
        [specialize (Hu Hnot E) | specialize (Hi Hnot E)]; discriminate. }
    pose proof (solve_classified s) as Hcl2. rewrite Hn in Hcl2.
    destruct Hcl2 as (Hno2 & _). specialize (Hno2 Hin).
    cbv beta iota zeta in Hcomp.
    change (SolvingEquation.type (snd (SolvingEquation.solve s)))
      with (fst (SolvingEquation.solve s)) in Hcomp.
    rewrite Hno2 in Hcomp. discriminate.
  - (* UniqueSolution *)
    cbv beta iota zeta in Hcomp. rewrite Ety, Hn, HR in Hcomp.
    destruct (pivots_among_unknowns Hpiv Hcols Hcl) as (Hnot & Hltn & Hrank); [discriminate|].
    assert (Hfull : length (RREF.pivotCols st) = n).
    { destruct Hcl as (_ & Hu & Hi).
      destruct (Nat.eq_dec (length (RREF.pivotCols st)) n) as [E|E];
        [exact E|]. specialize (Hi Hnot E). discriminate. }
    apply bind_Ok in Hcomp as (p & Hp & [= <-]). simpl.
    pose proof (@scatter_spec _ _ (RREF.mat st) (fun i => i) (fun i => i) n
                  (fun x => x) n (repeat s0 n)) as Hsc.
    simpl in Hsc. rewrite Hp in Hsc. simpl in Hsc.
    destruct Hsc as (Hlenp & Hset & Hrest); [intros; lia | lia | auto |].
    rewrite repeat_length in Hlenp, Hset.
    split; [reflexivity|]. split; [reflexivity|]. split; [reflexivity|].
    split; [discriminate|]. split; [|split].
    + split; [exact Hlenp|]. split.
      * intros j Hj. apply nth_overflow. rewrite Hlenp.
        destruct (Nat.lt_ge_cases j n) as [Hlt'|Hge]; [|exact Hge].
        exfalso. apply Hj.
        rewrite <- (increasing_full (l := RREF.pivotCols st) (n := n) (a := j))
          by auto.
        apply nth_In. lia.
      * intros a Ha. rewrite Hrows, seq_nth by exact Ha. simpl.
        rewrite (increasing_full (l := RREF.pivotCols st) (n := n)) by (auto; lia).
        apply Hset; lia.
    + intros _. split; [exact Hnull | lia].
    + discriminate.
  - (* InfiniteSolutions *)
    cbv beta iota zeta in Hcomp. rewrite Ety, Hn, HR in Hcomp.
    destruct (pivots_among_unknowns Hpiv Hcols Hcl) as (Hnot & Hltn & Hrank); [discriminate|].
    assert (Hless : length (RREF.pivotCols st) <> n).
    { destruct Hcl as (_ & Hu & Hi). intros E. specialize (Hu Hnot E).
      discriminate. }
    unfold RREF.getPivotCols in Hcomp.
    apply bind_Ok in Hcomp as (p & Hp & Hcomp).
    apply bind_Ok in Hcomp as (basis & Hbasis & [= <-]). simpl.
    fold st in Hp, Hbasis.
    pose proof (@scatter_spec _ _ (RREF.mat st)
                  (fun i => nth i (RREF.pivotCols st) 0) (fun i => i) n
                  (fun x => x) (length (RREF.pivotCols st)) (repeat s0 n)) as Hsc.
    cbv beta in Hsc. rewrite Hp in Hsc. simpl in Hsc.
    destruct Hsc as (Hlenp & Hset & Hrest);
      [intros; lia | lia | intros; apply increasing_inj; auto |].
    rewrite repeat_length in Hlenp, Hset.
    rewrite Forall_forall in Hltn.
    split; [reflexivity|]. split; [reflexivity|]. split; [reflexivity|].
    split; [discriminate|]. split; [|split].
    + split; [exact Hlenp|]. split.
      * intros j Hj. rewrite Hrest; [apply nth_repeat_s0|].
        intros a Ha E. apply Hj. rewrite E. now apply nth_In.
      * intros a Ha. rewrite Hrows, seq_nth by exact Ha. simpl.
        apply Hset; [lia|]. apply Hltn, nth_In. lia.
    + discriminate.
    + intros _. split; [|lia].
      apply foldM_collect
        with (g := fun freeCol =>
                foldM (fun v_vec i =>
                         let pcol := nth i (RREF.pivotCols st) 0 in
                         x <- Matrix.at_ (RREF.mat st) i freeCol ;;
                         Ok (upd pcol (sneg x) v_vec))
                  (seq 0 (length (RREF.pivotCols st)))
                  (upd freeCol s1 (repeat s0 n)))
        in Hbasis as (ys & Hys & ->). simpl.
      unfold non_pivot_columns. rewrite <- free_columns_filter.
      assert (Hfree : forall f, In f (RREF.free_columns n (RREF.pivotCols st)) ->
                                f < n /\ ~ In f (RREF.pivotCols st)).
      { intros f Hin. now apply In_free_columns. }
      revert Hfree. induction Hys as [|f v fs vs Hv _ IH]; intros Hfree;
        constructor.
      * destruct (Hfree f (or_introl eq_refl)) as [Hf Hfnot].
        pose proof (@scatter_spec _ _ (RREF.mat st)
                      (fun i => nth i (RREF.pivotCols st) 0) (fun i => i) f
                      sneg (length (RREF.pivotCols st))
                      (upd f s1 (repeat s0 n))) as Hsv.
        cbv beta in Hsv. cbv beta zeta in Hv. rewrite Hv in Hsv. simpl in Hsv.
        rewrite Hlen in Hsv.
        apply (@basis_vector_scatter _ _ st (fun i => i) n f v Hpiv);
          [apply Forall_forall; exact Hltn | exact Hf | exact Hfnot | |].
        -- intros a Ha. now rewrite Hrows, seq_nth.
        -- apply Hsv; [intros; lia | lia |].
           intros i j Hi Hj Hne. apply increasing_inj; auto; lia.
      * apply IH. intros f' Hin. apply Hfree. now right.
Qed.
(** A loop that appends one result per element returns when every element
    gives a result. *)
Lemma foldM_collect_returns {X Y : Type} (g : X -> result Y) (l : list X)
  (acc : list Y) :
  (forall x, In x l -> exists y, g x = Ok y) ->
  exists res, foldM (fun acc x => y <- g x ;; Ok (acc ++ [y])) l acc = Ok res.
Proof.
  revert acc; induction l as [|x l IH]; intros acc Hg; simpl.
  - now exists acc.
  - destruct (Hg x (or_introl eq_refl)) as (y & Hy). rewrite Hy. simpl.
    apply IH. intros x' Hin. apply Hg. now right.
Qed.

(** [computeSolution] returns on every system that the constructor did not
    classify NoSolution. *)
Lemma computeSolution_returns (A b : Matrix.t T) (s : SolvingEquation.t T) eps :
  SolvingEquation.make A b = Ok s ->
  SolvingEquation.type s <> SolvingEquation.NoSolution ->
  exists s', SolvingEquation.computeSolution s eps = Ok s'.
Proof.
  intros Hmake Hty.
  destruct (make_state _ _ Hmake) as (Hn & HR & Hwf & Hpiv & Hcols & Hcl & Hnull).
  set (n := Matrix.cols A) in *. set (st := SolvingEquation.rrefSolver s) in *.
  pose proof Hpiv as (Hrows & Hlen & Hle & Hinc & Hlt).
  destruct (pivots_among_unknowns Hpiv Hcols Hcl Hty) as (Hnot & Hltn & Hrank).
  unfold SolvingEquation.computeSolution.
  destruct (SolvingEquation.type s) eqn:Ety; [contradiction| |];
    cbv beta iota zeta; rewrite Ety, Hn, HR.
  - assert (Hfull : length (RREF.pivotCols st) = n).
    { destruct Hcl as (_ & Hu & Hi).
      destruct (Nat.eq_dec (length (RREF.pivotCols st)) n) as [E|E];
        [exact E|]. specialize (Hi Hnot E). discriminate. }
    pose proof (@scatter_spec _ _ (RREF.mat st) (fun i => i) (fun i => i) n
                  (fun x => x) n (repeat s0 n)) as Hsc.
    cbv beta in Hsc.
    destruct (foldM _ (seq 0 n) (repeat s0 n)) as [p|e]; simpl.
    + eexists; reflexivity.
    + exfalso. apply Hsc; [intros; lia | lia | auto].
  - unfold RREF.getPivotCols. fold st.
    pose proof (@scatter_spec _ _ (RREF.mat st)
                  (fun i => nth i (RREF.pivotCols st) 0) (fun i => i) n
                  (fun x => x) (length (RREF.pivotCols st)) (repeat s0 n)) as Hsc.
    cbv beta in Hsc.
    destruct (foldM _ (seq 0 (length (RREF.pivotCols st))) (repeat s0 n))
      as [p|e]; simpl.
    + destruct (@foldM_collect_returns _ _
                  (fun freeCol =>
                     foldM (fun v_vec i =>
                              let pcol := nth i (RREF.pivotCols st) 0 in
                              x <- Matrix.at_ (RREF.mat st) i freeCol ;;
                              Ok (upd pcol (sneg x) v_vec))
                       (seq 0 (length (RREF.pivotCols st)))
                       (upd freeCol s1 (repeat s0 n)))
                  (RREF.free_columns n (RREF.pivotCols st)) [])
        as (basis & Hbasis).
      * intros f Hin. apply In_free_columns in Hin as [Hf _].
        pose proof (@scatter_spec _ _ (RREF.mat st)
                      (fun i => nth i (RREF.pivotCols st) 0) (fun i => i) f
                      sneg (length (RREF.pivotCols st))
                      (upd f s1 (repeat s0 n))) as Hsv.
        cbv beta in Hsv. cbv beta zeta.
        destruct (foldM _ (seq 0 (length (RREF.pivotCols st)))
                    (upd f s1 (repeat s0 n))) as [v|e].
        -- now exists v.
        -- exfalso. apply Hsv; [intros; lia | lia |].
           intros i j Hi Hj Hne. apply increasing_inj; auto; lia.
      * cbv beta zeta in Hbasis. rewrite Hbasis. simpl. eexists; reflexivity.
    + exfalso. apply Hsc; [intros; lia | lia |].
      intros i j Hi Hj Hne. apply increasing_inj; auto; lia.
Qed.
End ComputeSolution.

Section SolutionExact.
Context {T : Type} `{Scalar T} {EA : ExactArithmetic T}.

(** In exact arithmetic, with a tolerance that snaps 0 and keeps 1, the
    constructor leaves the solver in reduced form. *)
Lemma make_reduced (A b : Matrix.t T) (s : SolvingEquation.t T) :
  sltb (sabs s0) tiny = true -> sltb (sabs s1) tiny = false ->
  SolvingEquation.make A b = Ok s ->
  reduced tiny (SolvingEquation.rrefSolver s).
Proof.
  intros H0 H1 Hmake.
  destruct (make_Ok _ _ Hmake) as (_ & _ & aug & Haug & _ & Hst & _).
  pose proof (@toRREF_reduced _ _ EA aug tiny (augment_wf _ _ Haug) H0 H1) as Hred.
  rewrite Hst in Hred. apply Hred.
Qed.
End SolutionExact.

(* ================================================================= *)
(** * The eigen routine *)

Section Eigen.
Context {T : Type} `{Scalar T} `{ScalarSqrt T}.
Implicit Types m A : Matrix.t T.

Lemma make_keeps_shape r c :
  if_returns (Matrix.make (T:=T) r c)
    (fun m => Matrix.rows m = r /\ Matrix.cols m = c).
Proof.
  unfold Matrix.make. destruct (_ || _); simpl; [exact I|]. split; reflexivity.
Qed.

Lemma transpose_shape m :
  if_returns (Matrix.transpose m)
    (fun m' => Matrix.rows m' = Matrix.cols m /\ Matrix.cols m' = Matrix.rows m).
Proof.
  unfold Matrix.transpose. apply if_returns_bind.
  eapply if_returns_mono; [apply make_keeps_shape|].
  intros res [Hr Hc].
  eapply if_returns_mono.
  - apply foldM_keeps_shape. intros m' col. apply foldM_keeps_shape.
    intros m'' row. apply set_at_keeps_shape.
  - intros m' [Hr' Hc']. split; congruence.
Qed.

Lemma mul_shape m other :
  if_returns (Matrix.mul m other)
    (fun m' => Matrix.rows m' = Matrix.rows m /\
               Matrix.cols m' = Matrix.cols other).
Proof.
  unfold Matrix.mul. destruct (negb _); simpl; [exact I|].
  apply if_returns_bind.
  eapply if_returns_mono; [apply make_keeps_shape|].
  intros res [Hr Hc].
  eapply if_returns_mono.
  - apply foldM_keeps_shape. intros m1 i. apply foldM_keeps_shape.
    intros m2 j. apply foldM_keeps_shape. intros m3 k.
    apply if_returns_bind. destruct (Matrix.at_ _ _ _); simpl; [|exact I].
    apply set_at_keeps_shape.
  - intros m' [Hr' Hc']. split; congruence.
Qed.

Lemma qr_decomposition_shape m :
  if_returns (Matrix.qr_decomposition m)
    (fun '(Q, R) => Matrix.rows Q = Matrix.rows m /\
                    Matrix.cols Q = Matrix.rows m /\
                    Matrix.rows R = Matrix.rows m /\
                    Matrix.cols R = Matrix.cols m).
Proof.
  unfold Matrix.qr_decomposition. destruct (negb _); simpl; [exact I|].
  apply if_returns_bind. destruct (foldM _ _ _) as [a_cols|]; simpl; [|exact I].
  apply if_returns_bind. destruct (foldM _ _ _) as [q_cols|]; simpl; [|exact I].
  apply if_returns_bind.
  eapply if_returns_mono; [apply make_keeps_shape|].
  intros Q0 [HrQ0 HcQ0].
  apply if_returns_bind.
  eapply if_returns_mono.
  { apply foldM_keeps_shape. intros m1 j. apply foldM_keeps_shape.
    intros m2 i. apply if_returns_bind.
    destruct (Vector.index _ _); simpl; [|exact I]. apply set_at_keeps_shape. }
  intros Q [HrQ HcQ].
  apply if_returns_bind.
  eapply if_returns_mono; [apply transpose_shape|].
  intros Qt [HrQt HcQt].
  apply if_returns_bind.
  eapply if_returns_mono; [apply mul_shape|].
  intros R0 [HrR0 HcR0].
  apply if_returns_bind.
  eapply if_returns_mono.
  { apply foldM_keeps_shape. intros m1 i. apply foldM_keeps_shape.
    intros m2 j. apply set_at_keeps_shape. }
  intros R [HrR HcR]. simpl.
  repeat split; congruence.
Qed.

Lemma qr_step_shape A :
  Matrix.isSquare A = true ->
  if_returns (qr_step A) (same_shape A).
Proof.
  intros Hsq. apply Nat.eqb_eq in Hsq.
  unfold qr_step. apply if_returns_bind.
  eapply if_returns_mono; [apply qr_decomposition_shape|].
  intros [Q R] (HrQ & HcQ & HrR & HcR).
  eapply if_returns_mono; [apply mul_shape|].
  intros A' [Hr Hc]. split; congruence.
Qed.

Lemma qr_iterate_shape k A :
  Matrix.isSquare A = true ->
  if_returns (qr_iterate k A) (same_shape A).
Proof.
  revert A; induction k as [|k IH]; intros A Hsq; simpl.
  - apply same_shape_refl.
  - apply if_returns_bind.
    eapply if_returns_mono; [now apply qr_step_shape|].
    intros A' [Hr Hc].
    assert (Hsq' : Matrix.isSquare A' = true).
    { unfold Matrix.isSquare in *. now rewrite Hr, Hc. }
    eapply if_returns_mono; [now apply IH|].
    intros A'' [Hr' Hc']. split; congruence.
Qed.

(** The counted loop of [eigen] is the [k]-fold iteration. *)
Lemma qr_loop_iterate lo k A :
  foldM (fun A_iter (_ : nat) => qr_step A_iter) (seq lo k) A = qr_iterate k A.
Proof.
  revert lo A; induction k as [|k IH]; intros lo A; simpl; [reflexivity|].
  destruct (qr_step A) as [A'|e]; simpl; [apply IH | reflexivity].
Qed.

(** Reading the diagonal of a square matrix never throws. *)
Lemma read_diagonal m n lo acc :
  lo + n <= Matrix.rows m -> lo + n <= Matrix.cols m ->
  foldM (fun vals i => x <- Matrix.at_ m i i ;; Ok (vals ++ [x])) (seq lo n) acc
  = Ok (acc ++ map (fun i => Matrix.raw m i i) (seq lo n)).
Proof.
  revert lo acc; induction n as [|n IH]; intros lo acc Hr Hc; simpl.
  - now rewrite app_nil_r.
  - rewrite at_returns by lia. simpl.
    rewrite IH by lia. now rewrite <- app_assoc.
Qed.

(** What one eigenvalue appends to [eigenvectors]. *)
Lemma eigenvectors_of_slot A evs lam :
  eigenvectors_of A evs lam =
  (basis <- shifted_kernel A lam ;; Ok (evs ++ eigen_slot A basis)).
Proof.
  unfold eigenvectors_of, shifted_kernel.
  destruct (Matrix.identity _) as [I|]; simpl; [|reflexivity].
  destruct (Matrix.scale _ _) as [L|]; simpl; [|reflexivity].
  destruct (Matrix.sub _ _) as [C|]; simpl; [|reflexivity].
  destruct (RREF.getKernel _ _) as [[basis st]|]; simpl; [|reflexivity].
  destruct basis as [|v basis]; [reflexivity|].
  unfold eigen_slot.
  generalize (v :: basis) as l. clear v basis. intros l. revert evs.
  induction l as [|v l IH]; intros evs; simpl.
  - now rewrite app_nil_r.
  - unfold normalized_or_self at 1.
    destruct (Vector.normalized v tiny) as [w|]; simpl;
      rewrite IH, <- app_assoc; reflexivity.
Qed.

(** The eigenvector loop, slot by slot. *)
Lemma eigenvector_loop A vals evs res :
  foldM (eigenvectors_of A) vals evs = Ok res ->
  exists slots,
    Forall2 (fun lam slot =>
               exists basis, shifted_kernel A lam = Ok basis /\
                             slot = eigen_slot A basis)
      vals slots /\
    res = evs ++ concat slots.
Proof.
  revert evs; induction vals as [|lam vals IH]; intros evs; simpl.
  - intros [= <-]. exists []. split; [constructor | now rewrite app_nil_r].
  - rewrite eigenvectors_of_slot. intros Hres.
    apply bind_Ok in Hres as (evs1 & Hevs1 & Hres).
    apply bind_Ok in Hevs1 as (basis & Hbasis & [= <-]).
    destruct (IH _ Hres) as (slots & Hslots & ->).
    exists (eigen_slot A basis :: slots). split.
    + constructor; [now exists basis | exact Hslots].
    + simpl. now rewrite app_assoc.
Qed.

Lemma eigen_slot_nonempty A basis : 1 <= length (eigen_slot A basis).
Proof.
  destruct basis as [|v basis]; simpl; lia.
Qed.

Lemma concat_slots_length {X Y : Type} (P : X -> list Y -> Prop)
  (xs : list X) (slots : list (list Y)) :
  Forall2 (fun x slot => P x slot /\ 1 <= length slot) xs slots ->
  length xs <= length (concat slots).
Proof.
  induction 1 as [|x slot xs slots [_ Hx] _ IH]; simpl; [lia|].
  rewrite length_app. lia.
Qed.

(** [eigen] on a square matrix: the iteration, the diagonal, the slots. *)
Lemma Matrix_eigen_square A max_iter :
  Matrix.isSquare A = true ->
  Matrix_eigen A max_iter =
  (A_final <- qr_iterate (Z.to_nat max_iter) A ;;
   vecs <- foldM (eigenvectors_of A) (diagonal A_final) [] ;;
   Ok (mk_eigen (diagonal A_final) vecs)).
Proof.
  intros Hsq. unfold Matrix_eigen. rewrite Hsq; simpl.
  rewrite qr_loop_iterate.
  pose proof (qr_iterate_shape (Z.to_nat max_iter) A Hsq) as Hshape.
  destruct (qr_iterate _ A) as [A_final|e]; simpl; [|reflexivity].
  simpl in Hshape. destruct Hshape as [Hr Hc].
  apply Nat.eqb_eq in Hsq.
  rewrite read_diagonal by (simpl; lia). simpl.
  unfold diagonal. rewrite Hr. reflexivity.
Qed.
End Eigen.

Section EigenBudget.
Context {T : Type} `{Scalar T} `{ScalarSqrt T}.

(** One more unit of budget is one more step, applied to the iterate the
    smaller budget ends with. *)
Lemma qr_iterate_succ k (A : Matrix.t T) :
  qr_iterate (Datatypes.S k) A = (A_k <- qr_iterate k A ;; qr_step A_k).
Proof.
  revert A; induction k as [|k IH]; intros A.
  - simpl. destruct (qr_step A); reflexivity.
  - simpl. destruct (qr_step A) as [A'|e]; simpl; [|reflexivity].
    exact (IH A').
Qed.
End EigenBudget.

(* ================================================================= *)
(** * Loops that visit every entry of a matrix *)

Section CellLoops.
Context {T : Type} `{Scalar T}.
Implicit Types m : Matrix.t T.

Lemma shaped_tabulate R C (f : nat -> nat -> T) : shaped R C (tabulate R C f).
Proof.
  split; [split|split; reflexivity]; simpl.
  - now rewrite length_map, length_seq.
  - apply Forall_forall. intros row Hin. apply in_map_iff in Hin as (r & <- & _).
    now rewrite length_map, length_seq.
Qed.

Lemma raw_tabulate R C (f : nat -> nat -> T) r c :
  r < R -> c < C -> Matrix.raw (tabulate R C f) r c = f r c.
Proof.
  intros Hr Hc. unfold Matrix.raw, tabulate. simpl.
  rewrite (nth_map_lt (fun r => map (f r) (seq 0 C)) (seq 0 R) 0 [])
    by (now rewrite length_seq).
  rewrite seq_nth by exact Hr. simpl.
  rewrite (nth_map_lt (f r) (seq 0 C) 0 s0) by (now rewrite length_seq).
  now rewrite seq_nth.
Qed.

(** A matrix is the table of its entries. *)
Lemma shaped_eq_tabulate R C m (f : nat -> nat -> T) :
  shaped R C m ->
  (forall r c, r < R -> c < C -> Matrix.raw m r c = f r c) ->
  m = tabulate R C f.
Proof.
  intros (Hwf & Hr & Hc) Hf.
  destruct (shaped_tabulate R C f) as (Hwt & Hrt & Hct).
  apply (matrix_ext Hwt Hwf).
  - split; congruence.
  - intros r c Hr' Hc'. rewrite Hrt in Hr'. rewrite Hct in Hc'.
    now rewrite raw_tabulate, Hf.
Qed.

Lemma shaped_set_raw R C m r c v :
  shaped R C m -> shaped R C (Matrix.set_raw m r c v).
Proof.
  intros (Hwf & Hr & Hc). split; [now apply wf_set_raw|]. now split.
Qed.

(** Two nested loops whose body rewrites the entry [(i, j)] alone, as
    [g i j] of its old value: every entry has been through [g]. *)
Lemma cell_loops R C (body : nat -> nat -> Matrix.t T -> result (Matrix.t T))
  (g : nat -> nat -> T -> T) :
  (forall i j m, i < R -> j < C -> shaped R C m ->
     returns (body i j m)
       (fun m' => shaped R C m' /\
                  forall r c, Matrix.raw m' r c =
                              if (r =? i) && (c =? j)
                              then g i j (Matrix.raw m i j)
                              else Matrix.raw m r c)) ->
  forall m0, shaped R C m0 ->
  foldM (fun res i => foldM (fun res j => body i j res) (seq 0 C) res)
    (seq 0 R) m0 =
  Ok (tabulate R C (fun r c => g r c (Matrix.raw m0 r c))).
Proof.
  intros Hbody m0 Hm0.
  assert (Hrow : forall i m, i < R -> shaped R C m ->
            returns (foldM (fun res j => body i j res) (seq 0 C) m)
              (fun m' => shaped R C m' /\
                         forall r c, Matrix.raw m' r c =
                                     if (r =? i) && (c <? C)
                                     then g i c (Matrix.raw m i c)
                                     else Matrix.raw m r c)).
  { intros i m Hi Hm.
    pose proof (@returns_foldM _ _ (fun res j => body i j res)
                  (fun k m' => shaped R C m' /\
                     forall r c, Matrix.raw m' r c =
                                 if (r =? i) && (c <? k)
                                 then g i c (Matrix.raw m i c)
                                 else Matrix.raw m r c)
                  (seq 0 C) m) as Hloop.
    rewrite length_seq in Hloop. apply Hloop; clear Hloop.
    - split; [exact Hm|]. intros r c.
      replace (c <? 0) with false by (symmetry; apply Nat.ltb_ge; lia).
      now rewrite andb_false_r.
    - intros k j m' Hk (Hm' & Hraw).
      apply nth_error_seq_inv in Hk as (Hk & ->). simpl.
      eapply returns_mono; [apply (Hbody i k m' Hi Hk Hm')|].
      intros m'' (Hm'' & Hraw''). split; [exact Hm''|].
      intros r c. rewrite Hraw'', !Hraw.
      destruct (Nat.eqb_spec r i) as [->|Er]; simpl; [|reflexivity].
      rewrite Nat.eqb_refl, Nat.ltb_irrefl. simpl.
      destruct (Nat.eqb_spec c k) as [Ec|Ec].
      + subst c.
        destruct (Nat.ltb_spec k (Datatypes.S k)); [reflexivity | lia].
      + destruct (Nat.ltb_spec c k); destruct (Nat.ltb_spec c (Datatypes.S k));
          try reflexivity; lia. }
  pose proof (@returns_foldM _ _
                (fun res i => foldM (fun res j => body i j res) (seq 0 C) res)
                (fun k m' => shaped R C m' /\
                   forall r c, Matrix.raw m' r c =
                               if (r <? k) && (c <? C)
                               then g r c (Matrix.raw m0 r c)
                               else Matrix.raw m0 r c)
                (seq 0 R) m0) as Hloop.
  rewrite length_seq in Hloop.
  assert (Hret : returns
            (foldM (fun res i => foldM (fun res j => body i j res) (seq 0 C) res)
               (seq 0 R) m0)
            (fun m' => shaped R C m' /\
               forall r c, Matrix.raw m' r c =
                           if (r <? R) && (c <? C)
                           then g r c (Matrix.raw m0 r c)
                           else Matrix.raw m0 r c)).
  { apply Hloop; clear Hloop.
    - split; [exact Hm0|]. intros r c. reflexivity.
    - intros k i m Hk (Hm & Hraw).
      apply nth_error_seq_inv in Hk as (Hk & ->). simpl.
      eapply returns_mono; [apply (Hrow k m Hk Hm)|].
      intros m'' (Hm'' & Hraw''). split; [exact Hm''|].
      intros r c. rewrite Hraw'', !Hraw.
      rewrite Nat.ltb_irrefl. simpl.
      destruct (Nat.eqb_spec r k) as [->|Er]; simpl.
      + destruct (Nat.ltb_spec k (Datatypes.S k)); [|lia].
        rewrite ?Nat.ltb_irrefl. simpl. destruct (c <? C); reflexivity.
      + destruct (Nat.ltb_spec r k); destruct (Nat.ltb_spec r (Datatypes.S k));
          try reflexivity; lia. }
  clear Hloop.
  destruct (foldM _ (seq 0 R) m0) as [m'|e]; [|destruct Hret].
  f_equal. destruct Hret as (Hm' & Hraw).
  apply shaped_eq_tabulate; [exact Hm'|].
  intros r c Hr Hc. rewrite Hraw.
  apply Nat.ltb_lt in Hr, Hc. now rewrite Hr, Hc.
Qed.
End CellLoops.

(* ================================================================= *)
(** * The operators of matrix.h *)

Section Operators.
Context {T : Type} `{Scalar T}.
Implicit Types m : Matrix.t T.

Lemma foldM_app {S I : Type} (body : S -> I -> result S) (l1 l2 : list I)
  (s : S) :
  foldM body (l1 ++ l2) s = (s' <- foldM body l1 s ;; foldM body l2 s').
Proof.
  revert s; induction l1 as [|i l1 IH]; intros s; simpl; [reflexivity|].
  destruct (body s i) as [s'|e]; simpl; [apply IH | reflexivity].
Qed.

(** The checked constructor: a table of [T()]. *)
Lemma make_positive r c :
  0 < r -> 0 < c ->
  Matrix.make r c = Ok (tabulate r c (fun _ _ => s0 (T:=T))).
Proof.
  intros Hr Hc. unfold Matrix.make.
  destruct (Nat.eqb_spec r 0); [lia|]. destruct (Nat.eqb_spec c 0); [lia|].
  simpl. f_equal. apply shaped_eq_tabulate.
  - split; [apply wf_zero_matrix | split; reflexivity].
  - intros. apply raw_zero_matrix.
Qed.

Lemma make_not_positive r c :
  r = 0 \/ c = 0 ->
  Matrix.make (T:=T) r c =
  Throw (invalid_argument "Matrix dimensions must be positive").
Proof.
  intros [-> | ->]; unfold Matrix.make; simpl; [reflexivity|].
  now rewrite orb_true_r.
Qed.

(** One checked write, as a step of a loop over the entries. *)
Lemma set_at_cell R C m i j v :
  i < R -> j < C -> shaped R C m ->
  returns (Matrix.set_at m i j v)
    (fun m' => shaped R C m' /\
               forall r c, Matrix.raw m' r c =
                           if (r =? i) && (c =? j) then v
                           else Matrix.raw m r c).
Proof.
  intros Hi Hj Hm. pose proof Hm as (Hwf & Hr & Hc).
  rewrite set_at_returns by lia. simpl.
  split; [now apply shaped_set_raw|].
  intros r c. apply raw_set_raw; [exact Hwf | lia | lia].
Qed.

(** The loops [for i, for j: res.at(i, j) = f(i, j)]. *)
Lemma fill_loops R C (f : nat -> nat -> T) m0 :
  shaped R C m0 ->
  foldM (fun res i =>
           foldM (fun res j => Matrix.set_at res i j (f i j)) (seq 0 C) res)
    (seq 0 R) m0 =
  Ok (tabulate R C f).
Proof.
  intros Hm0.
  apply (cell_loops (fun i j res => Matrix.set_at res i j (f i j))
           (fun i j _ => f i j)); [|exact Hm0].
  intros i j m Hi Hj Hm. now apply set_at_cell.
Qed.

(** A result matrix is allocated, then filled. *)
Lemma allocate_and_fill R C (f : nat -> nat -> T) :
  0 < R -> 0 < C ->
  (res <- Matrix.make R C ;;
   foldM (fun res i =>
            foldM (fun res j => Matrix.set_at res i j (f i j)) (seq 0 C) res)
     (seq 0 R) res) =
  Ok (tabulate R C f).
Proof.
  intros HR HC. rewrite make_positive by assumption. simpl.
  apply fill_loops, shaped_tabulate.
Qed.

Lemma transpose_entries m :
  0 < Matrix.rows m -> 0 < Matrix.cols m ->
  Matrix.transpose m =
  Ok (tabulate (Matrix.cols m) (Matrix.rows m) (fun c r => Matrix.raw m r c)).
Proof.
  intros Hr Hc. unfold Matrix.transpose.
  apply (allocate_and_fill (fun c r => Matrix.raw m r c)); assumption.
Qed.

Lemma tabulate_self m :
  wf m -> tabulate (Matrix.rows m) (Matrix.cols m) (Matrix.raw m) = m.
Proof.
  intros Hwf. symmetry. apply shaped_eq_tabulate; [|reflexivity].
  split; [exact Hwf | split; reflexivity].
Qed.

Lemma add_entries m other :
  Matrix.rows other = Matrix.rows m -> Matrix.cols other = Matrix.cols m ->
  0 < Matrix.rows m -> 0 < Matrix.cols m ->
  Matrix.add m other =
  Ok (tabulate (Matrix.rows m) (Matrix.cols m)
        (fun i j => sadd (Matrix.raw m i j) (Matrix.raw other i j))).
Proof.
  intros Hr Hc Hpr Hpc. unfold Matrix.add.
  rewrite Hr, Hc, !Nat.eqb_refl. simpl.
  now apply (allocate_and_fill
               (fun i j => sadd (Matrix.raw m i j) (Matrix.raw other i j))).
Qed.

Lemma sub_entries m other :
  Matrix.rows other = Matrix.rows m -> Matrix.cols other = Matrix.cols m ->
  0 < Matrix.rows m -> 0 < Matrix.cols m ->
  Matrix.sub m other =
  Ok (tabulate (Matrix.rows m) (Matrix.cols m)
        (fun i j => ssub (Matrix.raw m i j) (Matrix.raw other i j))).
Proof.
  intros Hr Hc Hpr Hpc. unfold Matrix.sub.
  rewrite Hr, Hc, !Nat.eqb_refl. simpl.
  now apply (allocate_and_fill
               (fun i j => ssub (Matrix.raw m i j) (Matrix.raw other i j))).
Qed.

Lemma scale_entries m scalar :
  0 < Matrix.rows m -> 0 < Matrix.cols m ->
  Matrix.scale m scalar =
  Ok (tabulate (Matrix.rows m) (Matrix.cols m)
        (fun i j => smul (Matrix.raw m i j) scalar)).
Proof.
  intros Hpr Hpc. unfold Matrix.scale.
  now apply (allocate_and_fill (fun i j => smul (Matrix.raw m i j) scalar)).
Qed.

Lemma neg_entries m :
  0 < Matrix.rows m -> 0 < Matrix.cols m ->
  Matrix.neg m =
  Ok (tabulate (Matrix.rows m) (Matrix.cols m)
        (fun i j => sneg (Matrix.raw m i j))).
Proof.
  intros Hpr Hpc. unfold Matrix.neg.
  now apply (allocate_and_fill (fun i j => sneg (Matrix.raw m i j))).
Qed.

Lemma div_entries m scalar :
  sltb (sabs scalar) tiny = false ->
  0 < Matrix.rows m -> 0 < Matrix.cols m ->
  Matrix.div m scalar =
  Ok (tabulate (Matrix.rows m) (Matrix.cols m)
        (fun i j => sdiv (Matrix.raw m i j) scalar)).
Proof.
  intros Hs Hpr Hpc. unfold Matrix.div. rewrite Hs.
  now apply (allocate_and_fill (fun i j => sdiv (Matrix.raw m i j) scalar)).
Qed.

(** The loop [for i < k: res.at(i, i) = v]. *)
Lemma diagonal_loop R C k (v : T) m0 :
  shaped R C m0 -> k <= R -> k <= C ->
  foldM (fun res i => Matrix.set_at res i i v) (seq 0 k) m0 =
  Ok (tabulate R C (fun r c => if (r =? c) && (r <? k) then v
                               else Matrix.raw m0 r c)).
Proof.
  intros Hm0 HkR HkC.
  pose proof (@returns_foldM _ _ (fun res i => Matrix.set_at res i i v)
                (fun n m' => shaped R C m' /\
                   forall r c, Matrix.raw m' r c =
                               if (r =? c) && (r <? n) then v
                               else Matrix.raw m0 r c)
                (seq 0 k) m0) as Hloop.
  rewrite length_seq in Hloop.
  assert (Hret : returns
            (foldM (fun res i => Matrix.set_at res i i v) (seq 0 k) m0)
            (fun m' => shaped R C m' /\
               forall r c, Matrix.raw m' r c =
                           if (r =? c) && (r <? k) then v
                           else Matrix.raw m0 r c)).
  { apply Hloop; clear Hloop.
    - split; [exact Hm0|]. intros r c.
      replace (r <? 0) with false by (symmetry; apply Nat.ltb_ge; lia).
      now rewrite andb_false_r.
    - intros n i m Hn (Hm & Hraw).
      apply nth_error_seq_inv in Hn as (Hn & ->). simpl.
      eapply returns_mono; [apply (@set_at_cell R C m n n v); [lia|lia|exact Hm]|].
      intros m' (Hm' & Hraw'). split; [exact Hm'|].
      intros r c. rewrite Hraw', Hraw.
      destruct (Nat.eqb_spec r n) as [->|Er]; simpl.
      + destruct (Nat.eqb_spec c n) as [->|Ec].
        * rewrite Nat.eqb_refl.
          destruct (Nat.ltb_spec n (Datatypes.S n)); [reflexivity | lia].
        * destruct (Nat.eqb_spec n c); [congruence | reflexivity].
      + destruct (Nat.ltb_spec r n); destruct (Nat.ltb_spec r (Datatypes.S n));
          try reflexivity; lia. }
  clear Hloop.
  destruct (foldM _ (seq 0 k) m0) as [m'|e]; [|destruct Hret].
  f_equal. destruct Hret as (Hm' & Hraw).
  apply shaped_eq_tabulate; [exact Hm'|]. intros r c _ _. apply Hraw.
Qed.

(** A checked access outside the matrix throws. *)
Lemma set_at_out_of_bounds m r c v :
  Matrix.rows m <= r \/ Matrix.cols m <= c ->
  Matrix.set_at m r c v = Throw (out_of_range "Matrix index out of bounds").
Proof.
  intros Hout. unfold Matrix.set_at.
  destruct (Nat.leb_spec (Matrix.rows m) r); simpl; [reflexivity|].
  destruct (Nat.leb_spec (Matrix.cols m) c); simpl; [reflexivity|]. lia.
Qed.

Lemma at_out_of_bounds m r c :
  Matrix.rows m <= r \/ Matrix.cols m <= c ->
  Matrix.at_ m r c = Throw (out_of_range "Matrix index out of bounds").
Proof.
  intros Hout. unfold Matrix.at_.
  destruct (Nat.leb_spec (Matrix.rows m) r); simpl; [reflexivity|].
  destruct (Nat.leb_spec (Matrix.cols m) c); simpl; [reflexivity|]. lia.
Qed.

(** The diagonal loop runs off the matrix when it is asked for more
    entries than the diagonal has. *)
Lemma diagonal_loop_overrun R C k (v : T) m0 :
  shaped R C m0 -> Nat.min R C < k ->
  foldM (fun res i => Matrix.set_at res i i v) (seq 0 k) m0 =
  Throw (out_of_range "Matrix index out of bounds").
Proof.
  intros Hm0 Hk.
  replace k with (Nat.min R C + Datatypes.S (k - Nat.min R C - 1)) by lia.
  rewrite seq_app, foldM_app.
  rewrite (@diagonal_loop R C (Nat.min R C) v m0 Hm0) by lia.
  simpl. rewrite set_at_out_of_bounds; [reflexivity|].
  simpl. lia.
Qed.

Lemma identity_entries n :
  0 < n -> Matrix.identity (T:=T) n = Ok (tabulate n n delta).
Proof.
  intros Hn. unfold Matrix.identity. rewrite make_positive by exact Hn.
  simpl. rewrite (@diagonal_loop n n n s1) by (auto using shaped_tabulate).
  f_equal. apply shaped_eq_tabulate; [apply shaped_tabulate|].
  intros r c Hr Hc. rewrite !raw_tabulate by assumption. unfold delta.
  apply Nat.ltb_lt in Hr. rewrite Hr, andb_true_r. reflexivity.
Qed.

Lemma getRankNormalForm_entries rows cols rank :
  0 < rows -> 0 < cols -> rank <= Nat.min rows cols ->
  Matrix.getRankNormalForm (T:=T) rows cols rank =
  Ok (tabulate rows cols
        (fun r c => if (r =? c) && (r <? rank) then s1 else s0)).
Proof.
  intros Hr Hc Hk. unfold Matrix.getRankNormalForm.
  rewrite make_positive by assumption. simpl.
  rewrite (@diagonal_loop rows cols rank s1) by (auto using shaped_tabulate; lia).
  f_equal. apply shaped_eq_tabulate; [apply shaped_tabulate|].
  intros r c Hr' Hc'. rewrite !raw_tabulate by assumption. reflexivity.
Qed.

Lemma getRankNormalForm_overrun rows cols rank :
  0 < rows -> 0 < cols -> Nat.min rows cols < rank ->
  Matrix.getRankNormalForm (T:=T) rows cols rank =
  Throw (out_of_range "Matrix index out of bounds").
Proof.
  intros Hr Hc Hk. unfold Matrix.getRankNormalForm.
  rewrite make_positive by assumption. simpl.
  apply (@diagonal_loop_overrun rows cols rank);
    [apply shaped_tabulate | exact Hk].
Qed.

Lemma setToIdentity_entries m :
  wf m -> Matrix.rows m = Matrix.cols m ->
  Matrix.setToIdentity m =
  Ok (tabulate (Matrix.rows m) (Matrix.rows m) delta).
Proof.
  intros Hwf Hsq. unfold Matrix.setToIdentity.
  rewrite <- Hsq, Nat.eqb_refl. simpl.
  apply (fill_loops delta). split; [exact Hwf|]. split; congruence.
Qed.
End Operators.

(* ================================================================= *)
(** * The matrix product and the elementary matrices *)

Section Products.
Context {T : Type} `{Scalar T}.
Implicit Types m : Matrix.t T.

Lemma tabulate_ext R C (f g : nat -> nat -> T) :
  (forall r c, r < R -> c < C -> f r c = g r c) ->
  tabulate R C f = tabulate R C g.
Proof.
  intros Hfg. apply shaped_eq_tabulate; [apply shaped_tabulate|].
  intros r c Hr Hc. rewrite raw_tabulate by assumption. now apply Hfg.
Qed.

Lemma sum_from_succ acc (t : nat -> T) n :
  sum_from acc t (Datatypes.S n) = sadd (sum_from acc t n) (t n).
Proof.
  unfold sum_from. now rewrite seq_S, fold_left_app.
Qed.

(** The innermost loop of the product: entry [(i, j)] accumulates the
    terms [t 0 .. t (n-1)]. *)
Lemma accumulate_cell R C i j (t : nat -> T) n m :
  i < R -> j < C -> shaped R C m ->
  returns
    (foldM (fun res k => x <- Matrix.at_ res i j ;;
                         Matrix.set_at res i j (sadd x (t k)))
       (seq 0 n) m)
    (fun m' => shaped R C m' /\
               forall r c, Matrix.raw m' r c =
                           if (r =? i) && (c =? j)
                           then sum_from (Matrix.raw m i j) t n
                           else Matrix.raw m r c).
Proof.
  intros Hi Hj Hm.
  pose proof (@returns_foldM _ _
                (fun res k => x <- Matrix.at_ res i j ;;
                              Matrix.set_at res i j (sadd x (t k)))
                (fun k m' => shaped R C m' /\
                   forall r c, Matrix.raw m' r c =
                               if (r =? i) && (c =? j)
                               then sum_from (Matrix.raw m i j) t k
                               else Matrix.raw m r c)
                (seq 0 n) m) as Hloop.
  rewrite length_seq in Hloop. apply Hloop; clear Hloop.
  - split; [exact Hm|]. intros r c.
    destruct ((r =? i) && (c =? j)) eqn:E; [|reflexivity].
    apply andb_true_iff in E as [Er Ec].
    apply Nat.eqb_eq in Er, Ec. now subst.
  - intros k k' m' Hk (Hm' & Hraw).
    apply nth_error_seq_inv in Hk as (Hk & ->). simpl.
    pose proof Hm' as (Hwf' & Hr' & Hc').
    rewrite at_returns by lia. simpl.
    eapply returns_mono; [apply (@set_at_cell _ _ R C m' i j); assumption|].
    intros m'' (Hm'' & Hraw''). split; [exact Hm''|].
    intros r c. rewrite Hraw'', !Hraw.
    rewrite !Nat.eqb_refl. simpl.
    destruct ((r =? i) && (c =? j)); [|reflexivity].
    now rewrite sum_from_succ.
Qed.

Lemma mul_entries m other :
  Matrix.cols m = Matrix.rows other ->
  0 < Matrix.rows m -> 0 < Matrix.cols other ->
  Matrix.mul m other =
  Ok (tabulate (Matrix.rows m) (Matrix.cols other) (product_entry m other)).
Proof.
  intros Hinner Hr Hc. unfold Matrix.mul.
  rewrite Hinner, Nat.eqb_refl. simpl.
  rewrite make_positive by assumption. simpl.
  rewrite (cell_loops
             (fun i j res =>
                foldM (fun res k =>
                         x <- Matrix.at_ res i j ;;
                         Matrix.set_at res i j
                           (sadd x (smul (Matrix.raw m i k)
                                         (Matrix.raw other k j))))
                  (seq 0 (Matrix.rows other)) res)
             (fun i j x =>
                sum_from x (fun k => smul (Matrix.raw m i k)
                                          (Matrix.raw other k j))
                  (Matrix.rows other))).
  - f_equal. apply tabulate_ext. intros r c Hr' Hc'.
    rewrite raw_tabulate by assumption. unfold product_entry.
    now rewrite Hinner.
  - intros i j res Hi Hj Hres.
    now apply (accumulate_cell
                 (fun k => smul (Matrix.raw m i k) (Matrix.raw other k j))).
  - apply shaped_tabulate.
Qed.

Lemma mul_mismatch m other :
  Matrix.cols m <> Matrix.rows other ->
  Matrix.mul m other =
  Throw (invalid_argument "Matrix dimensions must match for multiplication").
Proof.
  intros Hne. unfold Matrix.mul.
  destruct (Nat.eqb_spec (Matrix.cols m) (Matrix.rows other)); [contradiction|].
  reflexivity.
Qed.
End Products.

Section ProductsExact.
Context {T : Type} `{Scalar T} {EA : ExactArithmetic T}.
Implicit Types m : Matrix.t T.

Lemma delta_same i : delta (T:=T) i i = s1.
Proof. unfold delta. now rewrite Nat.eqb_refl. Qed.

Lemma delta_other i j : i <> j -> delta (T:=T) i j = s0.
Proof.
  intros Hne. unfold delta. destruct (Nat.eqb_spec i j); [contradiction|].
  reflexivity.
Qed.

(** A row of the identity picks one row of the right factor. *)
Lemma product_pick_row (a m : Matrix.t T) i j p :
  p < Matrix.cols a ->
  (forall k, k < Matrix.cols a -> Matrix.raw a i k = delta p k) ->
  product_entry a m i j = Matrix.raw m p j.
Proof.
  intros Hp Ha. unfold product_entry.
  rewrite (@big_sum_one _ _ EA _ (Matrix.cols a) p Hp).
  - now rewrite Ha, delta_same, smul_1_l.
  - intros k Hk Hne. rewrite Ha by exact Hk.
    rewrite delta_other by congruence. apply smul_0_l.
Qed.

(** A column of the identity picks one column of the left factor. *)
Lemma product_pick_col (m b : Matrix.t T) i j p :
  p < Matrix.cols m ->
  (forall k, k < Matrix.cols m -> Matrix.raw b k j = delta k p) ->
  product_entry m b i j = Matrix.raw m i p.
Proof.
  intros Hp Hb. unfold product_entry.
  rewrite (@big_sum_one _ _ EA _ (Matrix.cols m) p Hp).
  - now rewrite Hb, delta_same, smul_1_r.
  - intros k Hk Hne. rewrite Hb by exact Hk.
    rewrite delta_other by congruence. apply smul_0_r.
Qed.

Lemma mul_identity_l m :
  wf m -> 0 < Matrix.rows m -> 0 < Matrix.cols m ->
  (I <- Matrix.identity (Matrix.rows m) ;; Matrix.mul I m) = Ok m.
Proof.
  intros Hwf Hr Hc. rewrite identity_entries by exact Hr. simpl.
  rewrite mul_entries by (simpl; auto). simpl. f_equal.
  etransitivity; [|apply (tabulate_self Hwf)]. apply tabulate_ext.
  intros r c Hr' Hc'.
  apply product_pick_row; simpl; [exact Hr'|].
  intros k Hk. now apply raw_tabulate.
Qed.

Lemma mul_identity_r m :
  wf m -> 0 < Matrix.rows m -> 0 < Matrix.cols m ->
  (I <- Matrix.identity (Matrix.cols m) ;; Matrix.mul m I) = Ok m.
Proof.
  intros Hwf Hr Hc. rewrite identity_entries by exact Hc. simpl.
  rewrite mul_entries by (simpl; auto). simpl. f_equal.
  etransitivity; [|apply (tabulate_self Hwf)]. apply tabulate_ext.
  intros r c Hr' Hc'.
  apply product_pick_col; [exact Hc'|].
  intros k Hk. now apply raw_tabulate.
Qed.
End ProductsExact.

(* ================================================================= *)
(** * The elementary matrices act as the row operations *)

Section RowOperationTables.
Context {T : Type} `{Scalar T}.
Implicit Types m : Matrix.t T.

Lemma exchangeRows_out_of_bounds m r1 r2 :
  Matrix.rows m <= r1 \/ Matrix.rows m <= r2 ->
  Matrix.exchangeRows m r1 r2 =
  Throw (out_of_range "Row index out of bounds").
Proof.
  intros Hout. unfold Matrix.exchangeRows.
  destruct (Nat.leb_spec (Matrix.rows m) r1); simpl; [reflexivity|].
  destruct (Nat.leb_spec (Matrix.rows m) r2); simpl; [reflexivity|]. lia.
Qed.

Lemma scaleRow_out_of_bounds m r k :
  Matrix.rows m <= r ->
  Matrix.scaleRow m r k = Throw (out_of_range "Row index out of bounds").
Proof.
  intros Hout. unfold Matrix.scaleRow.
  destruct (Nat.leb_spec (Matrix.rows m) r); [reflexivity | lia].
Qed.

Lemma addScaledRow_out_of_bounds m t s k :
  Matrix.rows m <= t \/ Matrix.rows m <= s ->
  Matrix.addScaledRow m t s k =
  Throw (out_of_range "Row index out of bounds").
Proof.
  intros Hout. unfold Matrix.addScaledRow.
  destruct (Nat.leb_spec (Matrix.rows m) t); simpl; [reflexivity|].
  destruct (Nat.leb_spec (Matrix.rows m) s); simpl; [reflexivity|]. lia.
Qed.

(** [scaleRow], when the row exists and the factor is accepted. *)
Lemma scaleRow_entries m r k :
  wf m -> r < Matrix.rows m ->
  (is_floating_point && sltb (sabs k) tiny) = false ->
  Matrix.scaleRow m r k =
  Ok (tabulate (Matrix.rows m) (Matrix.cols m)
        (fun r' c => if r' =? r then smul (Matrix.raw m r c) k
                     else Matrix.raw m r' c)).
Proof.
  intros Hwf Hr Hk.
  destruct (Matrix.scaleRow m r k) as [m'|e] eqn:E.
  - destruct (scaleRow_returns _ _ Hwf E) as (_ & _ & Hwf' & [Hr' Hc'] & Hraw).
    f_equal. apply shaped_eq_tabulate; [now split|].
    intros r' c Hr'' Hc''. rewrite Hraw.
    apply Nat.ltb_lt in Hc''. now rewrite Hc'', andb_true_r.
  - exfalso. unfold Matrix.scaleRow in E.
    destruct (Nat.leb_spec (Matrix.rows m) r); [lia|].
    rewrite Hk in E. discriminate.
Qed.

Lemma scaleRow_too_small m r k :
  r < Matrix.rows m ->
  (is_floating_point && sltb (sabs k) tiny) = true ->
  Matrix.scaleRow m r k = Throw (invalid_argument "Scaling factor too small").
Proof.
  intros Hr Hk. unfold Matrix.scaleRow.
  destruct (Nat.leb_spec (Matrix.rows m) r); [lia|]. now rewrite Hk.
Qed.

(** [addScaledRow], when both rows exist. *)
Lemma addScaledRow_entries m t s k :
  wf m -> t < Matrix.rows m -> s < Matrix.rows m ->
  Matrix.addScaledRow m t s k =
  Ok (tabulate (Matrix.rows m) (Matrix.cols m)
        (fun r c => if (r =? t)
                       && negb (is_floating_point && sltb (sabs k) tiny)
                    then sadd (Matrix.raw m t c) (smul (Matrix.raw m s c) k)
                    else Matrix.raw m r c)).
Proof.
  intros Hwf Ht Hs.
  destruct (addScaledRow_returns k Hwf Ht Hs)
    as (m' & -> & Hwf' & [Hr' Hc'] & Hraw).
  f_equal. apply shaped_eq_tabulate; [now split|].
  intros r c Hr Hc. rewrite Hraw. unfold axpy_entry.
  apply Nat.ltb_lt in Hc. now rewrite Hc, andb_true_r.
Qed.

Lemma exchangeRows_entries m r1 r2 :
  wf m -> r1 < Matrix.rows m -> r2 < Matrix.rows m ->
  Matrix.exchangeRows m r1 r2 =
  Ok (tabulate (Matrix.rows m) (Matrix.cols m)
        (fun r c => Matrix.raw m (if r =? r2 then r1
                                  else if r =? r1 then r2 else r) c)).
Proof.
  intros Hwf H1 H2. rewrite exchangeRows_returns by assumption. f_equal.
  apply shaped_eq_tabulate.
  - split; [now apply wf_swapped | split; reflexivity].
  - intros r c _ _. now apply raw_swapped.
Qed.
End RowOperationTables.

Section ElementaryMatrices.
Context {T : Type} `{Scalar T} {EA : ExactArithmetic T}.
Implicit Types m : Matrix.t T.

Lemma rowSwap_acts m i j :
  wf m -> 0 < Matrix.rows m -> 0 < Matrix.cols m ->
  (E <- Matrix.rowSwap (Matrix.rows m) i j ;; Matrix.mul E m) =
  Matrix.exchangeRows m i j.
Proof.
  intros Hwf Hr Hc. unfold Matrix.rowSwap.
  rewrite identity_entries by exact Hr. simpl.
  destruct (shaped_tabulate (Matrix.rows m) (Matrix.rows m) (delta (T:=T)))
    as (HwfI & HrI & HcI).
  destruct (Nat.lt_ge_cases i (Matrix.rows m)) as [Hi|Hi];
    [destruct (Nat.lt_ge_cases j (Matrix.rows m)) as [Hj|Hj]|].
  - rewrite (exchangeRows_entries HwfI) by (rewrite HrI; assumption).
    rewrite (exchangeRows_entries Hwf) by assumption. simpl.
    rewrite mul_entries by (simpl; auto). simpl. f_equal.
    apply tabulate_ext. intros r c Hr' Hc'.
    apply product_pick_row; simpl.
    + destruct (r =? j); [exact Hi|]. destruct (r =? i); assumption.
    + intros k Hk. rewrite !raw_tabulate; try assumption; [reflexivity|].
      destruct (r =? j); [exact Hi|]. destruct (r =? i); assumption.
  - rewrite !exchangeRows_out_of_bounds by (simpl; lia). reflexivity.
  - rewrite !exchangeRows_out_of_bounds by (simpl; lia). reflexivity.
Qed.

Context {CA : CommutativeArithmetic T}.

Lemma rowScale_acts m i c :
  wf m -> 0 < Matrix.rows m -> 0 < Matrix.cols m ->
  (E <- Matrix.rowScale (Matrix.rows m) i c ;; Matrix.mul E m) =
  Matrix.scaleRow m i c.
Proof.
  intros Hwf Hr Hc. unfold Matrix.rowScale.
  rewrite identity_entries by exact Hr. simpl.
  destruct (shaped_tabulate (Matrix.rows m) (Matrix.rows m) (delta (T:=T)))
    as (HwfI & HrI & HcI).
  destruct (Nat.lt_ge_cases i (Matrix.rows m)) as [Hi|Hi];
    [destruct (is_floating_point && sltb (sabs c) tiny) eqn:Hguard|].
  - rewrite !scaleRow_too_small by (simpl; assumption). reflexivity.
  - rewrite (scaleRow_entries _ HwfI) by (simpl; assumption).
    rewrite (scaleRow_entries _ Hwf) by assumption. simpl.
    rewrite mul_entries by (simpl; auto). simpl. f_equal.
    apply tabulate_ext. intros r c' Hr' Hc'.
    destruct (Nat.eqb_spec r i) as [->|Hne].
    + unfold product_entry. simpl.
      rewrite (@big_sum_one _ _ EA _ (Matrix.rows m) i Hi).
      * rewrite !raw_tabulate by assumption.
        rewrite Nat.eqb_refl, delta_same, smul_1_l.
        apply smul_comm.
      * intros k Hk Hki. rewrite !raw_tabulate by assumption.
        rewrite Nat.eqb_refl.
        rewrite delta_other by congruence. now rewrite !smul_0_l.
    + apply product_pick_row; simpl; [exact Hr'|].
      intros k Hk. rewrite raw_tabulate by assumption.
      destruct (Nat.eqb_spec r i); [contradiction|].
      now apply raw_tabulate.
  - rewrite !scaleRow_out_of_bounds by (simpl; lia). reflexivity.
Qed.

Lemma rowadd_acts m i j k :
  wf m -> 0 < Matrix.rows m -> 0 < Matrix.cols m -> i <> j ->
  (E <- Matrix.rowadd (Matrix.rows m) i j k ;; Matrix.mul E m) =
  Matrix.addScaledRow m i j k.
Proof.
  intros Hwf Hr Hc Hij. unfold Matrix.rowadd.
  rewrite identity_entries by exact Hr. simpl.
  destruct (shaped_tabulate (Matrix.rows m) (Matrix.rows m) (delta (T:=T)))
    as (HwfI & HrI & HcI).
  destruct (Nat.lt_ge_cases i (Matrix.rows m)) as [Hi|Hi];
    [destruct (Nat.lt_ge_cases j (Matrix.rows m)) as [Hj|Hj]|].
  - rewrite (addScaledRow_entries k HwfI) by (simpl; assumption).
    rewrite (addScaledRow_entries k Hwf) by assumption. simpl.
    rewrite mul_entries by (simpl; auto). simpl. f_equal.
    apply tabulate_ext. intros r c Hr' Hc'.
    destruct ((r =? i) && negb (is_floating_point && sltb (sabs k) tiny))
      eqn:Hrow.
    + apply andb_true_iff in Hrow as [Hri Hguard].
      apply Nat.eqb_eq in Hri. subst r.
      assert (Hentry : forall a, a < Matrix.rows m ->
                Matrix.raw
                  (tabulate (Matrix.rows m) (Matrix.rows m)
                     (fun r c0 =>
                        if (r =? i)
                           && negb (is_floating_point && sltb (sabs k) tiny)
                        then sadd
                               (Matrix.raw
                                  (tabulate (Matrix.rows m) (Matrix.rows m)
                                     delta) i c0)
                               (smul
                                  (Matrix.raw
                                     (tabulate (Matrix.rows m) (Matrix.rows m)
                                        delta) j c0) k)
                        else Matrix.raw
                               (tabulate (Matrix.rows m) (Matrix.rows m) delta)
                               r c0)) i a =
                sadd (delta i a) (smul (delta j a) k)).
      { intros a Ha. rewrite raw_tabulate by assumption.
        rewrite Nat.eqb_refl, Hguard. simpl.
        now rewrite !raw_tabulate by assumption. }
      unfold product_entry. simpl.
      destruct (Nat.lt_ge_cases i j) as [Hlt|Hge].
      * rewrite (@big_sum_two _ _ EA _ (Matrix.rows m) i j Hlt Hj).
        -- rewrite !Hentry by assumption.
           rewrite delta_same, (delta_other (i:=j) (j:=i)) by congruence.
           rewrite (delta_other (i:=i) (j:=j)) by congruence.
           rewrite delta_same, smul_0_l, sadd_0_r, smul_1_l, sadd_0_l, smul_1_l.
           f_equal. apply smul_comm.
        -- intros a Ha Hai Haj. rewrite Hentry by assumption.
           rewrite !delta_other by congruence.
           now rewrite smul_0_l, sadd_0_r, smul_0_l.
      * assert (Hlt : j < i) by lia.
        rewrite (@big_sum_two _ _ EA _ (Matrix.rows m) j i Hlt Hi).
        -- rewrite !Hentry by assumption.
           rewrite delta_same, (delta_other (i:=j) (j:=i)) by congruence.
           rewrite (delta_other (i:=i) (j:=j)) by congruence.
           rewrite delta_same, smul_0_l, sadd_0_r, smul_1_l, sadd_0_l, smul_1_l.
           rewrite sadd_comm. f_equal. apply smul_comm.
        -- intros a Ha Haj Hai. rewrite Hentry by assumption.
           rewrite !delta_other by congruence.
           now rewrite smul_0_l, sadd_0_r, smul_0_l.
    + apply product_pick_row; simpl; [exact Hr'|].
      intros a Ha. rewrite raw_tabulate by assumption.
      rewrite Hrow. now apply raw_tabulate.
  - rewrite !addScaledRow_out_of_bounds by (simpl; lia). reflexivity.
  - rewrite !addScaledRow_out_of_bounds by (simpl; lia). reflexivity.
Qed.
End ElementaryMatrices.

(* ================================================================= *)
(** * When toRREF throws *)

Section RREFOutcome.
Context {T : Type} `{Scalar T}.
Implicit Types m : Matrix.t T.

Lemma clear_above_returns eps pRows pCols m i :
  wf m -> nth i pRows 0 < Matrix.rows m -> nth i pCols 0 < Matrix.cols m ->
  returns (RREF.clear_above eps pRows pCols m i) (wf_same m).
Proof.
  intros Hwf Hrow Hcol. unfold RREF.clear_above.
  pose proof (@returns_foldM _ _
                (RREF.eliminate_above eps (nth i pRows 0) (nth i pCols 0))
                (fun _ m' => wf_same m m')
                (rev (seq 0 (nth i pRows 0))) m) as Hloop.
  apply Hloop; clear Hloop.
  - split; [exact Hwf | apply same_shape_refl].
  - intros k upperRow m' Hk (Hwf' & [Hr' Hc']).
    apply nth_error_rev_seq_inv in Hk as (Hk & ->).
    destruct (@eliminate_above_spec _ _ eps (nth i pRows 0) (nth i pCols 0) m'
                (nth i pRows 0 - 1 - k) Hwf')
      as (m'' & -> & Hwf'' & [Hr'' Hc''] & _); try lia.
    simpl. split; [exact Hwf''|]. split; congruence.
Qed.

Lemma clear_loop_returns eps k pcs m :
  wf m -> k <= Matrix.rows m -> length pcs = k ->
  Forall (fun c => c < Matrix.cols m) pcs ->
  returns (foldM (RREF.clear_above eps (seq 0 k) pcs) (rev (seq 0 k)) m)
    (wf_same m).
Proof.
  intros Hwf Hk Hlen Hcols.
  pose proof (@returns_foldM _ _ (RREF.clear_above eps (seq 0 k) pcs)
                (fun _ m' => wf_same m m') (rev (seq 0 k)) m) as Hloop.
  apply Hloop; clear Hloop.
  - split; [exact Hwf | apply same_shape_refl].
  - intros n i m' Hn (Hwf' & [Hr' Hc']).
    apply nth_error_rev_seq_inv in Hn as (Hn & ->).
    eapply returns_mono.
    + apply clear_above_returns; [exact Hwf'| |].
      * rewrite seq_nth by lia. simpl. lia.
      * rewrite Hc'. rewrite Forall_forall in Hcols.
        apply Hcols, nth_In. lia.
    + intros m'' (Hwf'' & [Hr'' Hc'']). split; [exact Hwf''|].
      split; congruence.
Qed.

Lemma shaped_normalized_rows m pcs k :
  shaped (Matrix.rows m) (Matrix.cols m) (normalized_rows m pcs k).
Proof. apply shaped_tabulate. Qed.

(** The normalization loop of [toRREF] stops at the first pivot whose
    reciprocal [scaleRow] refuses; otherwise every pivot row has been
    scaled. *)
Lemma normalize_loop_outcome m pcs k j :
  wf m -> k <= Matrix.rows m -> length pcs = k ->
  Forall (fun c => c < Matrix.cols m) pcs -> j <= k ->
  foldM (RREF.normalize_pivot (seq 0 k) pcs) (seq 0 j) m =
  if existsb (pivot_rejected m pcs) (seq 0 j)
  then Throw (invalid_argument "Scaling factor too small")
  else Ok (normalized_rows m pcs j).
Proof.
  intros Hwf Hk Hlen Hcols. induction j as [|j IH]; intros Hj.
  - simpl. f_equal. unfold normalized_rows.
    etransitivity; [symmetry; apply (tabulate_self Hwf)|].
    apply tabulate_ext. intros r c _ _. reflexivity.
  - rewrite seq_S, foldM_app, existsb_app, IH by lia. simpl.
    destruct (existsb (pivot_rejected m pcs) (seq 0 j)); simpl; [reflexivity|].
    rewrite orb_false_r.
    destruct (shaped_normalized_rows m pcs j) as (Hwfj & Hrj & Hcj).
    assert (Hcol : nth j pcs 0 < Matrix.cols m).
    { rewrite Forall_forall in Hcols. apply Hcols, nth_In. lia. }
    unfold RREF.normalize_pivot. rewrite seq_nth by lia. simpl.
    rewrite at_returns by (rewrite ?Hrj, ?Hcj; lia). simpl.
    assert (Hpiv : Matrix.raw (normalized_rows m pcs j) j (nth j pcs 0) =
                   Matrix.raw m j (nth j pcs 0)).
    { unfold normalized_rows. rewrite raw_tabulate by lia.
      now rewrite Nat.ltb_irrefl. }
    rewrite Hpiv. unfold pivot_rejected.
    destruct (is_floating_point
              && sltb (sabs (sdiv s1 (Matrix.raw m j (nth j pcs 0)))) tiny)
      eqn:Hguard.
    + rewrite scaleRow_too_small; [reflexivity | rewrite Hrj; lia | exact Hguard].
    + rewrite (scaleRow_entries _ Hwfj); [|rewrite Hrj; lia | exact Hguard].
      cbv [bind]. f_equal. rewrite Hrj, Hcj. unfold normalized_rows at 3.
      apply tabulate_ext. intros r c Hr Hc.
      unfold normalized_rows. rewrite !raw_tabulate by lia.
      rewrite Nat.ltb_irrefl.
      destruct (Nat.eqb_spec r j) as [->|Hne].
      * destruct (Nat.ltb_spec j (Datatypes.S j)); [reflexivity | lia].
      * destruct (Nat.ltb_spec r j); destruct (Nat.ltb_spec r (Datatypes.S j));
          try reflexivity; lia.
Qed.

(** [toRREF] throws exactly when [scaleRow] refuses the reciprocal of a
    pivot of the echelon form, and then with "Scaling factor too small";
    otherwise it returns. *)
Lemma toRREF_outcome m eps :
  wf m ->
  exists st1,
    RREF.toREF (RREF.make m) eps = Ok st1 /\
    (existsb (pivot_rejected (RREF.mat st1) (RREF.pivotCols st1))
       (seq 0 (RREF.rank st1)) = true ->
     RREF.toRREF (RREF.make m) eps =
     Throw (invalid_argument "Scaling factor too small")) /\
    (existsb (pivot_rejected (RREF.mat st1) (RREF.pivotCols st1))
       (seq 0 (RREF.rank st1)) = false ->
     exists st, RREF.toRREF (RREF.make m) eps = Ok st).
Proof.
  intros Hwf.
  pose proof (@returns_conj _ _ _ _ (toREF_returns (RREF.make m) eps)
                (@toREF_wf _ _ (RREF.make m) eps Hwf)) as Href.
  destruct (RREF.toREF (RREF.make m) eps) as [st1|e] eqn:E1; [|destruct Href].
  simpl in Href. destruct Href as (([Hr1 Hc1] & Hpiv & _) & Hwf1).
  simpl in Hr1, Hc1.
  destruct Hpiv as (Hrows & Hlen & Hle & Hinc & Hlt).
  exists st1. split; [reflexivity|].
  unfold RREF.toRREF. simpl. rewrite E1. simpl. rewrite Hrows.
  rewrite (@normalize_loop_outcome (RREF.mat st1) (RREF.pivotCols st1)
             (RREF.rank st1) (RREF.rank st1) Hwf1 Hle Hlen Hlt (Nat.le_refl _)).
  split; intros Hex; rewrite Hex; simpl; [reflexivity|].
  destruct (shaped_normalized_rows (RREF.mat st1) (RREF.pivotCols st1)
              (RREF.rank st1)) as (Hwfn & Hrn & Hcn).
  pose proof (@clear_loop_returns eps (RREF.rank st1) (RREF.pivotCols st1)
                (normalized_rows (RREF.mat st1) (RREF.pivotCols st1)
                   (RREF.rank st1)) Hwfn) as Hclear.
  destruct (foldM _ (rev (seq 0 (RREF.rank st1))) _) as [m2|e2].
  - destruct Hclear as (Hwf2 & [Hr2 Hc2]);
      [rewrite Hrn; exact Hle | exact Hlen | rewrite Hcn; exact Hlt |].
    simpl. unfold Matrix.getRows, Matrix.getCols.
    replace (Matrix.rows m) with (Matrix.rows m2) by congruence.
    replace (Matrix.cols m) with (Matrix.cols m2) by congruence.
    pose proof (cleanup_entries eps Hwf2) as Hclean.
    destruct (RREF.cleanup eps (Matrix.rows m2) (Matrix.cols m2) m2)
      as [m3|e3]; [|destruct Hclean].
    simpl. eexists; reflexivity.
  - exfalso. apply Hclear;
      [rewrite Hrn; exact Hle | exact Hlen | rewrite Hcn; exact Hlt].
Qed.
End RREFOutcome.

(* ================================================================= *)
(** * The unchecked loops: compound assignments, augment, rows and columns *)

Section PureLoops.
Context {T : Type} `{Scalar T}.
Implicit Types m : Matrix.t T.

Lemma foldM_pure {S I : Type} (f : S -> I -> S) (l : list I) (s : S) :
  foldM (fun s i => Ok (f s i)) l s = Ok (fold_left f l s).
Proof.
  revert s; induction l as [|i l IH]; intros s; simpl; [reflexivity|].
  apply IH.
Qed.

Lemma foldM_ext {S I : Type} (body1 body2 : S -> I -> result S)
  (l : list I) (s : S) :
  (forall s i, body1 s i = body2 s i) ->
  foldM body1 l s = foldM body2 l s.
Proof.
  intros Hext. revert s; induction l as [|i l IH]; intros s; simpl;
    [reflexivity|].
  rewrite Hext. destruct (body2 s i); simpl; [apply IH | reflexivity].
Qed.

Lemma fold_left_invariant {S I : Type} (f : S -> I -> S)
  (Inv : nat -> S -> Prop) (l : list I) (s : S) :
  Inv 0 s ->
  (forall k i s, nth_error l k = Some i -> Inv k s ->
                 Inv (Datatypes.S k) (f s i)) ->
  Inv (length l) (fold_left f l s).
Proof.
  intros H0 Hstep.
  pose proof (@returns_foldM _ _ (fun s i => Ok (f s i)) Inv l s H0) as Hloop.
  rewrite foldM_pure in Hloop. apply Hloop.
  intros k i s' Hk Hinv. simpl. now apply (Hstep k i).
Qed.

(** The in-place loops rewrite every entry through [g]. *)
Lemma in_place_entries m (g : T -> nat -> nat -> T) :
  wf m ->
  Matrix.in_place m g =
  tabulate (Matrix.rows m) (Matrix.cols m)
    (fun i j => g (Matrix.raw m i j) i j).
Proof.
  intros Hwf.
  assert (Hm : shaped (Matrix.rows m) (Matrix.cols m) m)
    by (split; [exact Hwf | split; reflexivity]).
  pose proof (@cell_loops _ _ (Matrix.rows m) (Matrix.cols m)
                (fun i j res =>
                   Ok (Matrix.set_raw res i j (g (Matrix.raw res i j) i j)))
                (fun i j x => g x i j)) as Hloops.
  assert (Hcell : forall i j m0,
            i < Matrix.rows m -> j < Matrix.cols m ->
            shaped (Matrix.rows m) (Matrix.cols m) m0 ->
            returns
              (Ok (Matrix.set_raw m0 i j (g (Matrix.raw m0 i j) i j)))
              (fun m' => shaped (Matrix.rows m) (Matrix.cols m) m' /\
                 forall r c, Matrix.raw m' r c =
                             if (r =? i) && (c =? j)
                             then g (Matrix.raw m0 i j) i j
                             else Matrix.raw m0 r c)).
  { intros i j m0 Hi Hj Hm0. simpl. split; [now apply shaped_set_raw|].
    destruct Hm0 as (Hwf0 & Hr0 & Hc0).
    intros r c. apply raw_set_raw; [exact Hwf0 | lia | lia]. }
  specialize (Hloops Hcell m Hm).
  rewrite (foldM_ext _
             (fun res i =>
                Ok (fold_left
                      (fun res j =>
                         Matrix.set_raw res i j (g (Matrix.raw res i j) i j))
                      (seq 0 (Matrix.cols m)) res))) in Hloops
    by (intros; apply foldM_pure).
  rewrite foldM_pure in Hloops. injection Hloops as Hloops. exact Hloops.
Qed.

(** One row receives the values [h 0 .. h (n-1)] from column [off] on. *)
Lemma write_row_segment R C i off n (h : nat -> T) m :
  shaped R C m -> i < R -> off + n <= C ->
  shaped R C
    (fold_left (fun res j => Matrix.set_raw res i (off + j) (h j))
       (seq 0 n) m) /\
  forall r c,
    Matrix.raw
      (fold_left (fun res j => Matrix.set_raw res i (off + j) (h j))
         (seq 0 n) m) r c =
    if ((r =? i) && (off <=? c)) && (c <? off + n) then h (c - off)
    else Matrix.raw m r c.
Proof.
  intros Hm Hi Hn.
  pose proof (@fold_left_invariant _ _
                (fun res j => Matrix.set_raw res i (off + j) (h j))
                (fun k m' => k <= n -> shaped R C m' /\
                   forall r c, Matrix.raw m' r c =
                               if ((r =? i) && (off <=? c)) && (c <? off + k)
                               then h (c - off) else Matrix.raw m r c)
                (seq 0 n) m) as Hloop.
  rewrite length_seq in Hloop. apply Hloop; [| |lia]; clear Hloop.
  - intros _. split; [exact Hm|]. intros r c.
    destruct (Nat.leb_spec off c); destruct (Nat.ltb_spec c (off + 0));
      rewrite ?andb_false_r; try reflexivity; lia.
  - intros k j m' Hk Hinv Hle.
    apply nth_error_seq_inv in Hk as (Hk & ->). simpl.
    destruct Hinv as (Hm' & Hraw); [lia|].
    split; [now apply shaped_set_raw|].
    destruct Hm' as (Hwf' & Hr' & Hc').
    intros r c. rewrite raw_set_raw by (try assumption; lia).
    rewrite Hraw.
    destruct (Nat.eqb_spec r i) as [->|Hne]; simpl; [|reflexivity].
    destruct (Nat.eqb_spec c (off + k)) as [->|Hck].
    + destruct (Nat.leb_spec off (off + k)); [|lia].
      destruct (Nat.ltb_spec (off + k) (off + Datatypes.S k)); [|lia].
      simpl. f_equal. lia.
    + destruct (Nat.leb_spec off c); simpl; [|reflexivity].
      destruct (Nat.ltb_spec c (off + k));
        destruct (Nat.ltb_spec c (off + Datatypes.S k));
        try reflexivity; lia.
Qed.

Lemma augment_entries m other :
  Matrix.rows other = Matrix.rows m ->
  0 < Matrix.rows m -> 0 < Matrix.cols m + Matrix.cols other ->
  Matrix.augment m other =
  Ok (tabulate (Matrix.rows m) (Matrix.cols m + Matrix.cols other)
        (fun i j => if j <? Matrix.cols m then Matrix.raw m i j
                    else Matrix.raw other i (j - Matrix.cols m))).
Proof.
  intros Hrows Hr Hc. unfold Matrix.augment.
  rewrite Hrows, Nat.eqb_refl. simpl.
  rewrite make_positive by assumption. simpl. f_equal.
  set (R := Matrix.rows m). set (Cm := Matrix.cols m).
  set (Co := Matrix.cols other). set (z := tabulate R (Cm + Co) (fun _ _ => s0)).
  pose proof (@fold_left_invariant _ _
                (fun res i =>
                   let res1 :=
                     fold_left
                       (fun res j => Matrix.set_raw res i j (Matrix.raw m i j))
                       (seq 0 Cm) res in
                   fold_left
                     (fun res j => Matrix.set_raw res i (Cm + j)
                                     (Matrix.raw other i j))
                     (seq 0 Co) res1)
                (fun k m' => k <= R -> shaped R (Cm + Co) m' /\
                   forall r c, Matrix.raw m' r c =
                               if r <? k
                               then (if c <? Cm then Matrix.raw m r c
                                     else if c <? Cm + Co
                                          then Matrix.raw other r (c - Cm)
                                          else Matrix.raw z r c)
                               else Matrix.raw z r c)
                (seq 0 R) z) as Hloop.
  rewrite length_seq in Hloop.
  destruct Hloop as (Hshape & Hraw); [| |lia|].
  - intros _. split; [apply shaped_tabulate|]. intros r c. reflexivity.
  - intros k i m' Hk Hinv Hle.
    apply nth_error_seq_inv in Hk as (Hk & ->). simpl.
    destruct Hinv as (Hm' & Hraw); [lia|].
    destruct (@write_row_segment R (Cm + Co) k 0 Cm
                (fun j => Matrix.raw m k j) m' Hm' Hk) as (Hm1 & Hraw1); [lia|].
    change (fold_left
              (fun res j => Matrix.set_raw res k (0 + j) (Matrix.raw m k j))
              (seq 0 Cm) m')
      with (fold_left
              (fun res j => Matrix.set_raw res k j (Matrix.raw m k j))
              (seq 0 Cm) m') in Hm1, Hraw1.
    destruct (@write_row_segment R (Cm + Co) k Cm Co
                (fun j => Matrix.raw other k j) _ Hm1 Hk) as (Hm2 & Hraw2);
      [lia|].
    split; [exact Hm2|].
    intros r c. rewrite Hraw2, Hraw1, Hraw.
    destruct (Nat.eqb_spec r k) as [->|Hne]; simpl.
    + rewrite Nat.ltb_irrefl.
      destruct (Nat.ltb_spec k (Datatypes.S k)); [|lia].
      rewrite Nat.sub_0_r.
      destruct (Nat.leb_spec Cm c); destruct (Nat.ltb_spec c Cm);
        destruct (Nat.ltb_spec c (Cm + Co)); simpl; try reflexivity; lia.
    + destruct (Nat.ltb_spec r k); destruct (Nat.ltb_spec r (Datatypes.S k));
        try reflexivity; lia.
  - apply shaped_eq_tabulate; [exact Hshape|].
    intros r c Hr' Hc'. rewrite Hraw.
    destruct (Nat.ltb_spec r R); [|lia].
    destruct (Nat.ltb_spec c Cm); [reflexivity|].
    destruct (Nat.ltb_spec c (Cm + Co)); [reflexivity | lia].
Qed.

Lemma augment_mismatch m other :
  Matrix.rows m <> Matrix.rows other ->
  Matrix.augment m other =
  Throw (invalid_argument "Row count must match for augment").
Proof.
  intros Hne. unfold Matrix.augment.
  destruct (Nat.eqb_spec (Matrix.rows m) (Matrix.rows other));
    [contradiction | reflexivity].
Qed.

Lemma getCol_entries m c :
  c < Matrix.cols m ->
  Matrix.getCol m c =
  Ok (map (fun i => Matrix.raw m i c) (seq 0 (Matrix.rows m))).
Proof.
  intros Hc. unfold Matrix.getCol.
  destruct (Nat.leb_spec (Matrix.cols m) c); [lia|]. f_equal.
  pose proof (@fold_left_invariant _ _
                (fun col i => upd i (Matrix.raw m i c) col)
                (fun k col => k <= Matrix.rows m ->
                   length col = Matrix.rows m /\
                   forall i, nth i col s0 =
                             if i <? k then Matrix.raw m i c else s0)
                (seq 0 (Matrix.rows m)) (repeat s0 (Matrix.rows m))) as Hloop.
  rewrite length_seq in Hloop.
  destruct Hloop as (Hlen & Hnth); [| |lia|].
  - intros _. split; [apply repeat_length|]. intros i. simpl.
    apply nth_repeat_s0.
  - intros k i col Hk Hinv Hle.
    apply nth_error_seq_inv in Hk as (Hk & ->). simpl.
    destruct Hinv as (Hlen & Hnth); [lia|].
    split; [now rewrite length_upd|].
    intros i. rewrite nth_upd, Hnth, Hlen.
    destruct (Nat.eqb_spec i k) as [->|Hne]; simpl.
    + destruct (Nat.ltb_spec k (Matrix.rows m)); [|lia].
      destruct (Nat.ltb_spec k (Datatypes.S k)); [reflexivity | lia].
    + destruct (Nat.ltb_spec i k); destruct (Nat.ltb_spec i (Datatypes.S k));
        try reflexivity; lia.
  - apply (nth_ext _ _ s0 s0).
    + now rewrite Hlen, length_map, length_seq.
    + intros i Hi. rewrite Hlen in Hi. rewrite Hnth.
      destruct (Nat.ltb_spec i (Matrix.rows m)); [|lia].
      rewrite (nth_map_lt (fun i => Matrix.raw m i c) (seq 0 (Matrix.rows m)) 0 s0)
        by (now rewrite length_seq).
      now rewrite seq_nth.
Qed.

Lemma getRow_tabulate R C (f : nat -> nat -> T) r :
  r < R -> Matrix.getRow (tabulate R C f) r = Ok (map (f r) (seq 0 C)).
Proof.
  intros Hr. unfold Matrix.getRow. simpl.
  destruct (Nat.leb_spec R r); [lia|]. f_equal.
  rewrite (nth_map_lt (fun r => map (f r) (seq 0 C)) (seq 0 R) 0 [])
    by (now rewrite length_seq).
  now rewrite seq_nth.
Qed.

(** Transposing twice gives the matrix back. *)
Lemma transpose_involutive m :
  wf m -> 0 < Matrix.rows m -> 0 < Matrix.cols m ->
  (mt <- Matrix.transpose m ;; Matrix.transpose mt) = Ok m.
Proof.
  intros Hwf Hr Hc. rewrite transpose_entries by assumption. simpl.
  rewrite transpose_entries by (simpl; assumption). simpl. f_equal.
  etransitivity; [|apply (tabulate_self Hwf)].
  apply tabulate_ext. intros r c Hr' Hc'.
  now rewrite raw_tabulate by assumption.
Qed.

(** Row [c] of the transpose is column [c] of the matrix. *)
Lemma transpose_row_is_column m c :
  0 < Matrix.rows m -> c < Matrix.cols m ->
  (mt <- Matrix.transpose m ;; Matrix.getRow mt c) = Matrix.getCol m c.
Proof.
  intros Hr Hc. rewrite transpose_entries by (try assumption; lia). simpl.
  rewrite getRow_tabulate by exact Hc. now rewrite getCol_entries.
Qed.
End PureLoops.

(* ================================================================= *)
(** * The symmetry tests and the vector operators *)

Section Symmetry.
Context {T : Type} `{Scalar T}.
Implicit Types m : Matrix.t T.

Lemma forallb_agree {A : Type} (f g : A -> bool) (l : list A) :
  (forall x, In x l -> f x = g x) -> forallb f l = forallb g l.
Proof.
  induction l as [|x l IH]; intros Hfg; simpl; [reflexivity|].
  rewrite (Hfg x (or_introl eq_refl)), IH; [reflexivity|].
  intros y Hy. apply Hfg. now right.
Qed.

(** The pairs the two tests visit: [i < j < cols], with [i] a row. *)
Lemma upper_pairs (p : nat -> nat -> bool) R C :
  forallb (fun i => forallb (p i) (seq (i + 1) (C - (i + 1)))) (seq 0 R) = true
  <-> forall i j, i < R -> i < j -> j < C -> p i j = true.
Proof.
  rewrite forallb_forall. split.
  - intros Hall i j Hi Hij Hj.
    assert (Hin : In i (seq 0 R)) by (apply in_seq; lia).
    specialize (Hall i Hin). rewrite forallb_forall in Hall.
    apply Hall, in_seq. lia.
  - intros Hall i Hi. apply in_seq in Hi. apply forallb_forall.
    intros j Hj. apply in_seq in Hj. apply Hall; lia.
Qed.

Lemma isSymmetric_iff m eps :
  Matrix.isSymmetric m eps = true <->
  Matrix.rows m = Matrix.cols m /\
  forall i j, i < j -> j < Matrix.cols m ->
              sltb eps (sabs (ssub (Matrix.raw m i j) (Matrix.raw m j i)))
              = false.
Proof.
  unfold Matrix.isSymmetric.
  destruct (Nat.eqb_spec (Matrix.rows m) (Matrix.cols m)) as [Hsq|Hne]; simpl.
  - rewrite (upper_pairs
               (fun i j => negb (sltb eps (sabs (ssub (Matrix.raw m i j)
                                                      (Matrix.raw m j i)))))).
    split.
    + intros Hall. split; [exact Hsq|]. intros i j Hij Hj.
      apply negb_true_iff, Hall; lia.
    + intros [_ Hall] i j Hi Hij Hj. apply negb_true_iff. now apply Hall.
  - split; [discriminate|]. intros [Hsq _]. contradiction.
Qed.

Lemma isSkewSymmetric_iff m eps :
  Matrix.isSkewSymmetric m eps = true <->
  Matrix.rows m = Matrix.cols m /\
  forall i j, i < j -> j < Matrix.cols m ->
              sltb eps (sabs (Matrix.raw m i i)) = false /\
              sltb eps (sabs (sadd (Matrix.raw m i j) (Matrix.raw m j i)))
              = false.
Proof.
  unfold Matrix.isSkewSymmetric.
  destruct (Nat.eqb_spec (Matrix.rows m) (Matrix.cols m)) as [Hsq|Hne]; simpl.
  - rewrite (upper_pairs
               (fun i j =>
                  negb (sltb eps (sabs (Matrix.raw m i i)))
                  && negb (sltb eps (sabs (sadd (Matrix.raw m i j)
                                                (Matrix.raw m j i)))))).
    split.
    + intros Hall. split; [exact Hsq|]. intros i j Hij Hj.
      specialize (Hall i j). apply andb_true_iff in Hall as [H1 H2]; try lia.
      now apply negb_true_iff in H1, H2.
    + intros [_ Hall] i j Hi Hij Hj.
      destruct (Hall i j Hij Hj) as [H1 H2]. now rewrite H1, H2.
  - split; [discriminate|]. intros [Hsq _]. contradiction.
Qed.

(** The last diagonal entry has no pair [j > i]: the test never reads it. *)
Lemma isSkewSymmetric_last_diagonal m eps v :
  wf m -> Matrix.rows m = Matrix.cols m -> 0 < Matrix.rows m ->
  Matrix.isSkewSymmetric
    (Matrix.set_raw m (Matrix.rows m - 1) (Matrix.rows m - 1) v) eps =
  Matrix.isSkewSymmetric m eps.
Proof.
  intros Hwf Hsq Hpos. unfold Matrix.isSkewSymmetric. simpl.
  destruct (Nat.eqb_spec (Matrix.rows m) (Matrix.cols m)); [|reflexivity].
  simpl. apply forallb_agree. intros i Hi. apply in_seq in Hi.
  apply forallb_agree. intros j Hj. apply in_seq in Hj.
  rewrite !raw_set_raw by (try assumption; lia).
  destruct (Nat.eqb_spec i (Matrix.rows m - 1)); [lia|]. simpl.
  destruct (Nat.eqb_spec j (Matrix.rows m - 1)); simpl; reflexivity.
Qed.
End Symmetry.

Section VectorOperators.
Context {T : Type} `{Scalar T}.
Implicit Types v w : Vector.t (T:=T).

Lemma index_in_range v i :
  i < length v -> Vector.index v i = Ok (nth i v s0).
Proof.
  intros Hi. unfold Vector.index, Vector.size, Vector.raw.
  destruct (Nat.ltb_spec i (length v)); [reflexivity | lia].
Qed.

(** The loops of [operator+] and [operator-]: entry [i] of the result is
    [g (v i) (w i)]. *)
Lemma zip_loop (g : T -> T -> T) v w :
  length w = length v ->
  foldM (fun res_vec i => o <- Vector.index w i ;;
                          Ok (upd i (g (Vector.raw v i) o) res_vec))
    (seq 0 (length v)) (repeat s0 (length v)) =
  Ok (map (fun i => g (nth i v s0) (nth i w s0)) (seq 0 (length v))).
Proof.
  intros Hlen.
  pose proof (@returns_foldM _ _
                (fun res_vec i => o <- Vector.index w i ;;
                                  Ok (upd i (g (Vector.raw v i) o) res_vec))
                (fun k res =>
                   length res = length v /\
                   forall i, nth i res s0 =
                             if i <? k then g (nth i v s0) (nth i w s0)
                             else s0)
                (seq 0 (length v)) (repeat s0 (length v))) as Hloop.
  rewrite length_seq in Hloop.
  assert (Hret : returns
            (foldM (fun res_vec i => o <- Vector.index w i ;;
                                     Ok (upd i (g (Vector.raw v i) o) res_vec))
               (seq 0 (length v)) (repeat s0 (length v)))
            (fun res =>
               length res = length v /\
               forall i, nth i res s0 =
                         if i <? length v then g (nth i v s0) (nth i w s0)
                         else s0)).
  { apply Hloop; clear Hloop.
    - split; [apply repeat_length|]. intros i. simpl. apply nth_repeat_s0.
    - intros k i res Hk (Hlr & Hnth).
      apply nth_error_seq_inv in Hk as (Hk & ->). simpl.
      rewrite index_in_range by lia. simpl.
      split; [now rewrite length_upd|].
      intros i. rewrite nth_upd, Hnth, Hlr. unfold Vector.raw.
      destruct (Nat.eqb_spec i k) as [->|Hne]; simpl.
      + destruct (Nat.ltb_spec k (length v)); [|lia].
        destruct (Nat.ltb_spec k (Datatypes.S k)); [reflexivity | lia].
      + destruct (Nat.ltb_spec i k); destruct (Nat.ltb_spec i (Datatypes.S k));
          try reflexivity; lia. }
  clear Hloop.
  destruct (foldM _ (seq 0 (length v)) (repeat s0 (length v))) as [res|e];
    [|destruct Hret].
  destruct Hret as (Hlr & Hnth). f_equal.
  apply (nth_ext _ _ s0 s0).
  - now rewrite Hlr, length_map, length_seq.
  - intros i Hi. rewrite Hlr in Hi. rewrite Hnth.
    destruct (Nat.ltb_spec i (length v)); [|lia].
    rewrite (nth_map_lt (fun i => g (nth i v s0) (nth i w s0))
               (seq 0 (length v)) 0 s0) by (now rewrite length_seq).
    now rewrite seq_nth.
Qed.

Lemma vector_add_entries v w :
  length w = length v ->
  Vector.add v w =
  Ok (map (fun i => sadd (nth i v s0) (nth i w s0)) (seq 0 (length v))).
Proof.
  intros Hlen. unfold Vector.add, Vector.size.
  rewrite Hlen, Nat.eqb_refl. simpl. now apply zip_loop.
Qed.

Lemma vector_sub_entries v w :
  length w = length v ->
  Vector.sub v w =
  Ok (map (fun i => ssub (nth i v s0) (nth i w s0)) (seq 0 (length v))).
Proof.
  intros Hlen. unfold Vector.sub, Vector.size.
  rewrite Hlen, Nat.eqb_refl. simpl. now apply zip_loop.
Qed.

Lemma vector_size_mismatch v w :
  length v <> length w ->
  Vector.add v w = Throw (invalid_argument "Vector size mismatch") /\
  Vector.sub v w = Throw (invalid_argument "Vector size mismatch") /\
  Vector.add_assign v w = Throw (invalid_argument "Vector size mismatch") /\
  Vector.sub_assign v w = Throw (invalid_argument "Vector size mismatch") /\
  Vector.dot v w = Throw (invalid_argument "Dot product size mismatch").
Proof.
  intros Hne.
  unfold Vector.add, Vector.sub, Vector.add_assign, Vector.sub_assign,
    Vector.dot, Vector.size.
  destruct (Nat.eqb_spec (length v) (length w)); [contradiction|]. simpl.
  repeat split; reflexivity.
Qed.

(** [operator*(T)]: every entry is multiplied, on the right. *)
Lemma vector_scale_entries v k :
  Vector.scale v k = map (fun x => smul x k) v.
Proof.
  unfold Vector.scale, Vector.size.
  pose proof (@fold_left_invariant _ _
                (fun res i => upd i (smul (Vector.raw v i) k) res)
                (fun n res =>
                   length res = length v /\
                   forall i, nth i res s0 =
                             if i <? n then smul (nth i v s0) k else s0)
                (seq 0 (length v)) (repeat s0 (length v))) as Hloop.
  rewrite length_seq in Hloop.
  destruct Hloop as (Hlr & Hnth).
  - split; [apply repeat_length|]. intros i. simpl. apply nth_repeat_s0.
  - intros n i res Hn (Hlr & Hnth).
    apply nth_error_seq_inv in Hn as (Hn & ->). simpl.
    split; [now rewrite length_upd|].
    intros i. rewrite nth_upd, Hnth, Hlr. unfold Vector.raw.
    destruct (Nat.eqb_spec i n) as [->|Hne]; simpl.
    + destruct (Nat.ltb_spec n (length v)); [|lia].
      destruct (Nat.ltb_spec n (Datatypes.S n)); [reflexivity | lia].
    + destruct (Nat.ltb_spec i n); destruct (Nat.ltb_spec i (Datatypes.S n));
        try reflexivity; lia.
  - apply (nth_ext _ _ s0 s0).
    + now rewrite Hlr, length_map.
    + intros i Hi. rewrite Hlr in Hi. rewrite Hnth.
      destruct (Nat.ltb_spec i (length v)); [|lia].
      now rewrite (nth_map_lt (fun x => smul x k) v s0 s0).
Qed.
End VectorOperators.

Section DotCommutes.
Context {T : Type} `{Scalar T} {CA : CommutativeArithmetic T}.

Lemma big_sum_ext (t u : nat -> T) n :
  (forall i, i < n -> t i = u i) -> big_sum t n = big_sum u n.
Proof.
  unfold big_sum. induction n as [|n IH]; intros Htu; [reflexivity|].
  rewrite seq_S, !fold_left_app. simpl.
  rewrite IH by (intros; apply Htu; lia). now rewrite Htu by lia.
Qed.

Lemma dot_commutes (v w : Vector.t (T:=T)) : Vector.dot v w = Vector.dot w v.
Proof.
  destruct (Nat.eq_dec (length v) (length w)) as [Hlen|Hne].
  - rewrite (dot_value v w Hlen), (dot_value w v (eq_sym Hlen)), Hlen.
    f_equal. apply big_sum_ext. intros i _. apply smul_comm.
  - destruct (@vector_size_mismatch _ _ v w Hne) as (_ & _ & _ & _ & ->).
    assert (Hne' : length w <> length v) by congruence.
    destruct (@vector_size_mismatch _ _ w v Hne') as (_ & _ & _ & _ & ->).
    reflexivity.
Qed.
End DotCommutes.

(* ================================================================= *)
(** * The solver and the kernel: errors and repeated calls *)

Section SolverErrors.
Context {T : Type} `{Scalar T}.

Lemma solver_row_mismatch (A b : Matrix.t T) :
  Matrix.rows A <> Matrix.rows b ->
  SolvingEquation.make A b =
  Throw (invalid_argument "Row count must match for augment").
Proof.
  intros Hne. unfold SolvingEquation.make.
  now rewrite augment_mismatch.
Qed.

Lemma solver_empty (A b : Matrix.t T) :
  Matrix.rows b = Matrix.rows A ->
  Matrix.rows A = 0 \/ Matrix.cols A + Matrix.cols b = 0 ->
  SolvingEquation.make A b =
  Throw (invalid_argument "Matrix dimensions must be positive").
Proof.
  intros Hrows Hzero. unfold SolvingEquation.make, Matrix.augment.
  rewrite Hrows, Nat.eqb_refl. simpl.
  now rewrite make_not_positive.
Qed.

Lemma solver_not_a_column (A b : Matrix.t T) :
  Matrix.rows b = Matrix.rows A -> 0 < Matrix.rows A ->
  Matrix.cols b <> 1 ->
  SolvingEquation.make A b =
  Throw (if Matrix.cols A + Matrix.cols b =? 0
         then invalid_argument "Matrix dimensions must be positive"
         else invalid_argument "Invalid dimensions").
Proof.
  intros Hrows Hpos Hcol.
  destruct (Nat.eqb_spec (Matrix.cols A + Matrix.cols b) 0) as [Hz|Hnz].
  - apply solver_empty; [exact Hrows | now right].
  - unfold SolvingEquation.make.
    rewrite augment_entries by (try assumption; lia). simpl.
    unfold Matrix.getRows, Matrix.getCols.
    rewrite Hrows, Nat.eqb_refl. simpl.
    destruct (Nat.eqb_spec (Matrix.cols b) 1); [contradiction|]. reflexivity.
Qed.

(** A system classified NoSolution has no solution to compute. *)
Lemma computeSolution_no_solution (A b : Matrix.t T)
  (s : SolvingEquation.t T) eps :
  SolvingEquation.make A b = Ok s ->
  SolvingEquation.type s = SolvingEquation.NoSolution ->
  SolvingEquation.computeSolution s eps =
  Throw (logic_error "No solution exists").
Proof.
  intros Hmake Hty.
  destruct (make_state _ _ Hmake) as (Hn & _ & _ & _ & _ & Hcl & _).
  assert (Hin : In (Matrix.cols A)
                  (RREF.pivotCols (SolvingEquation.rrefSolver s))).
  { destruct Hcl as (_ & Hu & Hi). rewrite Hty in Hu, Hi.
    destruct (in_dec Nat.eq_dec (Matrix.cols A)
                (RREF.pivotCols (SolvingEquation.rrefSolver s))) as [Hin|Hnot];
      [exact Hin|].
    destruct (Nat.eq_dec
                (length (RREF.pivotCols (SolvingEquation.rrefSolver s)))
                (Matrix.cols A)) as [E|E];
      [specialize (Hu Hnot E) | specialize (Hi Hnot E)]; discriminate. }
  pose proof (solve_classified s) as Hcl2. rewrite Hn in Hcl2.
  destruct Hcl2 as (Hno & _). specialize (Hno Hin).
  unfold SolvingEquation.computeSolution. rewrite Hty.
  cbv beta iota zeta.
  change (SolvingEquation.type (snd (SolvingEquation.solve s)))
    with (fst (SolvingEquation.solve s)).
  now rewrite Hno.
Qed.

(** [toRREF] marks the engine reduced. *)
Lemma toRREF_marks_reduced (st st' : RREF.t T) eps :
  RREF.toRREF st eps = Ok st' -> RREF.isRREF st' = true.
Proof.
  unfold RREF.toRREF. intros Hst.
  apply bind_Ok in Hst as (st1 & _ & Hst).
  apply bind_Ok in Hst as (m1 & _ & Hst).
  apply bind_Ok in Hst as (m2 & _ & Hst).
  apply bind_Ok in Hst as (m3 & _ & [= <-]). reflexivity.
Qed.

(** A second call of [getKernel], on the engine the first one left, reads
    the kernel off the reduced matrix again: nothing is reduced anew,
    whatever the tolerance passed. *)
Lemma getKernel_again (st st1 : RREF.t T) eps eps' basis :
  RREF.getKernel st eps = Ok (basis, st1) ->
  RREF.getKernel st1 eps' = Ok (basis, st1).
Proof.
  unfold RREF.getKernel. intros Hk.
  apply bind_Ok in Hk as (st' & Hst' & Hk).
  apply bind_Ok in Hk as (basis' & Hbasis & [= <- <-]).
  assert (Hred : RREF.isRREF st' = true).
  { destruct (RREF.isRREF st) eqn:E; simpl in Hst'.
    - now injection Hst' as <-.
    - now apply toRREF_marks_reduced in Hst'. }
  rewrite Hred. simpl. now rewrite Hbasis.
Qed.

(** The normal form of the computed rank always fits the matrix. *)
Lemma getEquivalenceNormalForm_entries (m : Matrix.t T) r :
  0 < Matrix.rows m -> 0 < Matrix.cols m -> Matrix_rank m = Ok r ->
  Matrix_getEquivalenceNormalForm m =
  Ok (rank_normal_form (Matrix.rows m) (Matrix.cols m) r).
Proof.
  intros Hr Hc Hrank. unfold Matrix_getEquivalenceNormalForm.
  rewrite Hrank. simpl.
  apply getRankNormalForm_entries; [assumption | assumption |].
  now apply Matrix_rank_bound.
Qed.

Lemma dotProduct_value (a b : Matrix.t T) :
  line_length a = line_length b ->
  0 < Matrix.rows a -> 0 < Matrix.cols a ->
  0 < Matrix.rows b -> 0 < Matrix.cols b ->
  Matrix.dotProduct a b =
  Ok (big_sum (fun i => smul (line_entry a i) (line_entry b i))
        (line_length a)).
Proof.
  intros Hlen Hra Hca Hrb Hcb. unfold Matrix.dotProduct.
  unfold Matrix.getRows, Matrix.getCols.
  fold (line_length a). fold (line_length b).
  rewrite <- Hlen, Nat.eqb_refl. simpl.
  assert (Hreada : forall i, i < line_length a ->
            (if Matrix.rows a =? 1 then Matrix.at_ a 0 i else Matrix.at_ a i 0)
            = Ok (line_entry a i)).
  { intros i Hi. unfold line_length, line_entry in *.
    destruct (Matrix.rows a =? 1); apply at_returns; lia. }
  assert (Hreadb : forall i, i < line_length a ->
            (if Matrix.rows b =? 1 then Matrix.at_ b 0 i else Matrix.at_ b i 0)
            = Ok (line_entry b i)).
  { intros i Hi. rewrite Hlen in Hi. unfold line_length, line_entry in *.
    destruct (Matrix.rows b =? 1); apply at_returns; lia. }
  assert (Hgen : forall n, n <= line_length a -> forall acc,
            foldM (fun sum i =>
                     va <- (if Matrix.rows a =? 1 then Matrix.at_ a 0 i
                            else Matrix.at_ a i 0) ;;
                     vb <- (if Matrix.rows b =? 1 then Matrix.at_ b 0 i
                            else Matrix.at_ b i 0) ;;
                     Ok (sadd sum (smul va vb)))
              (seq 0 n) acc =
            Ok (fold_left
                  (fun sum i => sadd sum (smul (line_entry a i) (line_entry b i)))
                  (seq 0 n) acc)).
  { induction n as [|n IH]; intros Hn acc; [reflexivity|].
    rewrite seq_S, foldM_app, fold_left_app, IH by lia.
    simpl. rewrite Hreada, Hreadb by lia. reflexivity. }
  apply Hgen. lia.
Qed.

Lemma dotProduct_mismatch (a b : Matrix.t T) :
  line_length a <> line_length b ->
  Matrix.dotProduct a b = Throw (invalid_argument "Length mismatch").
Proof.
  intros Hne. unfold Matrix.dotProduct, Matrix.getRows, Matrix.getCols.
  fold (line_length a). fold (line_length b).
  destruct (Nat.eqb_spec (line_length a) (line_length b)); [contradiction|].
  reflexivity.
Qed.
End SolverErrors.

(* ================================================================= *)
(** * VectorSet.h *)

Section VectorSets.
Context {T : Type} `{Scalar T}.

Lemma fill_from_vectors_shape (f : nat -> nat -> nat * nat)
  (vs : list (Vector.t (T:=T))) (outer inner : list nat) (A : Matrix.t T) :
  if_returns
    (foldM (fun A o =>
              foldM (fun A i =>
                       x <- Vector.index (nth o vs []) i ;;
                       Matrix.set_at A (fst (f o i)) (snd (f o i)) x)
                inner A)
       outer A)
    (same_shape A).
Proof.
  apply foldM_keeps_shape. intros A' o.
  apply foldM_keeps_shape. intros A'' i.
  apply if_returns_bind.
  destruct (Vector.index (nth o vs []) i) as [x|e]; simpl; [|exact I].
  apply set_at_keeps_shape.
Qed.

Lemma matrix_of_vectors_shape (vs : list (Vector.t (T:=T))) dim orient :
  if_returns (VectorSet.matrix_of_vectors vs dim orient)
    (fun A =>
       match orient with
       | VectorSet.Column =>
           Matrix.rows A = dim /\ Matrix.cols A = length vs
       | VectorSet.Row =>
           Matrix.rows A = length vs /\ Matrix.cols A = dim
       end).
Proof.
  unfold VectorSet.matrix_of_vectors. destruct orient.
  - apply if_returns_bind.
    eapply if_returns_mono; [apply make_keeps_shape|].
    intros A0 [Hr Hc].
    eapply if_returns_mono;
      [apply (fill_from_vectors_shape (fun c r => (r, c)))|].
    intros A [Hr' Hc']. split; congruence.
  - apply if_returns_bind.
    eapply if_returns_mono; [apply make_keeps_shape|].
    intros A0 [Hr Hc].
    eapply if_returns_mono;
      [apply (fill_from_vectors_shape (fun r c => (r, c)))|].
    intros A [Hr' Hc']. split; congruence.
Qed.

(** What the constructor has done when it returns. *)
Lemma VectorSet_make_Ok (vs : list (Vector.t (T:=T))) orient
  (s : VectorSet.t T) :
  VectorSet.make vs orient = Ok s ->
  VectorSet.vecs s = vs /\ VectorSet.orientation s = orient /\
  vs <> [] /\
  Forall (fun v => length v = VectorSet.dim s) vs /\
  exists A st,
    VectorSet.matrix_of_vectors vs (VectorSet.dim s) orient = Ok A /\
    RREF.toRREF (RREF.make A) tiny = Ok st /\
    VectorSet.rank s = RREF.rank st /\
    VectorSet.pivotIndices s =
      match orient with
      | VectorSet.Column => RREF.pivotCols st
      | VectorSet.Row => RREF.pivotRows st
      end /\
    pivots_ok st /\
    match orient with
    | VectorSet.Column =>
        Matrix.rows (RREF.mat st) = VectorSet.dim s /\
        Matrix.cols (RREF.mat st) = length vs
    | VectorSet.Row =>
        Matrix.rows (RREF.mat st) = length vs /\
        Matrix.cols (RREF.mat st) = VectorSet.dim s
    end.
Proof.
  unfold VectorSet.make. destruct vs as [|v0 vs']; [discriminate|].
  set (vs := v0 :: vs').
  destruct (forallb (fun v => Vector.size v =? Vector.size v0) vs) eqn:Hall;
    [|discriminate].
  simpl negb. cbv iota. intros Hs.
  apply bind_Ok in Hs as (A & HA & Hs).
  apply bind_Ok in Hs as (st & Hst & [= <-]). simpl.
  split; [reflexivity|]. split; [reflexivity|]. split; [discriminate|].
  split.
  { apply Forall_forall. intros v Hv.
    rewrite forallb_forall in Hall. specialize (Hall v Hv).
    now apply Nat.eqb_eq in Hall. }
  exists A, st. split; [exact HA|]. split; [exact Hst|].
  split; [reflexivity|]. split; [reflexivity|].
  pose proof (@toRREF_keeps_pivots _ _ (RREF.make A) tiny eq_refl) as Hp.
  rewrite Hst in Hp. simpl in Hp. destruct Hp as ([Hr Hc] & Hpiv & _).
  split; [exact Hpiv|].
  pose proof (matrix_of_vectors_shape vs (Vector.size v0) orient) as Hsh.
  rewrite HA in Hsh. simpl in Hsh.
  destruct orient; destruct Hsh as [HrA HcA]; split; congruence.
Qed.

Lemma firstn_by_index {A : Type} (l : list A) (d : A) k :
  k <= length l -> map (fun idx => nth idx l d) (seq 0 k) = firstn k l.
Proof.
  revert k; induction l as [|x l IH]; intros k Hk; simpl in Hk.
  - assert (k = 0) by lia. subst k. reflexivity.
  - destruct k as [|k]; [reflexivity|]. simpl. f_equal.
    rewrite <- seq_shift, map_map. apply IH. lia.
Qed.

(** The invariants of a constructed vector set. *)
Lemma VectorSet_invariants (vs : list (Vector.t (T:=T))) orient
  (s : VectorSet.t T) :
  VectorSet.make vs orient = Ok s ->
  VectorSet.dimension s <= Nat.min (VectorSet.dim s) (length vs) /\
  length (VectorSet.basis s) = VectorSet.dimension s /\
  increasing (VectorSet.pivotIndices s) /\
  Forall (fun idx => idx < length vs) (VectorSet.pivotIndices s) /\
  Forall (fun v => In v vs) (VectorSet.basis s) /\
  (orient = VectorSet.Row ->
   VectorSet.basis s = firstn (VectorSet.dimension s) vs).
Proof.
  intros Hs.
  destruct (VectorSet_make_Ok _ _ Hs)
    as (Hvecs & _ & _ & _ & A & st & _ & _ & Hrank & Hidx & Hpiv & Hshape).
  unfold VectorSet.dimension, VectorSet.basis. rewrite Hvecs, Hrank, Hidx.
  pose proof (pivots_ok_rank Hpiv) as [Hrr Hrc].
  destruct Hpiv as (Hrows & Hlen & Hle & Hinc & Hlt).
  assert (Hbound : Forall (fun idx => idx < length vs)
                     match orient with
                     | VectorSet.Column => RREF.pivotCols st
                     | VectorSet.Row => RREF.pivotRows st
                     end).
  { destruct orient; destruct Hshape as [Hr Hc].
    - now rewrite <- Hc.
    - rewrite Hrows. apply Forall_forall. intros i Hi. apply in_seq in Hi. lia. }
  split; [destruct orient; destruct Hshape as [Hr Hc]; lia|].
  split; [rewrite length_map; destruct orient;
          [exact Hlen | now rewrite Hrows, length_seq]|].
  split.
  { destruct orient; [exact Hinc|]. rewrite Hrows.
    intros i j Hij Hj. rewrite length_seq in Hj. rewrite !seq_nth by lia. lia. }
  split; [exact Hbound|].
  split.
  { apply Forall_forall. intros v Hv. apply in_map_iff in Hv as (idx & <- & Hin).
    rewrite Forall_forall in Hbound. apply nth_In. now apply Hbound. }
  intros ->. rewrite Hrows. apply firstn_by_index.
  destruct Hshape as [Hr Hc]. lia.
Qed.

Lemma VectorSet_inconsistent (vs : list (Vector.t (T:=T))) orient v0 v :
  hd_error vs = Some v0 -> In v vs -> length v <> length v0 ->
  VectorSet.make vs orient =
  Throw (invalid_argument "Vectors have inconsistent dimensions").
Proof.
  intros Hhd Hin Hne. unfold VectorSet.make.
  destruct vs as [|v0' vs']; [discriminate|].
  injection Hhd as ->.
  destruct (forallb (fun v => Vector.size v =? Vector.size v0) (v0 :: vs'))
    eqn:Hall; [|reflexivity].
  rewrite forallb_forall in Hall. specialize (Hall v Hin).
  apply Nat.eqb_eq in Hall. contradiction.
Qed.

Lemma VectorSet_no_coordinates (vs : list (Vector.t (T:=T))) orient :
  vs <> [] -> Forall (fun v => length v = 0) vs ->
  VectorSet.make vs orient =
  Throw (invalid_argument "Matrix dimensions must be positive").
Proof.
  intros Hne Hall. unfold VectorSet.make.
  destruct vs as [|v0 vs']; [contradiction|].
  assert (Hv0 : Vector.size v0 = 0).
  { rewrite Forall_forall in Hall. apply Hall. now left. }
  replace (forallb (fun v => Vector.size v =? Vector.size v0) (v0 :: vs'))
    with true.
  - simpl negb. cbv iota. unfold VectorSet.matrix_of_vectors.
    rewrite Hv0.
    destruct orient; rewrite make_not_positive by auto; reflexivity.
  - symmetry. apply forallb_forall. intros v Hv. apply Nat.eqb_eq.
    rewrite Forall_forall in Hall. unfold Vector.size.
    rewrite (Hall v Hv). exact (eq_sym Hv0).
Qed.
End VectorSets.

Section GramSchmidt.
Context {T : Type} `{Scalar T} `{ScalarSqrt T}.

Lemma vector_sub_assign_length (u w : Vector.t (T:=T)) :
  length w = length u ->
  exists u', Vector.sub_assign u w = Ok u' /\ length u' = length u.
Proof.
  intros Hlen. unfold Vector.sub_assign, Vector.size.
  rewrite Hlen, Nat.eqb_refl. simpl. eexists; split; [reflexivity|].
  assert (Hgen : forall l d,
            length (fold_left
                      (fun d i => upd i (ssub (Vector.raw d i) (Vector.raw w i)) d)
                      l d) = length d).
  { induction l as [|i l IH]; intros d; simpl; [reflexivity|].
    now rewrite IH, length_upd. }
  apply Hgen.
Qed.

Lemma orthogonalize_returns (v : Vector.t (T:=T)) orth dim :
  length v = dim -> Forall (fun u => length u = dim) orth ->
  returns (VectorSet.orthogonalize v orth) (fun u => length u = dim).
Proof.
  intros Hv Horth. unfold VectorSet.orthogonalize.
  pose proof (@returns_foldM _ _
                (fun u uj =>
                   ip_uj <- Vector.dot uj uj ;;
                   if sltb tiny (sabs ip_uj)
                   then
                     d <- Vector.dot v uj ;;
                     let coeff := sdiv d ip_uj in
                     Vector.sub_assign u (Vector.scale uj coeff)
                   else Ok u)
                (fun _ u => length u = dim) orth v Hv) as Hloop.
  apply Hloop; clear Hloop.
  intros k uj u Hk Hu.
  assert (Huj : length uj = dim).
  { rewrite Forall_forall in Horth. apply Horth.
    eapply nth_error_In; exact Hk. }
  rewrite (dot_value uj uj eq_refl). simpl.
  destruct (sltb tiny _); [|exact Hu].
  rewrite (dot_value v uj) by congruence. simpl.
  destruct (@vector_sub_assign_length u
              (Vector.scale uj
                 (sdiv (big_sum (fun i => smul (nth i v s0) (nth i uj s0))
                          (length v))
                       (big_sum (fun i => smul (nth i uj s0) (nth i uj s0))
                          (length uj)))))
    as (u' & -> & Hu').
  - rewrite vector_scale_entries, length_map. congruence.
  - simpl. congruence.
Qed.

(** [gramSchmidt] returns on every non-empty set of vectors of one
    dimension: the vectors it keeps have that dimension, and there are no
    more of them than vectors given. *)
Lemma gramSchmidt_returns (vectors : list (Vector.t (T:=T))) normalize dim :
  vectors <> [] -> Forall (fun v => length v = dim) vectors ->
  returns (VectorSet.gramSchmidt vectors normalize)
    (fun orth => length orth <= length vectors /\
                 Forall (fun u => length u = dim) orth).
Proof.
  intros Hne Hall. unfold VectorSet.gramSchmidt.
  destruct vectors as [|v0 vs']; [contradiction|].
  set (vectors := v0 :: vs') in *.
  assert (Hv0 : Vector.size v0 = dim).
  { rewrite Forall_forall in Hall. apply Hall. now left. }
  replace (forallb (fun v => Vector.size v =? Vector.size v0) vectors)
    with true.
  2:{ symmetry. apply forallb_forall. intros v Hv. apply Nat.eqb_eq.
      rewrite Forall_forall in Hall. unfold Vector.size in *.
      rewrite (Hall v Hv). now rewrite Hv0. }
  simpl negb. cbv iota.
  pose proof (@returns_foldM _ _
                (fun orth v =>
                   u <- VectorSet.orthogonalize v orth ;;
                   n <- Vector.norm u ;;
                   if sltb n tiny then Ok orth
                   else
                     u' <- (if normalize then Vector.normalized u tiny
                            else Ok u) ;;
                     Ok (orth ++ [u']))
                (fun k orth => length orth <= k /\
                               Forall (fun u => length u = dim) orth)
                vectors []) as Hloop.
  apply Hloop; clear Hloop.
  - split; [simpl; lia | constructor].
  - intros k v orth Hk (Hlen & Horth).
    assert (Hv : length v = dim).
    { rewrite Forall_forall in Hall. apply Hall.
      eapply nth_error_In; exact Hk. }
    apply returns_bind.
    eapply returns_mono; [apply (@orthogonalize_returns v orth dim Hv Horth)|].
    intros u Hu. unfold Vector.norm at 1.
    rewrite (dot_value u u eq_refl). simpl.
    destruct (sltb (ssqrt _) tiny) eqn:Hsmall; simpl.
    + split; [lia | exact Horth].
    + assert (Hu' : returns
                (if normalize then Vector.normalized u tiny else Ok u)
                (fun u' => length u' = dim)).
      { destruct normalize; [|exact Hu].
        unfold Vector.normalized, Vector.norm.
        rewrite (dot_value u u eq_refl). simpl. rewrite Hsmall. simpl.
        now rewrite vector_scale_entries, length_map. }
      destruct (if normalize then Vector.normalized u tiny else Ok u)
        as [u'|e]; [|destruct Hu'].
      simpl in Hu'. simpl. split.
      * rewrite length_app. simpl. lia.
      * apply Forall_app. split; [exact Horth|]. now constructor.
Qed.

Lemma gramSchmidt_mismatch (vectors : list (Vector.t (T:=T))) normalize v0 v :
  hd_error vectors = Some v0 -> In v vectors -> length v <> length v0 ->
  VectorSet.gramSchmidt vectors normalize =
  Throw (invalid_argument "Gram-Schmidt: dimension mismatch").
Proof.
  intros Hhd Hin Hne. unfold VectorSet.gramSchmidt.
  destruct vectors as [|v0' vs']; [discriminate|].
  injection Hhd as ->.
  destruct (forallb (fun v => Vector.size v =? Vector.size v0) (v0 :: vs'))
    eqn:Hall; [|reflexivity].
  rewrite forallb_forall in Hall. specialize (Hall v Hin).
  apply Nat.eqb_eq in Hall. contradiction.
Qed.
End GramSchmidt.

(* ================================================================= *)
(** * Further laws of the operators *)

Section AssignmentsAgree.
Context {T : Type} `{Scalar T}.
Implicit Types m : Matrix.t T.

(** On a matrix with entries, a compound assignment computes what the
    binary operator computes. *)
Lemma add_assign_agrees m other :
  wf m -> 0 < Matrix.rows m -> 0 < Matrix.cols m ->
  Matrix.add_assign m other = Matrix.add m other.
Proof.
  intros Hwf Hr Hc. unfold Matrix.add_assign.
  destruct (negb (Matrix.rows m =? Matrix.rows other)
            || negb (Matrix.cols m =? Matrix.cols other)) eqn:E.
  - unfold Matrix.add. now rewrite E.
  - apply orb_false_iff in E as [E1 E2].
    apply negb_false_iff, Nat.eqb_eq in E1, E2.
    rewrite add_entries by (try assumption; congruence).
    now rewrite in_place_entries.
Qed.

Lemma sub_assign_agrees m other :
  wf m -> 0 < Matrix.rows m -> 0 < Matrix.cols m ->
  Matrix.sub_assign m other = Matrix.sub m other.
Proof.
  intros Hwf Hr Hc. unfold Matrix.sub_assign.
  destruct (negb (Matrix.rows m =? Matrix.rows other)
            || negb (Matrix.cols m =? Matrix.cols other)) eqn:E.
  - unfold Matrix.sub. now rewrite E.
  - apply orb_false_iff in E as [E1 E2].
    apply negb_false_iff, Nat.eqb_eq in E1, E2.
    rewrite sub_entries by (try assumption; congruence).
    now rewrite in_place_entries.
Qed.

Lemma scale_assign_agrees m k :
  wf m -> 0 < Matrix.rows m -> 0 < Matrix.cols m ->
  Ok (Matrix.scale_assign m k) = Matrix.scale m k.
Proof.
  intros Hwf Hr Hc. unfold Matrix.scale_assign.
  now rewrite scale_entries, in_place_entries.
Qed.

Lemma div_assign_agrees m k :
  wf m -> 0 < Matrix.rows m -> 0 < Matrix.cols m ->
  Matrix.div_assign m k = Matrix.div m k.
Proof.
  intros Hwf Hr Hc. unfold Matrix.div_assign.
  destruct (sltb (sabs k) tiny) eqn:E.
  - unfold Matrix.div. now rewrite E.
  - now rewrite div_entries, in_place_entries.
Qed.

(** On the empty matrix the binary operators throw, since they allocate
    their result; the compound assignments return it unchanged. *)
Lemma operators_on_empty k :
  Matrix.add Matrix.empty Matrix.empty =
    Throw (invalid_argument "Matrix dimensions must be positive") /\
  Matrix.scale (T:=T) Matrix.empty k =
    Throw (invalid_argument "Matrix dimensions must be positive") /\
  Matrix.transpose (T:=T) Matrix.empty =
    Throw (invalid_argument "Matrix dimensions must be positive") /\
  Matrix.add_assign (T:=T) Matrix.empty Matrix.empty = Ok Matrix.empty /\
  Matrix.scale_assign (T:=T) Matrix.empty k = Matrix.empty.
Proof. repeat split; reflexivity. Qed.
End AssignmentsAgree.

Section TransposeOfProduct.
Context {T : Type} `{Scalar T} {CA : CommutativeArithmetic T}.
Implicit Types m : Matrix.t T.

(** The transpose of a product is the product of the transposes, in the
    other order. *)
Lemma transpose_mul a b :
  Matrix.cols a = Matrix.rows b ->
  0 < Matrix.rows a -> 0 < Matrix.cols a -> 0 < Matrix.cols b ->
  (p <- Matrix.mul a b ;; Matrix.transpose p) =
  (bt <- Matrix.transpose b ;; at_ <- Matrix.transpose a ;; Matrix.mul bt at_).
Proof.
  intros Hinner Hra Hca Hcb.
  rewrite mul_entries by assumption. simpl.
  rewrite transpose_entries by (simpl; assumption). simpl.
  rewrite (transpose_entries b) by (try assumption; lia). simpl.
  rewrite (transpose_entries a) by assumption. simpl.
  rewrite mul_entries by (simpl; auto). simpl. f_equal.
  apply tabulate_ext. intros r c Hr Hc.
  rewrite raw_tabulate by assumption.
  unfold product_entry. simpl. rewrite Hinner.
  apply big_sum_ext. intros k Hk.
  rewrite !raw_tabulate by (try assumption; lia).
  apply smul_comm.
Qed.
End TransposeOfProduct.

Section QR.
Context {T : Type} `{Scalar T} `{ScalarSqrt T}.
Implicit Types m : Matrix.t T.

(** The loop that clears the part of [R] below the diagonal. *)
Lemma clear_lower_triangle n (R0 : Matrix.t T) :
  shaped n n R0 ->
  foldM (fun R i => foldM (fun R j => Matrix.set_at R i j s0) (seq 0 i) R)
    (seq 0 n) R0 =
  Ok (tabulate n n (fun i j => if j <? i then s0 else Matrix.raw R0 i j)).
Proof.
  intros HR0.
  assert (Hrow : forall i R, i < n -> shaped n n R ->
            returns (foldM (fun R j => Matrix.set_at R i j s0) (seq 0 i) R)
              (fun R' => shaped n n R' /\
                         forall r c, Matrix.raw R' r c =
                                     if (r =? i) && (c <? i) then s0
                                     else Matrix.raw R r c)).
  { intros i R Hi HR.
    pose proof (@returns_foldM _ _ (fun R j => Matrix.set_at R i j s0)
                  (fun k R' => shaped n n R' /\
                     forall r c, Matrix.raw R' r c =
                                 if (r =? i) && (c <? k) then s0
                                 else Matrix.raw R r c)
                  (seq 0 i) R) as Hloop.
    rewrite length_seq in Hloop. apply Hloop; clear Hloop.
    - split; [exact HR|]. intros r c.
      replace (c <? 0) with false by (symmetry; apply Nat.ltb_ge; lia).
      now rewrite andb_false_r.
    - intros k j R' Hk (HR' & Hraw).
      apply nth_error_seq_inv in Hk as (Hk & ->). simpl.
      eapply returns_mono;
        [apply (@set_at_cell _ _ n n R' i k s0); [lia | lia | exact HR']|].
      intros R'' (HR'' & Hraw''). split; [exact HR''|].
      intros r c. rewrite Hraw'', Hraw.
      destruct (Nat.eqb_spec r i) as [->|Hne]; simpl; [|reflexivity].
      destruct (Nat.eqb_spec c k) as [->|Hck].
      + destruct (Nat.ltb_spec k (Datatypes.S k)); [reflexivity | lia].
      + destruct (Nat.ltb_spec c k); destruct (Nat.ltb_spec c (Datatypes.S k));
          try reflexivity; lia. }
  pose proof (@returns_foldM _ _
                (fun R i => foldM (fun R j => Matrix.set_at R i j s0)
                              (seq 0 i) R)
                (fun k R' => shaped n n R' /\
                   forall r c, Matrix.raw R' r c =
                               if (r <? k) && (c <? r) then s0
                               else Matrix.raw R0 r c)
                (seq 0 n) R0) as Hloop.
  rewrite length_seq in Hloop.
  assert (Hret : returns
            (foldM (fun R i => foldM (fun R j => Matrix.set_at R i j s0)
                                 (seq 0 i) R) (seq 0 n) R0)
            (fun R' => shaped n n R' /\
               forall r c, Matrix.raw R' r c =
                           if (r <? n) && (c <? r) then s0
                           else Matrix.raw R0 r c)).
  { apply Hloop; clear Hloop.
    - split; [exact HR0|]. intros r c. reflexivity.
    - intros k i R Hk (HR & Hraw).
      apply nth_error_seq_inv in Hk as (Hk & ->). simpl.
      eapply returns_mono; [apply (Hrow k R Hk HR)|].
      intros R' (HR' & Hraw'). split; [exact HR'|].
      intros r c. rewrite Hraw', Hraw.
      destruct (Nat.eqb_spec r k) as [->|Hne]; simpl.
      + rewrite Nat.ltb_irrefl.
        destruct (Nat.ltb_spec k (Datatypes.S k)); [|lia]. simpl.
        destruct (c <? k); reflexivity.
      + destruct (Nat.ltb_spec r k); destruct (Nat.ltb_spec r (Datatypes.S k));
          try reflexivity; lia. }
  clear Hloop.
  destruct (foldM _ (seq 0 n) R0) as [R|e]; [|destruct Hret].
  f_equal. destruct Hret as (HR & Hraw).
  apply shaped_eq_tabulate; [exact HR|].
  intros r c Hr Hc. rewrite Hraw.
  apply Nat.ltb_lt in Hr. now rewrite Hr.
Qed.

(** What [qr_decomposition] returns: [Q] and [R] have the order of the
    matrix, and [R] is the product of the transpose of [Q] with the
    matrix, with exact zeros below the diagonal. *)
Lemma qr_decomposition_Ok m Q R :
  Matrix.qr_decomposition m = Ok (Q, R) ->
  let n := Matrix.rows m in
  0 < n /\ Matrix.cols m = n /\
  Matrix.rows Q = n /\ Matrix.cols Q = n /\
  exists Qt,
    Matrix.transpose Q = Ok Qt /\
    R = tabulate n n (fun i j => if j <? i then s0
                                 else product_entry Qt m i j).
Proof.
  intros Hqr n. unfold Matrix.qr_decomposition in Hqr.
  destruct (Nat.eqb_spec (Matrix.rows m) (Matrix.cols m)) as [Hsq|];
    [|discriminate].
  simpl in Hqr.
  apply bind_Ok in Hqr as (a_cols & _ & Hqr).
  apply bind_Ok in Hqr as (q_cols & _ & Hqr).
  apply bind_Ok in Hqr as (Q0 & HQ0 & Hqr).
  apply bind_Ok in Hqr as (Q' & HQ & Hqr).
  apply bind_Ok in Hqr as (Qt & HQt & Hqr).
  apply bind_Ok in Hqr as (R0 & HR0 & Hqr).
  apply bind_Ok in Hqr as (R' & HR & [= <- <-]).
  fold n in HQ0, HQ, HR.
  assert (Hn : 0 < n).
  { unfold Matrix.make in HQ0. destruct (Nat.eqb_spec n 0); [discriminate|].
    lia. }
  destruct (make_shape _ _ HQ0) as [HrQ0 HcQ0].
  assert (HshQ : same_shape Q0 Q').
  { assert (Hsh : if_returns
              (foldM (fun Q j =>
                        foldM (fun Q i =>
                                 x <- Vector.index (nth j q_cols []) i ;;
                                 Matrix.set_at Q i j x)
                          (seq 0 n) Q)
                 (seq 0 n) Q0)
              (same_shape Q0)).
    { apply foldM_keeps_shape. intros Q1 j.
      apply foldM_keeps_shape. intros Q2 i. apply if_returns_bind.
      destruct (Vector.index (nth j q_cols []) i); simpl; [|exact I].
      apply set_at_keeps_shape. }
    rewrite HQ in Hsh. exact Hsh. }
  destruct HshQ as [HrQ HcQ].
  pose proof (transpose_shape Q') as HshQt. rewrite HQt in HshQt.
  simpl in HshQt. destruct HshQt as [HrQt HcQt].
  rewrite mul_entries in HR0 by (unfold n in *; lia).
  injection HR0 as <-.
  assert (E1 : Matrix.rows Qt = n) by lia.
  assert (E2 : Matrix.cols m = n) by (unfold n; lia).
  rewrite E1, E2 in HR.
  rewrite (@clear_lower_triangle n) in HR by apply shaped_tabulate.
  injection HR as <-.
  split; [exact Hn|]. split; [unfold n; lia|]. split; [lia|]. split; [lia|].
  exists Qt. split; [exact HQt|].
  apply tabulate_ext. intros r c Hr Hc.
  destruct (c <? r); [reflexivity|].
  apply raw_tabulate; unfold n in *; lia.
Qed.

Lemma qr_decomposition_not_square m :
  Matrix.rows m <> Matrix.cols m ->
  Matrix.qr_decomposition m = Throw (invalid_argument "Must be square").
Proof.
  intros Hne. unfold Matrix.qr_decomposition.
  destruct (Nat.eqb_spec (Matrix.rows m) (Matrix.cols m)); [contradiction|].
  reflexivity.
Qed.
End QR.

Section RowExchange.
Context {T : Type} `{Scalar T}.
Implicit Types m : Matrix.t T.

(** Exchanging the same two rows twice gives the matrix back. *)
Lemma exchangeRows_twice m i j :
  wf m -> i < Matrix.rows m -> j < Matrix.rows m ->
  (m' <- Matrix.exchangeRows m i j ;; Matrix.exchangeRows m' i j) = Ok m.
Proof.
  intros Hwf Hi Hj. rewrite exchangeRows_entries by assumption. simpl.
  destruct (shaped_tabulate (Matrix.rows m) (Matrix.cols m)
              (fun r c => Matrix.raw m (if r =? j then i
                                        else if r =? i then j else r) c))
    as (Hwf' & Hr' & Hc').
  rewrite (exchangeRows_entries Hwf') by (rewrite Hr'; assumption).
  simpl. f_equal.
  etransitivity; [|apply (tabulate_self Hwf)].
  apply tabulate_ext. intros r c Hr Hc.
  rewrite raw_tabulate; [| |exact Hc].
  - f_equal.
    destruct (Nat.eqb_spec r j) as [->|Hrj].
    + rewrite Nat.eqb_refl.
      destruct (Nat.eqb_spec i j); [congruence | reflexivity].
    + destruct (Nat.eqb_spec r i) as [->|Hri].
      * now rewrite Nat.eqb_refl.
      * destruct (Nat.eqb_spec r j); [contradiction|].
        destruct (Nat.eqb_spec r i); [contradiction | reflexivity].
  - destruct (r =? j); [exact Hi|]. destruct (r =? i); assumption.
Qed.

(** [setToIdentity] makes of a square matrix what [identity] builds. *)
Lemma setToIdentity_is_identity m :
  wf m -> Matrix.rows m = Matrix.cols m -> 0 < Matrix.rows m ->
  Matrix.setToIdentity m = Matrix.identity (Matrix.rows m).
Proof.
  intros Hwf Hsq Hpos.
  now rewrite setToIdentity_entries, identity_entries.
Qed.

Lemma setToIdentity_not_square m :
  Matrix.rows m <> Matrix.cols m ->
  Matrix.setToIdentity m = Throw (invalid_argument "Matrix must be square").
Proof.
  intros Hne. unfold Matrix.setToIdentity.
  destruct (Nat.eqb_spec (Matrix.rows m) (Matrix.cols m)); [contradiction|].
  reflexivity.
Qed.
End RowExchange.

(* ================================================================= *)
(** * toRREF on a reduced engine *)

Section Idempotence.
Context {T : Type} `{Scalar T} {EA : ExactArithmetic T}.
Implicit Types m : Matrix.t T.

Lemma foldM_fixed {S I : Type} (body : S -> I -> result S) (l : list I)
  (s : S) :
  (forall i, In i l -> body s i = Ok s) -> foldM body l s = Ok s.
Proof.
  induction l as [|i l IH]; intros Hfix; simpl; [reflexivity|].
  rewrite (Hfix i (or_introl eq_refl)). simpl.
  apply IH. intros j Hj. apply Hfix. now right.
Qed.

(** A checked write of the value that is there changes nothing. *)
Lemma set_at_same m r c :
  wf m -> r < Matrix.rows m -> c < Matrix.cols m ->
  Matrix.set_at m r c (Matrix.raw m r c) = Ok m.
Proof.
  intros Hwf Hr Hc. rewrite set_at_returns by assumption. f_equal.
  apply (matrix_ext Hwf (wf_set_raw _ _ _ Hwf)); [split; reflexivity|].
  intros r' c' _ _. rewrite raw_set_raw by assumption.
  destruct (Nat.eqb_spec r' r) as [->|]; [|reflexivity].
  destruct (Nat.eqb_spec c' c) as [->|]; reflexivity.
Qed.

Lemma one_is_not_zero eps :
  sltb (sabs s0) eps = true -> sltb (sabs s1) eps = false ->
  s1 <> s0 (T:=T).
Proof. intros H0 H1 E. rewrite E in H1. congruence. Qed.

Lemma reciprocal_of_one eps :
  sltb (sabs s0) eps = true -> sltb (sabs s1) eps = false ->
  sdiv s1 s1 = s1 (T:=T).
Proof.
  intros H0 H1.
  rewrite <- (smul_1_l (sdiv s1 s1)).
  apply smul_recip. now apply (one_is_not_zero eps).
Qed.

(** In exact arithmetic, [toRREF] on the engine that [toRREF] left changes
    nothing: the pivots are one already, the entries above them zero, and
    nothing is left to snap. *)
Lemma toRREF_idempotent m eps (st : RREF.t T) :
  wf m -> sltb (sabs s0) eps = true -> sltb (sabs s1) eps = false ->
  (is_floating_point && sltb (sabs s1) tiny) = false ->
  RREF.toRREF (RREF.make m) eps = Ok st ->
  RREF.toRREF st eps = Ok st.
Proof.
  intros Hwf H0 H1 Hone Hst.
  pose proof (@toRREF_reduced _ _ EA m eps Hwf H0 H1) as Hred.
  rewrite Hst in Hred. simpl in Hred.
  destruct Hred as ((Hwfst & Hpiv & Hpone & Hzb & Hza & Hsnap) & _ & Hrref).
  pose proof (@toRREF_keeps_pivots _ _ (RREF.make m) eps eq_refl) as Hkp.
  rewrite Hst in Hkp. simpl in Hkp. destruct Hkp as (_ & _ & Href & _).
  pose proof Hpiv as (Hrows & Hlen & Hle & Hinc & Hlt).
  unfold RREF.toRREF. rewrite Href. simpl. rewrite Hrows.
  rewrite (@normalize_loop_outcome _ _ (RREF.mat st) (RREF.pivotCols st)
             (RREF.rank st) (RREF.rank st) Hwfst Hle Hlen Hlt (Nat.le_refl _)).
  assert (Hacc : existsb (pivot_rejected (RREF.mat st) (RREF.pivotCols st))
                   (seq 0 (RREF.rank st)) = false).
  { apply not_true_is_false. intros Hex.
    apply existsb_exists in Hex as (i & Hi & Hrej). apply in_seq in Hi.
    unfold pivot_rejected in Hrej.
    rewrite Hpone, (reciprocal_of_one eps H0 H1) in Hrej by lia. congruence. }
  rewrite Hacc. simpl.
  assert (Hnorm : normalized_rows (RREF.mat st) (RREF.pivotCols st)
                    (RREF.rank st) = RREF.mat st).
  { unfold normalized_rows.
    etransitivity; [|apply (tabulate_self Hwfst)].
    apply tabulate_ext. intros r c Hr Hc.
    destruct (Nat.ltb_spec r (RREF.rank st)); [|reflexivity].
    now rewrite Hpone, (reciprocal_of_one eps H0 H1), smul_1_r by assumption. }
  rewrite Hnorm.
  rewrite foldM_fixed.
  2:{ intros i Hi. apply in_rev, in_seq in Hi.
      unfold RREF.clear_above. rewrite seq_nth by lia. simpl.
      apply foldM_fixed. intros r Hr. apply in_rev, in_seq in Hr.
      assert (Hcol : nth i (RREF.pivotCols st) 0 < Matrix.cols (RREF.mat st)).
      { rewrite Forall_forall in Hlt. apply Hlt, nth_In. lia. }
      unfold RREF.eliminate_above.
      rewrite at_returns by lia. simpl.
      rewrite (Hza i r) by lia. rewrite H0.
      rewrite <- (Hza i r) at 1 by lia.
      apply set_at_same; [exact Hwfst | lia | exact Hcol]. }
  simpl. unfold RREF.cleanup.
  rewrite foldM_fixed.
  2:{ intros i Hi. apply in_seq in Hi. apply foldM_fixed.
      intros j Hj. apply in_seq in Hj.
      unfold Matrix.getRows, Matrix.getCols in *.
      unfold RREF.snap. rewrite at_returns by lia. simpl.
      destruct (sltb (sabs (Matrix.raw (RREF.mat st) i j)) eps) eqn:Hsmall;
        [|reflexivity].
      rewrite <- (Hsnap i j) at 1 by (try assumption; lia).
      apply set_at_same; [exact Hwfst | lia | lia]. }
  simpl. f_equal. destruct st as [mat rank pc pr isref isrref].
  simpl in *. now subst.
Qed.
End Idempotence.

(* ================================================================= *)
(** * The loops of [getInverseMatrix] *)

Section InverseLoops.
Context {T : Type} `{Scalar T}.
Implicit Types m aug : Matrix.t T.

Lemma returns_eq {A : Type} (c : result A) (a : A) :
  returns c (fun x => x = a) -> c = Ok a.
Proof. destruct c; simpl; [now intros ->|intros []]. Qed.

(** A loop over the columns that rewrites row [j] alone, entry [k] at
    step [k]: row [j] has become [g]. *)
Lemma row_rewritten R C j (body : Matrix.t T -> nat -> result (Matrix.t T))
  (g : nat -> T) m0 :
  shaped R C m0 -> j < R ->
  (forall k m, k < C -> shaped R C m ->
     (forall r c, r < R -> c < C ->
        Matrix.raw m r c = if (r =? j) && (c <? k) then g c
                           else Matrix.raw m0 r c) ->
     returns (body m k)
       (fun m' => shaped R C m' /\
                  forall r c, Matrix.raw m' r c =
                              if (r =? j) && (c =? k) then g k
                              else Matrix.raw m r c)) ->
  foldM body (seq 0 C) m0 =
  Ok (tabulate R C (fun r c => if r =? j then g c else Matrix.raw m0 r c)).
Proof.
  intros Hm0 Hj Hbody. apply returns_eq.
  pose proof (@returns_foldM _ _ body
                (fun k m => k <= C -> shaped R C m /\
                   forall r c, r < R -> c < C ->
                     Matrix.raw m r c = if (r =? j) && (c <? k) then g c
                                        else Matrix.raw m0 r c)
                (seq 0 C) m0) as Hloop.
  rewrite length_seq in Hloop.
  eapply returns_mono; [apply Hloop|]; clear Hloop.
  - intros _. split; [exact Hm0|]. intros r c _ _.
    now rewrite andb_false_r.
  - intros k i m Hk Hinv.
    apply nth_error_seq_inv in Hk as (Hk & ->). simpl.
    destruct Hinv as (Hm & Hraw); [lia|].
    eapply returns_mono; [apply (Hbody k m Hk Hm Hraw)|].
    intros m' (Hm' & Hraw') _. split; [exact Hm'|].
    intros r c Hr Hc. rewrite Hraw', Hraw by assumption.
    destruct (Nat.eqb_spec r j) as [->|Hne]; simpl; [|reflexivity].
    destruct (Nat.eqb_spec c k) as [->|Hck].
    + destruct (Nat.ltb_spec k (Datatypes.S k)); [reflexivity|lia].
    + destruct (Nat.ltb_spec c k);
        destruct (Nat.ltb_spec c (Datatypes.S k)); try reflexivity; lia.
  - intros m Hinv. destruct Hinv as (Hm & Hraw); [lia|].
    apply shaped_eq_tabulate; [exact Hm|].
    intros r c Hr Hc. rewrite Hraw by assumption.
    apply Nat.ltb_lt in Hc. now rewrite Hc, andb_true_r.
Qed.

(** Row [i] is divided by [scale]. *)
Lemma divide_row R C i (scale : T) m0 :
  shaped R C m0 -> i < R ->
  foldM (fun aug j =>
           y <- Matrix.at_ aug i j ;; Matrix.set_at aug i j (sdiv y scale))
    (seq 0 C) m0 =
  Ok (tabulate R C (fun r c => if r =? i then sdiv (Matrix.raw m0 i c) scale
                               else Matrix.raw m0 r c)).
Proof.
  intros Hm0 Hi.
  apply (@row_rewritten R C i _ (fun c => sdiv (Matrix.raw m0 i c) scale));
    [exact Hm0 | exact Hi |].
  intros k m Hk Hm Hraw. pose proof Hm as (_ & Hr & Hc).
  rewrite at_returns by lia. simpl.
  rewrite (Hraw i k Hi Hk), Nat.ltb_irrefl, andb_false_r.
  now apply set_at_cell.
Qed.

(** A multiple of row [i] is subtracted from row [j]. *)
Lemma subtract_row R C i j (factor : T) m0 :
  shaped R C m0 -> i < R -> j < R -> i <> j ->
  foldM (fun aug k =>
           y <- Matrix.at_ aug j k ;;
           z <- Matrix.at_ aug i k ;;
           Matrix.set_at aug j k (ssub y (smul factor z)))
    (seq 0 C) m0 =
  Ok (tabulate R C
        (fun r c => if r =? j
                    then ssub (Matrix.raw m0 j c)
                              (smul factor (Matrix.raw m0 i c))
                    else Matrix.raw m0 r c)).
Proof.
  intros Hm0 Hi Hj Hne.
  apply (@row_rewritten R C j _
           (fun c => ssub (Matrix.raw m0 j c)
                          (smul factor (Matrix.raw m0 i c))));
    [exact Hm0 | exact Hj |].
  intros k m Hk Hm Hraw. pose proof Hm as (_ & Hr & Hc).
  rewrite !at_returns by lia. simpl.
  rewrite (Hraw j k Hj Hk), (Hraw i k Hi Hk), Nat.ltb_irrefl, andb_false_r.
  destruct (Nat.eqb_spec i j) as [E|_]; [contradiction|]. simpl.
  now apply set_at_cell.
Qed.

(** Column [i] is cleared in every row but row [i]. *)
Lemma clear_column R C i m0 :
  shaped R C m0 -> i < R -> i < C ->
  foldM (fun aug j =>
           if negb (i =? j)
           then
             factor <- Matrix.at_ aug j i ;;
             foldM (fun aug k =>
                      y <- Matrix.at_ aug j k ;;
                      z <- Matrix.at_ aug i k ;;
                      Matrix.set_at aug j k (ssub y (smul factor z)))
               (seq 0 C) aug
           else Ok aug)
    (seq 0 R) m0 =
  Ok (tabulate R C
        (fun r c => if r =? i then Matrix.raw m0 r c
                    else ssub (Matrix.raw m0 r c)
                              (smul (Matrix.raw m0 r i) (Matrix.raw m0 i c)))).
Proof.
  intros Hm0 Hi HiC. apply returns_eq.
  set (body := fun aug j => if negb (i =? j) then _ else Ok aug).
  pose proof (@returns_foldM _ _ body
                (fun k m => k <= R -> shaped R C m /\
                   forall r c, r < R -> c < C ->
                     Matrix.raw m r c =
                     if (r <? k) && negb (r =? i)
                     then ssub (Matrix.raw m0 r c)
                               (smul (Matrix.raw m0 r i) (Matrix.raw m0 i c))
                     else Matrix.raw m0 r c)
                (seq 0 R) m0) as Hloop.
  rewrite length_seq in Hloop.
  eapply returns_mono; [apply Hloop|]; clear Hloop.
  - intros _. split; [exact Hm0|]. intros r c _ _. reflexivity.
  - intros k j m Hk Hinv.
    apply nth_error_seq_inv in Hk as (Hk & ->). simpl.
    destruct Hinv as (Hm & Hraw); [lia|].
    pose proof Hm as (_ & Hr & Hc). unfold body.
    destruct (Nat.eqb_spec i k) as [<-|Hne]; simpl.
    + intros _. split; [exact Hm|]. intros r c Hr' Hc'.
      rewrite Hraw by assumption.
      destruct (Nat.eqb_spec r i) as [->|Hri].
      * now rewrite !andb_false_r.
      * rewrite !andb_true_r.
        destruct (Nat.ltb_spec r i);
          destruct (Nat.ltb_spec r (Datatypes.S i)); try reflexivity; lia.
    + rewrite at_returns by lia. simpl.
      rewrite (@subtract_row R C i k _ m Hm Hi Hk Hne). simpl.
      intros _. split; [apply shaped_tabulate|].
      intros r c Hr' Hc'. rewrite raw_tabulate by assumption.
      rewrite !Hraw by assumption.
      rewrite Nat.ltb_irrefl, Nat.eqb_refl. simpl. rewrite andb_false_r.
      destruct (Nat.eqb_spec r k) as [->|Hrk].
      * destruct (Nat.ltb_spec k (Datatypes.S k)); [|lia].
        destruct (Nat.eqb_spec k i) as [E|_]; [congruence|]. reflexivity.
      * destruct (Nat.ltb_spec r k);
          destruct (Nat.ltb_spec r (Datatypes.S k)); try reflexivity; lia.
  - intros m Hinv. destruct Hinv as (Hm & Hraw); [lia|].
    apply shaped_eq_tabulate; [exact Hm|].
    intros r c Hr Hc. rewrite Hraw by assumption.
    apply Nat.ltb_lt in Hr. rewrite Hr. simpl.
    destruct (r =? i); reflexivity.
Qed.

(** One step of the elimination: it throws when the diagonal entry is
    below [eps] in magnitude, and reduces the pivot otherwise. *)
Lemma invert_step_entries n eps aug i :
  shaped n (2 * n) aug -> i < n ->
  Matrix.invert_step n eps aug i =
  if sltb (sabs (Matrix.raw aug i i)) eps
  then Throw (invalid_argument "Numerical singularity")
  else Ok (tabulate n (2 * n) (pivot_reduced aug i)).
Proof.
  intros Haug Hi. pose proof Haug as (_ & Hr & Hc).
  unfold Matrix.invert_step. rewrite at_returns by lia. simpl.
  destruct (sltb (sabs (Matrix.raw aug i i)) eps); [reflexivity|].
  rewrite (@divide_row n (2 * n) i _ aug Haug Hi). simpl.
  rewrite (@clear_column n (2 * n) i _ (shaped_tabulate _ _ _) Hi)
    by lia.
  f_equal. apply tabulate_ext. intros r c Hr' Hc'.
  rewrite !raw_tabulate by lia. unfold pivot_reduced.
  rewrite Nat.eqb_refl.
  destruct (Nat.eqb_spec r i) as [->|Hne]; reflexivity.
Qed.

(** The right half of the augmented matrix is copied out. *)
Lemma copy_right_half n aug :
  shaped n (2 * n) aug -> 0 < n ->
  (inverseMatrix <- Matrix.make n n ;;
   foldM (fun inv i =>
            foldM (fun inv j =>
                     x <- Matrix.at_ aug i (j + n) ;; Matrix.set_at inv i j x)
              (seq 0 n) inv)
     (seq 0 n) inverseMatrix) =
  Ok (tabulate n n (fun i j => Matrix.raw aug i (j + n))).
Proof.
  intros Haug Hn. pose proof Haug as (_ & Hr & Hc).
  rewrite make_positive by assumption. simpl.
  apply (cell_loops
           (fun i j inv =>
              x <- Matrix.at_ aug i (j + n) ;; Matrix.set_at inv i j x)
           (fun i j _ => Matrix.raw aug i (j + n)));
    [|apply shaped_tabulate].
  intros i j m Hi Hj Hm. rewrite at_returns by lia. simpl.
  now apply set_at_cell.
Qed.

(** The matrix the elimination starts from. *)
Lemma beside_identity_entries m :
  Matrix.rows m = Matrix.cols m -> 0 < Matrix.rows m ->
  (I <- Matrix.identity (Matrix.getCols m) ;; Matrix.augment m I) =
  Ok (beside_identity m).
Proof.
  intros Hsq Hn. unfold Matrix.getCols.
  rewrite identity_entries by lia. simpl.
  rewrite augment_entries by (simpl; lia). simpl. f_equal.
  apply tabulate_ext. intros r c Hr Hc.
  destruct (c <? Matrix.cols m) eqn:E; [reflexivity|].
  apply Nat.ltb_ge in E. apply raw_tabulate; lia.
Qed.

Lemma shaped_beside_identity m :
  Matrix.rows m = Matrix.cols m ->
  shaped (Matrix.rows m) (2 * Matrix.rows m) (beside_identity m).
Proof.
  intros Hsq. unfold beside_identity.
  replace (Matrix.cols m + Matrix.cols m) with (2 * Matrix.rows m) by lia.
  apply shaped_tabulate.
Qed.
End InverseLoops.

(* ================================================================= *)
(** * [getInverseMatrix] over a field *)

Section InverseField.
Context {T : Type} `{Scalar T} {FA : FieldArithmetic T}.
Implicit Types m aug : Matrix.t T.

Add Ring scalar_ring_structure : (scalar_ring (T:=T)).

(** Divisions by [s] become multiplications by the reciprocal of [s]. *)
Ltac by_reciprocal s :=
  repeat match goal with
         | |- context [sdiv ?x s] =>
             lazymatch x with
             | s1 => fail
             | _ => rewrite (sdiv_recip x s)
             end
         end.

Lemma field_is_exact : ExactArithmetic T.
Proof.
  split; intros; try ring.
  rewrite <- sdiv_recip. now apply sdiv_same.
Qed.

Lemma sdiv_zero (s : T) : sdiv s0 s = s0.
Proof. rewrite sdiv_recip. ring. Qed.

Lemma big_sum_sdiv (t : nat -> T) n (s : T) :
  sdiv (big_sum t n) s = big_sum (fun k => sdiv (t k) s) n.
Proof.
  induction n as [|n IH].
  - apply sdiv_zero.
  - rewrite !big_sum_succ, <- IH. by_reciprocal s. ring.
Qed.

Lemma big_sum_sub_scaled (u v : nat -> T) (f : T) n :
  big_sum (fun k => ssub (u k) (smul f (v k))) n =
  ssub (big_sum u n) (smul f (big_sum v n)).
Proof.
  induction n as [|n IH].
  - unfold big_sum. simpl. ring.
  - rewrite !big_sum_succ, IH. ring.
Qed.

Lemma inverse_invariant_start m :
  wf m -> Matrix.rows m = Matrix.cols m ->
  inverse_invariant m (beside_identity m) 0.
Proof.
  intros Hwf Hsq. split; [now apply shaped_beside_identity|].
  split; [|intros r c _ Hc; lia].
  intros r c Hr Hc. unfold beside_identity.
  rewrite raw_tabulate by lia.
  destruct (Nat.ltb_spec c (Matrix.cols m)); [|lia].
  rewrite (@big_sum_one _ _ field_is_exact _ (Matrix.rows m) r Hr).
  - rewrite raw_tabulate by lia.
    destruct (Nat.ltb_spec (r + Matrix.rows m) (Matrix.cols m)); [lia|].
    replace (r + Matrix.rows m - Matrix.cols m) with r by lia.
    rewrite delta_same. ring.
  - intros k Hk Hne. rewrite raw_tabulate by lia.
    destruct (Nat.ltb_spec (k + Matrix.rows m) (Matrix.cols m)); [lia|].
    replace (k + Matrix.rows m - Matrix.cols m) with k by lia.
    rewrite delta_other by congruence. ring.
Qed.

Lemma inverse_invariant_step m aug i :
  inverse_invariant m aug i -> i < Matrix.rows m ->
  Matrix.raw aug i i <> s0 ->
  inverse_invariant m
    (tabulate (Matrix.rows m) (2 * Matrix.rows m) (pivot_reduced aug i))
    (Datatypes.S i).
Proof.
  intros (Haug & Hleft & Hdone) Hi Hpivot.
  set (n := Matrix.rows m) in *.
  assert (Hrow : forall c, c < n ->
            sdiv (Matrix.raw aug i c) (Matrix.raw aug i i) =
            big_sum (fun k => smul (sdiv (Matrix.raw aug i (k + n))
                                         (Matrix.raw aug i i))
                                   (Matrix.raw m k c)) n).
  { intros c Hc. rewrite (Hleft i c Hi Hc), big_sum_sdiv.
    apply big_sum_ext. intros k Hk.
    by_reciprocal (Matrix.raw aug i i). ring. }
  split; [apply shaped_tabulate|]. split.
  - intros r c Hr Hc. rewrite raw_tabulate by lia.
    unfold pivot_reduced at 1.
    destruct (Nat.eqb_spec r i) as [->|Hne].
    + rewrite (Hrow c Hc). apply big_sum_ext. intros k Hk.
      rewrite raw_tabulate by lia. unfold pivot_reduced.
      now rewrite Nat.eqb_refl.
    + rewrite (Hrow c Hc), (Hleft r c Hr Hc), <- big_sum_sub_scaled.
      apply big_sum_ext. intros k Hk.
      rewrite raw_tabulate by lia. unfold pivot_reduced.
      destruct (Nat.eqb_spec r i) as [E|_]; [contradiction|]. fold n. ring.
  - intros r c Hr Hc. rewrite raw_tabulate by lia. unfold pivot_reduced.
    destruct (Nat.eq_dec c i) as [->|Hci].
    + rewrite sdiv_same by exact Hpivot.
      destruct (Nat.eqb_spec r i) as [->|Hne].
      * now rewrite delta_same.
      * rewrite delta_other by exact Hne. ring.
    + rewrite (Hdone i c Hi) by lia.
      rewrite delta_other by congruence. rewrite sdiv_zero.
      destruct (Nat.eqb_spec r i) as [->|Hne].
      * now rewrite delta_other by congruence.
      * rewrite (Hdone r c Hr) by lia. ring.
Qed.

Lemma big_sum_add (u v : nat -> T) n :
  big_sum (fun k => sadd (u k) (v k)) n = sadd (big_sum u n) (big_sum v n).
Proof.
  induction n as [|n IH].
  - unfold big_sum. simpl. ring.
  - rewrite !big_sum_succ, IH. ring.
Qed.

Lemma smul_sdiv_same (x s : T) : s <> s0 -> smul (sdiv x s) s = x.
Proof.
  intros Hs. rewrite sdiv_recip.
  transitivity (smul x (sdiv s s)); [rewrite (sdiv_recip s s); ring|].
  rewrite sdiv_same by exact Hs. ring.
Qed.

Lemma recovery_invariant_start m :
  Matrix.rows m = Matrix.cols m ->
  recovery_invariant m (beside_identity m) 0.
Proof.
  intros Hsq r c Hr Hc.
  rewrite (@big_sum_one _ _ field_is_exact _ (Matrix.rows m) r Hr).
  - unfold replaced_columns. simpl. rewrite delta_same. ring.
  - intros k Hk Hne. unfold replaced_columns. simpl.
    rewrite delta_other by congruence. ring.
Qed.

Lemma recovery_invariant_step m aug i :
  Matrix.rows m = Matrix.cols m ->
  recovery_invariant m aug i -> i < Matrix.rows m ->
  Matrix.raw aug i i <> s0 ->
  recovery_invariant m
    (tabulate (Matrix.rows m) (2 * Matrix.rows m) (pivot_reduced aug i))
    (Datatypes.S i).
Proof.
  intros Hsq Hrec Hi Hpivot r c Hr Hc.
  rewrite <- (Hrec r c Hr Hc).
  assert (Hcol : big_sum (fun k => smul (replaced_columns m i r k)
                                        (Matrix.raw aug k i))
                   (Matrix.rows m) = Matrix.raw m r i).
  { rewrite (Hrec r i Hr) by lia. unfold beside_identity.
    rewrite raw_tabulate by lia.
    destruct (Nat.ltb_spec i (Matrix.cols m)); [reflexivity|lia]. }
  pose proof (smul_sdiv_same (Matrix.raw aug i c) Hpivot) as Hp.
  set (p := sdiv (Matrix.raw aug i c) (Matrix.raw aug i i)) in *.
  transitivity
    (sadd (ssub (big_sum (fun k => smul (replaced_columns m i r k)
                                        (Matrix.raw aug k c))
                   (Matrix.rows m))
                (smul p (big_sum (fun k => smul (replaced_columns m i r k)
                                                (Matrix.raw aug k i))
                           (Matrix.rows m))))
          (smul (Matrix.raw m r i) p)); [|rewrite Hcol; ring].
  rewrite <- big_sum_sub_scaled.
  assert (Hone : big_sum (fun k => if k =? i
                                  then smul (Matrix.raw m r i) p else s0)
                   (Matrix.rows m) = smul (Matrix.raw m r i) p).
  { rewrite (@big_sum_one _ _ field_is_exact _ (Matrix.rows m) i Hi).
    - now rewrite Nat.eqb_refl.
    - intros k Hk Hne.
      destruct (Nat.eqb_spec k i); [contradiction|reflexivity]. }
  rewrite <- Hone, <- big_sum_add.
  apply big_sum_ext. intros k Hk.
  rewrite raw_tabulate by lia. unfold pivot_reduced, replaced_columns.
  fold p.
  destruct (Nat.eqb_spec k i) as [->|Hne].
  - rewrite Nat.ltb_irrefl.
    destruct (Nat.ltb_spec i (Datatypes.S i)); [|lia].
    rewrite <- Hp at 1. ring.
  - replace (k <? Datatypes.S i) with (k <? i); [ring|].
    destruct (Nat.ltb_spec k i);
      destruct (Nat.ltb_spec k (Datatypes.S i)); try reflexivity; lia.
Qed.

Lemma elimination_keeps_invariant m eps aug0 :
  Matrix.rows m = Matrix.cols m ->
  sltb (sabs s0) eps = true ->
  inverse_invariant m aug0 0 -> recovery_invariant m aug0 0 ->
  if_returns (foldM (Matrix.invert_step (Matrix.rows m) eps)
                (seq 0 (Matrix.rows m)) aug0)
    (fun aug => inverse_invariant m aug (Matrix.rows m) /\
                recovery_invariant m aug (Matrix.rows m)).
Proof.
  intros Hsq Heps H0 H0'.
  pose proof (@if_returns_foldM _ _ (Matrix.invert_step (Matrix.rows m) eps)
                (fun k aug => inverse_invariant m aug k /\
                              recovery_invariant m aug k)
                (seq 0 (Matrix.rows m)) aug0 (conj H0 H0')) as Hloop.
  rewrite length_seq in Hloop. apply Hloop; clear Hloop.
  intros k i aug Hk (Hinv & Hrec).
  apply nth_error_seq_inv in Hk as (Hk & ->). simpl.
  rewrite invert_step_entries by (first [apply Hinv | exact Hk]).
  destruct (sltb (sabs (Matrix.raw aug k k)) eps) eqn:Eg; simpl; [exact I|].
  assert (Hpivot : Matrix.raw aug k k <> s0).
  { intros E0. rewrite E0, Heps in Eg. discriminate. }
  split.
  - now apply inverse_invariant_step.
  - now apply recovery_invariant_step.
Qed.

(** What [getInverseMatrix] returns is the inverse, on both sides. *)
Lemma getInverseMatrix_inverse m eps inv :
  wf m -> sltb (sabs s0) eps = true ->
  Matrix.getInverseMatrix m eps = Done inv ->
  0 < Matrix.rows m /\ Matrix.cols m = Matrix.rows m /\
  shaped (Matrix.rows m) (Matrix.rows m) inv /\
  Matrix.mul inv m = Ok (tabulate (Matrix.rows m) (Matrix.rows m) delta) /\
  Matrix.mul m inv = Ok (tabulate (Matrix.rows m) (Matrix.rows m) delta).
Proof.
  intros Hwf Heps Hinv. unfold Matrix.getInverseMatrix in Hinv.
  destruct (Nat.eqb_spec (Matrix.rows m) (Matrix.cols m)) as [Hsq|];
    simpl in Hinv; [|discriminate].
  destruct (Matrix.determinant m eps) as [det|e]; simpl in Hinv;
    [|discriminate].
  destruct (sltb (sabs det) eps); [discriminate|].
  unfold Matrix.getCols in Hinv. rewrite <- Hsq in Hinv.
  set (n := Matrix.rows m) in *.
  destruct (Nat.eq_dec n 0) as [E0|Hpos].
  { rewrite E0 in Hinv. discriminate. }
  assert (Hn : 0 < n) by lia.
  pose proof (@beside_identity_entries _ _ m Hsq Hn) as Hstart.
  unfold Matrix.getCols in Hstart. rewrite <- Hsq in Hstart. fold n in Hstart.
  destruct (Matrix.identity n) as [I|e]; simpl in Hstart; [|discriminate].
  cbn [bind] in Hinv. rewrite Hstart in Hinv. cbn [bind] in Hinv.
  pose proof (@elimination_keeps_invariant m eps _ Hsq Heps
                (@inverse_invariant_start m Hwf Hsq)
                (@recovery_invariant_start m Hsq)) as Hloop.
  fold n in Hloop.
  destruct (foldM (Matrix.invert_step n eps) (seq 0 n) (beside_identity m))
    as [aug|e]; [|discriminate].
  simpl in Hloop. destruct Hloop as ((Haug & Hleft & Hdone) & Hrec).
  fold n in Haug, Hleft, Hdone. cbn [bind] in Hinv.
  rewrite (copy_right_half Haug Hn) in Hinv.
  injection Hinv as <-.
  split; [exact Hn|]. split; [exact (eq_sym Hsq)|].
  split; [apply shaped_tabulate|]. split.
  - rewrite mul_entries by (simpl; lia). simpl. rewrite <- Hsq. f_equal.
    apply tabulate_ext. intros r c Hr Hc.
    rewrite <- (Hdone r c Hr Hc), (Hleft r c Hr Hc).
    unfold product_entry. simpl. apply big_sum_ext.
    intros k Hk. now rewrite raw_tabulate by lia.
  - rewrite mul_entries by (simpl; lia). simpl. f_equal.
    apply tabulate_ext. intros r c Hr Hc.
    unfold product_entry. rewrite <- Hsq. fold n.
    transitivity (Matrix.raw (beside_identity m) r (c + n)).
    + rewrite <- (Hrec r (c + n) Hr) by (fold n; lia). fold n.
      apply big_sum_ext. intros k Hk.
      rewrite raw_tabulate by lia. unfold replaced_columns.
      destruct (Nat.ltb_spec k n); [reflexivity|lia].
    + unfold beside_identity. rewrite raw_tabulate by (fold n; lia).
      destruct (Nat.ltb_spec (c + n) (Matrix.cols m)); [lia|].
      f_equal. lia.
Qed.
End InverseField.

(* ================================================================= *)
(** * [determinant] returns, and the errors of [getInverseMatrix] *)

Section Determinant.
Context {T : Type} `{Scalar T}.
Implicit Types m temp : Matrix.t T.

Lemma det_max_index_bounds n temp i :
  i < n ->
  i <= Matrix.det_max_index n temp i /\ Matrix.det_max_index n temp i < n.
Proof.
  intros Hi. unfold Matrix.det_max_index.
  apply (@fold_left_invariant _ _
           (fun maxindex row =>
              if sltb (sabs (Matrix.raw temp maxindex i))
                      (sabs (Matrix.raw temp row i))
              then row else maxindex)
           (fun _ maxindex => i <= maxindex /\ maxindex < n)).
  - lia.
  - intros k row maxindex Hk Hinv.
    apply nth_error_seq_inv in Hk as (Hk & ->).
    destruct (sltb _ _); lia.
Qed.

Lemma det_eliminate_returns n eps i temp :
  wf temp -> Matrix.rows temp = n -> i < n ->
  returns (Matrix.det_eliminate n eps i temp)
    (fun temp' => wf temp' /\ Matrix.rows temp' = n).
Proof.
  intros Hwf Hr Hi. unfold Matrix.det_eliminate.
  eapply returns_mono.
  - apply (@returns_foldM _ _ _
             (fun _ temp' => wf temp' /\ Matrix.rows temp' = n)).
    + now split.
    + intros k row temp' Hk (Hwf' & Hr').
      apply nth_error_seq_inv in Hk as (Hk & ->). simpl.
      destruct (sltb _ eps); simpl; [now split|].
      destruct (@addScaledRow_returns _ _ temp' (i + 1 + k) i
                  (sdiv (sneg (Matrix.raw temp' (i + 1 + k) i))
                        (Matrix.raw temp' i i)) Hwf')
        as (m' & -> & Hwf'' & [Hr'' _] & _); [lia | lia |].
      simpl. split; [exact Hwf''|congruence].
  - intros temp' Hinv. exact Hinv.
Qed.

Lemma det_reduce_returns n eps l :
  Forall (fun i => i < n) l ->
  forall temp negative,
    wf temp -> Matrix.rows temp = n ->
    exists r, Matrix.det_reduce n eps l temp negative = Ok r.
Proof.
  induction 1 as [|i l Hi _ IH]; intros temp negative Hwf Hr; simpl.
  - eexists. reflexivity.
  - destruct (det_max_index_bounds temp Hi) as (Hlo & Hhi).
    destruct (sltb _ eps); [eexists; reflexivity|].
    assert (Hst : exists st,
               (if negb (Matrix.det_max_index n temp i =? i)
                then temp' <- Matrix.exchangeRows temp
                                (Matrix.det_max_index n temp i) i ;;
                     Ok (temp', negb negative)
                else Ok (temp, negative)) = Ok st /\
               wf (fst st) /\ Matrix.rows (fst st) = n).
    { destruct (negb _).
      - rewrite exchangeRows_returns by lia. simpl. eexists.
        split; [reflexivity|]. simpl.
        split; [apply wf_swapped; try assumption; lia | exact Hr].
      - eexists. split; [reflexivity|]. now split. }
    destruct Hst as (st & -> & Hwf' & Hr'). simpl.
    pose proof (@det_eliminate_returns n eps i (fst st) Hwf' Hr' Hi) as He.
    destruct (Matrix.det_eliminate n eps i (fst st)) as [temp'|e];
      simpl in He; [|contradiction].
    simpl. apply IH; apply He.
Qed.

Lemma determinant_returns m eps :
  wf m -> Matrix.rows m = Matrix.cols m ->
  exists det, Matrix.determinant m eps = Done det.
Proof.
  intros Hwf Hsq. unfold Matrix.determinant.
  rewrite Hsq, Nat.eqb_refl. simpl. rewrite <- Hsq.
  destruct (@det_reduce_returns (Matrix.rows m) eps (seq 0 (Matrix.rows m)))
    with (temp := m) (negative := false) as (r & ->); try easy.
  - apply Forall_forall. intros i Hin. apply in_seq in Hin. lia.
  - simpl. destruct r as [[temp negative]|]; eexists; reflexivity.
Qed.

Lemma determinant_not_square m eps :
  Matrix.rows m <> Matrix.cols m ->
  Matrix.determinant m eps = Raised (domain_error "Must be square").
Proof.
  intros Hne. unfold Matrix.determinant.
  destruct (Nat.eqb_spec (Matrix.rows m) (Matrix.cols m)); [contradiction|].
  reflexivity.
Qed.

Lemma getInverseMatrix_not_square m eps :
  Matrix.rows m <> Matrix.cols m ->
  Matrix.getInverseMatrix m eps =
  Raised (std_exn (invalid_argument "Matrix not square")).
Proof.
  intros Hne. unfold Matrix.getInverseMatrix.
  destruct (Nat.eqb_spec (Matrix.rows m) (Matrix.cols m)); [contradiction|].
  reflexivity.
Qed.

Lemma getInverseMatrix_singular m eps det :
  Matrix.rows m = Matrix.cols m ->
  Matrix.determinant m eps = Done det -> sltb (sabs det) eps = true ->
  Matrix.getInverseMatrix m eps =
  Raised (std_exn (invalid_argument "Matrix is singular")).
Proof.
  intros Hsq Hdet Hsmall. unfold Matrix.getInverseMatrix.
  destruct (Nat.eqb_spec (Matrix.rows m) (Matrix.cols m)); [|contradiction].
  simpl. rewrite Hdet. simpl. now rewrite Hsmall.
Qed.

(** No row is exchanged: a first diagonal entry below [eps] stops the
    inversion, whatever the determinant. *)
Lemma getInverseMatrix_no_pivoting m eps det :
  wf m -> Matrix.rows m = Matrix.cols m -> 0 < Matrix.rows m ->
  Matrix.determinant m eps = Done det -> sltb (sabs det) eps = false ->
  sltb (sabs (Matrix.raw m 0 0)) eps = true ->
  Matrix.getInverseMatrix m eps =
  Raised (std_exn (invalid_argument "Numerical singularity")).
Proof.
  intros Hwf Hsq Hn Hdet Hbig Hsmall. unfold Matrix.getInverseMatrix.
  destruct (Nat.eqb_spec (Matrix.rows m) (Matrix.cols m)); [|contradiction].
  simpl. rewrite Hdet. simpl. rewrite Hbig.
  pose proof (@beside_identity_entries _ _ m Hsq Hn) as Hstart.
  destruct (Matrix.identity (Matrix.getCols m)) as [I|e'];
    simpl in Hstart; [|discriminate].
  cbn [bind]. rewrite Hstart. cbn [bind].
  unfold Matrix.getCols. rewrite <- Hsq.
  assert (Hseq : seq 0 (Matrix.rows m) = 0 :: seq 1 (Matrix.rows m - 1)).
  { destruct (Matrix.rows m); [lia|]. simpl. now rewrite Nat.sub_0_r. }
  rewrite Hseq. cbn [foldM].
  rewrite invert_step_entries;
    [| now apply shaped_beside_identity | exact Hn].
  unfold beside_identity at 1. rewrite raw_tabulate by lia.
  destruct (Nat.ltb_spec 0 (Matrix.cols m)); [|lia].
  now rewrite Hsmall.
Qed.
End Determinant.

(* ================================================================= *)
(** * The specification, statement by statement *)

(** C9: after [toREF], and after [toRREF] on an engine that was not reduced
    before, [pivotRows] is exactly [0; 1; ...; rank-1]: the pivot of index
    [i] sits in row [i].  Hence the solver, which reads the reduced matrix
    at row [i], reads the row of the pivot of index [i]. *)
Theorem pivotRows_consecutive :
  forall (T : Type) (S : Scalar T),
    (forall (st : RREF.t T) (eps : T),
        returns (RREF.toREF st eps) pivot_rows_consecutive) /\
    (forall (st : RREF.t T) (eps : T),
        RREF.isREF st = false ->
        if_returns (RREF.toRREF st eps) pivot_rows_consecutive) /\
    (forall (A b : Matrix.t T) (s : SolvingEquation.t T),
        SolvingEquation.make A b = Ok s ->
        pivot_rows_consecutive (SolvingEquation.rrefSolver s) /\
        forall i c,
          i < length (RREF.getPivotCols (SolvingEquation.rrefSolver s)) ->
          Matrix.at_ (SolvingEquation.rrefMatrix s) i c =
          Matrix.at_ (SolvingEquation.rrefMatrix s)
            (nth i (RREF.getPivotRows (SolvingEquation.rrefSolver s)) 0) c).
Proof.
  intros T S.
  assert (Hcons : forall st : RREF.t T, pivots_ok st -> pivot_rows_consecutive st).
  { intros st (Hrows & _). split; [exact Hrows|].
    intros i Hi. rewrite Hrows. now rewrite seq_nth. }
  split; [|split].
  - intros st eps. eapply returns_mono; [apply toREF_returns|].
    intros st' (_ & Hpiv & _). now apply Hcons.
  - intros st eps Href. eapply if_returns_mono; [now apply toRREF_keeps_pivots|].
    intros st' (_ & Hpiv & _). now apply Hcons.
  - intros A b s Hs. unfold SolvingEquation.make in Hs.
    apply bind_Ok in Hs as (aug0 & _ & Hs).
    apply bind_Ok in Hs as (aug & _ & Hs).
    destruct (_ || _); [discriminate|].
    apply bind_Ok in Hs as (st & Hst & Hs).
    injection Hs as <-. simpl.
    pose proof (@toRREF_keeps_pivots T S (RREF.make aug) tiny eq_refl) as Hp.
    rewrite Hst in Hp. simpl in Hp. destruct Hp as (_ & Hpiv & _).
    split; [now apply Hcons|].
    intros i c Hi. unfold RREF.getPivotRows, RREF.getPivotCols in *.
    destruct Hpiv as (Hrows & Hlen & _).
    rewrite Hrows, seq_nth by lia. reflexivity.
Qed.

Lemma pivotRows_consecutive_witness :
  returns (RREF.toRREF (RREF.make scenario3_A) tiny) pivot_rows_consecutive /\
  pivot_rows_consecutive
    (RREF.mk (Matrix.mk 2 3 [[1; 1; 0]; [0; 0; 1]]%float) 2 [0; 2] [0; 1]
       true true).
Proof.
  destruct (pivotRows_consecutive double_Scalar) as (_ & Hrref & Hsolver).
  split.
  - specialize (Hrref (RREF.make scenario3_A) tiny eq_refl).
    destruct (RREF.toRREF (RREF.make scenario3_A) tiny) as [st|e] eqn:E.
    + exact Hrref.
    + vm_compute in E. discriminate.
  - apply (Hsolver scenario3_A scenario3_b
             (SolvingEquation.mk (Matrix.mk 2 3 [[1; 1; 1]; [2; 2; 3]]%float)
                (Matrix.mk 2 3 [[1; 1; 0]; [0; 0; 1]]%float)
                (RREF.mk (Matrix.mk 2 3 [[1; 1; 0]; [0; 0; 1]]%float) 2
                   [0; 2] [0; 1] true true)
                SolvingEquation.NoSolution [] [])).
    vm_compute. reflexivity.
Defined.

(** C1: the solver constructed on [[A | b]] has reduced the augmented
    matrix with [toRREF] and classifies by the rule [classified] applied to
    the pivot columns of that reduction, with [n = cols A]; and scenario 3,
    [A = [[1,1],[2,2]]], [b = [[1],[3]]] over [double], is NoSolution. *)
Theorem solver_classification :
  (forall (T : Type) (S : Scalar T) (A b : Matrix.t T)
          (s : SolvingEquation.t T),
      Matrix.getRows b = Matrix.getRows A ->
      SolvingEquation.make A b = Ok s ->
      exists aug,
        Matrix.augment A b = Ok aug /\
        RREF.toRREF (RREF.make aug) tiny = Ok (SolvingEquation.rrefSolver s) /\
        classified (Matrix.getCols A)
          (RREF.getPivotCols (SolvingEquation.rrefSolver s))
          (SolvingEquation.type s)) /\
  (exists s, SolvingEquation.make scenario3_A scenario3_b = Ok s /\
             RREF.getPivotCols (SolvingEquation.rrefSolver s) = [0; 2] /\
             SolvingEquation.type s = SolvingEquation.NoSolution).
Proof.
  split.
  - intros T S A b s _ Hs.
    destruct (make_Ok _ _ Hs) as (_ & _ & aug & Haug & _ & Hst & _ & Hcl & _).
    exists aug. auto.
  - eexists. split; [vm_compute; reflexivity|]. split; reflexivity.
Qed.

Lemma solver_classification_witness :
  exists aug,
    Matrix.augment scenario3_A scenario3_b = Ok aug /\
    RREF.toRREF (RREF.make aug) tiny =
      Ok (SolvingEquation.rrefSolver
            (SolvingEquation.mk aug (Matrix.mk 2 3 [[1; 1; 0]; [0; 0; 1]]%float)
               (RREF.mk (Matrix.mk 2 3 [[1; 1; 0]; [0; 0; 1]]%float) 2 [0; 2] [0; 1]
                  true true)
               SolvingEquation.NoSolution [] [])) /\
    classified 2 [0; 2] SolvingEquation.NoSolution.
Proof.
  apply (proj1 solver_classification float double_Scalar scenario3_A scenario3_b
           (SolvingEquation.mk (Matrix.mk 2 3 [[1; 1; 1]; [2; 2; 3]]%float)
              (Matrix.mk 2 3 [[1; 1; 0]; [0; 0; 1]]%float)
              (RREF.mk (Matrix.mk 2 3 [[1; 1; 0]; [0; 0; 1]]%float) 2 [0; 2] [0; 1]
                 true true)
              SolvingEquation.NoSolution [] [])).
  - reflexivity.
  - vm_compute. reflexivity.
Defined.

(** C10: [toRREF] is not total on well-formed matrices.  With a floating
    scalar type, a 1x1 matrix whose entry [p] is accepted as a pivot and
    whose reciprocal is below [1e-9] in magnitude makes [scaleRow] throw;
    [[2e9]] over [double] is such a matrix, well-formed and of full rank. *)
Theorem toRREF_not_total :
  (forall (T : Type) (S : Scalar T) (p eps : T),
      is_floating_point = true ->
      sltb (sabs p) eps = false ->
      sltb (sabs (sdiv s1 p)) tiny = true ->
      RREF.toRREF (RREF.make (matrix_of [[p]])) eps =
      Throw (invalid_argument "Scaling factor too small")) /\
  (wf large_pivot /\
   Matrix.of_rows [[2e9%float]] = Ok large_pivot /\
   sltb 1e9%float (sabs (Matrix.raw large_pivot 0 0)) = true /\
   returns (RREF.toREF (RREF.make large_pivot) tiny)
     (fun st => RREF.rank st = 1 /\ RREF.pivotRows st = [0] /\
                RREF.pivotCols st = [0]) /\
   RREF.toRREF (RREF.make large_pivot) tiny =
   Throw (invalid_argument "Scaling factor too small")).
Proof.
  split.
  - intros T S p eps Hfp Hp Hinv.
    unfold RREF.toRREF, RREF.toREF, RREF.toREF_body, RREF.find_pivot; simpl.
    change (Matrix.raw (matrix_of [[p]]) 0 0) with p.
    rewrite Hp; simpl.
    unfold RREF.normalize_pivot; simpl.
    change (Matrix.raw (matrix_of [[p]]) 0 0) with p.
    unfold Matrix.scaleRow; simpl. rewrite Hfp, Hinv. reflexivity.
  - split; [split; [reflexivity | repeat constructor]|].
    split; [reflexivity|]. split; [reflexivity|].
    split; [vm_compute; auto | vm_compute; reflexivity].
Qed.

Lemma toRREF_not_total_witness :
  RREF.toRREF (RREF.make (matrix_of [[2e9%float]])) tiny =
  Throw (invalid_argument "Scaling factor too small").
Proof.
  apply (proj1 toRREF_not_total float double_Scalar 2e9%float tiny);
    reflexivity.
Defined.



(** C7, as the code has it: [eigen] throws a logic error on a matrix that
    is not square; whenever it returns, [eigenvectors] is made of one slot
    per eigenvalue, in order: the kernel vectors of [A - lam * I] on the
    input [A], each normalized or kept as it is when the normalization
    throws, or a single zero vector when the kernel is empty; so there is
    at least one entry per eigenvalue.  (An exception of the reduction of
    [A - lam * I] is not caught: see the counterexample.) *)
Theorem eigen_slots :
  forall (T : Type) (S : Scalar T) (Sq : ScalarSqrt T)
         (A : Matrix.t T) (max_iter : Z),
    (Matrix.isSquare A = false ->
     Matrix_eigen A max_iter =
     Throw (logic_error "Eigen decomposition only for square matrices")) /\
    (forall res, Matrix_eigen A max_iter = Ok res ->
       exists slots,
         Forall2 (fun lam slot =>
                    exists basis, shifted_kernel A lam = Ok basis /\
                                  slot = eigen_slot A basis)
           (eigenvalues res) slots /\
         eigenvectors res = concat slots /\
         length (eigenvalues res) <= length (eigenvectors res)).
Proof.
  intros T S Sq A max_iter. split.
  - intros Hsq. unfold Matrix_eigen. now rewrite Hsq.
  - intros res Hres.
    destruct (Matrix.isSquare A) eqn:Hsq;
      [|unfold Matrix_eigen in Hres; rewrite Hsq in Hres; discriminate].
    rewrite Matrix_eigen_square in Hres by exact Hsq.
    apply bind_Ok in Hres as (A_final & _ & Hres).
    apply bind_Ok in Hres as (vecs & Hvecs & [= <-]). simpl.
    destruct (eigenvector_loop _ _ _ Hvecs) as (slots & Hslots & ->).
    exists slots. split; [exact Hslots|]. split; [reflexivity|]. simpl.
    apply concat_slots_length
      with (P := fun lam slot =>
                   exists basis, shifted_kernel A lam = Ok basis /\
                                 slot = eigen_slot A basis).
    eapply Forall2_impl; [|exact Hslots].
    intros lam slot (basis & Hb & ->). split; [now exists basis|].
    apply eigen_slot_nonempty.
Qed.

Lemma eigen_slots_witness :
  Matrix_eigen (matrix_of [[1; 2; 3]]%float) 1000 =
  Throw (logic_error "Eigen decomposition only for square matrices") /\
  exists slots,
    Forall2 (fun lam slot =>
               exists basis, shifted_kernel scenario5_A lam = Ok basis /\
                             slot = eigen_slot scenario5_A basis)
      [2; 3]%float slots /\
    [[1; -0]; [-0; 1]]%float = concat slots /\
    2 <= 2.
Proof.
  split.
  - apply (proj1 (eigen_slots double_Scalar double_ScalarSqrt
                    (matrix_of [[1; 2; 3]]%float) 1000%Z)).
    reflexivity.
  - apply (proj2 (eigen_slots double_Scalar double_ScalarSqrt
                    scenario5_A 1000%Z)
             (mk_eigen [2; 3]%float [[1; -0]; [-0; 1]]%float)).
    vm_compute. reflexivity.
Defined.

(** C7, counterexample: [[0, 4e9], [0, 0]] is square and well-formed, and
    [eigen] throws on it: the exception [scaleRow] raises while [A - 0 * I]
    is reduced reaches the caller. *)
Lemma eigen_propagates_reduction_failure :
  wf large_shear /\ Matrix.isSquare large_shear = true /\
  Matrix_eigen large_shear default_max_iter =
  Throw (invalid_argument "Scaling factor too small") /\
  ~ exists res, Matrix_eigen large_shear default_max_iter = Ok res.
Proof.
  assert (E : Matrix_eigen large_shear default_max_iter =
              Throw (invalid_argument "Scaling factor too small"))
    by (vm_compute; reflexivity).
  split; [split; [reflexivity | repeat constructor]|].
  split; [reflexivity|]. split; [exact E|].
  intros [res Hres]. rewrite E in Hres. discriminate.
Qed.
















(* ================================================================= *)
(** * Further properties of the code *)

(** X1: [toREF] returns on every engine and every tolerance, and leaves
    the bookkeeping consistent: the matrix keeps its shape, [rank] is the
    number of recorded pivot columns and of recorded pivot rows, the pivot
    columns are strictly increasing and inside the matrix, the rank is at
    most the number of rows and of columns, and the engine is marked as
    being in echelon form. *)
Theorem toREF_pivot_bookkeeping :
  forall (T : Type) (S : Scalar T) (st : RREF.t T) (eps : T),
    returns (RREF.toREF st eps)
      (fun st' =>
         same_shape (RREF.mat st) (RREF.mat st') /\
         length (RREF.pivotCols st') = RREF.rank st' /\
         length (RREF.pivotRows st') = RREF.rank st' /\
         increasing (RREF.pivotCols st') /\
         Forall (fun c => c < Matrix.cols (RREF.mat st')) (RREF.pivotCols st') /\
         RREF.rank st' <=
           Nat.min (Matrix.rows (RREF.mat st')) (Matrix.cols (RREF.mat st')) /\
         RREF.isREF st' = true /\ RREF.isRREF st' = RREF.isRREF st).
Proof.
  intros T S st eps.
  eapply returns_mono; [apply toREF_returns|].
  intros st' (Hshape & Hpiv & Href & Hrref).
  pose proof (pivots_ok_rank Hpiv) as [Hr Hc].
  destruct Hpiv as (Hrows & Hlen & Hle & Hinc & Hlt).
  split; [exact Hshape|]. split; [exact Hlen|].
  split; [now rewrite Hrows, length_seq|]. split; [exact Hinc|].
  split; [exact Hlt|]. split; [lia|]. split; assumption.
Qed.



(** X3: on a well-formed matrix [toRREF] throws exactly when [scaleRow]
    refuses the reciprocal of a pivot of the echelon form (a floating
    type, and a reciprocal below 1e-9 in magnitude), and the exception is
    then "Scaling factor too small"; in every other case it returns. *)
Theorem toRREF_throws_iff_pivot_refused :
  forall (T : Type) (S : Scalar T) (m : Matrix.t T) (eps : T),
    wf m ->
    exists st1,
      RREF.toREF (RREF.make m) eps = Ok st1 /\
      (RREF.toRREF (RREF.make m) eps =
         Throw (invalid_argument "Scaling factor too small") <->
       existsb (pivot_rejected (RREF.mat st1) (RREF.pivotCols st1))
         (seq 0 (RREF.rank st1)) = true) /\
      ((exists st, RREF.toRREF (RREF.make m) eps = Ok st) <->
       existsb (pivot_rejected (RREF.mat st1) (RREF.pivotCols st1))
         (seq 0 (RREF.rank st1)) = false).
Proof.
  intros T S m eps Hwf.
  destruct (toRREF_outcome eps Hwf) as (st1 & Href & Hthrow & Hok).
  exists st1. split; [exact Href|].
  destruct (existsb (pivot_rejected (RREF.mat st1) (RREF.pivotCols st1))
              (seq 0 (RREF.rank st1))) eqn:Hex.
  - specialize (Hthrow eq_refl). split.
    + split; [reflexivity | intros _; exact Hthrow].
    + split; [|discriminate]. intros [st Hst]. congruence.
  - destruct (Hok eq_refl) as [st Hst]. split.
    + split; [|discriminate]. intros Hthr. congruence.
    + split; [reflexivity | intros _; now exists st].
Qed.

Lemma toRREF_throws_iff_pivot_refused_witness :
  exists st1,
    RREF.toREF (RREF.make large_pivot) tiny = Ok st1 /\
    (RREF.toRREF (RREF.make large_pivot) tiny =
       Throw (invalid_argument "Scaling factor too small") <->
     existsb (pivot_rejected (RREF.mat st1) (RREF.pivotCols st1))
       (seq 0 (RREF.rank st1)) = true) /\
    ((exists st, RREF.toRREF (RREF.make large_pivot) tiny = Ok st) <->
     existsb (pivot_rejected (RREF.mat st1) (RREF.pivotCols st1))
       (seq 0 (RREF.rank st1)) = false).
Proof.
  apply (@toRREF_throws_iff_pivot_refused float double_Scalar large_pivot tiny).
  split; [reflexivity | repeat constructor].
Defined.

(** X4: in exact arithmetic, with a tolerance between 0 and 1 and a factor
    1 that [scaleRow] accepts, [toRREF] is idempotent: called again on the
    engine it left, it returns that engine unchanged. *)
Theorem toRREF_twice :
  forall (T : Type) (S : Scalar T) (EA : ExactArithmetic T)
         (m : Matrix.t T) (eps : T) (st : RREF.t T),
    wf m -> sltb (sabs s0) eps = true -> sltb (sabs s1) eps = false ->
    (is_floating_point && sltb (sabs s1) tiny) = false ->
    RREF.toRREF (RREF.make m) eps = Ok st ->
    RREF.toRREF st eps = Ok st.
Proof.
  intros T S EA m eps st. apply toRREF_idempotent.
Qed.

Lemma toRREF_twice_witness :
  exists st,
    RREF.toRREF (RREF.make rational_3x2) tiny = Ok st /\
    RREF.toRREF st tiny = Ok st.
Proof.
  destruct (RREF.toRREF (RREF.make rational_3x2) tiny) as [st|e] eqn:E.
  - exists st. split; [reflexivity|].
    apply (@toRREF_twice Qc Qc_Scalar Qc_ExactArithmetic rational_3x2 tiny st);
      try reflexivity; [|exact E].
    split; [reflexivity | repeat constructor].
  - vm_compute in E. discriminate.
Defined.

(** X5: a second call of [getKernel], on the engine that the first call
    left, returns the same basis and the same engine, whatever tolerance
    it is given: the reduced matrix is read again, nothing is reduced
    anew. *)
Theorem getKernel_twice :
  forall (T : Type) (S : Scalar T) (st st1 : RREF.t T) (eps eps' : T)
         (basis : list Vector.t),
    RREF.getKernel st eps = Ok (basis, st1) ->
    RREF.getKernel st1 eps' = Ok (basis, st1).
Proof.
  intros T S st st1 eps eps' basis. apply getKernel_again.
Qed.

Lemma getKernel_twice_witness :
  exists basis st1,
    RREF.getKernel (RREF.make scenario3_A) tiny = Ok (basis, st1) /\
    RREF.getKernel st1 2%float = Ok (basis, st1).
Proof.
  destruct (RREF.getKernel (RREF.make scenario3_A) tiny)
    as [[basis st1]|e] eqn:E.
  - exists basis, st1. split; [reflexivity|].
    apply (@getKernel_twice float double_Scalar (RREF.make scenario3_A) st1
             tiny 2%float basis E).
  - vm_compute in E. discriminate.
Defined.

(** X6: [transpose] of a matrix with at least one row and one column is
    the table whose entry [(c, r)] is the entry [(r, c)] of the matrix,
    with rows and columns exchanged; row [c] of it is column [c] of the
    matrix.  On a matrix without rows or without columns (the default
    constructed one) it throws, since it allocates its result with the
    checked constructor. *)
Theorem transpose_spec :
  forall (T : Type) (S : Scalar T) (m : Matrix.t T),
    (0 < Matrix.rows m -> 0 < Matrix.cols m ->
     Matrix.transpose m =
     Ok (tabulate (Matrix.cols m) (Matrix.rows m)
           (fun c r => Matrix.raw m r c)) /\
     forall c, c < Matrix.cols m ->
       (mt <- Matrix.transpose m ;; Matrix.getRow mt c) = Matrix.getCol m c) /\
    (Matrix.rows m = 0 \/ Matrix.cols m = 0 ->
     Matrix.transpose m =
     Throw (invalid_argument "Matrix dimensions must be positive")).
Proof.
  intros T S m. split.
  - intros Hr Hc. split; [now apply transpose_entries|].
    intros c Hc'. now apply transpose_row_is_column.
  - intros Hzero. unfold Matrix.transpose.
    rewrite make_not_positive; [reflexivity|]. tauto.
Qed.

Lemma transpose_spec_witness :
  Matrix.transpose scenario3_A = Ok (matrix_of [[1; 2]; [1; 2]]%float) /\
  Matrix.transpose (T:=float) Matrix.empty =
  Throw (invalid_argument "Matrix dimensions must be positive").
Proof.
  destruct (@transpose_spec float double_Scalar scenario3_A) as [Hok _].
  destruct (@transpose_spec float double_Scalar Matrix.empty) as [_ Hthrow].
  split.
  - destruct Hok as [-> _]; [simpl; lia | simpl; lia | reflexivity].
  - apply Hthrow. now left.
Defined.

(** X7: transposing twice gives a well-formed, non-empty matrix back. *)
Theorem transpose_twice :
  forall (T : Type) (S : Scalar T) (m : Matrix.t T),
    wf m -> 0 < Matrix.rows m -> 0 < Matrix.cols m ->
    (mt <- Matrix.transpose m ;; Matrix.transpose mt) = Ok m.
Proof.
  intros T S m. apply transpose_involutive.
Qed.

Lemma transpose_twice_witness :
  (mt <- Matrix.transpose rational_3x2 ;; Matrix.transpose mt) =
  Ok rational_3x2.
Proof.
  apply (@transpose_twice Qc Qc_Scalar rational_3x2);
    [split; [reflexivity | repeat constructor] | simpl; lia | simpl; lia].
Defined.

(** X8: when the multiplication of scalars commutes, the transpose of a
    product is the product of the transposes in the other order. *)
Theorem transpose_of_product :
  forall (T : Type) (S : Scalar T) (CA : CommutativeArithmetic T)
         (a b : Matrix.t T),
    Matrix.cols a = Matrix.rows b ->
    0 < Matrix.rows a -> 0 < Matrix.cols a -> 0 < Matrix.cols b ->
    (p <- Matrix.mul a b ;; Matrix.transpose p) =
    (bt <- Matrix.transpose b ;;
     at_ <- Matrix.transpose a ;; Matrix.mul bt at_).
Proof.
  intros T S CA a b. apply transpose_mul.
Qed.

Lemma transpose_of_product_witness :
  (p <- Matrix.mul rational_3x2 rational_2x2 ;; Matrix.transpose p) =
  (bt <- Matrix.transpose rational_2x2 ;;
   at_ <- Matrix.transpose rational_3x2 ;; Matrix.mul bt at_).
Proof.
  apply (@transpose_of_product Qc Qc_Scalar Qc_CommutativeArithmetic
           rational_3x2 rational_2x2); [reflexivity | | |]; simpl; lia.
Defined.

(** X9: [operator*] throws when the inner dimensions differ; otherwise,
    for a left factor with a row and a right factor with a column, the
    product is the table of the sums
    [0 + a(i,0)*b(0,j) + ... + a(i,n-1)*b(n-1,j)], added in this order. *)
Theorem product_spec :
  forall (T : Type) (S : Scalar T) (a b : Matrix.t T),
    (Matrix.cols a <> Matrix.rows b ->
     Matrix.mul a b =
     Throw (invalid_argument
              "Matrix dimensions must match for multiplication")) /\
    (Matrix.cols a = Matrix.rows b ->
     0 < Matrix.rows a -> 0 < Matrix.cols b ->
     Matrix.mul a b =
     Ok (tabulate (Matrix.rows a) (Matrix.cols b) (product_entry a b))).
Proof.
  intros T S a b. split.
  - apply mul_mismatch.
  - apply mul_entries.
Qed.

Lemma product_spec_witness :
  Matrix.mul scenario3_A scenario3_b = Ok (matrix_of [[4]; [8]]%float) /\
  Matrix.mul scenario3_b scenario3_A =
  Throw (invalid_argument "Matrix dimensions must match for multiplication").
Proof.
  split.
  - rewrite (proj2 (@product_spec float double_Scalar scenario3_A scenario3_b));
      [reflexivity | reflexivity | simpl; lia | simpl; lia].
  - apply (proj1 (@product_spec float double_Scalar scenario3_b scenario3_A)).
    simpl. lia.
Defined.

(** X10: in exact arithmetic the identity matrix is neutral for the
    product, on the left and on the right, on every well-formed matrix with
    at least one entry. *)
Theorem identity_is_neutral :
  forall (T : Type) (S : Scalar T) (EA : ExactArithmetic T) (m : Matrix.t T),
    wf m -> 0 < Matrix.rows m -> 0 < Matrix.cols m ->
    (I <- Matrix.identity (Matrix.rows m) ;; Matrix.mul I m) = Ok m /\
    (I <- Matrix.identity (Matrix.cols m) ;; Matrix.mul m I) = Ok m.
Proof.
  intros T S EA m Hwf Hr Hc. split.
  - now apply mul_identity_l.
  - now apply mul_identity_r.
Qed.

Lemma identity_is_neutral_witness :
  (I <- Matrix.identity 3 ;; Matrix.mul I rational_3x2) = Ok rational_3x2 /\
  (I <- Matrix.identity 2 ;; Matrix.mul rational_3x2 I) = Ok rational_3x2.
Proof.
  apply (@identity_is_neutral Qc Qc_Scalar Qc_ExactArithmetic rational_3x2);
    [split; [reflexivity | repeat constructor] | simpl; lia | simpl; lia].
Defined.

(** X11: in exact arithmetic, multiplying on the left by the elementary
    matrix [rowSwap(n, i, j)] is [exchangeRows(i, j)], also in the errors:
    an index outside the matrix throws the same exception on both
    sides. *)
Theorem rowSwap_is_exchangeRows :
  forall (T : Type) (S : Scalar T) (EA : ExactArithmetic T)
         (m : Matrix.t T) (i j : nat),
    wf m -> 0 < Matrix.rows m -> 0 < Matrix.cols m ->
    (E <- Matrix.rowSwap (Matrix.rows m) i j ;; Matrix.mul E m) =
    Matrix.exchangeRows m i j.
Proof.
  intros T S EA m i j. apply rowSwap_acts.
Qed.

Lemma rowSwap_is_exchangeRows_witness :
  (E <- Matrix.rowSwap 3 0 2 ;; Matrix.mul E rational_3x2) =
  Matrix.exchangeRows rational_3x2 0 2.
Proof.
  apply (@rowSwap_is_exchangeRows Qc Qc_Scalar Qc_ExactArithmetic
           rational_3x2 0 2);
    [split; [reflexivity | repeat constructor] | simpl; lia | simpl; lia].
Defined.

(** X12: in exact, commutative arithmetic, multiplying on the left by
    [rowScale(n, i, c)] is [scaleRow(i, c)], also in the errors: a row
    outside the matrix and, on a floating type, a factor below 1e-9 in
    magnitude throw the same exception on both sides. *)
Theorem rowScale_is_scaleRow :
  forall (T : Type) (S : Scalar T) (EA : ExactArithmetic T)
         (CA : CommutativeArithmetic T) (m : Matrix.t T) (i : nat) (c : T),
    wf m -> 0 < Matrix.rows m -> 0 < Matrix.cols m ->
    (E <- Matrix.rowScale (Matrix.rows m) i c ;; Matrix.mul E m) =
    Matrix.scaleRow m i c.
Proof.
  intros T S EA CA m i c. apply rowScale_acts.
Qed.

Lemma rowScale_is_scaleRow_witness :
  (E <- Matrix.rowScale 3 1 (Qc_of 5) ;; Matrix.mul E rational_3x2) =
  Matrix.scaleRow rational_3x2 1 (Qc_of 5).
Proof.
  apply (@rowScale_is_scaleRow Qc Qc_Scalar Qc_ExactArithmetic
           Qc_CommutativeArithmetic rational_3x2 1 (Qc_of 5));
    [split; [reflexivity | repeat constructor] | simpl; lia | simpl; lia].
Defined.

(** X13: in exact, commutative arithmetic, multiplying on the left by
    [rowadd(n, i, j, k)], for two different rows, is
    [addScaledRow(i, j, k)], also in the errors, and also when a floating
    factor below 1e-9 in magnitude makes both leave the matrix as it
    is. *)
Theorem rowadd_is_addScaledRow :
  forall (T : Type) (S : Scalar T) (EA : ExactArithmetic T)
         (CA : CommutativeArithmetic T) (m : Matrix.t T) (i j : nat) (k : T),
    wf m -> 0 < Matrix.rows m -> 0 < Matrix.cols m -> i <> j ->
    (E <- Matrix.rowadd (Matrix.rows m) i j k ;; Matrix.mul E m) =
    Matrix.addScaledRow m i j k.
Proof.
  intros T S EA CA m i j k. apply rowadd_acts.
Qed.

Lemma rowadd_is_addScaledRow_witness :
  (E <- Matrix.rowadd 3 2 0 (Qc_of 5) ;; Matrix.mul E rational_3x2) =
  Matrix.addScaledRow rational_3x2 2 0 (Qc_of 5).
Proof.
  apply (@rowadd_is_addScaledRow Qc Qc_Scalar Qc_ExactArithmetic
           Qc_CommutativeArithmetic rational_3x2 2 0 (Qc_of 5));
    [split; [reflexivity | repeat constructor] | simpl; lia | simpl; lia | lia].
Defined.

(** X14: [exchangeRows] is an involution: exchanging the same two rows of
    a well-formed matrix twice gives the matrix back; an index outside the
    matrix throws "Row index out of bounds". *)
Theorem exchangeRows_is_involution :
  forall (T : Type) (S : Scalar T) (m : Matrix.t T) (i j : nat),
    (wf m -> i < Matrix.rows m -> j < Matrix.rows m ->
     (m' <- Matrix.exchangeRows m i j ;; Matrix.exchangeRows m' i j) = Ok m) /\
    (Matrix.rows m <= i \/ Matrix.rows m <= j ->
     Matrix.exchangeRows m i j =
     Throw (out_of_range "Row index out of bounds")).
Proof.
  intros T S m i j. split.
  - apply exchangeRows_twice.
  - apply exchangeRows_out_of_bounds.
Qed.

Lemma exchangeRows_is_involution_witness :
  (m' <- Matrix.exchangeRows scenario3_A 0 1 ;; Matrix.exchangeRows m' 0 1) =
  Ok scenario3_A /\
  Matrix.exchangeRows scenario3_A 0 2 =
  Throw (out_of_range "Row index out of bounds").
Proof.
  destruct (@exchangeRows_is_involution float double_Scalar scenario3_A 0 1)
    as [Hok _].
  destruct (@exchangeRows_is_involution float double_Scalar scenario3_A 0 2)
    as [_ Hthrow].
  split.
  - apply Hok; [split; [reflexivity | repeat constructor] | |]; simpl; lia.
  - apply Hthrow. right. simpl. lia.
Defined.

(** X15: [augment] throws when the row counts differ; otherwise, for
    matrices with a row and with a column between them, the result has the
    columns of the first matrix followed by the columns of the second:
    entry [(i, j)] is [m(i, j)] for [j < cols m] and
    [other(i, j - cols m)] after. *)
Theorem augment_spec :
  forall (T : Type) (S : Scalar T) (m other : Matrix.t T),
    (Matrix.rows m <> Matrix.rows other ->
     Matrix.augment m other =
     Throw (invalid_argument "Row count must match for augment")) /\
    (Matrix.rows other = Matrix.rows m ->
     0 < Matrix.rows m -> 0 < Matrix.cols m + Matrix.cols other ->
     Matrix.augment m other =
     Ok (tabulate (Matrix.rows m) (Matrix.cols m + Matrix.cols other)
           (fun i j => if j <? Matrix.cols m then Matrix.raw m i j
                       else Matrix.raw other i (j - Matrix.cols m)))).
Proof.
  intros T S m other. split.
  - apply augment_mismatch.
  - apply augment_entries.
Qed.

Lemma augment_spec_witness :
  Matrix.augment scenario3_A scenario3_b =
  Ok (matrix_of [[1; 1; 1]; [2; 2; 3]]%float) /\
  Matrix.augment scenario3_A large_pivot =
  Throw (invalid_argument "Row count must match for augment").
Proof.
  split.
  - rewrite (proj2 (@augment_spec float double_Scalar scenario3_A scenario3_b));
      [reflexivity | reflexivity | simpl; lia | simpl; lia].
  - apply (proj1 (@augment_spec float double_Scalar scenario3_A large_pivot)).
    simpl. lia.
Defined.

(** X16: on a well-formed matrix with at least one entry, the compound
    assignments [+=], [-=], [*=] and [/=] compute what the binary
    operators [+], [-], [*] and [/] compute, exceptions included.  On the
    empty matrix they differ: the binary operators throw, since they
    allocate their result, and the compound assignments return. *)
Theorem compound_assignments :
  forall (T : Type) (S : Scalar T) (m other : Matrix.t T) (k : T),
    (wf m -> 0 < Matrix.rows m -> 0 < Matrix.cols m ->
     Matrix.add_assign m other = Matrix.add m other /\
     Matrix.sub_assign m other = Matrix.sub m other /\
     Ok (Matrix.scale_assign m k) = Matrix.scale m k /\
     Matrix.div_assign m k = Matrix.div m k) /\
    (Matrix.add Matrix.empty Matrix.empty =
       Throw (invalid_argument "Matrix dimensions must be positive") /\
     Matrix.scale (T:=T) Matrix.empty k =
       Throw (invalid_argument "Matrix dimensions must be positive") /\
     Matrix.add_assign (T:=T) Matrix.empty Matrix.empty = Ok Matrix.empty /\
     Matrix.scale_assign (T:=T) Matrix.empty k = Matrix.empty).
Proof.
  intros T S m other k. split.
  - intros Hwf Hr Hc.
    split; [now apply add_assign_agrees|].
    split; [now apply sub_assign_agrees|].
    split; [now apply scale_assign_agrees | now apply div_assign_agrees].
  - destruct (operators_on_empty k) as (H1 & H2 & _ & H4 & H5). auto.
Qed.

Lemma compound_assignments_witness :
  Matrix.add_assign scenario3_A scenario5_A =
    Matrix.add scenario3_A scenario5_A /\
  Matrix.sub_assign scenario3_A scenario5_A =
    Matrix.sub scenario3_A scenario5_A /\
  Ok (Matrix.scale_assign scenario3_A 3%float) =
    Matrix.scale scenario3_A 3%float /\
  Matrix.div_assign scenario3_A 3%float = Matrix.div scenario3_A 3%float.
Proof.
  apply (proj1 (@compound_assignments float double_Scalar scenario3_A
                  scenario5_A 3%float));
    [split; [reflexivity | repeat constructor] | simpl; lia | simpl; lia].
Defined.

(** X17: [isSymmetric] answers true exactly for the square matrices in
    which no entry above the diagonal differs from its mirror entry by more
    than [eps] in magnitude; a matrix that is not square is never
    symmetric. *)
Theorem isSymmetric_spec :
  forall (T : Type) (S : Scalar T) (m : Matrix.t T) (eps : T),
    Matrix.isSymmetric m eps = true <->
    Matrix.rows m = Matrix.cols m /\
    forall i j, i < j -> j < Matrix.cols m ->
                sltb eps (sabs (ssub (Matrix.raw m i j) (Matrix.raw m j i)))
                = false.
Proof.
  intros T S m eps. apply isSymmetric_iff.
Qed.

(** X18: [isSkewSymmetric] answers true exactly for the square matrices in
    which, for every pair [i < j], the diagonal entry [(i, i)] and the sum
    of the entries [(i, j)] and [(j, i)] are at most [eps] in magnitude.
    The last diagonal entry belongs to no such pair: the answer does not
    depend on it. *)
Theorem isSkewSymmetric_spec :
  forall (T : Type) (S : Scalar T) (m : Matrix.t T) (eps : T),
    (Matrix.isSkewSymmetric m eps = true <->
     Matrix.rows m = Matrix.cols m /\
     forall i j, i < j -> j < Matrix.cols m ->
                 sltb eps (sabs (Matrix.raw m i i)) = false /\
                 sltb eps (sabs (sadd (Matrix.raw m i j) (Matrix.raw m j i)))
                 = false) /\
    (wf m -> Matrix.rows m = Matrix.cols m -> 0 < Matrix.rows m ->
     forall v,
       Matrix.isSkewSymmetric
         (Matrix.set_raw m (Matrix.rows m - 1) (Matrix.rows m - 1) v) eps =
       Matrix.isSkewSymmetric m eps).
Proof.
  intros T S m eps. split.
  - apply isSkewSymmetric_iff.
  - intros Hwf Hsq Hpos v. now apply isSkewSymmetric_last_diagonal.
Qed.

Lemma isSkewSymmetric_spec_witness :
  Matrix.isSkewSymmetric skew_2x2 tiny = true /\
  Matrix.raw skew_2x2 1 1 = 7%float /\
  forall v, Matrix.isSkewSymmetric (Matrix.set_raw skew_2x2 1 1 v) tiny =
            Matrix.isSkewSymmetric skew_2x2 tiny.
Proof.
  split; [reflexivity|]. split; [reflexivity|].
  apply (proj2 (@isSkewSymmetric_spec float double_Scalar skew_2x2 tiny));
    [split; [reflexivity | repeat constructor] | reflexivity | simpl; lia].
Defined.

(** X19: [setToIdentity] throws on a matrix that is not square, and makes
    of a well-formed square matrix of order [n > 0] exactly the matrix that
    [identity(n)] builds. *)
Theorem setToIdentity_spec :
  forall (T : Type) (S : Scalar T) (m : Matrix.t T),
    (Matrix.rows m <> Matrix.cols m ->
     Matrix.setToIdentity m =
     Throw (invalid_argument "Matrix must be square")) /\
    (wf m -> Matrix.rows m = Matrix.cols m -> 0 < Matrix.rows m ->
     Matrix.setToIdentity m = Matrix.identity (Matrix.rows m) /\
     Matrix.setToIdentity m =
     Ok (tabulate (Matrix.rows m) (Matrix.rows m) delta)).
Proof.
  intros T S m. split.
  - apply setToIdentity_not_square.
  - intros Hwf Hsq Hpos. split.
    + now apply setToIdentity_is_identity.
    + now apply setToIdentity_entries.
Qed.

Lemma setToIdentity_spec_witness :
  Matrix.setToIdentity scenario3_A = Matrix.identity 2 /\
  Matrix.setToIdentity scenario3_A = Ok (matrix_of [[1; 0]; [0; 1]]%float) /\
  Matrix.setToIdentity scenario3_b =
  Throw (invalid_argument "Matrix must be square").
Proof.
  destruct (@setToIdentity_spec float double_Scalar scenario3_A) as [_ Hok].
  destruct (@setToIdentity_spec float double_Scalar scenario3_b) as [Hthrow _].
  destruct Hok as [H1 H2];
    [split; [reflexivity | repeat constructor] | reflexivity | simpl; lia|].
  split; [exact H1|]. split; [rewrite H2; reflexivity|].
  apply Hthrow. simpl. lia.
Defined.

(** X20: [getRankNormalForm(rows, cols, rank)] builds the matrix with ones
    on its first [rank] diagonal places and zeros elsewhere when [rank] is
    at most [min(rows, cols)], and throws "Matrix index out of bounds"
    when it is larger.  [getEquivalenceNormalForm] never meets the second
    case: whenever [rank()] returns on a matrix with at least one entry, it
    returns the normal form of that rank. *)
Theorem rank_normal_form_spec :
  forall (T : Type) (S : Scalar T) (rows cols : nat),
    0 < rows -> 0 < cols ->
    (forall rank, rank <= Nat.min rows cols ->
       Matrix.getRankNormalForm (T:=T) rows cols rank =
       Ok (rank_normal_form rows cols rank)) /\
    (forall rank, Nat.min rows cols < rank ->
       Matrix.getRankNormalForm (T:=T) rows cols rank =
       Throw (out_of_range "Matrix index out of bounds")) /\
    (forall (m : Matrix.t T) r,
       Matrix.rows m = rows -> Matrix.cols m = cols ->
       Matrix_rank m = Ok r ->
       Matrix_getEquivalenceNormalForm m =
       Ok (rank_normal_form rows cols r)).
Proof.
  intros T S rows cols Hr Hc. split; [|split].
  - intros rank Hk. now apply getRankNormalForm_entries.
  - intros rank Hk. now apply getRankNormalForm_overrun.
  - intros m r <- <- Hrank. now apply getEquivalenceNormalForm_entries.
Qed.

Lemma rank_normal_form_spec_witness :
  Matrix.getRankNormalForm (T:=float) 2 3 1 =
    Ok (matrix_of [[1; 0; 0]; [0; 0; 0]]%float) /\
  Matrix.getRankNormalForm (T:=float) 2 3 3 =
    Throw (out_of_range "Matrix index out of bounds") /\
  Matrix_getEquivalenceNormalForm scenario3_A =
    Ok (matrix_of [[1; 0]; [0; 0]]%float).
Proof.
  split; [|split].
  - destruct (@rank_normal_form_spec float double_Scalar 2 3) as (Hok & _);
      [lia | lia |].
    rewrite Hok by (simpl; lia). reflexivity.
  - destruct (@rank_normal_form_spec float double_Scalar 2 3) as (_ & Hthrow & _);
      [lia | lia |].
    apply Hthrow. simpl. lia.
  - destruct (@rank_normal_form_spec float double_Scalar 2 2) as (_ & _ & Hnf);
      [lia | lia |].
    rewrite (Hnf scenario3_A 1) by (vm_compute; reflexivity). reflexivity.
Defined.

(** X21: [dotProduct] reads each argument as a vector, a matrix of one row
    along that row and any other matrix down its first column; it throws
    "Length mismatch" when the two lengths differ, and otherwise returns
    the sum of the products of the entries, added from the first to the
    last. *)
Theorem dotProduct_spec :
  forall (T : Type) (S : Scalar T) (a b : Matrix.t T),
    (line_length a <> line_length b ->
     Matrix.dotProduct a b = Throw (invalid_argument "Length mismatch")) /\
    (line_length a = line_length b ->
     0 < Matrix.rows a -> 0 < Matrix.cols a ->
     0 < Matrix.rows b -> 0 < Matrix.cols b ->
     Matrix.dotProduct a b =
     Ok (big_sum (fun i => smul (line_entry a i) (line_entry b i))
           (line_length a))).
Proof.
  intros T S a b. split.
  - apply dotProduct_mismatch.
  - apply dotProduct_value.
Qed.

Lemma dotProduct_spec_witness :
  Matrix.dotProduct rational_row rational_column =
    Ok (big_sum (fun i => smul (line_entry rational_row i)
                               (line_entry rational_column i)) 3) /\
  Matrix.dotProduct rational_row rational_2x2 =
    Throw (invalid_argument "Length mismatch").
Proof.
  split.
  - apply (proj2 (@dotProduct_spec Qc Qc_Scalar rational_row rational_column));
      [reflexivity | | | |]; simpl; lia.
  - apply (proj1 (@dotProduct_spec Qc Qc_Scalar rational_row rational_2x2)).
    vm_compute. lia.
Defined.

(** X22: [operator+] and [operator-] throw when the shapes differ;
    otherwise, on matrices with at least one entry, they return the table
    of the sums, or of the differences, of the entries. *)
Theorem sum_and_difference_spec :
  forall (T : Type) (S : Scalar T) (m other : Matrix.t T),
    (Matrix.rows m <> Matrix.rows other \/
     Matrix.cols m <> Matrix.cols other ->
     Matrix.add m other =
       Throw (invalid_argument "Matrix dimensions must match for addition") /\
     Matrix.sub m other =
       Throw (invalid_argument
                "Matrix dimensions must match for subtraction")) /\
    (Matrix.rows other = Matrix.rows m -> Matrix.cols other = Matrix.cols m ->
     0 < Matrix.rows m -> 0 < Matrix.cols m ->
     Matrix.add m other =
       Ok (tabulate (Matrix.rows m) (Matrix.cols m)
             (fun i j => sadd (Matrix.raw m i j) (Matrix.raw other i j))) /\
     Matrix.sub m other =
       Ok (tabulate (Matrix.rows m) (Matrix.cols m)
             (fun i j => ssub (Matrix.raw m i j) (Matrix.raw other i j)))).
Proof.
  intros T S m other. split.
  - intros Hne. unfold Matrix.add, Matrix.sub.
    destruct (Nat.eqb_spec (Matrix.rows m) (Matrix.rows other));
      destruct (Nat.eqb_spec (Matrix.cols m) (Matrix.cols other));
      simpl; try (split; reflexivity).
    destruct Hne; contradiction.
  - intros Hr Hc Hpr Hpc. split.
    + now apply add_entries.
    + now apply sub_entries.
Qed.

Lemma sum_and_difference_spec_witness :
  Matrix.add scenario3_A scenario5_A = Ok (matrix_of [[3; 1]; [2; 5]]%float) /\
  Matrix.sub scenario3_A scenario5_A =
    Ok (matrix_of [[-1; 1]; [2; -1]]%float) /\
  Matrix.add scenario3_A scenario3_b =
    Throw (invalid_argument "Matrix dimensions must match for addition").
Proof.
  destruct (@sum_and_difference_spec float double_Scalar scenario3_A
              scenario5_A) as [_ Hok].
  destruct (@sum_and_difference_spec float double_Scalar scenario3_A
              scenario3_b) as [Hthrow _].
  destruct Hok as [-> ->]; [reflexivity | reflexivity | simpl; lia | simpl; lia|].
  split; [reflexivity|]. split; [reflexivity|].
  apply Hthrow. right. simpl. lia.
Defined.

(** X23: the errors of the solver's constructor.  When the row counts of
    [A] and [b] differ, the exception is the one of [augment], "Row count
    must match for augment", which is thrown before the constructor's own
    test.  When they agree and [A] has no row, or [A] and [b] have no
    column between them, it is "Matrix dimensions must be positive".
    Otherwise, when [b] is not a single column, it is "Invalid
    dimensions". *)
Theorem solver_constructor_errors :
  forall (T : Type) (S : Scalar T) (A b : Matrix.t T),
    (Matrix.rows A <> Matrix.rows b ->
     SolvingEquation.make A b =
     Throw (invalid_argument "Row count must match for augment")) /\
    (Matrix.rows b = Matrix.rows A ->
     Matrix.rows A = 0 \/ Matrix.cols A + Matrix.cols b = 0 ->
     SolvingEquation.make A b =
     Throw (invalid_argument "Matrix dimensions must be positive")) /\
    (Matrix.rows b = Matrix.rows A -> 0 < Matrix.rows A ->
     0 < Matrix.cols A + Matrix.cols b -> Matrix.cols b <> 1 ->
     SolvingEquation.make A b =
     Throw (invalid_argument "Invalid dimensions")).
Proof.
  intros T S A b. split; [|split].
  - apply solver_row_mismatch.
  - apply solver_empty.
  - intros Hrows Hpos Hcols Hcol.
    rewrite solver_not_a_column by assumption.
    destruct (Nat.eqb_spec (Matrix.cols A + Matrix.cols b) 0); [lia|].
    reflexivity.
Qed.

Lemma solver_constructor_errors_witness :
  SolvingEquation.make scenario3_A large_pivot =
    Throw (invalid_argument "Row count must match for augment") /\
  SolvingEquation.make (T:=float) Matrix.empty Matrix.empty =
    Throw (invalid_argument "Matrix dimensions must be positive") /\
  SolvingEquation.make scenario3_A scenario5_A =
    Throw (invalid_argument "Invalid dimensions").
Proof.
  split; [|split].
  - apply (proj1 (@solver_constructor_errors float double_Scalar scenario3_A
                    large_pivot)).
    simpl. lia.
  - apply (proj1 (proj2 (@solver_constructor_errors float double_Scalar
                           Matrix.empty Matrix.empty)));
      [reflexivity | now left].
  - apply (proj2 (proj2 (@solver_constructor_errors float double_Scalar
                           scenario3_A scenario5_A)));
      [reflexivity | | |]; simpl; lia.
Defined.

(** X24: on a system that the constructor classified NoSolution,
    [computeSolution] throws the logic error "No solution exists". *)
Theorem computeSolution_throws_without_solution :
  forall (T : Type) (S : Scalar T) (A b : Matrix.t T)
         (s : SolvingEquation.t T) (eps : T),
    SolvingEquation.make A b = Ok s ->
    SolvingEquation.type s = SolvingEquation.NoSolution ->
    SolvingEquation.computeSolution s eps =
    Throw (logic_error "No solution exists").
Proof.
  intros T S A b s eps. apply computeSolution_no_solution.
Qed.

Lemma computeSolution_throws_without_solution_witness :
  exists s,
    SolvingEquation.make scenario3_A scenario3_b = Ok s /\
    SolvingEquation.computeSolution s tiny =
    Throw (logic_error "No solution exists").
Proof.
  destruct (SolvingEquation.make scenario3_A scenario3_b) as [s|e] eqn:E.
  - exists s. split; [reflexivity|].
    apply (@computeSolution_throws_without_solution float double_Scalar
             scenario3_A scenario3_b s tiny E).
    apply (f_equal (fun r => match r with
                             | Ok s => SolvingEquation.type s
                             | Throw _ => SolvingEquation.UniqueSolution
                             end)) in E.
    vm_compute in E. now symmetry.
  - vm_compute in E. discriminate.
Defined.

(** X25: the constructor of [VectorSet].  It throws on an empty set, on
    vectors of different sizes, and on vectors without coordinates (then
    with the exception of the matrix constructor).  When it returns, the
    dimension is at most the size of the vectors and at most their number,
    [basis()] has as many vectors as the dimension, every pivot index is
    below the number of vectors, so that every vector of [basis()] is one
    of the given vectors, and the pivot indices are strictly increasing.
    With the row orientation the pivot indices are the positions
    [0 .. rank-1] after the row exchanges of the reduction: [basis()] is
    then the first [rank] vectors given, whichever rows held the
    pivots. *)
Theorem VectorSet_constructor_spec :
  forall (T : Type) (S : Scalar T) (vs : list (list T))
         (orient : VectorSet.VectorOrientation),
    (vs = [] ->
     VectorSet.make vs orient =
     Throw (invalid_argument "Vector set cannot be empty")) /\
    (forall v0 v, hd_error vs = Some v0 -> In v vs -> length v <> length v0 ->
       VectorSet.make vs orient =
       Throw (invalid_argument "Vectors have inconsistent dimensions")) /\
    (vs <> [] -> Forall (fun v => length v = 0) vs ->
     VectorSet.make vs orient =
     Throw (invalid_argument "Matrix dimensions must be positive")) /\
    (forall s, VectorSet.make vs orient = Ok s ->
       VectorSet.dimension s <= Nat.min (VectorSet.dim s) (length vs) /\
       length (VectorSet.basis s) = VectorSet.dimension s /\
       increasing (VectorSet.pivotIndices s) /\
       Forall (fun idx => idx < length vs) (VectorSet.pivotIndices s) /\
       Forall (fun v => In v vs) (VectorSet.basis s) /\
       (VectorSet.isLinearIndependent s = true <->
        VectorSet.dimension s = length vs) /\
       (orient = VectorSet.Row ->
        VectorSet.basis s = firstn (VectorSet.dimension s) vs)).
Proof.
  intros T S vs orient. split; [|split; [|split]].
  - intros ->. reflexivity.
  - intros v0 v. apply VectorSet_inconsistent.
  - apply VectorSet_no_coordinates.
  - intros s Hs.
    destruct (VectorSet_invariants _ _ Hs) as (H1 & H2 & H3 & H4 & H5 & H6).
    destruct (VectorSet_make_Ok _ _ Hs) as (Hvecs & _).
    split; [exact H1|]. split; [exact H2|]. split; [exact H3|].
    split; [exact H4|]. split; [exact H5|]. split; [|exact H6].
    unfold VectorSet.isLinearIndependent, VectorSet.dimension.
    rewrite Hvecs. apply Nat.eqb_eq.
Qed.

Lemma VectorSet_constructor_spec_witness :
  exists s,
    VectorSet.make parallel_then_independent VectorSet.Row = Ok s /\
    VectorSet.dimension s = 2 /\
    VectorSet.basis s = [[1; 1]; [2; 2]]%float /\
    VectorSet.basis s =
      firstn (VectorSet.dimension s) parallel_then_independent /\
    VectorSet.make [[1; 0]; [1]]%float VectorSet.Column =
    Throw (invalid_argument "Vectors have inconsistent dimensions").
Proof.
  destruct (@VectorSet_constructor_spec float double_Scalar
              parallel_then_independent VectorSet.Row) as (_ & _ & _ & Hok).
  destruct (@VectorSet_constructor_spec float double_Scalar
              [[1; 0]; [1]]%float VectorSet.Column) as (_ & Hbad & _).
  destruct (VectorSet.make parallel_then_independent VectorSet.Row)
    as [s|e] eqn:E.
  - exists s. split; [reflexivity|].
    destruct (Hok s eq_refl) as (_ & _ & _ & _ & _ & _ & Hfirst).
    assert (Es : s = VectorSet.mk parallel_then_independent 2 2 [0; 1]
                       VectorSet.Row).
    { vm_compute in E. now injection E as <-. }
    split; [now rewrite Es|]. split; [now rewrite Es|].
    split; [now apply Hfirst|].
    apply (Hbad [1; 0]%float [1]%float);
      [reflexivity | simpl; auto | simpl; lia].
  - vm_compute in E. discriminate.
Defined.

(** X26: [gramSchmidt] throws on an empty set and on vectors of different
    sizes; on every non-empty set of vectors of one size it returns,
    normalizing or not: it keeps no more vectors than it was given, and
    every vector it keeps has the size of the given ones.  In particular
    the normalization of a kept vector never throws. *)
Theorem gramSchmidt_total :
  forall (T : Type) (S : Scalar T) (Sq : ScalarSqrt T)
         (vectors : list (list T)) (normalize : bool),
    (vectors = [] ->
     VectorSet.gramSchmidt vectors normalize =
     Throw (invalid_argument "Gram-Schmidt: empty vector set")) /\
    (forall v0 v, hd_error vectors = Some v0 -> In v vectors ->
       length v <> length v0 ->
       VectorSet.gramSchmidt vectors normalize =
       Throw (invalid_argument "Gram-Schmidt: dimension mismatch")) /\
    (forall dim, vectors <> [] ->
       Forall (fun v => length v = dim) vectors ->
       returns (VectorSet.gramSchmidt vectors normalize)
         (fun orth => length orth <= length vectors /\
                      Forall (fun u => length u = dim) orth)).
Proof.
  intros T S Sq vectors normalize. split; [|split].
  - intros ->. reflexivity.
  - intros v0 v. apply gramSchmidt_mismatch.
  - intros dim. apply gramSchmidt_returns.
Qed.

Lemma gramSchmidt_total_witness :
  returns (VectorSet.gramSchmidt three_plane_vectors true)
    (fun orth => length orth <= 3 /\ Forall (fun u => length u = 2) orth) /\
  VectorSet.gramSchmidt three_plane_vectors false =
  Ok [[1; 0]; [0; 1]]%float.
Proof.
  split; [|vm_compute; reflexivity].
  apply (proj2 (proj2 (@gramSchmidt_total float double_Scalar
                         double_ScalarSqrt three_plane_vectors true)) 2);
    [discriminate | repeat constructor].
Defined.

(** X27: [Vector::dot] throws "Dot product size mismatch" on vectors of
    different sizes, and otherwise returns the sum of the products of the
    entries, added from the first to the last; when the multiplication of
    scalars commutes it is symmetric, exceptions included. *)
Theorem dot_spec :
  forall (T : Type) (S : Scalar T) (v w : list T),
    (length v <> length w ->
     Vector.dot v w = Throw (invalid_argument "Dot product size mismatch")) /\
    (length v = length w ->
     Vector.dot v w =
     Ok (big_sum (fun i => smul (nth i v s0) (nth i w s0)) (length v))) /\
    (CommutativeArithmetic T -> Vector.dot v w = Vector.dot w v).
Proof.
  intros T S v w. split; [|split].
  - intros Hne. now destruct (@vector_size_mismatch _ _ v w Hne) as (_ & _ & _ & _ & ->).
  - apply dot_value.
  - intros CA. apply dot_commutes.
Qed.

Lemma dot_spec_witness :
  Vector.dot [1; 2; 3]%float [4; 5; 6]%float = Ok 32%float /\
  Vector.dot [1; 2; 3]%float [4; 5]%float =
    Throw (invalid_argument "Dot product size mismatch") /\
  Vector.dot [Qc_of 1; Qc_of 2] [Qc_of 3; Qc_of 4] =
    Vector.dot [Qc_of 3; Qc_of 4] [Qc_of 1; Qc_of 2].
Proof.
  split; [|split].
  - rewrite (proj1 (proj2 (@dot_spec float double_Scalar [1; 2; 3]%float
                             [4; 5; 6]%float))); reflexivity.
  - apply (proj1 (@dot_spec float double_Scalar [1; 2; 3]%float [4; 5]%float)).
    simpl. lia.
  - apply (proj2 (proj2 (@dot_spec Qc Qc_Scalar [Qc_of 1; Qc_of 2]
                           [Qc_of 3; Qc_of 4]))).
    exact Qc_CommutativeArithmetic.
Defined.

(** X28: [qr_decomposition] throws "Must be square" on a matrix that is
    not square.  Whenever it returns [(Q, R)] on a matrix of order [n],
    [n] is positive, [Q] is an [n x n] matrix, and [R] is the product of
    the transpose of [Q] with the matrix in which the entries below the
    diagonal have been replaced by exact zeros: [R] is upper
    triangular. *)
Theorem qr_decomposition_spec :
  forall (T : Type) (S : Scalar T) (Sq : ScalarSqrt T) (m : Matrix.t T),
    (Matrix.rows m <> Matrix.cols m ->
     Matrix.qr_decomposition m = Throw (invalid_argument "Must be square")) /\
    (forall Q R, Matrix.qr_decomposition m = Ok (Q, R) ->
       0 < Matrix.rows m /\ Matrix.cols m = Matrix.rows m /\
       Matrix.rows Q = Matrix.rows m /\ Matrix.cols Q = Matrix.rows m /\
       (exists Qt,
          Matrix.transpose Q = Ok Qt /\
          R = tabulate (Matrix.rows m) (Matrix.rows m)
                (fun i j => if j <? i then s0 else product_entry Qt m i j)) /\
       wf R /\
       forall i j, j < i -> i < Matrix.rows m -> Matrix.raw R i j = s0).
Proof.
  intros T S Sq m. split.
  - apply qr_decomposition_not_square.
  - intros Q R Hqr.
    destruct (qr_decomposition_Ok _ Hqr) as (Hn & Hsq & HrQ & HcQ & Qt & HQt & HR).
    split; [exact Hn|]. split; [exact Hsq|]. split; [exact HrQ|].
    split; [exact HcQ|]. split; [now exists Qt|].
    rewrite HR. split; [apply shaped_tabulate|].
    intros i j Hji Hi. rewrite raw_tabulate by lia.
    destruct (Nat.ltb_spec j i); [reflexivity | lia].
Qed.

Lemma qr_decomposition_spec_witness :
  Matrix.qr_decomposition scenario3_b =
    Throw (invalid_argument "Must be square") /\
  exists Q R,
    Matrix.qr_decomposition scenario3_A = Ok (Q, R) /\
    Matrix.raw R 1 0 = 0%float /\ wf R.
Proof.
  destruct (@qr_decomposition_spec float double_Scalar double_ScalarSqrt
              scenario3_b) as [Hthrow _].
  destruct (@qr_decomposition_spec float double_Scalar double_ScalarSqrt
              scenario3_A) as [_ Hok].
  split; [apply Hthrow; simpl; lia|].
  destruct (Matrix.qr_decomposition scenario3_A) as [[Q R]|e] eqn:E.
  - exists Q, R. split; [reflexivity|].
    destruct (Hok Q R eq_refl) as (_ & _ & _ & _ & _ & Hwf & Hzero).
    split; [apply Hzero; simpl; lia | exact Hwf].
  - vm_compute in E. discriminate.
Defined.

(** X29: over a field and with a positive tolerance, what
    [getInverseMatrix] returns on a well-formed matrix is its inverse: the
    matrix is square of a positive order, the result has its shape, and
    the products of the two, in both orders, are the identity. *)
Theorem getInverseMatrix_is_inverse :
  forall (T : Type) (S : Scalar T) (FA : FieldArithmetic T)
         (m : Matrix.t T) (eps : T) (inv : Matrix.t T),
    wf m -> sltb (sabs s0) eps = true ->
    Matrix.getInverseMatrix m eps = Done inv ->
    Matrix.cols m = Matrix.rows m /\
    wf inv /\ Matrix.rows inv = Matrix.rows m /\
    Matrix.cols inv = Matrix.rows m /\
    exists I,
      Matrix.identity (Matrix.rows m) = Ok I /\
      Matrix.mul inv m = Ok I /\ Matrix.mul m inv = Ok I.
Proof.
  intros T S FA m eps inv Hwf Heps Hinv.
  destruct (@getInverseMatrix_inverse T S FA m eps inv Hwf Heps Hinv)
    as (Hn & Hsq & (Hwi & Hri & Hci) & Hleft & Hright).
  split; [exact Hsq|]. split; [exact Hwi|].
  split; [exact Hri|]. split; [exact Hci|].
  exists (tabulate (Matrix.rows m) (Matrix.rows m) delta).
  split; [now apply identity_entries|]. now split.
Qed.

Lemma getInverseMatrix_is_inverse_witness :
  exists inv,
    Matrix.getInverseMatrix rational_2x2 tiny = Done inv /\
    exists I,
      Matrix.identity 2 = Ok I /\
      Matrix.mul inv rational_2x2 = Ok I /\
      Matrix.mul rational_2x2 inv = Ok I.
Proof.
  destruct (Matrix.getInverseMatrix rational_2x2 tiny) as [inv|e] eqn:E.
  - exists inv. split; [reflexivity|].
    apply (@getInverseMatrix_is_inverse Qc Qc_Scalar Qc_FieldArithmetic
             rational_2x2 tiny inv);
      [split; [reflexivity | repeat constructor] | reflexivity | exact E].
  - vm_compute in E. discriminate.
Defined.

(** X30: the errors of [getInverseMatrix].  A matrix that is not square is
    refused with "Matrix not square", before [determinant] could throw its
    domain error.  On a well-formed square matrix [determinant] returns;
    a determinant below [eps] in magnitude gives "Matrix is singular".
    No rows are exchanged by the elimination: when the determinant is
    accepted and the first diagonal entry is below [eps] in magnitude, the
    inversion stops with "Numerical singularity". *)
Theorem getInverseMatrix_errors :
  forall (T : Type) (S : Scalar T) (m : Matrix.t T) (eps : T),
    (Matrix.rows m <> Matrix.cols m ->
     Matrix.getInverseMatrix m eps =
       Raised (std_exn (invalid_argument "Matrix not square")) /\
     Matrix.determinant m eps = Raised (domain_error "Must be square")) /\
    (wf m -> Matrix.rows m = Matrix.cols m ->
     exists det,
       Matrix.determinant m eps = Done det /\
       (sltb (sabs det) eps = true ->
        Matrix.getInverseMatrix m eps =
        Raised (std_exn (invalid_argument "Matrix is singular"))) /\
       (sltb (sabs det) eps = false -> 0 < Matrix.rows m ->
        sltb (sabs (Matrix.raw m 0 0)) eps = true ->
        Matrix.getInverseMatrix m eps =
        Raised (std_exn (invalid_argument "Numerical singularity")))).
Proof.
  intros T S m eps. split.
  - intros Hne. split.
    + now apply getInverseMatrix_not_square.
    + now apply determinant_not_square.
  - intros Hwf Hsq.
    destruct (@determinant_returns T S m eps Hwf Hsq) as (det & Hdet).
    exists det. split; [exact Hdet|]. split.
    + intros Hsmall.
      now apply (@getInverseMatrix_singular T S m eps det Hsq Hdet).
    + intros Hbig Hn Hfirst.
      now apply (@getInverseMatrix_no_pivoting T S m eps det Hwf Hsq Hn Hdet).
Qed.

Lemma getInverseMatrix_errors_witness :
  Matrix.determinant exchange_2x2 tiny = Done (-1)%float /\
  Matrix.getInverseMatrix exchange_2x2 tiny =
  Raised (std_exn (invalid_argument "Numerical singularity")).
Proof.
  split; [vm_compute; reflexivity|].
  destruct (proj2 (@getInverseMatrix_errors float double_Scalar exchange_2x2
                     tiny))
    as (det & Hdet & _ & Hstop).
  - split; [reflexivity | repeat constructor].
  - reflexivity.
  - vm_compute in Hdet. injection Hdet as <-.
    apply Hstop; [vm_compute; reflexivity | simpl; lia
                  | vm_compute; reflexivity].
Defined.
